(** * Verification development for the cline build and sanitizer utilities

    Two pieces of the repository are embedded here:

    - the text sanitizer ([sanitizeAssistantText], [sanitizeFileContent] and
      their helpers), a pure string-to-string program built from JavaScript
      regular expressions;
    - the protocol-buffer build script [scripts/build-proto.mjs], an
      effectful program that deletes files, probes for a compiler and runs
      child processes.

    JavaScript strings are modelled as Rocq strings whose characters are
    the code units 0..255 (ASCII and Latin-1), the range on which
    [toLowerCase] is length preserving and every predicate below is exact. *)

From Stdlib Require Import ZArith Ascii String List Lia Bool.
From stdpp Require Import gmap strings list fin_maps pretty.

Open Scope string_scope.
Open Scope Z_scope.

(** ** JavaScript string primitives *)

Module Js.

(** WhiteSpace and LineTerminator code units below 256: TAB, LF, VT, FF, CR,
    SPACE and NBSP. This is the set matched by the [\s] class and removed
    by [String.prototype.trim]. *)
Definition is_ws (c : ascii) : bool :=
  let n := nat_of_ascii c in
  ((9 <=? n)%nat && (n <=? 13)%nat) || (n =? 32)%nat || (n =? 160)%nat.

Definition is_upper (c : ascii) : bool :=
  let n := nat_of_ascii c in (65 <=? n)%nat && (n <=? 90)%nat.

Definition is_lower (c : ascii) : bool :=
  let n := nat_of_ascii c in (97 <=? n)%nat && (n <=? 122)%nat.

Definition is_digit (c : ascii) : bool :=
  let n := nat_of_ascii c in (48 <=? n)%nat && (n <=? 57)%nat.

(** The [\w] class: [A-Za-z0-9_]. *)
Definition is_word (c : ascii) : bool :=
  is_upper c || is_lower c || is_digit c || Ascii.eqb c "_".

(** [toLowerCase] on one code unit: A-Z, and the Latin-1 capitals
    U+00C0..U+00DE except the multiplication sign U+00D7. *)
Definition lower_char (c : ascii) : ascii :=
  let n := nat_of_ascii c in
  if is_upper c then ascii_of_nat (n + 32)
  else if (192 <=? n)%nat && (n <=? 222)%nat && negb (n =? 215)%nat
       then ascii_of_nat (n + 32)
       else c.

Fixpoint toLowerCase (s : string) : string :=
  match s with
  | EmptyString => EmptyString
  | String c s' => String (lower_char c) (toLowerCase s')
  end.

Fixpoint trimStart (s : string) : string :=
  match s with
  | EmptyString => EmptyString
  | String c s' => if is_ws c then trimStart s' else s
  end.

Fixpoint trimEnd (s : string) : string :=
  match s with
  | EmptyString => EmptyString
  | String c s' =>
      match trimEnd s' with
      | EmptyString => if is_ws c then EmptyString else String c EmptyString
      | t => String c t
      end
  end.

Definition trim (s : string) : string := trimEnd (trimStart s).

(** [s.startsWith(pre)] *)
Fixpoint starts_with (pre s : string) : bool :=
  match pre with
  | EmptyString => true
  | String a pre' =>
      match s with
      | String b s' => Ascii.eqb a b && starts_with pre' s'
      | EmptyString => false
      end
  end.

(** Position of the first occurrence of [needle], as a natural number. *)
Fixpoint find_first (needle hay : string) : option nat :=
  if starts_with needle hay then Some 0%nat
  else match hay with
       | EmptyString => None
       | String _ hay' => S <$> find_first needle hay'
       end.

(** Position of the last occurrence of [needle]. *)
Fixpoint find_last (needle hay : string) : option nat :=
  match hay with
  | EmptyString => if starts_with needle hay then Some 0%nat else None
  | String _ hay' =>
      match find_last needle hay' with
      | Some i => Some (S i)
      | None => if starts_with needle hay then Some 0%nat else None
      end
  end.

Definition index_or_minus1 (o : option nat) : Z :=
  match o with
  | Some i => Z.of_nat i
  | None => -1
  end.

(** [hay.indexOf(needle)] and [hay.lastIndexOf(needle)], -1 when absent. *)
Definition indexOf (hay needle : string) : Z :=
  index_or_minus1 (find_first needle hay).

Definition lastIndexOf (hay needle : string) : Z :=
  index_or_minus1 (find_last needle hay).

Definition includes (hay needle : string) : bool :=
  negb (indexOf hay needle =? -1).

(** [s.slice(from, to)] with JavaScript's clamping of both indices. *)
Definition clamp_index (len i : Z) : Z :=
  if i <? 0 then Z.max (len + i) 0 else Z.min i len.

Definition slice (s : string) (from to : Z) : string :=
  let len := Z.of_nat (String.length s) in
  let a := clamp_index len from in
  let b := clamp_index len to in
  substring (Z.to_nat a) (Z.to_nat (Z.max (b - a) 0)) s.

(** A string is falsy exactly when it is empty. *)
Definition falsy (s : string) : bool :=
  match s with
  | EmptyString => true
  | String _ _ => false
  end.

Definition truthy (s : string) : bool := negb (falsy s).

End Js.

(** ** A backtracking matcher for the regular expressions of the sanitizer

    The matcher follows the continuation-passing semantics of ECMAScript
    regular expressions: alternatives are tried left to right, greedy
    quantifiers try one more iteration before the continuation, lazy ones
    try the continuation first, and an iteration of a quantifier that
    consumes nothing is rejected. *)

Module Regex.

Inductive regex : Type :=
| Empty                                (* the empty pattern *)
| Class (p : ascii -> bool)            (* one code unit satisfying [p] *)
| Seq (r1 r2 : regex)                  (* r1 r2 *)
| Alt (r1 r2 : regex)                  (* r1|r2 *)
| Star (greedy : bool) (r : regex)     (* r* and r*? *)
| Group (n : nat) (r : regex)          (* capturing group number n *)
| Bol.                                 (* ^ without the m flag *)

(** Captured groups, most recent first. *)
Definition captures : Type := list (nat * string).

(** A continuation receives the position reached, the input still to be
    read from there, and the captures so far. *)
Definition cont (R : Type) : Type := nat -> string -> captures -> option R.

(** The loop of a starred atom. [step] matches the atom once. Every
    accepted iteration consumes at least one code unit, so the number of
    iterations never exceeds the length of the input left, which is the
    [fuel] the loop is started with. *)
Fixpoint star_loop {R : Type}
    (step : nat -> string -> captures -> cont R -> option R)
    (greedy : bool) (k : cont R)
    (fuel : nat) (pos : nat) (rest : string) (caps : captures)
    {struct fuel} : option R :=
  let again (_ : unit) :=
    match fuel with
    | O => None
    | S fuel' =>
        step pos rest caps
          (fun pos' rest' caps' =>
             if (pos <? pos')%nat
             then star_loop step greedy k fuel' pos' rest' caps'
             else None)
    end in
  if greedy then
    match again tt with
    | Some x => Some x
    | None => k pos rest caps
    end
  else
    match k pos rest caps with
    | Some x => Some x
    | None => again tt
    end.

Fixpoint run {R : Type} (r : regex) (pos : nat) (rest : string)
    (caps : captures) (k : cont R) {struct r} : option R :=
  match r with
  | Empty => k pos rest caps
  | Class p =>
      match rest with
      | String c rest' => if p c then k (S pos) rest' caps else None
      | EmptyString => None
      end
  | Seq r1 r2 =>
      run r1 pos rest caps (fun pos' rest' caps' => run r2 pos' rest' caps' k)
  | Alt r1 r2 =>
      match run r1 pos rest caps k with
      | Some x => Some x
      | None => run r2 pos rest caps k
      end
  | Star greedy r1 =>
      star_loop (run r1) greedy k (String.length rest) pos rest caps
  | Group n r1 =>
      run r1 pos rest caps
        (fun pos' rest' caps' =>
           k pos' rest' ((n, substring 0 (pos' - pos) rest) :: caps'))
  | Bol => if (pos =? 0)%nat then k pos rest caps else None
  end.

(** One successful match: where it ends, the input after it, its groups. *)
Record found : Type := Found {
  m_end : nat;
  m_after : string;
  m_caps : captures
}.

(** Match attempt anchored at the current position. *)
Definition match_at (r : regex) (pos : nat) (rest : string) : option found :=
  run r pos rest [] (fun e after caps => Some (Found e after caps)).

(** Leftmost match at or after the current position; [skipped] collects,
    in reverse, the code units stepped over. The result is the text before
    the match and the match itself. *)
Fixpoint search (r : regex) (pos : nat) (skipped : list ascii) (rest : string)
  : option (string * found) :=
  match match_at r pos rest with
  | Some m => Some (string_of_list_ascii (rev skipped), m)
  | None =>
      match rest with
      | EmptyString => None
      | String c rest' => search r (S pos) (c :: skipped) rest'
      end
  end.

(** [s.replace(re, "")] for a regular expression without the g flag. *)
Definition replace_first (r : regex) (s : string) : string :=
  match search r 0 [] s with
  | None => s
  | Some (before, m) => before +:+ m_after m
  end.

(** [s.replace(re, "")] for a regular expression with the g flag: matches
    are taken left to right from [lastIndex]; after an empty match
    [lastIndex] advances by one code unit. Every round moves [lastIndex]
    forward, so the length of the input plus one bounds the rounds. *)
Fixpoint replace_all_from (fuel : nat) (r : regex) (pos : nat) (rest : string)
  : string :=
  match fuel with
  | O => rest
  | S fuel' =>
      match search r pos [] rest with
      | None => rest
      | Some (before, m) =>
          let start := (pos + String.length before)%nat in
          if (m_end m =? start)%nat then
            match m_after m with
            | EmptyString => before
            | String c after' =>
                before +:+ String c (replace_all_from fuel' r (S start) after')
            end
          else before +:+ replace_all_from fuel' r (m_end m) (m_after m)
      end
  end.

Definition replace_all (r : regex) (s : string) : string :=
  replace_all_from (S (String.length s)) r 0 s.

(** The value of group [n] in a match, [None] when it did not take part. *)
Fixpoint group (n : nat) (caps : captures) : option string :=
  match caps with
  | [] => None
  | (i, s) :: caps' => if (i =? n)%nat then Some s else group n caps'
  end.

(** *** Pattern combinators *)

Definition chr (c : ascii) : regex := Class (Ascii.eqb c).

(** Case folding of the i flag restricted to what an ASCII pattern letter
    can match: only the two cases of that letter. *)
Definition fold_case (c : ascii) : ascii :=
  if Js.is_lower c then ascii_of_nat (nat_of_ascii c - 32) else c.

Definition chr_i (c : ascii) : regex :=
  Class (fun x => Ascii.eqb (fold_case x) (fold_case c)).

(** A literal under the i flag. *)
Fixpoint lit_i (s : string) : regex :=
  match s with
  | EmptyString => Empty
  | String c EmptyString => chr_i c
  | String c s' => Seq (chr_i c) (lit_i s')
  end.

(** A literal without the i flag. *)
Fixpoint lit (s : string) : regex :=
  match s with
  | EmptyString => Empty
  | String c EmptyString => chr c
  | String c s' => Seq (chr c) (lit s')
  end.

Fixpoint seqs (rs : list regex) : regex :=
  match rs with
  | [] => Empty
  | [r] => r
  | r :: rs' => Seq r (seqs rs')
  end.

Fixpoint alts (rs : list regex) : regex :=
  match rs with
  | [] => Empty
  | [r] => r
  | r :: rs' => Alt r (alts rs')
  end.

(** r+ : one iteration, then r*. *)
Definition plus (r : regex) : regex := Seq r (Star true r).

(** r? for an atom that cannot match the empty string. *)
Definition opt (r : regex) : regex := Alt r Empty.

Definition ws : regex := Class Js.is_ws.             (* \s *)
Definition word : regex := Class Js.is_word.         (* \w *)
Definition any : regex := Class (fun _ => true).     (* [\s\S] *)

End Regex.

(** ** The sanitizer *)

Module Sanitizer.
Import Regex.

(** The channel names shared by the leading pattern and the inline one. *)
Definition channel_names : regex :=
  alts (map lit_i
    ["analysis"; "assistant"; "user"; "system"; "thinking"; "deliberate";
     "coT"; "im_start"; "im_end"; "channel"]).

(** First leading pattern, flag i: at the start of the text, one or more
    channel tokens, each written <|name|> and followed by any white space. *)
Definition re_leading_channels : regex :=
  Seq Bol (plus (seqs [lit_i "<|"; channel_names; lit_i "|>"; Star true ws])).

(** Second leading pattern, flag i: at the start of the text, the token
    <|start_header_id|>, then as few code units as possible up to the token
    <|end_header_id|>, then any white space. *)
Definition re_leading_header : regex :=
  seqs [Bol; lit_i "<|start_header_id|>"; Star false any;
        lit_i "<|end_header_id|>"; Star true ws].

(** Third leading pattern, flag i: at the start of the text, the word
    analysis or thinking, then a closing angle bracket, with any white space
    before, between and after. *)
Definition re_leading_prefix : regex :=
  seqs [Bol; Star true ws; alts [lit_i "analysis"; lit_i "thinking"];
        Star true ws; lit_i ">"; Star true ws].

Definition LEADING_PATTERNS : list regex :=
  [re_leading_channels; re_leading_header; re_leading_prefix].

(** One round of the [for] loop over [LEADING_PATTERNS]: the text after the
    three replacements and whether any of them changed it. *)
Definition strip_round (patterns : list regex) (text : string) (matched : bool)
  : string * bool :=
  fold_left
    (fun (acc : string * bool) (re : regex) =>
       let before := fst acc in
       let result := replace_first re before in
       (result, if String.eqb result before then snd acc else true))
    patterns (text, matched).

(** The [while (matched)] loop. A round that sets [matched] has removed at
    least one code unit, so [fuel] rounds are enough when [fuel] exceeds
    the length of the text. *)
Fixpoint strip_loop (fuel : nat) (result : string) : string :=
  match fuel with
  | O => result
  | S fuel' =>
      let (result', matched) := strip_round LEADING_PATTERNS result false in
      if matched then strip_loop fuel' result' else result'
  end.

Definition stripLeadingArtifacts (text : string) : string :=
  strip_loop (S (String.length text)) text.

(** Flag g only, so case sensitive: the opening tag <thinking> with one
    optional white space after it, and the closing tag </thinking> with one
    optional white space before it. *)
Definition re_thinking_open : regex := Seq (lit "<thinking>") (opt ws).
Definition re_thinking_close : regex := Seq (opt ws) (lit "</thinking>").

Definition stripThinkingTags (text : string) : string :=
  replace_all re_thinking_close (replace_all re_thinking_open text).

(** Flags g and i: the token <|im_start|>, any white space, one or more word
    characters, any white space. *)
Definition re_im_start : regex :=
  seqs [lit_i "<|im_start|>"; Star true ws; plus word; Star true ws].

(** Flags g and i: the token <|im_end|>. *)
Definition re_im_end : regex := lit_i "<|im_end|>".

(** Flags g and i: one channel token <|name|> anywhere in the text. *)
Definition re_channel_token : regex :=
  seqs [lit_i "<|"; channel_names; lit_i "|>"].

Definition stripInlineChatMl (text : string) : string :=
  replace_all re_channel_token
    (replace_all re_im_end (replace_all re_im_start text)).

(** The class [a-z0-9_+-] under the i flag. *)
Definition is_lang_char (c : ascii) : bool :=
  Js.is_lower c || Js.is_upper c || Js.is_digit c
  || Ascii.eqb c "_" || Ascii.eqb c "+" || Ascii.eqb c "-".

Definition newline : ascii := ascii_of_nat 10.

(** The fence pattern, flags g and i: three backquotes, group 1 the
    language label over [a-z0-9_+-], any white space, a line feed, group 2
    the body taken lazily, a line feed, three backquotes. *)
Definition fenceRe : regex :=
  seqs [lit_i "```"; Group 1 (Star true (Class is_lang_char)); Star true ws;
        chr newline; Group 2 (Star false any); chr newline; lit_i "```"].

Record block : Type := Block { lang : string; body : string }.

(** The value of [m[n]], or the empty string when it is undefined. *)
Definition group_or_empty (n : nat) (m : found) : string :=
  match group n (m_caps m) with
  | Some s => s
  | None => ""
  end.

(** The [while (true)] loop around [fenceRe.exec(text)]: [pos] is
    [lastIndex] and [rest] the text from there. A fence match is at least
    seven code units long, so [lastIndex] grows in every round. *)
Fixpoint collect_blocks (fuel : nat) (pos : nat) (rest : string) : list block :=
  match fuel with
  | O => []
  | S fuel' =>
      match search fenceRe pos [] rest with
      | None => []
      | Some (_, m) =>
          Block (Js.trim (Js.toLowerCase (group_or_empty 1 m)))
                (group_or_empty 2 m)
          :: collect_blocks fuel' (m_end m) (m_after m)
      end
  end.

(** [blocks.find(pred)] *)
Fixpoint find_block (pred : block -> bool) (blocks : list block) : option block :=
  match blocks with
  | [] => None
  | b :: blocks' => if pred b then Some b else find_block pred blocks'
  end.

(** The reduction of [blocks] that keeps the longest body, starting from
    the empty string; a later body wins only when strictly longer. *)
Definition longest_body (blocks : list block) : string :=
  fold_left
    (fun (a : string) (b : block) =>
       if (String.length a <? String.length (body b))%nat then body b else a)
    blocks "".

Definition extractFencedCode (text : string) (expectedLanguage : option string)
  : option string :=
  let blocks := collect_blocks (S (String.length text)) 0 text in
  match blocks with
  | [] => None
  | _ =>
      let preferred :=
        match expectedLanguage with
        | Some l =>
            if Js.truthy l then
              find_block (fun b => Js.includes (lang b) (Js.toLowerCase l)) blocks
            else None
        | None => None
        end in
      match preferred with
      | Some b => Some (Js.trim (body b))
      | None => Some (Js.trim (longest_body blocks))
      end
  end.

Definition extractHtmlDocument (text : string) : option string :=
  let lower := Js.toLowerCase text in
  let startIdx :=
    Z.max (Js.indexOf lower "<!doctype") (Js.indexOf lower "<html") in
  let endIdx := Js.lastIndexOf lower "</html>" in
  if negb (startIdx =? -1) && negb (endIdx =? -1) && (startIdx <? endIdx)
  then Some (Js.trim
               (Js.slice text startIdx
                  (endIdx + Z.of_nat (String.length "</html>"))))
  else None.

Definition sanitizeAssistantText (raw : string) : string :=
  if Js.falsy raw then raw
  else
    let text := raw in
    let text := stripLeadingArtifacts text in
    let text := stripThinkingTags text in
    let text := stripInlineChatMl text in
    text.

(** [if (x)] on a value of type [string | null]. *)
Definition present (x : option string) : bool :=
  match x with
  | Some s => Js.truthy s
  | None => false
  end.

Definition sanitizeFileContent (raw : string) (expectedLanguage : option string)
  : string :=
  if Js.falsy raw then raw
  else
    let text := sanitizeAssistantText raw in
    let html := extractHtmlDocument text in
    if present html then default "" html
    else
      let fenced := extractFencedCode text expectedLanguage in
      if present fenced then default "" fenced
      else text.

End Sanitizer.


(** ** The build script [scripts/build-proto.mjs]

    The script is modelled from the call of [main] on: the module constants
    have been evaluated. Everything the script obtains from Node or from
    the machine is a field of [world]; the script's own variables and the
    files on disk are the [state] it threads. *)

Module BuildProto.

(** The file system: absolute path of every regular file, with its
    contents. Directories are implicit. *)
Abbreviation fs := (gmap string string).

Inductive stream : Type := Stdout | Stderr.

Record js_error : Type := JsError { message : string }.

(** One argument of [console.log] or [console.error]. *)
Inductive console_arg : Type :=
| Txt (s : string)
| Err (e : js_error).

(** One call of [console.log] (on [Stdout]) or [console.error] (on
    [Stderr]). The [chalk] colour wrappers only add colour codes and are
    left out. *)
Record console_line : Type := Line {
  line_stream : stream;
  line_args : list console_arg
}.

(** The call site that started a child process. *)
Inductive call_site : Type :=
| RosettaCheck                 (* checkAppleSiliconCompatibility *)
| WhichProtoc                  (* locateProtoc, where/which *)
| VersionCheck                 (* tryProtocVersion *)
| StubGen (outDir : string)    (* tsProtoc *)
| DescriptorExport.            (* compileProtos, descriptor set *)

Record exec_event : Type := ExecEvent {
  ev_site : call_site;
  ev_command : string;
  ev_ok : bool
}.

(** What a child process did: exit status zero or not, its two output
    streams, and the files it created or overwrote. The commands of the
    script (where/which, pgrep, protoc) delete nothing. *)
Record tool_result : Type := ToolResult {
  tool_ok : bool;
  tool_stdout : string;
  tool_stderr : string;
  tool_written : fs
}.

(** The state a run threads: the disk, what has been printed, the two
    module variables of the script, and a record of every child process
    started so far. The script never reads that record; it is kept so that
    statements can speak of what a run has done. *)
Record state : Type := State {
  files : fs;
  console : list console_line;            (* oldest first *)
  execs : list exec_event;                (* oldest first *)
  RESOLVED_PROTOC : option string;        (* None is null *)
  RESOLVED_PROTOC_VERSION : option string
}.

(** How a computation ends: it returns, the process exits through
    [process.exit], or an exception propagates. *)
Inductive outcome (A : Type) : Type :=
| Return (a : A) (st : state)
| Exit (code : Z) (st : state)
| Throw (e : js_error) (st : state).
Arguments Return {A} a st.
Arguments Exit {A} code st.
Arguments Throw {A} e st.

Definition M (A : Type) : Type := state -> outcome A.

(** How an imported generator ends, and what it leaves behind: the file
    system after it and the lines it printed. *)
Inductive ending : Type :=
| Finished
| Exited (code : Z)
| Threw (e : js_error).

Record step_result : Type := StepResult {
  step_files : fs;
  step_lines : list console_line;
  step_end : ending
}.

Record world : Type := World {
  cwd : string;                           (* process.cwd(), absolute *)
  env : string -> option string;          (* process.env *)
  argv : list string;                     (* process.argv *)
  platform : string;                      (* process.platform *)
  arch : string;                          (* os.arch() *)
  (* path.join(require.resolve("grpc-tools"), "../bin/protoc"), None when
     require.resolve throws *)
  bundled_protoc : option string;
  (* require.resolve("ts-proto/protoc-gen-ts_proto") *)
  ts_proto_plugin : string;
  (* the child process started for a command line on a file system *)
  tool : string -> fs -> tool_result;
  (* fs.mkdir(dir, { recursive: true }): the error it throws, if any *)
  mkdir_error : string -> fs -> option js_error;
  (* globby(pattern, { cwd, realpath: true }) *)
  globby : string -> string -> fs -> list string;
  (* the [main] functions of generate-protobus-setup.mjs and
     generate-host-bridge-client.mjs, which are not among the sources *)
  protobus_setup_generator : fs -> step_result;
  host_bridge_client_generator : fs -> step_result
}.

Definition outcome_state {A : Type} (o : outcome A) : state :=
  match o with
  | Return _ st => st
  | Exit _ st => st
  | Throw _ st => st
  end.

(** *** The monad *)

Definition ret {A : Type} (a : A) : M A := fun st => Return a st.

Definition bind {A B : Type} (m : M A) (f : A -> M B) : M B :=
  fun st =>
    match m st with
    | Return a st' => f a st'
    | Exit code st' => Exit code st'
    | Throw e st' => Throw e st'
    end.

Notation "'let*' x ':=' m 'in' k" := (bind m (fun x => k))
  (at level 10, x name, m at level 100, k at level 200).
Notation "m '>>' k" := (bind m (fun _ => k))
  (at level 100, k at level 200, right associativity).

(** [try { m } catch (e) { handler e }]; [process.exit] is not caught. *)
Definition try_catch {A : Type} (m : M A) (handler : js_error -> M A) : M A :=
  fun st =>
    match m st with
    | Throw e st' => handler e st'
    | o => o
    end.

Definition process_exit {A : Type} (code : Z) : M A := fun st => Exit code st.

Definition get_RESOLVED_PROTOC : M (option string) :=
  fun st => Return (RESOLVED_PROTOC st) st.

Definition set_resolved (p version : string) : M unit :=
  fun st =>
    Return tt (State (files st) (console st) (execs st) (Some p) (Some version)).

Definition with_files (st : state) (f : fs) : state :=
  State f (console st) (execs st) (RESOLVED_PROTOC st)
    (RESOLVED_PROTOC_VERSION st).

Definition emit (l : console_line) : M unit :=
  fun st =>
    Return tt (State (files st) (console st ++ [l]) (execs st)
                 (RESOLVED_PROTOC st) (RESOLVED_PROTOC_VERSION st)).

Definition console_log (args : list console_arg) : M unit :=
  emit (Line Stdout args).

Definition console_error (args : list console_arg) : M unit :=
  emit (Line Stderr args).

(** [for (const x of xs) { await body(x) }] *)
Fixpoint for_each {A : Type} (xs : list A) (body : A -> M unit) : M unit :=
  match xs with
  | [] => ret tt
  | x :: xs' => body x >> for_each xs' body
  end.

(** *** Node primitives *)

Definition dq : string := String (ascii_of_nat 34) "".
Definition lf : string := String (ascii_of_nat 10) "".
Definition quoted (s : string) : string := dq +:+ s +:+ dq.

(** [xs.join(sep)] *)
Definition join (sep : string) (xs : list string) : string :=
  String.concat sep xs.

Definition str_in (s : string) (xs : list string) : bool :=
  existsb (String.eqb s) xs.

(** The working directory with its trailing separator. *)
Definition cwd_slash (w : world) : string :=
  if String.eqb (cwd w) "/" then "/" else cwd w +:+ "/".

(** [path.resolve(p)] on POSIX for a path that is already normalised: an
    absolute path is kept, a relative one is taken from the working
    directory. *)
Definition path_resolve (w : world) (p : string) : string :=
  if Js.starts_with "/" p then p else cwd_slash w +:+ p.

(** [path.join(dir, name)] on POSIX for normalised segments. *)
Definition path_join (dir name : string) : string := dir +:+ "/" +:+ name.

(** How [execSync] is told to connect the child's stderr: kept in the
    result (so that it reaches the error message) or not. *)
Inductive stderr_mode : Type := StderrKept | StderrDropped.

(** The message of the error [execSync] throws on a non-zero exit status. *)
Definition command_failed (mode : stderr_mode) (command stderr : string)
  : js_error :=
  JsError
    ("Command failed: " +:+ command +:+
     match mode with
     | StderrKept => if Js.truthy stderr then lf +:+ stderr else ""
     | StderrDropped => ""
     end).

(** [execSync(command, { stdio })]: runs the child process to completion,
    returns its stdout, throws on failure. *)
Definition execSync (w : world) (site : call_site) (mode : stderr_mode)
    (command : string) : M string :=
  fun st =>
    let r := tool w command (files st) in
    let st' :=
      State (tool_written r ∪ files st) (console st)
        (execs st ++ [ExecEvent site command (tool_ok r)])
        (RESOLVED_PROTOC st) (RESOLVED_PROTOC_VERSION st) in
    if tool_ok r then Return (tool_stdout r) st'
    else Throw (command_failed mode command (tool_stderr r)) st'.

(** A call of an imported generator. It sees the files only: the trace of
    child processes and the variables of this module are out of its reach. *)
Definition run_step (g : fs -> step_result) : M unit :=
  fun st =>
    let r := g (files st) in
    let st' :=
      State (step_files r) (console st ++ step_lines r) (execs st)
        (RESOLVED_PROTOC st) (RESOLVED_PROTOC_VERSION st) in
    match step_end r with
    | Finished => Return tt st'
    | Exited code => Exit code st'
    | Threw e => Throw e st'
    end.

(** [fs.mkdir(dir, { recursive: true })] *)
Definition fs_mkdir (w : world) (dir : string) : M unit :=
  fun st =>
    match mkdir_error w dir (files st) with
    | Some e => Throw e st
    | None => Return tt st
    end.

(** The file system without the files whose path satisfies [gone]. *)
Definition drop_paths (gone : string -> bool) (disk : fs) : fs :=
  filter (fun kv : string * string => gone kv.1 = false) disk.

(** [p] is [dir] itself or lies below it. *)
Definition is_under (dir p : string) : bool :=
  String.eqb p dir || Js.starts_with (dir +:+ "/") p.

(** Modelled from the spec: [rmrf] of [scripts/file-utils.mjs] is not among
    the sources. The specification asks that a target's previous output be
    fully deleted; accordingly [rmrf target] removes the file at [target]
    and every file below it, and succeeds when there is nothing to remove. *)
Definition rmrf (w : world) (target : string) : M unit :=
  fun st =>
    Return tt (with_files st (drop_paths (is_under (path_resolve w target)) (files st))).

(** [s.split(/\r?\n/)] *)
Fixpoint split_lines_from (cur : list ascii) (s : string) : list string :=
  match s with
  | EmptyString => [string_of_list_ascii (rev cur)]
  | String c s' =>
      if Ascii.eqb c (ascii_of_nat 10) then
        string_of_list_ascii (rev cur) :: split_lines_from [] s'
      else
        match s' with
        | String c' s'' =>
            if Ascii.eqb c (ascii_of_nat 13) && Ascii.eqb c' (ascii_of_nat 10)
            then string_of_list_ascii (rev cur) :: split_lines_from [] s''
            else split_lines_from (c :: cur) s'
        | EmptyString => split_lines_from (c :: cur) s'
        end
  end.

Definition split_lines (s : string) : list string := split_lines_from [] s.

(** *** Module constants *)

Definition PROTO_DIR (w : world) : string := path_resolve w "proto".
Definition TS_OUT_DIR (w : world) : string := path_resolve w "src/shared/proto".
Definition GRPC_JS_OUT_DIR (w : world) : string :=
  path_resolve w "src/generated/grpc-js".
Definition NICE_JS_OUT_DIR (w : world) : string :=
  path_resolve w "src/generated/nice-grpc".
Definition DESCRIPTOR_OUT_DIR (w : world) : string :=
  path_resolve w "dist-standalone/proto".

Definition isWindows (w : world) : bool := String.eqb (platform w) "win32".

Definition TS_PROTO_PLUGIN (w : world) : string :=
  if isWindows w then path_resolve w "node_modules/.bin/protoc-gen-ts_proto.cmd"
  else ts_proto_plugin w.

Definition TS_PROTO_OPTIONS : list string :=
  ["env=node";
   "esModuleInterop=true";
   "outputServices=generic-definitions";
   "outputIndex=true";
   "useOptionals=none";
   "useDate=false"].

(** *** Functions of the script *)

Definition log_verbose (w : world) (args : list console_arg) : M unit :=
  if str_in "-v" (argv w) || str_in "--verbose" (argv w)
  then console_log args
  else ret tt.

(** The object returned by [tryProtocVersion]. *)
Inductive version_check : Type :=
| VersionOk (version : string)
| VersionFailed (error : js_error).

Definition tryProtocVersion (w : world) (p : string) : M version_check :=
  try_catch
    (let* out := execSync w VersionCheck StderrKept (quoted p +:+ " --version") in
     let out := Js.trim out in
     if Js.truthy out then ret (VersionOk out)
     else ret (VersionFailed (JsError "No version output")))
    (fun e => ret (VersionFailed e)).

(** [result.error?.message || result.error] inside a template string: the
    message, or the error converted to a string when the message is empty. *)
Definition error_text (e : js_error) : string :=
  if Js.truthy (message e) then message e else "Error".

(** The [for] loop of [locateProtoc]; the result tells whether the loop
    left the function through its [return]. *)
Fixpoint try_candidates (w : world) (candidates : list string) : M bool :=
  match candidates with
  | [] => ret false
  | c :: candidates' =>
      let* result := tryProtocVersion w c in
      match result with
      | VersionOk version =>
          set_resolved c version >>
          log_verbose w
            [Txt ("[build-proto] Using protoc " +:+ version +:+ " at " +:+ c)] >>
          ret true
      | VersionFailed error =>
          log_verbose w
            [Txt ("[build-proto] Failed protoc candidate " +:+ c +:+ ": "
                  +:+ error_text error)] >>
          try_candidates w candidates'
      end
  end.

Definition whichCmd (w : world) : string :=
  if String.eqb (platform w) "win32" then "where protoc" else "which protoc".

(** Candidates 1 and 2: the PROTOC_PATH override, then the bundled binary. *)
Definition static_candidates (w : world) : list string :=
  match env w "PROTOC_PATH" with
  | Some v => if Js.truthy v then [path_resolve w v] else []
  | None => []
  end
  ++ match bundled_protoc w with
     | Some bundled => [bundled]
     | None => []
     end.

(** Candidate 3: the first non-empty line printed by where/which. *)
Definition system_candidate (w : world) : M (list string) :=
  try_catch
    (let* out := execSync w WhichProtoc StderrDropped (whichCmd w) in
     match filter (fun l => Js.truthy l = true) (split_lines out) with
     | sys :: _ => ret [sys]
     | [] => ret []
     end)
    (fun _ => ret []).

Definition is_null_or_empty (o : option string) : bool :=
  match o with
  | Some s => Js.falsy s
  | None => true
  end.

Definition not_found_report : list console_line :=
  [Line Stderr [Txt "[build-proto] Could not find a working protoc binary."];
   Line Stderr
     [Txt "Exit earlier failures may indicate an access violation (0xC0000005)."];
   Line Stderr [Txt "Resolution steps:"];
   Line Stderr
     [Txt "  1. Install a system protoc: e.g. via Chocolatey: 'choco install protoc' or download release zip"];
   Line Stderr
     [Txt "  2. Set PROTOC_PATH to the installed protoc.exe, then re-run: PROTOC_PATH=path/to/protoc npm run protos"];
   Line Stderr
     [Txt "  3. (Optional) Set SKIP_PROTOS=1 for a temporary bypass (not for full test suite)."]].

Definition locateProtoc (w : world) : M unit :=
  let* sys := system_candidate w in
  let candidates := (static_candidates w ++ sys)%list in
  let* returned := try_candidates w candidates in
  if returned then ret tt
  else
    let* resolved := get_RESOLVED_PROTOC in
    if is_null_or_empty resolved then
      for_each not_found_report emit >>
      if bool_decide (env w "ALLOW_PROTO_FAILURE" = Some "1") then
        console_error
          [Txt "ALLOW_PROTO_FAILURE=1 set; skipping protoc generation and continuing."]
      else process_exit 1
    else ret tt.

Definition rosetta_command : string :=
  "/usr/bin/pgrep oahd || echo " +:+ quoted "NOT_INSTALLED".

Definition checkAppleSiliconCompatibility (w : world) : M unit :=
  if negb (String.eqb (platform w) "darwin") then ret tt
  else if String.eqb (arch w) "arm64" then
    try_catch
      (let* out := execSync w RosettaCheck StderrKept rosetta_command in
       let rosettaCheck := Js.trim out in
       if String.eqb rosettaCheck "NOT_INSTALLED" then
         console_log [Txt "Detected Apple Silicon (ARM64) architecture."] >>
         console_log
           [Txt "Rosetta 2 is NOT installed. The npm version of protoc is not compatible with Apple Silicon."] >>
         console_log [Txt "Please install Rosetta 2 using the following command:"] >>
         console_log [Txt "  softwareupdate --install-rosetta --agree-to-license"] >>
         console_log [Txt "Aborting build process."] >>
         process_exit 1
       else ret tt)
      (fun _ =>
         console_log
           [Txt "Could not determine Rosetta installation status. Proceeding anyway."])
  else ret tt.

(** The command line built by [tsProtoc]. *)
Definition tsProtoc_command (w : world) (protocPath outDir : string)
    (protoFiles protoOptions : list string) : string :=
  join " "
    ([protocPath;
      "--proto_path=" +:+ quoted (PROTO_DIR w);
      "--plugin=protoc-gen-ts_proto=" +:+ quoted (TS_PROTO_PLUGIN w);
      "--ts_proto_out=" +:+ quoted outDir;
      "--ts_proto_opt=" +:+ join "," protoOptions +:+ " "]
     ++ map quoted protoFiles).

Definition tsProtoc (w : world) (protocPath outDir : string)
    (protoFiles protoOptions : list string) : M unit :=
  let command := tsProtoc_command w protocPath outDir protoFiles protoOptions in
  try_catch
    (log_verbose w
       [Txt ("Generating TypeScript code in " +:+ outDir +:+ " for:" +:+ lf
             +:+ join lf protoFiles +:+ "...")] >>
     log_verbose w [Txt command] >>
     execSync w (StubGen outDir) StderrDropped command >>
     ret tt)
    (fun error =>
       console_error [Txt "Error generating TypeScript for proto files:"; Err error] >>
       process_exit 1).

(** The command line of the descriptor export. *)
Definition descriptor_command (w : world) (protoc : string)
    (protoFiles : list string) : string :=
  let descriptorFile := path_join (DESCRIPTOR_OUT_DIR w) "descriptor_set.pb" in
  join " "
    ([protoc;
      "--proto_path=" +:+ quoted (PROTO_DIR w);
      "--descriptor_set_out=" +:+ quoted descriptorFile;
      "--include_imports"]
     ++ protoFiles).

Definition compileProtos (w : world) : M unit :=
  console_log [Txt "Compiling Protocol Buffers..."] >>
  checkAppleSiliconCompatibility w >>
  locateProtoc w >>
  let* resolved := get_RESOLVED_PROTOC in
  match resolved with
  | None => ret tt
  | Some protoc =>
      if Js.falsy protoc then ret tt
      else
        for_each
          [TS_OUT_DIR w; GRPC_JS_OUT_DIR w; NICE_JS_OUT_DIR w; DESCRIPTOR_OUT_DIR w]
          (fs_mkdir w) >>
        let* protoFiles :=
          (fun st => Return (globby w "**/*.proto" (PROTO_DIR w) (files st)) st) in
        console_log
          [Txt ("Processing " +:+ pretty (length protoFiles) +:+ " proto files from");
           Txt (PROTO_DIR w)] >>
        tsProtoc w protoc (TS_OUT_DIR w) protoFiles TS_PROTO_OPTIONS >>
        tsProtoc w protoc (GRPC_JS_OUT_DIR w) protoFiles
          ("outputServices=grpc-js" :: TS_PROTO_OPTIONS) >>
        tsProtoc w protoc (NICE_JS_OUT_DIR w) protoFiles
          ("outputServices=nice-grpc,useExactTypes=false" :: TS_PROTO_OPTIONS) >>
        try_catch
          (log_verbose w [Txt "Generating descriptor set..."] >>
           execSync w DescriptorExport StderrDropped
             (descriptor_command w protoc protoFiles) >>
           ret tt)
          (fun error =>
             console_error
               [Txt "Error generating descriptor set for proto file:"; Err error] >>
             process_exit 1) >>
        log_verbose w
          [Txt "Protocol Buffer code generation completed successfully."] >>
        log_verbose w
          [Txt ("TypeScript files generated in: " +:+ TS_OUT_DIR w)]
  end.

Definition oldhostbridgefiles : list string :=
  ["src/hosts/vscode/workspace/methods.ts";
   "src/hosts/vscode/workspace/index.ts";
   "src/hosts/vscode/diff/methods.ts";
   "src/hosts/vscode/diff/index.ts";
   "src/hosts/vscode/env/methods.ts";
   "src/hosts/vscode/env/index.ts";
   "src/hosts/vscode/window/methods.ts";
   "src/hosts/vscode/window/index.ts";
   "src/hosts/vscode/watch/methods.ts";
   "src/hosts/vscode/watch/index.ts";
   "src/hosts/vscode/uri/methods.ts";
   "src/hosts/vscode/uri/index.ts"].

Definition oldprotobusfiles : list string :=
  ["src/core/controller/account/index.ts";
   "src/core/controller/account/methods.ts";
   "src/core/controller/browser/index.ts";
   "src/core/controller/browser/methods.ts";
   "src/core/controller/checkpoints/index.ts";
   "src/core/controller/checkpoints/methods.ts";
   "src/core/controller/file/index.ts";
   "src/core/controller/file/methods.ts";
   "src/core/controller/mcp/index.ts";
   "src/core/controller/mcp/methods.ts";
   "src/core/controller/models/index.ts";
   "src/core/controller/models/methods.ts";
   "src/core/controller/slash/index.ts";
   "src/core/controller/slash/methods.ts";
   "src/core/controller/state/index.ts";
   "src/core/controller/state/methods.ts";
   "src/core/controller/task/index.ts";
   "src/core/controller/task/methods.ts";
   "src/core/controller/ui/index.ts";
   "src/core/controller/ui/methods.ts";
   "src/core/controller/web/index.ts";
   "src/core/controller/web/methods.ts"].

Definition cleanup (w : world) : M unit :=
  log_verbose w [Txt "Cleaning up existing generated TypeScript files..."] >>
  rmrf w (TS_OUT_DIR w) >>
  rmrf w "src/generated" >>
  rmrf w "src/standalone/services/host-grpc-client.ts" >>
  rmrf w "src/standalone/server-setup.ts" >>
  rmrf w "src/hosts/vscode/host-grpc-service-config.ts" >>
  rmrf w "src/core/controller/grpc-service-config.ts" >>
  for_each (oldhostbridgefiles ++ oldprotobusfiles)%list (rmrf w).

Definition generateProtoBusSetup (w : world) : M unit :=
  run_step (protobus_setup_generator w).

Definition generateHostBridgeClient (w : world) : M unit :=
  run_step (host_bridge_client_generator w).

Definition main (w : world) : M unit :=
  if bool_decide (env w "SKIP_PROTOS" = Some "1") then
    console_log [Txt "[build-proto] Skipping proto generation due to SKIP_PROTOS=1"]
  else
    cleanup w >>
    compileProtos w >>
    generateProtoBusSetup w >>
    generateHostBridgeClient w.

(** The last statement of the script: [main().catch(...)]. *)
Definition script (w : world) : M unit :=
  try_catch (main w)
    (fun error =>
       console_error [Txt "Error:"; Err error] >>
       process_exit 1).

(** A fresh process: nothing printed, nothing run, no protoc resolved. *)
Definition initial_state (disk : fs) : state := State disk [] [] None None.

(** The exit code of the process once the script has run. *)
Definition exit_code {A : Type} (o : outcome A) : Z :=
  match o with
  | Return _ _ => 0
  | Exit code _ => code
  | Throw _ _ => 1
  end.

(** The two steps of [main] that regenerate the stubs and the descriptor. *)
Definition regenerate (w : world) : M unit := cleanup w >> compileProtos w.

(** The four output targets. *)
Definition output_dirs (w : world) : list string :=
  [TS_OUT_DIR w; GRPC_JS_OUT_DIR w; NICE_JS_OUT_DIR w; DESCRIPTOR_OUT_DIR w].

(** [p] lies in one of the output targets. *)
Definition in_output (w : world) (p : string) : bool :=
  existsb (fun dir => is_under dir p) (output_dirs w).

(** Every path [cleanup] passes to [rmrf], in the order of the calls. *)
Definition cleanup_paths (w : world) : list string :=
  [TS_OUT_DIR w;
   "src/generated";
   "src/standalone/services/host-grpc-client.ts";
   "src/standalone/server-setup.ts";
   "src/hosts/vscode/host-grpc-service-config.ts";
   "src/core/controller/grpc-service-config.ts"]
  ++ oldhostbridgefiles ++ oldprotobusfiles.

(** [p] is deleted by [rmrf] on one of [targets]. *)
Definition removed_by (w : world) (targets : list string) (p : string) : bool :=
  existsb (fun target => is_under (path_resolve w target) p) targets.

(** [p] is deleted by [cleanup]. *)
Definition cleaned_up (w : world) (p : string) : bool :=
  removed_by w (cleanup_paths w) p.

(** The [-v] or [--verbose] flag is on the command line. *)
Definition verbose (w : world) : bool :=
  str_in "-v" (argv w) || str_in "--verbose" (argv w).

(** The state after some more lines have been printed. *)
Definition printed (lines : list console_line) (st : state) : state :=
  State (files st) (console st ++ lines) (execs st)
    (RESOLVED_PROTOC st) (RESOLVED_PROTOC_VERSION st).

(** The call sites that generate output, as opposed to those that probe. *)
Definition is_generation (site : call_site) : bool :=
  match site with
  | StubGen _ | DescriptorExport => true
  | RosettaCheck | WhichProtoc | VersionCheck => false
  end.

End BuildProto.

(** ** Vocabulary of the statements *)

Module Vocabulary.
Import Regex BuildProto.

(** [str_suffix t s]: [t] is what remains of [s] after some code units. *)
Inductive str_suffix : string -> string -> Prop :=
| suffix_here (s : string) : str_suffix s s
| suffix_later (c : ascii) (t s : string) :
    str_suffix t s -> str_suffix t (String c s).

Create HintDb regex.
#[export] Hint Constructors str_suffix : regex.

(** [(pos', rest')] can be reached from [(pos, rest)] by reading code
    units: [rest'] is a suffix of [rest] and the position has advanced by
    the number of code units read. *)
Definition reachable (pos : nat) (rest : string) (pos' : nat) (rest' : string)
  : Prop :=
  str_suffix rest' rest
  /\ (pos' + String.length rest' = pos + String.length rest)%nat.

(** A matcher is forward when a result it gives was given by its
    continuation, called on a position reachable from the start. *)
Definition forward {R : Type}
    (step : nat -> string -> captures -> cont R -> option R) : Prop :=
  forall (pos : nat) (rest : string) (caps : captures) (k : cont R) (res : R),
    step pos rest caps k = Some res ->
    exists pos' rest' caps',
      reachable pos rest pos' rest' /\ k pos' rest' caps' = Some res.

(** A matcher is extensional when it only looks at its continuation on
    positions reachable from the start. *)
Definition extensional {R : Type}
    (step : nat -> string -> captures -> cont R -> option R) : Prop :=
  forall (pos : nat) (rest : string) (caps : captures) (k1 k2 : cont R),
    (forall pos' rest' caps',
        reachable pos rest pos' rest' ->
        k1 pos' rest' caps' = k2 pos' rest' caps') ->
    step pos rest caps k1 = step pos rest caps k2.

(** A pattern that starts by reading one code unit. *)
Fixpoint reads_first (r : regex) : bool :=
  match r with
  | Class _ => true
  | Seq r1 _ => reads_first r1
  | Group _ r1 => reads_first r1
  | _ => false
  end.

(** No match of [re] anywhere in [t]. *)
Definition no_match (re : regex) (t : string) : bool :=
  match search re 0 [] t with
  | None => true
  | Some _ => false
  end.

(** A text in which none of the patterns of the sanitizer matches. *)
Definition is_clean (t : string) : bool :=
  forallb (fun re => no_match re t)
    (Sanitizer.LEADING_PATTERNS
     ++ [Sanitizer.re_thinking_open; Sanitizer.re_thinking_close;
         Sanitizer.re_im_start; Sanitizer.re_im_end;
         Sanitizer.re_channel_token]).

(** The state after [execSync] has run [command] from [site]. *)
Definition ran (w : world) (site : call_site) (command : string) (st : state)
  : state :=
  let r := tool w command (files st) in
  State (tool_written r ∪ files st) (console st)
    (execs st ++ [ExecEvent site command (tool_ok r)])
    (RESOLVED_PROTOC st) (RESOLVED_PROTOC_VERSION st).

(** [st'] extends [st] by child processes that only probe. *)
Definition probed (st st' : state) : Prop :=
  exists probes,
    execs st' = (execs st ++ probes)%list
    /\ Forall (fun e => is_generation (ev_site e) = false) probes.

(** A computation that starts no generating child process. *)
Definition probes_only {A : Type} (m : M A) : Prop :=
  forall st, probed st (outcome_state (m st)).

(** The first half of [compileProtos]: up to the point where a protoc has
    been looked for. *)
Definition resolve_phase (w : world) : M unit :=
  console_log [Txt "Compiling Protocol Buffers..."] >>
  checkAppleSiliconCompatibility w >>
  locateProtoc w.

(** The second half of [compileProtos], once [protoc] has been resolved. *)
Definition generate_phase (w : world) (protoc : string) : M unit :=
  for_each
    [TS_OUT_DIR w; GRPC_JS_OUT_DIR w; NICE_JS_OUT_DIR w; DESCRIPTOR_OUT_DIR w]
    (fs_mkdir w) >>
  let* protoFiles :=
    (fun st => Return (globby w "**/*.proto" (PROTO_DIR w) (files st)) st) in
  console_log
    [Txt ("Processing " +:+ pretty (length protoFiles) +:+ " proto files from");
     Txt (PROTO_DIR w)] >>
  tsProtoc w protoc (TS_OUT_DIR w) protoFiles TS_PROTO_OPTIONS >>
  tsProtoc w protoc (GRPC_JS_OUT_DIR w) protoFiles
    ("outputServices=grpc-js" :: TS_PROTO_OPTIONS) >>
  tsProtoc w protoc (NICE_JS_OUT_DIR w) protoFiles
    ("outputServices=nice-grpc,useExactTypes=false" :: TS_PROTO_OPTIONS) >>
  try_catch
    (log_verbose w [Txt "Generating descriptor set..."] >>
     execSync w DescriptorExport StderrDropped
       (descriptor_command w protoc protoFiles) >>
     ret tt)
    (fun error =>
       console_error
         [Txt "Error generating descriptor set for proto file:"; Err error] >>
       process_exit 1) >>
  log_verbose w
    [Txt "Protocol Buffer code generation completed successfully."] >>
  log_verbose w
    [Txt ("TypeScript files generated in: " +:+ TS_OUT_DIR w)].

(** The four generating child processes of one run, in order: call site
    and command line. *)
Definition generation_commands (w : world) (protoc : string)
    (protoFiles : list string) : list (call_site * string) :=
  [(StubGen (TS_OUT_DIR w),
    tsProtoc_command w protoc (TS_OUT_DIR w) protoFiles TS_PROTO_OPTIONS);
   (StubGen (GRPC_JS_OUT_DIR w),
    tsProtoc_command w protoc (GRPC_JS_OUT_DIR w) protoFiles
      ("outputServices=grpc-js" :: TS_PROTO_OPTIONS));
   (StubGen (NICE_JS_OUT_DIR w),
    tsProtoc_command w protoc (NICE_JS_OUT_DIR w) protoFiles
      ("outputServices=nice-grpc,useExactTypes=false" :: TS_PROTO_OPTIONS));
   (DescriptorExport, descriptor_command w protoc protoFiles)].

Definition started (ok : bool) (c : call_site * string) : exec_event :=
  ExecEvent c.1 c.2 ok.

(** What the script prints on stderr when a generating command fails. *)
Definition failure_heading (site : call_site) : string :=
  match site with
  | DescriptorExport => "Error generating descriptor set for proto file:"
  | _ => "Error generating TypeScript for proto files:"
  end.

Definition failure_report (c : call_site * string) : console_line :=
  Line Stderr
    [Txt (failure_heading c.1); Err (command_failed StderrDropped c.2 "")].

(** The file system a command leaves behind. *)
Definition files_after (w : world) (command : string) (disk : fs) : fs :=
  tool_written (tool w command disk) ∪ disk.

(** One generating command: it either succeeds and is recorded, or fails,
    is recorded and reported, and ends the process with code 1. In both
    cases the files are those the command left behind. *)
Definition gen_step_spec (w : world) (c : call_site * string) (step : M unit)
  : Prop :=
  forall st,
    (exists st',
        step st = Return tt st'
        /\ execs st' = (execs st ++ [started true c])%list
        /\ files st' = files_after w c.2 (files st)
        /\ RESOLVED_PROTOC st' = RESOLVED_PROTOC st)
    \/ (exists st',
           step st = Exit 1 st'
           /\ execs st' = (execs st ++ [started false c])%list
           /\ files st' = files_after w c.2 (files st)
           /\ last (console st') = Some (failure_report c)
           /\ RESOLVED_PROTOC st' = RESOLVED_PROTOC st).

(** The ways a run of [generate_phase] can go, seen from its trace. In
    [run_aborted], [k] is the number of generating commands that succeeded
    before command [c] failed on the file system [before]. *)
Inductive generation_run (w : world) (protoc : string) (st : state)
  : outcome unit -> Prop :=
| run_mkdir_failed (e : js_error) :
    generation_run w protoc st (Throw e st)
| run_aborted (protoFiles : list string) (k : nat) (c : call_site * string)
      (before : fs) (st' : state) :
    generation_commands w protoc protoFiles !! k = Some c ->
    execs st'
    = (execs st
       ++ map (started true) (take k (generation_commands w protoc protoFiles))
       ++ [started false c])%list ->
    files st' = files_after w c.2 before ->
    last (console st') = Some (failure_report c) ->
    RESOLVED_PROTOC st' = RESOLVED_PROTOC st ->
    generation_run w protoc st (Exit 1 st')
| run_completed (protoFiles : list string) (st' : state) :
    protoFiles = globby w "**/*.proto" (PROTO_DIR w) (files st) ->
    execs st'
    = (execs st
       ++ map (started true) (generation_commands w protoc protoFiles))%list ->
    RESOLVED_PROTOC st' = RESOLVED_PROTOC st ->
    generation_run w protoc st (Return tt st').

(** The ways a run of [compileProtos] can go: it stops before any
    generating command, or it reaches the second half with a protoc. *)
Inductive compile_run (w : world) (st : state) : outcome unit -> Prop :=
| compile_stopped (o : outcome unit) :
    probed st (outcome_state o) ->
    (forall st', o = Return tt st' ->
                 is_null_or_empty (RESOLVED_PROTOC st') = true) ->
    compile_run w st o
| compile_generated (st1 : state) (protoc : string) (o : outcome unit) :
    probed st st1 ->
    RESOLVED_PROTOC st1 = Some protoc ->
    Js.falsy protoc = false ->
    generation_run w protoc st1 o ->
    compile_run w st o.

(** What the script does once [compileProtos] has ended with [o]. *)
Definition finish (w : world) (o : outcome unit) : outcome unit :=
  match o with
  | Return _ st =>
      try_catch (generateProtoBusSetup w >> generateHostBridgeClient w)
        (fun error =>
           console_error [Txt "Error:"; Err error] >> process_exit 1) st
  | Exit code st => Exit code st
  | Throw e st => (console_error [Txt "Error:"; Err e] >> process_exit 1) st
  end.

(** The state in which [main] calls [compileProtos]. *)
Definition cleaned_state (w : world) (disk : fs) : state :=
  outcome_state (cleanup w (initial_state disk)).

(** A candidate that fails the version check on every file system: the
    command fails or prints nothing but white space. *)
Definition broken (w : world) (c : string) : Prop :=
  forall disk : fs,
    let r := tool w (quoted c +:+ " --version") disk in
    tool_ok r = false \/ Js.trim (tool_stdout r) = "".

(** The candidates [locateProtoc] tries when called in state [st]. *)
Definition found_candidates (w : world) (st : state) : list string :=
  (static_candidates w
   ++ match system_candidate w st with
      | Return sys _ => sys
      | _ => []
      end)%list.

(** [compileProtos], started in [st0], calls [locateProtoc] in [st]. *)
Definition reaches_locate (w : world) (st0 st : state) : Prop :=
  (console_log [Txt "Compiling Protocol Buffers..."] >>
   checkAppleSiliconCompatibility w) st0
  = Return tt st.

(** [p] is in the generated area: deleted by [cleanup] or in an output
    target. Everything else is input. *)
Definition generated (w : world) (p : string) : bool :=
  cleaned_up w p || in_output w p.

(** Two file systems with the same inputs. *)
Definition agree_on_inputs (w : world) (a b : fs) : Prop :=
  forall p, generated w p = false -> a !! p = b !! p.

(** The same outcome on another file system. *)
Definition refile {A : Type} (disk : fs) (o : outcome A) : outcome A :=
  match o with
  | Return a st => Return a (with_files st disk)
  | Exit code st => Exit code (with_files st disk)
  | Throw e st => Throw e (with_files st disk)
  end.

(** A computation that reads inputs only and adds files to the output
    targets only: on each state it amounts to laying some files [written],
    all in output targets, over the file system, and it does the same on
    every file system with the same inputs. *)
Definition local {A : Type} (w : world) (m : M A) : Prop :=
  forall st,
    exists written : fs,
      (forall p, is_Some (written !! p) -> in_output w p = true)
      /\ files (outcome_state (m st)) = written ∪ files st
      /\ forall disk',
           agree_on_inputs w (files st) disk' ->
           m (with_files st disk') = refile (written ∪ disk') (m st).

(** What the determinism of a run needs from the machine: child processes,
    [fs.mkdir] and the glob depend on input files only, and child processes
    write into the output targets only. *)
Record deterministic_tools (w : world) : Prop := {
  tools_read_inputs :
    forall command a b,
      agree_on_inputs w a b -> tool w command a = tool w command b;
  tools_write_outputs :
    forall command disk p,
      is_Some (tool_written (tool w command disk) !! p) ->
      in_output w p = true;
  mkdir_reads_inputs :
    forall dir a b,
      agree_on_inputs w a b -> mkdir_error w dir a = mkdir_error w dir b;
  glob_reads_inputs :
    forall pattern dir a b,
      agree_on_inputs w a b -> globby w pattern dir a = globby w pattern dir b
}.

End Vocabulary.

(** ** Vocabulary of the further properties of the sanitizer *)

Module TextVocabulary.
Import Regex Vocabulary Sanitizer.

(** [subsequence a b]: [a] is [b] with some code units deleted. *)
Inductive subsequence : string -> string -> Prop :=
| sub_nil : subsequence "" ""
| sub_keep (c : ascii) (a b : string) :
    subsequence a b -> subsequence (String c a) (String c b)
| sub_drop (c : ascii) (a b : string) :
    subsequence a b -> subsequence a (String c b).

(** [excerpt r t]: [r] is a contiguous part of [t]. *)
Definition excerpt (r t : string) : Prop :=
  exists pre post, t = pre +:+ r +:+ post.

(** Some code unit of [s] satisfies [q]. *)
Fixpoint has_char (q : ascii -> bool) (s : string) : bool :=
  match s with
  | EmptyString => false
  | String c s' => q c || has_char q s'
  end.

(** The number of code units of [s] that satisfy [q]. *)
Fixpoint count_char (q : ascii -> bool) (s : string) : nat :=
  match s with
  | EmptyString => 0%nat
  | String c s' => ((if q c then 1 else 0) + count_char q s')%nat
  end.

(** The 256 code units. *)
Definition all_ascii : list ascii := map ascii_of_nat (seq 0 256).

(** Every code unit accepted by [p] is accepted by [q]. *)
Definition class_within (p q : ascii -> bool) : bool :=
  forallb (fun c => implb (p c) (q c)) all_ascii.

(** Every match of the pattern reads a code unit accepted by [q]. *)
Fixpoint must_read (q : ascii -> bool) (r : regex) : bool :=
  match r with
  | Class p => class_within p q
  | Seq r1 r2 => must_read q r1 || must_read q r2
  | Alt r1 r2 => must_read q r1 && must_read q r2
  | Group _ r1 => must_read q r1
  | Empty | Star _ _ | Bol => false
  end.

(** Every match of the pattern reads at least one code unit. *)
Fixpoint consuming (r : regex) : bool :=
  match r with
  | Class _ => true
  | Seq r1 r2 => consuming r1 || consuming r2
  | Alt r1 r2 => consuming r1 && consuming r2
  | Group _ r1 => consuming r1
  | Empty | Star _ _ | Bol => false
  end.

Definition is_angle (c : ascii) : bool := Ascii.eqb c "<" || Ascii.eqb c ">".

Definition is_backquote (c : ascii) : bool := Ascii.eqb c "`".

(** The names between the bars of a channel token, as the two channel
    patterns list them. *)
Definition channel_name_list : list string :=
  ["analysis"; "assistant"; "user"; "system"; "thinking"; "deliberate";
   "coT"; "im_start"; "im_end"; "channel"].

(** The words of the third leading pattern. *)
Definition prefix_word_list : list string := ["analysis"; "thinking"].

(** [text] starts with [token], letter case aside. *)
Definition starts_with_i (token text : string) : bool :=
  Js.starts_with (Js.toLowerCase token) (Js.toLowerCase text).

(** [t] starts with a header: the start token, any text, the end token,
    letter case aside. *)
Definition starts_with_header (t : string) : Prop :=
  exists x mid y rest,
    t = x +:+ mid +:+ y +:+ rest
    /\ Js.toLowerCase x = "<|start_header_id|>"
    /\ Js.toLowerCase y = "<|end_header_id|>".

(** A pattern that starts with the anchor. *)
Definition anchored (r : regex) : bool :=
  match r with
  | Seq Bol _ => true
  | _ => false
  end.

(** What is left of [s] once the literal [p] has been read from its start
    under the i flag, when it can be read. *)
Fixpoint strip_prefix_i (p s : string) : option string :=
  match p with
  | EmptyString => Some s
  | String a p' =>
      match s with
      | String b s' =>
          if Ascii.eqb (fold_case b) (fold_case a) then strip_prefix_i p' s'
          else None
      | EmptyString => None
      end
  end.

(** Code units below 128. *)
Definition ascii7 (c : ascii) : bool := (nat_of_ascii c <? 128)%nat.

Fixpoint all_chars (q : ascii -> bool) (s : string) : bool :=
  match s with
  | EmptyString => true
  | String c s' => q c && all_chars q s'
  end.

(** A continuation that accepts the input [rest] wherever it is called. *)
Definition accepts {R : Type} (k : cont R) (rest : string) : Prop :=
  forall (pos : nat) (caps : captures), k pos rest caps <> None.

(** The pattern can read [s] down to [rest]: it matches whenever what
    follows accepts [rest]. *)
Definition can_step (r : regex) (s rest : string) : Prop :=
  forall (R : Type) (pos : nat) (caps : captures) (k : cont R),
    accepts k rest -> run r pos s caps k <> None.

(** Every capture is a contiguous part of [text]. *)
Definition captures_within (text : string) (caps : captures) : Prop :=
  Forall (fun c : nat * string => excerpt c.2 text) caps.

(** A matcher keeps the captures within [text] when, started on a suffix of
    [text] with captures within it, it calls its continuation with captures
    within it. *)
Definition keeps_captures {R : Type} (text : string)
    (step : nat -> string -> captures -> cont R -> option R) : Prop :=
  forall (pos : nat) (rest : string) (caps : captures) (k : cont R) (res : R),
    str_suffix rest text -> captures_within text caps ->
    step pos rest caps k = Some res ->
    exists pos' rest' caps',
      reachable pos rest pos' rest' /\ captures_within text caps'
      /\ k pos' rest' caps' = Some res.

(** The text a pattern reads and the captures it leaves, whatever the
    order in which the matcher tries the alternatives: [denotes r x caps
    caps'] holds when [r] can read exactly [x], turning the captures [caps]
    into [caps']. *)
Inductive denotes : regex -> string -> captures -> captures -> Prop :=
| den_empty (caps : captures) : denotes Empty "" caps caps
| den_class (p : ascii -> bool) (c : ascii) (caps : captures) :
    p c = true -> denotes (Class p) (String c "") caps caps
| den_seq (r1 r2 : regex) (x1 x2 : string) (caps caps1 caps2 : captures) :
    denotes r1 x1 caps caps1 -> denotes r2 x2 caps1 caps2 ->
    denotes (Seq r1 r2) (x1 +:+ x2) caps caps2
| den_alt_l (r1 r2 : regex) (x : string) (caps caps' : captures) :
    denotes r1 x caps caps' -> denotes (Alt r1 r2) x caps caps'
| den_alt_r (r1 r2 : regex) (x : string) (caps caps' : captures) :
    denotes r2 x caps caps' -> denotes (Alt r1 r2) x caps caps'
| den_star_stop (greedy : bool) (r : regex) (caps : captures) :
    denotes (Star greedy r) "" caps caps
| den_star_more (greedy : bool) (r : regex) (x1 x2 : string)
      (caps caps1 caps2 : captures) :
    denotes r x1 caps caps1 -> denotes (Star greedy r) x2 caps1 caps2 ->
    denotes (Star greedy r) (x1 +:+ x2) caps caps2
| den_group (n : nat) (r : regex) (x : string) (caps caps' : captures) :
    denotes r x caps caps' -> denotes (Group n r) x caps ((n, x) :: caps')
| den_bol (caps : captures) : denotes Bol "" caps caps.

(** A matcher is sound for [D] when a result it gives was given by its
    continuation after a text that [D] accepts has been read. *)
Definition sound_for {R : Type}
    (D : string -> captures -> captures -> Prop)
    (step : nat -> string -> captures -> cont R -> option R) : Prop :=
  forall (pos : nat) (s : string) (caps : captures) (k : cont R) (res : R),
    step pos s caps k = Some res ->
    exists x s' caps',
      s = x +:+ s' /\ D x caps caps'
      /\ k (pos + String.length x)%nat s' caps' = Some res.

(** [deletes P s s']: [s'] is [s] without some parts that satisfy [P],
    taken from left to right without overlap. *)
Inductive deletes (P : string -> Prop) : string -> string -> Prop :=
| del_done (s : string) : deletes P s s
| del_keep (c : ascii) (s s' : string) :
    deletes P s s' -> deletes P (String c s) (String c s')
| del_cut (x s s' : string) :
    P x -> deletes P s s' -> deletes P (x +:+ s) s'.

(** A text the pattern can read. *)
Definition matched (re : regex) (x : string) : Prop :=
  exists caps, denotes re x [] caps.

(** The parts of a text, one after the other. *)
Definition join_all (parts : list string) : string :=
  fold_right String.append "" parts.

(** A text that one of the leading patterns can read. *)
Definition leading_artifact (x : string) : Prop :=
  Exists (fun re => matched re x) LEADING_PATTERNS.

(** The opening thinking tag, alone or with one white space after it. *)
Definition opening_tag (x : string) : Prop :=
  x = "<thinking>"
  \/ exists c, Js.is_ws c = true /\ x = "<thinking>" +:+ String c "".

(** The closing thinking tag, alone or with one white space before it. *)
Definition closing_tag (x : string) : Prop :=
  x = "</thinking>"
  \/ exists c, Js.is_ws c = true /\ x = String c "</thinking>".

(** The token im_start with the role after it: the token, any white space,
    a word, any white space. *)
Definition im_start_token (x : string) : Prop :=
  exists t w1 role w2,
    x = t +:+ w1 +:+ role +:+ w2
    /\ Js.toLowerCase t = "<|im_start|>"
    /\ all_chars Js.is_ws w1 = true
    /\ all_chars Js.is_word role = true /\ role <> ""
    /\ all_chars Js.is_ws w2 = true.

Definition im_end_token (x : string) : Prop :=
  Js.toLowerCase x = "<|im_end|>".

(** A channel token, letter case aside. *)
Definition channel_token (x : string) : Prop :=
  exists name,
    In name channel_name_list
    /\ Js.toLowerCase x = Js.toLowerCase ("<|" +:+ name +:+ "|>").

(** A fenced block: opening fence, label, line feed, body, line feed,
    closing fence. *)
Definition fenced (label body : string) : string :=
  "```" +:+ label +:+ BuildProto.lf +:+ body +:+ BuildProto.lf +:+ "```".

(** One step of the reduction in [longest_body]. *)
Definition longer (a : string) (b : block) : string :=
  if (String.length a <? String.length (body b))%nat then body b else a.

(** What is left of [s] once the literal [p] has been read from its start,
    when it can be read. *)
Fixpoint after_prefix (p s : string) : option string :=
  match p with
  | EmptyString => Some s
  | String a p' =>
      match s with
      | String b s' => if Ascii.eqb a b then after_prefix p' s' else None
      | EmptyString => None
      end
  end.

(** [sweeps P s s']: [s'] is [s] read once from left to right, where at
    each place reached a part that satisfies [P] is cut out whenever one
    starts there, the longest that does, and reading goes on after it; a
    code unit is kept only where no part that satisfies [P] starts. *)
Inductive sweeps (P : string -> Prop) : string -> string -> Prop :=
| sweep_end : sweeps P "" ""
| sweep_keep (c : ascii) (s s' : string) :
    (forall x rest, P x -> String c s <> x +:+ rest) ->
    sweeps P s s' -> sweeps P (String c s) (String c s')
| sweep_cut (x s s' : string) :
    P x ->
    (forall y rest,
        P y -> x +:+ s = y +:+ rest ->
        (String.length y <= String.length x)%nat) ->
    sweeps P s s' -> sweeps P (x +:+ s) s'.

End TextVocabulary.

(** ** Vocabulary of the further properties of the build script *)

Module BuildVocabulary.
Import BuildProto Vocabulary.

(** The command line of the version check of candidate [c]. *)
Definition version_command (c : string) : string := quoted c +:+ " --version".

(** A candidate that passes the version check on every file system: the
    command succeeds and prints [version], white space aside. *)
Definition working (w : world) (c version : string) : Prop :=
  Js.truthy version = true
  /\ forall disk : fs,
       let r := tool w (version_command c) disk in
       tool_ok r = true /\ Js.trim (tool_stdout r) = version.

(** The command lines [locateProtoc] runs when it tries the candidates
    [tried]: the where/which probe, then one version check for each. *)
Definition locate_commands (w : world) (tried : list string) : list string :=
  whichCmd w :: map version_command tried.

(** The five lines printed when Rosetta is missing. *)
Definition rosetta_report : list console_line :=
  [Line Stdout [Txt "Detected Apple Silicon (ARM64) architecture."];
   Line Stdout
     [Txt "Rosetta 2 is NOT installed. The npm version of protoc is not compatible with Apple Silicon."];
   Line Stdout [Txt "Please install Rosetta 2 using the following command:"];
   Line Stdout [Txt "  softwareupdate --install-rosetta --agree-to-license"];
   Line Stdout [Txt "Aborting build process."]].

(** Two states that differ at most in what has been printed. *)
Definition same_but_console (a b : state) : Prop :=
  files a = files b
  /\ execs a = execs b
  /\ RESOLVED_PROTOC a = RESOLVED_PROTOC b
  /\ RESOLVED_PROTOC_VERSION a = RESOLVED_PROTOC_VERSION b.

(** Two outcomes that end the same way, with the same value, in states
    that differ at most in what has been printed. *)
Definition same_outcome {A : Type} (o1 o2 : outcome A) : Prop :=
  match o1, o2 with
  | Return a s1, Return b s2 => a = b /\ same_but_console s1 s2
  | Exit c1 s1, Exit c2 s2 => c1 = c2 /\ same_but_console s1 s2
  | Throw e1 s1, Throw e2 s2 => e1 = e2 /\ same_but_console s1 s2
  | _, _ => False
  end.

(** Two computations that do the same, what they print aside, whatever has
    been printed before. *)
Definition console_blind {A : Type} (m1 m2 : M A) : Prop :=
  forall s1 s2, same_but_console s1 s2 -> same_outcome (m1 s1) (m2 s2).

(** The same machine, started with other command-line arguments. *)
Definition with_argv (w : world) (args : list string) : world :=
  {| cwd := cwd w;
     env := env w;
     argv := args;
     platform := platform w;
     arch := arch w;
     bundled_protoc := bundled_protoc w;
     ts_proto_plugin := ts_proto_plugin w;
     tool := tool w;
     mkdir_error := mkdir_error w;
     globby := globby w;
     protobus_setup_generator := protobus_setup_generator w;
     host_bridge_client_generator := host_bridge_client_generator w |}.

(** A computation that leaves the process with code 1 or not at all. *)
Definition exits_with_1 {A : Type} (m : M A) : Prop :=
  forall st code st', m st = Exit code st' -> code = 1.

(** A generator that never calls [process.exit]. *)
Definition never_exits (g : fs -> step_result) : Prop :=
  forall disk code, step_end (g disk) <> Exited code.

(** A line of output: no carriage return, no line feed. *)
Definition is_line_char (c : ascii) : bool :=
  negb (Ascii.eqb c (ascii_of_nat 10)) && negb (Ascii.eqb c (ascii_of_nat 13)).

(** The ends of line that [split_lines] knows. *)
Definition line_end (sep : string) : Prop :=
  sep = lf \/ sep = String (ascii_of_nat 13) lf.

(** The segments of a path: its parts between the separators. *)
Fixpoint segments_from (cur : list ascii) (p : string) : list string :=
  match p with
  | EmptyString => [string_of_list_ascii (rev cur)]
  | String c p' =>
      if Ascii.eqb c "/" then
        string_of_list_ascii (rev cur) :: segments_from [] p'
      else segments_from (c :: cur) p'
  end.

(** A segment that [path.resolve] keeps: not empty, not "." and not "..". *)
Definition plain_segment (s : string) : bool :=
  negb (String.eqb s "") && negb (String.eqb s ".") && negb (String.eqb s "..").

(** An absolute POSIX path in normal form: it starts with the separator
    and what follows is made of plain segments, so it has no doubled or
    trailing separator and no "." or ".." segment. [path.resolve] returns
    such a path as it is. *)
Definition normal_absolute (p : string) : bool :=
  match p with
  | String c rest =>
      Ascii.eqb c "/" && forallb plain_segment (segments_from [] rest)
  | EmptyString => false
  end.

End BuildVocabulary.

(** ** The alias resolution of the require patch for unit tests

    [tryFileVariants] and [resolveAlias] look for the file behind an
    aliased import. What they ask of Node is a field of [node]. *)

Module Requires.

Record node : Type := Node {
  existsSync : string -> bool;          (* fs.existsSync(p) *)
  (* fs.statSync(p).isDirectory(), asked only of a path that exists *)
  isDirectory : string -> bool;
  path_join : list string -> string;    (* path.join(...segments) *)
  process_cwd : string                  (* process.cwd() *)
}.

(** The object [aliasPrefixes], in the order of its keys. *)
Definition aliasPrefixes : list (string * string) :=
  [("@/", "src/");
   ("@core/", "src/core/");
   ("@api/", "src/core/api/");
   ("@generated/", "src/generated/");
   ("@hosts/", "src/hosts/");
   ("@integrations/", "src/integrations/");
   ("@packages/", "src/packages/");
   ("@services/", "src/services/");
   ("@shared/", "src/shared/");
   ("@utils/", "src/utils/")].

(** What is left of [s] after its prefix [pat]. *)
Fixpoint strip_prefix (pat s : string) : option string :=
  match pat with
  | EmptyString => Some s
  | String a pat' =>
      match s with
      | String b s' => if Ascii.eqb a b then strip_prefix pat' s' else None
      | EmptyString => None
      end
  end.

(** [s.replace(pat, rep)] for a string pattern and a replacement without
    dollar signs: the first occurrence of [pat] is replaced. *)
Fixpoint replace_str (pat rep s : string) : string :=
  match strip_prefix pat s with
  | Some rest => rep +:+ rest
  | None =>
      match s with
      | EmptyString => EmptyString
      | String c s' => String c (replace_str pat rep s')
      end
  end.

(** The index file of a directory, when the base is one and has it. *)
Definition index_variant (n : node) (baseNoExt name : string) : option string :=
  if existsSync n baseNoExt && isDirectory n baseNoExt then
    let idx := path_join n [baseNoExt; name] in
    if existsSync n idx then Some idx else None
  else None.

Definition tryFileVariants (n : node) (baseNoExt : string) : option string :=
  let jsFile := baseNoExt +:+ ".js" in
  if existsSync n jsFile then Some jsFile
  else
    match index_variant n baseNoExt "index.js" with
    | Some idxJs => Some idxJs
    | None =>
        let tsFile := baseNoExt +:+ ".ts" in
        if existsSync n tsFile then Some tsFile
        else
          match index_variant n baseNoExt "index.ts" with
          | Some idxTs => Some idxTs
          | None => None
          end
    end.

(** The [for ... in] loop of [resolveAlias] over the aliases left. *)
Fixpoint resolve_from (n : node) (aliases : list (string * string)) (p : string)
  : option string :=
  match aliases with
  | [] => None
  | (prefix, target) :: aliases' =>
      if Js.starts_with prefix p then
        let rel := replace_str prefix target p in
        let cwd := process_cwd n in
        let compiledBase := path_join n [cwd; "out/unit"; rel] in
        let resolvedCompiled := tryFileVariants n compiledBase in
        if Sanitizer.present resolvedCompiled then resolvedCompiled
        else
          let sourceBase := path_join n [cwd; rel] in
          let resolvedSource := tryFileVariants n sourceBase in
          if Sanitizer.present resolvedSource then resolvedSource
          else resolve_from n aliases' p
      else resolve_from n aliases' p
  end.

Definition resolveAlias (n : node) (p : string) : option string :=
  resolve_from n aliasPrefixes p.

(** The two places [resolveAlias] looks in for the import [rel]: the
    compiled output first, then the sources. *)
Definition lookup_order (n : node) (rel : string) : option string :=
  let compiled := tryFileVariants n (path_join n [process_cwd n; "out/unit"; rel]) in
  if Sanitizer.present compiled then compiled
  else
    let source := tryFileVariants n (path_join n [process_cwd n; rel]) in
    if Sanitizer.present source then source else None.

(** A toy checkout: the compiled output holds utils/path.js, the sources
    hold utils/path.ts and the directory core with its index.ts. *)
Definition toy_join (segments : list string) : string :=
  String.concat "/" segments.

Definition toy_node : node :=
  {| existsSync :=
       fun p =>
         BuildProto.str_in p
           ["/repo/out/unit/src/utils/path.js"; "/repo/src/utils/path.ts";
            "/repo/src/core"; "/repo/src/core/index.ts"];
     isDirectory := fun p => String.eqb p "/repo/src/core";
     path_join := toy_join;
     process_cwd := "/repo" |}.

End Requires.

(** ** Vocabulary of the statements about a whole generation run *)

Module RunVocabulary.
Import BuildProto Vocabulary.

(** The first half of [compileProtos] in a fresh process, after [cleanup]:
    the probes run and a protoc is looked for. *)
Definition located (w : world) (disk : fs) : outcome unit :=
  resolve_phase w (cleaned_state w disk).

(** The state in which [compileProtos] decides whether to generate. *)
Definition located_state (w : world) (disk : fs) : state :=
  outcome_state (located w disk).

(** The file system on which generation starts: what [cleanup] and the
    probes have left of [disk]. *)
Definition located_files (w : world) (disk : fs) : fs :=
  files (located_state w disk).

(** The protoc of the run, the empty string when none has been resolved. *)
Definition run_protoc (w : world) (disk : fs) : string :=
  default "" (RESOLVED_PROTOC (located_state w disk)).

(** The proto files of the run: what the glob finds below the proto
    directory when generation starts. *)
Definition schema_files (w : world) (disk : fs) : list string :=
  globby w "**/*.proto" (PROTO_DIR w) (located_files w disk).

(** [fs.mkdir] succeeds on [dir]. *)
Definition mkdir_ok (w : world) (disk : fs) (dir : string) : bool :=
  match mkdir_error w dir disk with
  | None => true
  | Some _ => false
  end.

(** The run reaches the generating commands: the first half of
    [compileProtos] returns, a protoc has been resolved and the four output
    directories can be created. *)
Definition generates (w : world) (disk : fs) : bool :=
  match located w disk with
  | Return _ st =>
      negb (is_null_or_empty (RESOLVED_PROTOC st))
      && forallb (mkdir_ok w (files st)) (output_dirs w)
  | _ => false
  end.

(** The options of the three flavors as they reach the command line. *)
Definition generic_options : string :=
  "env=node,esModuleInterop=true,outputServices=generic-definitions,outputIndex=true,useOptionals=none,useDate=false".

Definition grpc_js_options : string :=
  "outputServices=grpc-js," +:+ generic_options.

Definition nice_grpc_options : string :=
  "outputServices=nice-grpc,useExactTypes=false," +:+ generic_options.

(** The command line of one stub generation, written out: the compiler,
    the proto directory, the ts-proto plugin, the output directory, the
    options, then every proto file between double quotes. *)
Definition stub_line (w : world) (protoc outDir options : string)
    (protoFiles : list string) : string :=
  join " "
    ([protoc;
      "--proto_path=" +:+ quoted (PROTO_DIR w);
      "--plugin=protoc-gen-ts_proto=" +:+ quoted (TS_PROTO_PLUGIN w);
      "--ts_proto_out=" +:+ quoted outDir;
      "--ts_proto_opt=" +:+ options +:+ " "]
     ++ map quoted protoFiles).

(** The three stub generations of a run in the order of the script, one per
    flavor, each with its output directory, all over the proto files of the
    run. *)
Definition stub_runs (w : world) (disk : fs) : list (call_site * string) :=
  [(StubGen (TS_OUT_DIR w),
    stub_line w (run_protoc w disk) (TS_OUT_DIR w) generic_options
      (schema_files w disk));
   (StubGen (GRPC_JS_OUT_DIR w),
    stub_line w (run_protoc w disk) (GRPC_JS_OUT_DIR w) grpc_js_options
      (schema_files w disk));
   (StubGen (NICE_JS_OUT_DIR w),
    stub_line w (run_protoc w disk) (NICE_JS_OUT_DIR w) nice_grpc_options
      (schema_files w disk))].

(** The command line of the descriptor export, written out: the compiler,
    the proto directory, the one output file, the flag that includes the
    imports, then every proto file of the run. *)
Definition descriptor_line (w : world) (disk : fs) : string :=
  join " "
    ([run_protoc w disk;
      "--proto_path=" +:+ quoted (PROTO_DIR w);
      "--descriptor_set_out="
      +:+ quoted (DESCRIPTOR_OUT_DIR w +:+ "/descriptor_set.pb");
      "--include_imports"]
     ++ schema_files w disk).

(** Child processes started one after the other, each on the files the one
    before has left, up to and including the first that fails: the record of
    each process started, and the files at the end. *)
Fixpoint run_all (w : world) (commands : list (call_site * string))
    (disk : fs) : list exec_event * fs :=
  match commands with
  | [] => ([], disk)
  | c :: commands' =>
      let r := tool w c.2 disk in
      if tool_ok r then
        let rest := run_all w commands' (tool_written r ∪ disk) in
        (ExecEvent c.1 c.2 true :: rest.1, rest.2)
      else ([ExecEvent c.1 c.2 false], tool_written r ∪ disk)
  end.

(** Every process of the record succeeded. *)
Definition all_ok (trace : list exec_event) : bool := forallb ev_ok trace.

Definition is_stub (e : exec_event) : bool :=
  match ev_site e with
  | StubGen _ => true
  | _ => false
  end.

Definition is_export (e : exec_event) : bool :=
  match ev_site e with
  | DescriptorExport => true
  | _ => false
  end.

(** Two file systems with the same files outside [region]. *)
Definition agree_outside (region : string -> bool) (a b : fs) : Prop :=
  forall p, region p = false -> a !! p = b !! p.

(** [p] lies in the descriptor output directory, which [cleanup] leaves as
    it is. *)
Definition in_descriptor_dir (w : world) (p : string) : bool :=
  is_under (DESCRIPTOR_OUT_DIR w) p.

(** What the second run of a pipeline needs from the machine to repeat the
    first: the results of child processes, of [fs.mkdir] and of the glob do
    not depend on the files of the descriptor output directory, and child
    processes write into the output targets only. They may depend on
    everything else, the stub directories included. *)
Record descriptor_blind_tools (w : world) : Prop := {
  tool_skips_descriptors :
    forall command a b,
      agree_outside (in_descriptor_dir w) a b ->
      tool w command a = tool w command b;
  tool_writes_targets :
    forall command disk p,
      is_Some (tool_written (tool w command disk) !! p) ->
      in_output w p = true;
  mkdir_skips_descriptors :
    forall dir a b,
      agree_outside (in_descriptor_dir w) a b ->
      mkdir_error w dir a = mkdir_error w dir b;
  glob_skips_descriptors :
    forall pattern dir a b,
      agree_outside (in_descriptor_dir w) a b ->
      globby w pattern dir a = globby w pattern dir b
}.

(** A computation that adds files to the output targets only and does the
    same on every file system that differs in [region] only. *)
Definition framed {A : Type} (w : world) (region : string -> bool) (m : M A)
  : Prop :=
  forall st,
    exists written : fs,
      (forall p, is_Some (written !! p) -> in_output w p = true)
      /\ files (outcome_state (m st)) = written ∪ files st
      /\ forall disk',
           agree_outside region (files st) disk' ->
           m (with_files st disk') = refile (written ∪ disk') (m st).

End RunVocabulary.

(** ** Concrete inputs used to exercise the definitions *)

Module Examples.
Import BuildProto.

(** The string on which [sanitizeAssistantText] is not idempotent: removing
    the inner channel token leaves a channel token behind. *)
Definition nested_token : string := "<|us<|user|>er|>".

(** An answer that holds a complete HTML document, then a remark that
    mentions the doctype marker, then a fenced code block. *)
Definition html_then_remark : string :=
  "<html><body>Hi</body></html>" +:+ lf
  +:+ "A <!DOCTYPE html> line can be added on top." +:+ lf
  +:+ "```js" +:+ lf
  +:+ "console.log(1)" +:+ lf
  +:+ "```".

(** A toy compiler. The one on the PATH is found by which and answers
    the version check, any other binary crashes on it. For each generation
    command it writes one file into the target named on the command line,
    with the schema as its contents. A schema that reads "broken" makes
    the nice-grpc generation fail. *)
Definition schema_path : string := "/repo/proto/cline/task.proto".

Definition toy_tool (command : string) (disk : fs) : tool_result :=
  let schema := default "" (disk !! schema_path) in
  if String.eqb command "which protoc" then
    ToolResult true ("/usr/bin/protoc" +:+ lf) "" ∅
  else if String.eqb command (quoted "/usr/bin/protoc" +:+ " --version") then
    ToolResult true ("libprotoc 3.21.12" +:+ lf) "" ∅
  else if Js.includes command "--version" then
    ToolResult false "" "access violation" ∅
  else if Js.includes command "--descriptor_set_out" then
    ToolResult true "" ""
      {[ "/repo/dist-standalone/proto/descriptor_set.pb" := schema ]}
  else if Js.includes command "/repo/src/shared/proto" then
    ToolResult true "" "" {[ "/repo/src/shared/proto/cline/task.ts" := schema ]}
  else if Js.includes command "/repo/src/generated/grpc-js" then
    ToolResult true "" ""
      {[ "/repo/src/generated/grpc-js/cline/task.ts" := schema ]}
  else if Js.includes command "/repo/src/generated/nice-grpc" then
    if String.eqb schema "broken" then ToolResult false "" "plugin failed" ∅
    else
      ToolResult true "" ""
        {[ "/repo/src/generated/nice-grpc/cline/task.ts" := schema ]}
  else ToolResult false "" "unknown command" ∅.

(** The toy compiler on a full disk: the nice-grpc generation writes the
    beginning of one file and fails. *)
Definition partial_tool (command : string) (disk : fs) : tool_result :=
  if Js.includes command "/repo/src/generated/nice-grpc" then
    ToolResult false "" "No space left on device"
      {[ "/repo/src/generated/nice-grpc/cline/task.ts" := "export const" ]}
  else toy_tool command disk.

(** A machine on which no protoc answers. *)
Definition no_tool (command : string) (disk : fs) : tool_result :=
  ToolResult false "" "not found" ∅.

Definition idle_generator (disk : fs) : step_result :=
  StepResult disk [] Finished.

Definition toy_env (vars : list (string * string)) (name : string)
  : option string :=
  snd <$> List.find (fun kv => String.eqb (fst kv) name) vars.

Definition toy_world (vars : list (string * string))
    (the_tool : string -> fs -> tool_result) : world :=
  {| cwd := "/repo";
     env := toy_env vars;
     argv := ["node"; "scripts/build-proto.mjs"];
     platform := "linux";
     arch := "x64";
     bundled_protoc := Some "/repo/node_modules/grpc-tools/bin/protoc";
     ts_proto_plugin := "/repo/node_modules/ts-proto/protoc-gen-ts_proto";
     tool := the_tool;
     mkdir_error := fun _ _ => None;
     globby := fun _ _ _ => ["cline/task.proto"];
     protobus_setup_generator := idle_generator;
     host_bridge_client_generator := idle_generator |}.

Definition linux_world : world := toy_world [] toy_tool.

(** A checkout with one schema, a stale stub and a stale descriptor. *)
Definition toy_disk : fs :=
  {[ schema_path := "service TaskService {}";
     "/repo/src/shared/proto/old.ts" := "stale stub";
     "/repo/dist-standalone/proto/old.pb" := "stale descriptor" ]}.

Definition broken_disk : fs := {[ schema_path := "broken" ]}.

End Examples.

(** ** More concrete machines *)

Module MoreExamples.
Import BuildProto Examples.

(** An Apple Silicon machine without Rosetta: the probe prints the marker
    of the missing translator. *)
Definition mac_tool (command : string) (disk : fs) : tool_result :=
  if String.eqb command rosetta_command then
    ToolResult true ("NOT_INSTALLED" +:+ lf) "" ∅
  else toy_tool command disk.

Definition mac_world : world :=
  {| cwd := "/repo";
     env := toy_env [];
     argv := ["node"; "scripts/build-proto.mjs"];
     platform := "darwin";
     arch := "arm64";
     bundled_protoc := Some "/repo/node_modules/grpc-tools/bin/protoc";
     ts_proto_plugin := "/repo/node_modules/ts-proto/protoc-gen-ts_proto";
     tool := mac_tool;
     mkdir_error := fun _ _ => None;
     globby := fun _ _ _ => ["cline/task.proto"];
     protobus_setup_generator := idle_generator;
     host_bridge_client_generator := idle_generator |}.

(** A checkout in which src/generated cannot be written to. *)
Definition denied : js_error :=
  JsError "EACCES: permission denied, mkdir '/repo/src/generated/grpc-js'".

Definition readonly_world : world :=
  {| cwd := "/repo";
     env := toy_env [];
     argv := ["node"; "scripts/build-proto.mjs"];
     platform := "linux";
     arch := "x64";
     bundled_protoc := Some "/repo/node_modules/grpc-tools/bin/protoc";
     ts_proto_plugin := "/repo/node_modules/ts-proto/protoc-gen-ts_proto";
     tool := toy_tool;
     mkdir_error :=
       fun dir _ =>
         if Js.starts_with "/repo/src/generated" dir then Some denied else None;
     globby := fun _ _ _ => ["cline/task.proto"];
     protobus_setup_generator := idle_generator;
     host_bridge_client_generator := idle_generator |}.

(** A Windows machine on which where lists two compilers. *)
Definition cr : string := String (ascii_of_nat 13) "".

Definition where_tool (command : string) (disk : fs) : tool_result :=
  if String.eqb command "where protoc" then
    ToolResult true
      ("C:\tools\protoc.exe" +:+ cr +:+ lf +:+ "C:\old\protoc.exe" +:+ cr +:+ lf)
      "" ∅
  else ToolResult false "" "not recognized" ∅.

Definition windows_world : world :=
  {| cwd := "/repo";
     env := toy_env [];
     argv := ["node"; "scripts/build-proto.mjs"];
     platform := "win32";
     arch := "x64";
     bundled_protoc := None;
     ts_proto_plugin := "/repo/node_modules/ts-proto/protoc-gen-ts_proto";
     tool := where_tool;
     mkdir_error := fun _ _ => None;
     globby := fun _ _ _ => ["cline/task.proto"];
     protobus_setup_generator := idle_generator;
     host_bridge_client_generator := idle_generator |}.

End MoreExamples.

(** ** A compiler that looks at what it finds in its output directory *)

Module RunExamples.
Import BuildProto Examples.

Definition artifact_path : string :=
  "/repo/dist-standalone/proto/descriptor_set.pb".

(** The toy compiler, except that its descriptor export adds the schema to
    the descriptor set it finds instead of replacing it. *)
Definition appending_tool (command : string) (disk : fs) : tool_result :=
  if Js.includes command "--descriptor_set_out" then
    ToolResult true "" ""
      {[ artifact_path :=
           default "" (disk !! artifact_path)
           +:+ default "" (disk !! schema_path) ]}
  else toy_tool command disk.

Definition appending_world : world := toy_world [] appending_tool.

(** The paths of [disk] that lie under [dir]. *)
Definition paths_under (dir : string) (disk : fs) : list string :=
  List.filter (is_under dir) (map fst (map_to_list disk)).

End RunExamples.

(** * Properties of the sanitizer *)

Module RegexFacts.
Import Regex Vocabulary.

Lemma str_suffix_trans (a b c : string) :
  str_suffix a b -> str_suffix b c -> str_suffix a c.
Proof.
  intros Hab Hbc. induction Hbc; auto with regex.
Qed.

Lemma append_cons (c : ascii) (s t : string) :
  String c s +:+ t = String c (s +:+ t).
Proof. reflexivity. Qed.

Lemma append_nil (t : string) : "" +:+ t = t.
Proof. reflexivity. Qed.

Lemma length_append (a b : string) :
  String.length (a +:+ b) = (String.length a + String.length b)%nat.
Proof.
  induction a as [| c a IH]; [reflexivity |].
  rewrite append_cons. simpl. now rewrite IH.
Qed.

Lemma str_suffix_split (t s : string) :
  str_suffix t s -> exists pre, s = pre +:+ t.
Proof.
  induction 1 as [s | c t s _ [pre ->]].
  - exists "". reflexivity.
  - exists (String c pre). reflexivity.
Qed.

Lemma str_suffix_length (t s : string) :
  str_suffix t s -> (String.length t <= String.length s)%nat.
Proof. induction 1; simpl; lia. Qed.

Lemma str_suffix_same_length (t s : string) :
  str_suffix t s -> String.length t = String.length s -> t = s.
Proof.
  destruct 1 as [s | c t s H]; [reflexivity |].
  apply str_suffix_length in H. simpl. lia.
Qed.

Lemma reachable_refl (pos : nat) (rest : string) : reachable pos rest pos rest.
Proof. split; [constructor | reflexivity]. Qed.

Lemma reachable_trans (p1 : nat) (r1 : string) (p2 : nat) (r2 : string)
    (p3 : nat) (r3 : string) :
  reachable p1 r1 p2 r2 -> reachable p2 r2 p3 r3 -> reachable p1 r1 p3 r3.
Proof.
  intros [S12 L12] [S23 L23]. split; [eauto using str_suffix_trans | lia].
Qed.

Lemma reachable_next (pos : nat) (c : ascii) (rest : string) :
  reachable pos (String c rest) (S pos) rest.
Proof. split; [auto with regex | simpl; lia]. Qed.

Lemma reachable_shorter (pos : nat) (rest : string) (pos' : nat)
    (rest' : string) :
  reachable pos rest pos' rest' ->
  (pos <= pos')%nat
  /\ ((pos < pos')%nat -> (String.length rest' < String.length rest)%nat)
  /\ (pos' = pos -> rest' = rest).
Proof.
  intros [Hs Hl]. pose proof (str_suffix_length _ _ Hs).
  repeat split; [lia | lia |].
  intros ->. apply str_suffix_same_length; [exact Hs | lia].
Qed.

#[export] Hint Resolve reachable_refl reachable_next : regex.

Lemma star_loop_forward (R : Type)
    (step : nat -> string -> captures -> cont R -> option R)
    (greedy : bool) (k : cont R) :
  forward step ->
  forall (fuel pos : nat) (rest : string) (caps : captures) (res : R),
    star_loop step greedy k fuel pos rest caps = Some res ->
    exists pos' rest' caps',
      reachable pos rest pos' rest' /\ k pos' rest' caps' = Some res.
Proof.
  intros Hstep fuel.
  induction fuel as [| fuel IHf]; intros pos rest caps res Hrun;
    simpl in Hrun.
  - destruct greedy.
    + eauto 6 with regex.
    + destruct (k pos rest caps) eqn:Ek; [| discriminate].
      injection Hrun as ->. eauto 6 with regex.
  - assert (Hagain : forall res',
               step pos rest caps
                 (fun pos' rest' caps' =>
                    if (pos <? pos')%nat
                    then star_loop step greedy k fuel pos' rest' caps'
                    else None) = Some res' ->
               exists pos' rest' caps',
                 reachable pos rest pos' rest' /\ k pos' rest' caps' = Some res').
    { intros res' H. apply Hstep in H as (pos1 & rest1 & caps1 & Hs1 & H).
      destruct (pos <? pos1)%nat; [| discriminate].
      apply IHf in H as (pos2 & rest2 & caps2 & Hs2 & Hk).
      eauto 7 using reachable_trans. }
    destruct greedy.
    + match type of Hrun with
      | match ?a with _ => _ end = _ => destruct a eqn:Ea
      end.
      * injection Hrun as ->. eauto.
      * eauto 6 with regex.
    + destruct (k pos rest caps) eqn:Ek.
      * injection Hrun as ->. eauto 6 with regex.
      * eauto.
Qed.

Lemma run_forward (R : Type) (r : regex) : forward (@run R r).
Proof.
  induction r as [| p | r1 IH1 r2 IH2 | r1 IH1 r2 IH2 | greedy r1 IH1
                  | n r1 IH1 |]; intros pos rest caps k res Hrun; simpl in Hrun.
  - eauto 6 with regex.
  - destruct rest as [| c rest']; [discriminate |].
    destruct (p c); [| discriminate]. eauto 7 with regex.
  - apply IH1 in Hrun as (pos1 & rest1 & caps1 & Hs1 & Hrun).
    apply IH2 in Hrun as (pos2 & rest2 & caps2 & Hs2 & Hk).
    eauto 7 using reachable_trans.
  - destruct (run r1 pos rest caps k) eqn:E1.
    + injection Hrun as ->. eauto.
    + eauto.
  - eapply star_loop_forward; eauto.
  - apply IH1 in Hrun as (pos1 & rest1 & caps1 & Hs1 & Hk). eauto 6.
  - destruct (pos =? 0)%nat; [| discriminate]. eauto 6 with regex.
Qed.

Lemma match_at_reachable (r : regex) (pos : nat) (rest : string) (m : found) :
  match_at r pos rest = Some m -> reachable pos rest (m_end m) (m_after m).
Proof.
  unfold match_at. intros H.
  apply run_forward in H as (pos' & rest' & caps' & Hs & H).
  injection H as <-. exact Hs.
Qed.

Lemma match_at_suffix (r : regex) (pos : nat) (rest : string) (m : found) :
  match_at r pos rest = Some m -> str_suffix (m_after m) rest.
Proof. intros H. now apply match_at_reachable in H as [H _]. Qed.

Lemma string_of_rev_cons (c : ascii) (skipped : list ascii) (s : string) :
  string_of_list_ascii (rev (c :: skipped)) +:+ s
  = string_of_list_ascii (rev skipped) +:+ String c s.
Proof.
  simpl. generalize (rev skipped) as l.
  induction l as [| a l IH]; simpl; [reflexivity |].
  rewrite !append_cons. now rewrite IH.
Qed.

(** A successful search splits the text into what precedes the match, the
    match, and what follows it. *)
Lemma search_split (r : regex) :
  forall (rest : string) (pos : nat) (skipped : list ascii)
         (before : string) (m : found),
    search r pos skipped rest = Some (before, m) ->
    exists mid,
      string_of_list_ascii (rev skipped) +:+ rest
      = before +:+ mid +:+ m_after m.
Proof.
  induction rest as [| c rest IH]; intros pos skipped before m H;
    simpl in H.
  - destruct (match_at r pos "") eqn:E; [| discriminate].
    injection H as <- <-.
    apply match_at_suffix, str_suffix_split in E as [mid ->]. eauto.
  - destruct (match_at r pos (String c rest)) eqn:E.
    + injection H as <- <-.
      apply match_at_suffix, str_suffix_split in E as [mid ->]. eauto.
    + apply IH in H as [mid H]. exists mid.
      now rewrite <- H, string_of_rev_cons.
Qed.

Lemma append_empty_mid (a mid b : string) :
  String.length (a +:+ b) = String.length (a +:+ mid +:+ b) ->
  a +:+ mid +:+ b = a +:+ b.
Proof.
  rewrite !length_append. intros H.
  destruct mid; [reflexivity | simpl in H; lia].
Qed.

(** Replacing the first match by the empty string never lengthens the
    text, and leaves the length alone only when it leaves the text alone. *)
Lemma replace_first_shrinks (r : regex) (s : string) :
  (String.length (replace_first r s) <= String.length s)%nat
  /\ (String.length (replace_first r s) = String.length s ->
      replace_first r s = s).
Proof.
  unfold replace_first.
  destruct (search r 0 [] s) as [[before m] |] eqn:E; [| auto].
  apply search_split in E as [mid E]. simpl in E.
  rewrite append_nil in E. subst s.
  split.
  - rewrite !length_append. lia.
  - intros H. symmetry. now apply append_empty_mid.
Qed.

(** ** The fuel of the loops is enough *)

Lemma star_loop_extensional (R : Type)
    (step : nat -> string -> captures -> cont R -> option R) (greedy : bool) :
  extensional step ->
  forall (fuel pos : nat) (rest : string) (caps : captures) (k1 k2 : cont R),
    (forall pos' rest' caps',
        reachable pos rest pos' rest' ->
        k1 pos' rest' caps' = k2 pos' rest' caps') ->
    star_loop step greedy k1 fuel pos rest caps
    = star_loop step greedy k2 fuel pos rest caps.
Proof.
  intros Hstep fuel.
  induction fuel as [| fuel IH]; intros pos rest caps k1 k2 Hk; simpl.
  - now rewrite (Hk pos rest caps (reachable_refl pos rest)).
  - rewrite (Hk pos rest caps (reachable_refl pos rest)).
    rewrite (Hstep pos rest caps
               (fun pos' rest' caps' =>
                  if (pos <? pos')%nat
                  then star_loop step greedy k1 fuel pos' rest' caps'
                  else None)
               (fun pos' rest' caps' =>
                  if (pos <? pos')%nat
                  then star_loop step greedy k2 fuel pos' rest' caps'
                  else None)); [reflexivity |].
    intros pos' rest' caps' Hreach.
    destruct (pos <? pos')%nat; [| reflexivity].
    apply IH. intros pos2 rest2 caps2 Hreach2.
    apply Hk. eauto using reachable_trans.
Qed.

Lemma run_extensional (R : Type) (r : regex) : extensional (@run R r).
Proof.
  induction r as [| p | r1 IH1 r2 IH2 | r1 IH1 r2 IH2 | greedy r1 IH1
                  | n r1 IH1 |]; intros pos rest caps k1 k2 Hk; simpl.
  - apply Hk. auto with regex.
  - destruct rest as [| c rest']; [reflexivity |].
    destruct (p c); [| reflexivity]. apply Hk. auto with regex.
  - apply IH1. intros pos1 rest1 caps1 H1.
    apply IH2. intros pos2 rest2 caps2 H2.
    apply Hk. eauto using reachable_trans.
  - now rewrite (IH1 pos rest caps k1 k2 Hk), (IH2 pos rest caps k1 k2 Hk).
  - now apply star_loop_extensional.
  - apply IH1. intros pos1 rest1 caps1 H1. now apply Hk.
  - destruct (pos =? 0)%nat; [| reflexivity]. apply Hk. auto with regex.
Qed.

(** An iteration of a starred atom that has no input left to read is
    rejected. *)
Lemma star_iteration_at_end (R : Type)
    (step : nat -> string -> captures -> cont R -> option R)
    (pos : nat) (rest : string) (caps : captures) (next : cont R) :
  forward step ->
  String.length rest = 0%nat ->
  step pos rest caps
    (fun pos' rest' caps' =>
       if (pos <? pos')%nat then next pos' rest' caps' else None)
  = None.
Proof.
  intros Hstep Hempty.
  destruct (step pos rest caps _) as [res |] eqn:E; [| reflexivity].
  apply Hstep in E as (pos' & rest' & caps' & Hreach & E).
  destruct (Nat.ltb_spec pos pos') as [Hlt | Hge]; [| discriminate].
  apply reachable_shorter in Hreach as (_ & Hshort & _).
  specialize (Hshort Hlt). lia.
Qed.

(** The loop of a starred atom gives the same result with any fuel that
    covers the input left: the bound it is started with loses no match. *)
Lemma star_loop_fuel (R : Type)
    (step : nat -> string -> captures -> cont R -> option R)
    (greedy : bool) (k : cont R) :
  forward step -> extensional step ->
  forall (n m pos : nat) (rest : string) (caps : captures),
    (String.length rest <= n)%nat -> (String.length rest <= m)%nat ->
    star_loop step greedy k n pos rest caps
    = star_loop step greedy k m pos rest caps.
Proof.
  intros Hfwd Hext n.
  induction n as [| n IH]; intros m pos rest caps Hn Hm.
  - destruct m as [| m]; [reflexivity |]. simpl.
    now rewrite star_iteration_at_end by (auto; lia).
  - destruct m as [| m]; simpl.
    + now rewrite star_iteration_at_end by (auto; lia).
    + rewrite (Hext pos rest caps
                 (fun pos' rest' caps' =>
                    if (pos <? pos')%nat
                    then star_loop step greedy k n pos' rest' caps'
                    else None)
                 (fun pos' rest' caps' =>
                    if (pos <? pos')%nat
                    then star_loop step greedy k m pos' rest' caps'
                    else None)); [reflexivity |].
      intros pos' rest' caps' Hreach.
      destruct (Nat.ltb_spec pos pos') as [Hlt | Hge]; [| reflexivity].
      apply reachable_shorter in Hreach as (_ & Hshort & _).
      specialize (Hshort Hlt). apply IH; lia.
Qed.

Lemma star_fuel_enough (R : Type) (greedy : bool) (r : regex) (fuel pos : nat)
    (rest : string) (caps : captures) (k : cont R) :
  (String.length rest <= fuel)%nat ->
  run (Star greedy r) pos rest caps k
  = star_loop (run r) greedy k fuel pos rest caps.
Proof.
  intros Hfuel. simpl.
  apply star_loop_fuel;
    auto using run_forward, run_extensional.
Qed.

(** A successful search from [pos]: the text is what was skipped, then
    the match, then the rest, and the match ends where its length says. *)
Lemma search_tracks (r : regex) :
  forall (rest : string) (pos : nat) (skipped : list ascii)
         (before : string) (m : found),
    search r pos skipped rest = Some (before, m) ->
    exists pre mid,
      rest = pre +:+ mid +:+ m_after m
      /\ before = string_of_list_ascii (rev skipped) +:+ pre
      /\ m_end m = (pos + String.length pre + String.length mid)%nat.
Proof.
  induction rest as [| c rest IH]; intros pos skipped before m H;
    simpl in H.
  - destruct (match_at r pos "") eqn:E; [| discriminate].
    injection H as <- <-.
    apply match_at_reachable in E as [Hs Hl].
    apply str_suffix_split in Hs as [mid Hs]. exists "", mid.
    split; [exact Hs |]. split.
    + clear. induction (rev skipped) as [| a l IHl]; [reflexivity |].
      simpl. rewrite append_cons. now rewrite <- IHl.
    + rewrite Hs, length_append in Hl. simpl. lia.
  - destruct (match_at r pos (String c rest)) eqn:E.
    + injection H as <- <-.
      apply match_at_reachable in E as [Hs Hl].
      apply str_suffix_split in Hs as [mid Hs]. exists "", mid.
      split; [exact Hs |]. split.
      * clear. induction (rev skipped) as [| a l IHl]; [reflexivity |].
        simpl. rewrite append_cons. now rewrite <- IHl.
      * rewrite Hs, length_append in Hl. simpl. lia.
    + apply IH in H as (pre & mid & Hrest & Hbefore & Hend).
      exists (String c pre), mid. split; [| split].
      * rewrite append_cons. now rewrite <- Hrest.
      * now rewrite Hbefore, string_of_rev_cons.
      * simpl. lia.
Qed.

(** A global replacement gives the same result with any fuel above the
    length of the text left: the bound it is started with cuts nothing. *)
Lemma replace_all_from_fuel (r : regex) :
  forall (n m pos : nat) (rest : string),
    (String.length rest < n)%nat -> (String.length rest < m)%nat ->
    replace_all_from n r pos rest = replace_all_from m r pos rest.
Proof.
  induction n as [| n IH]; intros m pos rest Hn Hm; [lia |].
  destruct m as [| m]; [lia |]. simpl.
  destruct (search r pos [] rest) as [[before found] |] eqn:E;
    [| reflexivity].
  apply search_tracks in E as (pre & mid & Hrest & Hbefore & Hend).
  simpl in Hbefore. rewrite append_nil in Hbefore. subst before.
  assert (Hlen : String.length rest
                 = (String.length pre + String.length mid
                    + String.length (m_after found))%nat)
    by (rewrite Hrest, !length_append; lia).
  destruct (m_end found =? pos + String.length pre)%nat eqn:Hempty.
  - destruct (m_after found) as [| c after'] eqn:Hafter; [reflexivity |].
    simpl in Hlen. f_equal. f_equal. apply IH; lia.
  - apply Nat.eqb_neq in Hempty. f_equal. apply IH; lia.
Qed.

(** A pattern that starts by reading one code unit has no empty match. *)
Lemma run_consumes (R : Type) (r : regex) :
  reads_first r = true ->
  forall (pos : nat) (rest : string) (caps : captures) (k : cont R) (res : R),
    run r pos rest caps k = Some res ->
    exists pos' rest' caps',
      reachable pos rest pos' rest' /\ (pos < pos')%nat
      /\ k pos' rest' caps' = Some res.
Proof.
  induction r as [| p | r1 IH1 r2 _ | | | n r1 IH1 |];
    intros Hfirst pos rest caps k res Hrun; try discriminate;
    simpl in Hfirst, Hrun.
  - destruct rest as [| c rest']; [discriminate |].
    destruct (p c); [| discriminate].
    exists (S pos), rest', caps. auto with regex.
  - apply (IH1 Hfirst) in Hrun as (pos1 & rest1 & caps1 & H1 & Hlt & Hrun).
    apply run_forward in Hrun as (pos2 & rest2 & caps2 & H2 & Hk).
    exists pos2, rest2, caps2. split; [eauto using reachable_trans |].
    apply reachable_shorter in H2 as (Hle & _). split; [lia | exact Hk].
  - apply (IH1 Hfirst) in Hrun as (pos1 & rest1 & caps1 & H1 & Hlt & Hk).
    eauto 7.
Qed.

Lemma match_at_consumes (r : regex) (pos : nat) (rest : string) (m : found) :
  reads_first r = true ->
  match_at r pos rest = Some m ->
  (String.length (m_after m) < String.length rest)%nat.
Proof.
  unfold match_at. intros Hfirst H.
  apply (run_consumes _ r Hfirst) in H as (pos' & rest' & caps' & Hr & Hlt & H).
  injection H as <-. simpl.
  apply reachable_shorter in Hr as (_ & Hshort & _). auto.
Qed.

(** What a successful search has found is a match at the place found. *)
Lemma search_found (r : regex) :
  forall (rest : string) (pos : nat) (skipped : list ascii)
         (before : string) (m : found),
    search r pos skipped rest = Some (before, m) ->
    exists pre rest1,
      rest = pre +:+ rest1
      /\ match_at r (pos + String.length pre) rest1 = Some m.
Proof.
  induction rest as [| c rest IH]; intros pos skipped before m H;
    simpl in H.
  - destruct (match_at r pos "") eqn:E; [| discriminate].
    injection H as <- <-. exists "", "". rewrite Nat.add_0_r. auto.
  - destruct (match_at r pos (String c rest)) eqn:E.
    + injection H as <- <-. exists "", (String c rest).
      rewrite Nat.add_0_r. auto.
    + apply IH in H as (pre & rest1 & -> & H).
      exists (String c pre), rest1. split; [reflexivity |].
      simpl. now rewrite <- Nat.add_succ_comm.
Qed.

End RegexFacts.

Module SanitizerFacts.
Import Regex Vocabulary RegexFacts Sanitizer Examples.

(** One round of replacements never lengthens the text; it reports a change
    exactly when some replacement shortened it. *)
Lemma strip_round_spec (patterns : list regex) :
  forall (text : string) (matched0 : bool),
    let out := strip_round patterns text matched0 in
    (String.length (fst out) <= String.length text)%nat
    /\ (snd out = false -> fst out = text /\ matched0 = false)
    /\ (snd out = true ->
        matched0 = true \/ (String.length (fst out) < String.length text)%nat).
Proof.
  unfold strip_round.
  induction patterns as [| re patterns IH]; intros text matched0; simpl.
  - repeat split; auto.
  - destruct (replace_first_shrinks re text) as [Hle Hsame].
    specialize (IH (replace_first re text)
                  (if String.eqb (replace_first re text) text
                   then matched0 else true)).
    simpl in IH. destruct IH as (IHle & IHfalse & IHtrue).
    destruct (String.eqb_spec (replace_first re text) text) as [Heq | Hne].
    + rewrite Heq in *. auto.
    + assert (String.length (replace_first re text) < String.length text)%nat
        by (destruct (Nat.eq_dec (String.length (replace_first re text))
                        (String.length text)) as [E | E];
            [apply Hsame in E; contradiction | lia]).
      split; [lia |]. split.
      * intros Hf. apply IHfalse in Hf as [_ Hf]. discriminate.
      * intros _. right. lia.
Qed.

Lemma strip_loop_step (fuel : nat) (text : string) :
  strip_loop (S fuel) text
  = let (result', matched) := strip_round LEADING_PATTERNS text false in
    if matched then strip_loop fuel result' else result'.
Proof. reflexivity. Qed.

(** With fuel above the length of the text, the loop stops because a round
    found nothing to remove, not because the fuel ran out. *)
Lemma strip_loop_exits (fuel : nat) :
  forall text : string,
    (String.length text < fuel)%nat ->
    strip_round LEADING_PATTERNS (strip_loop fuel text) false
    = (strip_loop fuel text, false).
Proof.
  induction fuel as [| fuel IH]; intros text Hlen; [lia |].
  rewrite strip_loop_step.
  pose proof (strip_round_spec LEADING_PATTERNS text false) as Hspec.
  destruct (strip_round LEADING_PATTERNS text false) as [result' matched] eqn:E.
  simpl in Hspec. destruct Hspec as (Hle & Hfalse & Htrue).
  destruct matched.
  - apply IH. destruct (Htrue eq_refl) as [? | ?]; [discriminate | lia].
  - destruct (Hfalse eq_refl) as [-> _]. exact E.
Qed.

Lemma stripLeadingArtifacts_exits (text : string) :
  strip_round LEADING_PATTERNS (stripLeadingArtifacts text) false
  = (stripLeadingArtifacts text, false).
Proof. apply strip_loop_exits. lia. Qed.

(** The loop that collects the fenced blocks gives the same list with any
    fuel above the length of the text left: every fence match reads at
    least one code unit, so the bound it is started with cuts nothing. *)
Lemma collect_blocks_fuel :
  forall (n m pos : nat) (rest : string),
    (String.length rest < n)%nat -> (String.length rest < m)%nat ->
    collect_blocks n pos rest = collect_blocks m pos rest.
Proof.
  induction n as [| n IH]; intros m pos rest Hn Hm; [lia |].
  destruct m as [| m]; [lia |]. cbn [collect_blocks].
  destruct (search fenceRe pos [] rest) as [[before found] |] eqn:E;
    [| reflexivity].
  apply search_found in E as (pre & rest1 & -> & E).
  apply match_at_consumes in E; [| reflexivity].
  rewrite length_append in Hn, Hm. f_equal. apply IH; lia.
Qed.

Lemma replace_first_no_match (re : regex) (t : string) :
  no_match re t = true -> replace_first re t = t.
Proof.
  unfold no_match, replace_first. now destruct (search re 0 [] t).
Qed.

Lemma replace_all_no_match (re : regex) (t : string) :
  no_match re t = true -> replace_all re t = t.
Proof.
  unfold no_match, replace_all. simpl. now destruct (search re 0 [] t).
Qed.

(** Clean text is a fixed point of the sanitizer. In particular, whenever
    the result of [sanitizeAssistantText] is clean, sanitizing it again
    changes nothing. *)
Lemma sanitizeAssistantText_fixes_clean_text (t : string) :
  is_clean t = true -> sanitizeAssistantText t = t.
Proof.
  unfold is_clean. rewrite forallb_forall. intros Hclean.
  assert (H : forall re,
             In re (LEADING_PATTERNS
                    ++ [re_thinking_open; re_thinking_close; re_im_start;
                        re_im_end; re_channel_token]) ->
             replace_first re t = t /\ replace_all re t = t).
  { intros re Hre. specialize (Hclean re Hre).
    split; [now apply replace_first_no_match | now apply replace_all_no_match]. }
  unfold sanitizeAssistantText. destruct (Js.falsy t); [reflexivity |].
  cbv zeta.
  assert (Hlead : stripLeadingArtifacts t = t).
  { unfold stripLeadingArtifacts. rewrite strip_loop_step.
    unfold strip_round, LEADING_PATTERNS. cbn [fold_left fst snd].
    rewrite (proj1 (H re_leading_channels ltac:(simpl; tauto))).
    rewrite String.eqb_refl.
    rewrite (proj1 (H re_leading_header ltac:(simpl; tauto))).
    rewrite String.eqb_refl.
    rewrite (proj1 (H re_leading_prefix ltac:(simpl; tauto))).
    now rewrite String.eqb_refl. }
  rewrite Hlead. unfold stripThinkingTags, stripInlineChatMl.
  rewrite (proj2 (H re_thinking_open ltac:(simpl; tauto))).
  rewrite (proj2 (H re_thinking_close ltac:(simpl; tauto))).
  rewrite (proj2 (H re_im_start ltac:(simpl; tauto))).
  rewrite (proj2 (H re_im_end ltac:(simpl; tauto))).
  now rewrite (proj2 (H re_channel_token ltac:(simpl; tauto))).
Qed.

(** The matcher backtracks as the engine of the language does: in
    "```js", two line feeds, "```" the white space before the line feed
    gives both line feeds back, so that the first one opens an empty body
    and the second one closes it. *)
Example fence_with_empty_body :
  extractFencedCode ("```js" +:+ BuildProto.lf +:+ BuildProto.lf +:+ "```") None
  = Some "".
Proof. reflexivity. Qed.

Example sanitizeAssistantText_strips :
  sanitizeAssistantText
    "<|analysis|> <|THINKING|>  analysis> hello <thinking> x </thinking> <|im_start|> user hi<|im_end|>"
  = "hello x hi".
Proof. vm_compute. reflexivity. Qed.

Example sanitizeFileContent_prefers_labelled_block :
  sanitizeFileContent
    ("Two versions:" +:+ BuildProto.lf
     +:+ "```python" +:+ BuildProto.lf +:+ "print(1234567)" +:+ BuildProto.lf
     +:+ "```" +:+ BuildProto.lf
     +:+ "```JS" +:+ BuildProto.lf +:+ "f()" +:+ BuildProto.lf +:+ "```")
    (Some "js")
  = "f()".
Proof. vm_compute. reflexivity. Qed.

(** With both start markers present the later one is taken: the doctype
    line of an ordinary document is cut off. *)
Example extractHtmlDocument_drops_doctype :
  sanitizeFileContent
    ("<!DOCTYPE html>" +:+ BuildProto.lf +:+ "<html><body>Hi</body></html>")
    None
  = "<html><body>Hi</body></html>".
Proof. vm_compute. reflexivity. Qed.

(** C8: a falsy input, that is the empty string, is returned as it is by
    [sanitizeAssistantText] and by [sanitizeFileContent], whatever the
    expected language. *)
Theorem sanitize_falsy_unchanged (raw : string) :
  Js.falsy raw = true ->
  sanitizeAssistantText raw = raw
  /\ forall expectedLanguage : option string,
       sanitizeFileContent raw expectedLanguage = raw.
Proof.
  intros Hfalsy. unfold sanitizeFileContent, sanitizeAssistantText.
  rewrite Hfalsy. auto.
Qed.

Lemma sanitize_falsy_unchanged_witness :
  Js.falsy "" = true
  /\ sanitizeAssistantText "" = ""
  /\ forall expectedLanguage : option string,
       sanitizeFileContent "" expectedLanguage = "".
Proof.
  split; [reflexivity |]. apply (sanitize_falsy_unchanged ""). reflexivity.
Defined.

(** C9: on [html_then_remark] the sanitized text holds the document
    <html>...</html> (start marker at 0, end marker at 21), yet
    [extractHtmlDocument] finds nothing, because the larger of the two start
    indices (the doctype mention at 31) lies after the last end marker, and
    [sanitizeFileContent] returns the body of the fenced block. *)
Theorem sanitizeFileContent_misses_html :
  let text := sanitizeAssistantText html_then_remark in
  Js.indexOf (Js.toLowerCase text) "<html" = 0
  /\ Js.lastIndexOf (Js.toLowerCase text) "</html>" = 21
  /\ Js.indexOf (Js.toLowerCase text) "<!doctype" = 31
  /\ extractHtmlDocument text = None
  /\ sanitizeFileContent html_then_remark None = "console.log(1)".
Proof. vm_compute. repeat split; reflexivity. Qed.

(** C10 as stated fails: sanitizing [nested_token] gives the token <|user|>,
    and sanitizing that gives the empty string. *)
Lemma sanitizeAssistantText_not_idempotent :
  sanitizeAssistantText nested_token = "<|user|>"
  /\ sanitizeAssistantText (sanitizeAssistantText nested_token) = ""
  /\ sanitizeAssistantText (sanitizeAssistantText nested_token)
     <> sanitizeAssistantText nested_token.
Proof. vm_compute. repeat split; [reflexivity .. | discriminate]. Qed.

(** C10, amended: the first stage is idempotent. For every text, the loop
    of [stripLeadingArtifacts] ends on a round in which no leading pattern
    removes anything, so stripping the result again changes nothing. *)
Theorem stripLeadingArtifacts_idempotent (s : string) :
  stripLeadingArtifacts (stripLeadingArtifacts s) = stripLeadingArtifacts s.
Proof.
  unfold stripLeadingArtifacts at 1.
  rewrite strip_loop_step, stripLeadingArtifacts_exits. reflexivity.
Qed.

End SanitizerFacts.

Module HtmlFacts.
Import Regex Vocabulary RegexFacts Sanitizer Examples.

Lemma starts_with_split (pre s : string) :
  Js.starts_with pre s = true -> exists post, s = pre +:+ post.
Proof.
  revert s. induction pre as [| a pre IH]; intros s H.
  - exists s. reflexivity.
  - destruct s as [| b s]; simpl in H; [discriminate |].
    apply andb_true_iff in H as [Hab H]. apply Ascii.eqb_eq in Hab as ->.
    destruct (IH s H) as [post ->]. exists post. reflexivity.
Qed.

(** [find_first] returns a position at which the needle occurs. *)
Lemma find_first_occurs (needle : string) :
  forall (hay : string) (i : nat),
    Js.find_first needle hay = Some i ->
    exists pre post,
      hay = pre +:+ needle +:+ post /\ String.length pre = i.
Proof.
  induction hay as [| c hay IH]; intros i H; simpl in H.
  - destruct (Js.starts_with needle "") eqn:E; [| discriminate].
    injection H as <-. apply starts_with_split in E as [post E].
    exists "", post. auto.
  - destruct (Js.starts_with needle (String c hay)) eqn:E.
    + injection H as <-. apply starts_with_split in E as [post E].
      exists "", post. auto.
    + destruct (Js.find_first needle hay) as [j |] eqn:Ej; [| discriminate].
      injection H as <-. destruct (IH j eq_refl) as (pre & post & -> & Hlen).
      exists (String c pre), post. simpl. auto.
Qed.

(** Only the left angle bracket lowers to the left angle bracket. *)
Lemma lower_char_lt (c : ascii) : Js.lower_char c = "<"%char -> c = "<"%char.
Proof.
  destruct c as [[] [] [] [] [] [] [] []]; vm_compute; intros H;
    first [reflexivity | discriminate H].
Qed.

(** [toLowerCase] works code unit by code unit. *)
Lemma toLowerCase_split (pre : string) :
  forall (s : string) (a : ascii) (rest : string),
    Js.toLowerCase s = pre +:+ String a rest ->
    exists spre c srest,
      s = spre +:+ String c srest
      /\ String.length spre = String.length pre
      /\ Js.lower_char c = a.
Proof.
  induction pre as [| x pre IH]; intros s a rest H.
  - destruct s as [| c s]; [discriminate |].
    injection H as Hc _. exists "", c, s. auto.
  - destruct s as [| c s]; [discriminate |].
    rewrite append_cons in H. injection H as _ H.
    destruct (IH s a rest H) as (spre & c' & srest & -> & Hlen & Hc).
    exists (String c spre), c', srest. simpl. auto.
Qed.

Lemma substring_at (spre : string) (c : ascii) (srest : string) (n : nat) :
  substring (String.length spre) (S n) (spre +:+ String c srest)
  = String c (substring 0 n srest).
Proof.
  induction spre as [| x spre IH]; [reflexivity |].
  rewrite append_cons. exact IH.
Qed.

Lemma trim_keeps_bracket (s : string) : Js.truthy (Js.trim (String "<" s)) = true.
Proof.
  unfold Js.trim. cbn [Js.trimStart]. change (Js.is_ws "<") with false.
  cbv iota. cbn [Js.trimEnd]. now destruct (Js.trimEnd s).
Qed.

(** A marker found by [indexOf] in the lowered text sits on a left angle
    bracket of the text itself. *)
Lemma marker_is_bracket (text marker : string) (i : nat) :
  Js.find_first (String "<" marker) (Js.toLowerCase text) = Some i ->
  exists spre srest,
    text = spre +:+ String "<" srest /\ String.length spre = i.
Proof.
  intros H. apply find_first_occurs in H as (pre & post & H & Hlen).
  rewrite append_cons in H.
  apply toLowerCase_split in H as (spre & c & srest & -> & Hl & Hc).
  apply lower_char_lt in Hc as ->. exists spre, srest. split; congruence.
Qed.

(** Whatever [extractHtmlDocument] returns is not empty. *)
Lemma extractHtmlDocument_truthy (text html : string) :
  extractHtmlDocument text = Some html -> Js.truthy html = true.
Proof.
  unfold extractHtmlDocument. cbv zeta.
  set (lower := Js.toLowerCase text).
  set (i1 := Js.indexOf lower "<!doctype").
  set (i2 := Js.indexOf lower "<html").
  set (j := Js.lastIndexOf lower "</html>").
  destruct (negb (Z.max i1 i2 =? -1) && negb (j =? -1) && (Z.max i1 i2 <? j))
    eqn:Hcond; [| discriminate].
  intros [= <-].
  apply andb_true_iff in Hcond as [Hcond Hlt].
  apply andb_true_iff in Hcond as [Hstart _].
  apply negb_true_iff, Z.eqb_neq in Hstart. apply Z.ltb_lt in Hlt.
  assert (Hmarker : exists marker i,
             Js.find_first (String "<" marker) lower = Some i
             /\ Z.max i1 i2 = Z.of_nat i).
  { subst i1 i2. unfold Js.indexOf in *.
    destruct (Js.find_first "<!doctype" lower) as [a |] eqn:E1;
      destruct (Js.find_first "<html" lower) as [b |] eqn:E2;
      simpl in *.
    - destruct (Z.max_spec (Z.of_nat a) (Z.of_nat b)) as [[_ ->] | [_ ->]];
        eauto.
    - exists "!doctype", a. split; [exact E1 | lia].
    - exists "html", b. split; [exact E2 | lia].
    - lia. }
  destruct Hmarker as (marker & i & Hfound & Hi).
  apply marker_is_bracket in Hfound as (spre & srest & Htext & Hlen).
  rewrite Hi in *. clear Hi. clearbody j. clear i1 i2. clear lower.
  subst text i. unfold Js.slice, Js.clamp_index.
  rewrite length_append. simpl String.length.
  assert (Hi0 : (Z.of_nat (String.length spre) <? 0) = false)
    by (apply Z.ltb_ge; lia).
  assert (Hj0 : (j + Z.of_nat 7 <? 0) = false) by (apply Z.ltb_ge; lia).
  rewrite Hi0, Hj0.
  replace (Z.to_nat (Z.min (Z.of_nat (String.length spre))
                       (Z.of_nat (String.length spre + S (String.length srest)))))
    with (String.length spre) by lia.
  match goal with
  | |- context [substring _ (Z.to_nat ?n) _] =>
      destruct (Z.to_nat n) as [| n'] eqn:Hn; [lia |]
  end.
  rewrite substring_at. apply trim_keeps_bracket.
Qed.

(** When [extractHtmlDocument] finds a document in the sanitized text,
    [sanitizeFileContent] returns it, whatever fenced blocks there are. *)
Lemma sanitizeFileContent_returns_found_html (raw html : string)
    (expectedLanguage : option string) :
  extractHtmlDocument (sanitizeAssistantText raw) = Some html ->
  sanitizeFileContent raw expectedLanguage = html.
Proof.
  intros H. unfold sanitizeFileContent.
  destruct raw as [| c raw]; [discriminate H |].
  cbn [Js.falsy]. cbv zeta. rewrite H. simpl present.
  now rewrite (extractHtmlDocument_truthy _ _ H).
Qed.

End HtmlFacts.

(** * Properties of the build script *)

Module BuildFacts.
Import BuildProto Vocabulary Examples.

(** ** Strings and paths *)

Lemma append_assoc (a b c : string) : (a +:+ b) +:+ c = a +:+ (b +:+ c).
Proof.
  induction a as [| x a IH]; [reflexivity |].
  rewrite !RegexFacts.append_cons. now rewrite IH.
Qed.

Lemma prefix_append (a t : string) : Js.starts_with a (a +:+ t) = true.
Proof.
  induction a as [| x a IH]; [reflexivity |].
  rewrite RegexFacts.append_cons. simpl.
  now rewrite Ascii.eqb_refl.
Qed.

Lemma prefix_inv (a p : string) :
  Js.starts_with a p = true -> exists t, p = a +:+ t.
Proof.
  revert p. induction a as [| x a IH]; intros p H.
  - exists p. reflexivity.
  - destruct p as [| y p]; simpl in H; [discriminate |].
    apply andb_true_iff in H as [Hxy H]. apply Ascii.eqb_eq in Hxy as ->.
    destruct (IH p H) as [t ->]. exists t. reflexivity.
Qed.

Lemma prefix_shift (b x y : string) :
  Js.starts_with (b +:+ x) (b +:+ y) = Js.starts_with x y.
Proof.
  induction b as [| c b IH]; [reflexivity |].
  rewrite !RegexFacts.append_cons. simpl.
  now rewrite Ascii.eqb_refl.
Qed.

Lemma eqb_shift (b x y : string) :
  String.eqb (b +:+ x) (b +:+ y) = String.eqb x y.
Proof.
  induction b as [| c b IH]; [reflexivity |].
  rewrite !RegexFacts.append_cons. simpl.
  now rewrite Ascii.eqb_refl.
Qed.

Lemma is_under_shift (b x y : string) :
  is_under (b +:+ x) (b +:+ y) = is_under x y.
Proof.
  unfold is_under. now rewrite eqb_shift, append_assoc, prefix_shift.
Qed.

(** Whatever lies under a subdirectory lies under the directory. *)
Lemma is_under_subdir (dir sub p : string) :
  is_under (dir +:+ "/" +:+ sub) p = true -> is_under dir p = true.
Proof.
  unfold is_under. intros H. apply orb_true_iff in H as [H | H];
    apply orb_true_iff; right.
  - apply String.eqb_eq in H as ->.
    rewrite <- (append_assoc dir "/" sub). apply prefix_append.
  - apply prefix_inv in H as [t ->].
    rewrite !append_assoc, <- (append_assoc dir "/"). apply prefix_append.
Qed.

Lemma resolve_relative (w : world) (x : string) :
  Js.starts_with "/" x = false -> path_resolve w x = cwd_slash w +:+ x.
Proof. unfold path_resolve. now intros ->. Qed.

Lemma cwd_slash_absolute (w : world) :
  Js.starts_with "/" (cwd w) = true ->
  forall x, Js.starts_with "/" (cwd_slash w +:+ x) = true.
Proof.
  intros H x. unfold cwd_slash.
  destruct (String.eqb (cwd w) "/"); [reflexivity |].
  apply prefix_inv in H as [t ->]. reflexivity.
Qed.

Lemma resolve_resolved (w : world) (x : string) :
  Js.starts_with "/" (cwd w) = true ->
  path_resolve w (path_resolve w x) = path_resolve w x.
Proof.
  intros H. unfold path_resolve at 2 3.
  destruct (Js.starts_with "/" x) eqn:E.
  - unfold path_resolve. now rewrite E.
  - unfold path_resolve. now rewrite cwd_slash_absolute.
Qed.

(** ** The file system *)

Lemma lookup_drop_paths (gone : string -> bool) (disk : fs) (p : string) :
  drop_paths gone disk !! p = if gone p then None else disk !! p.
Proof.
  unfold drop_paths. destruct (gone p) eqn:E.
  - apply map_lookup_filter_None. right. intros x _. simpl. congruence.
  - destruct (disk !! p) as [x |] eqn:Ex.
    + apply map_lookup_filter_Some. auto.
    + apply map_lookup_filter_None. auto.
Qed.

Lemma with_files_same (st : state) : with_files st (files st) = st.
Proof. now destruct st. Qed.

Lemma printed_nothing (st : state) : printed [] st = st.
Proof. destruct st. unfold printed. simpl. now rewrite app_nil_r. Qed.

Lemma log_verbose_eq (w : world) (args : list console_arg) (st : state) :
  log_verbose w args st
  = Return tt (printed (if verbose w then [Line Stdout args] else []) st).
Proof.
  unfold log_verbose, verbose.
  destruct (str_in "-v" (argv w) || str_in "--verbose" (argv w)).
  - reflexivity.
  - now rewrite printed_nothing.
Qed.

Lemma for_each_cons {A : Type} (x : A) (xs : list A) (body : A -> M unit) :
  for_each (x :: xs) body = (body x >> for_each xs body).
Proof. reflexivity. Qed.

(** A sequence of [rmrf] calls removes what each call removes. *)
Lemma for_each_rmrf (w : world) (targets : list string) :
  forall st : state,
    for_each targets (rmrf w) st
    = Return tt (with_files st (drop_paths (removed_by w targets) (files st))).
Proof.
  induction targets as [| t targets IH]; intros st; simpl.
  - unfold ret. f_equal. rewrite <- (with_files_same st) at 1. f_equal.
    apply map_eq. intros p. now rewrite lookup_drop_paths.
  - unfold bind, rmrf at 1. rewrite IH. f_equal.
    unfold with_files. simpl. f_equal.
    apply map_eq. intros p. rewrite !lookup_drop_paths. simpl.
    destruct (is_under (path_resolve w t) p), (removed_by w targets p);
      reflexivity.
Qed.

Lemma cleanup_as_for_each (w : world) :
  cleanup w
  = (log_verbose w [Txt "Cleaning up existing generated TypeScript files..."] >>
     for_each (cleanup_paths w) (rmrf w)).
Proof.
  unfold cleanup, cleanup_paths.
  rewrite <- !app_comm_cons, app_nil_l, !for_each_cons. reflexivity.
Qed.

(** [cleanup] as one deletion. *)
Lemma cleanup_eq (w : world) (st : state) :
  cleanup w st
  = Return tt
      (with_files
         (printed
            (if verbose w
             then [Line Stdout
                     [Txt "Cleaning up existing generated TypeScript files..."]]
             else []) st)
         (drop_paths (cleaned_up w) (files st))).
Proof.
  rewrite cleanup_as_for_each. unfold bind. rewrite log_verbose_eq.
  rewrite for_each_rmrf. reflexivity.
Qed.

(** On a path below the working directory, deletion by relative targets
    can be decided on the relative paths. *)
Lemma removed_by_relative (w : world) (targets : list string) (y : string) :
  Forall (fun t => Js.starts_with "/" t = false) targets ->
  existsb (fun target => is_under (path_resolve w target) (cwd_slash w +:+ y))
    targets
  = existsb (fun t => is_under t y) targets.
Proof.
  induction 1 as [| t targets Ht _ IH]; [reflexivity |].
  simpl. now rewrite (resolve_relative w t Ht), is_under_shift, IH.
Qed.

Lemma is_under_split (dir p : string) :
  is_under dir p = true -> exists t, p = dir +:+ t.
Proof.
  unfold is_under. intros H. apply orb_true_iff in H as [H | H].
  - apply String.eqb_eq in H as ->. exists "".
    clear. induction dir as [| c dir IH]; [reflexivity |].
    rewrite RegexFacts.append_cons. now rewrite <- IH.
  - apply prefix_inv in H as [t ->]. exists ("/" +:+ t).
    now rewrite append_assoc.
Qed.

(** [cleanup] deletes everything in the three stub directories. *)
Lemma stub_dirs_cleaned_up (w : world) (p : string) :
  Js.starts_with "/" (cwd w) = true ->
  is_under (TS_OUT_DIR w) p = true
  \/ is_under (GRPC_JS_OUT_DIR w) p = true
  \/ is_under (NICE_JS_OUT_DIR w) p = true ->
  cleaned_up w p = true.
Proof.
  intros Hcwd H. unfold cleaned_up, removed_by. apply existsb_exists.
  destruct H as [H | [H | H]].
  - exists (TS_OUT_DIR w). split; [now left |].
    unfold TS_OUT_DIR in *. now rewrite resolve_resolved.
  - exists "src/generated". split; [right; now left |].
    unfold GRPC_JS_OUT_DIR in H.
    rewrite resolve_relative in * by reflexivity.
    apply (is_under_subdir _ "grpc-js"). now rewrite append_assoc.
  - exists "src/generated". split; [right; now left |].
    unfold NICE_JS_OUT_DIR in H.
    rewrite resolve_relative in * by reflexivity.
    apply (is_under_subdir _ "nice-grpc"). now rewrite append_assoc.
Qed.

(** [cleanup] deletes nothing in the descriptor directory. *)
Lemma descriptor_dir_not_cleaned_up (w : world) (p : string) :
  Js.starts_with "/" (cwd w) = true ->
  is_under (DESCRIPTOR_OUT_DIR w) p = true ->
  cleaned_up w p = false.
Proof.
  intros Hcwd H. unfold DESCRIPTOR_OUT_DIR in H.
  rewrite resolve_relative in H by reflexivity.
  apply is_under_split in H as [t ->]. rewrite append_assoc.
  unfold cleaned_up, cleanup_paths. rewrite <- app_comm_cons.
  unfold removed_by. cbn [existsb].
  unfold TS_OUT_DIR at 1. rewrite resolve_resolved by assumption.
  rewrite resolve_relative by reflexivity. rewrite is_under_shift.
  rewrite removed_by_relative.
  - reflexivity.
  - repeat constructor.
Qed.

End BuildFacts.

Module TraceFacts.
Import BuildProto Vocabulary Examples BuildFacts.

Lemma execSync_eq (w : world) (site : call_site) (mode : stderr_mode)
    (command : string) (st : state) :
  execSync w site mode command st
  = if tool_ok (tool w command (files st))
    then Return (tool_stdout (tool w command (files st)))
           (ran w site command st)
    else Throw (command_failed mode command
                  (tool_stderr (tool w command (files st))))
           (ran w site command st).
Proof. reflexivity. Qed.

Lemma tsProtoc_step (w : world) (protoc outDir : string)
    (protoFiles protoOptions : list string) :
  gen_step_spec w
    (StubGen outDir, tsProtoc_command w protoc outDir protoFiles protoOptions)
    (tsProtoc w protoc outDir protoFiles protoOptions).
Proof.
  intros st. unfold tsProtoc, try_catch, bind.
  rewrite !log_verbose_eq, execSync_eq.
  set (st1 := printed _ (printed _ st)).
  assert (Hfiles : files st1 = files st) by reflexivity.
  rewrite Hfiles.
  destruct (tool_ok (tool w _ (files st))) eqn:Hok.
  - left. eexists. split; [reflexivity |]. simpl. rewrite Hok. auto.
  - right. eexists. split; [reflexivity |]. simpl. rewrite Hok.
    split; [reflexivity |]. split; [reflexivity |].
    split; [apply last_snoc | reflexivity].
Qed.

Lemma descriptor_step (w : world) (protoc : string) (protoFiles : list string) :
  gen_step_spec w
    (DescriptorExport, descriptor_command w protoc protoFiles)
    (try_catch
       (log_verbose w [Txt "Generating descriptor set..."] >>
        execSync w DescriptorExport StderrDropped
          (descriptor_command w protoc protoFiles) >>
        ret tt)
       (fun error =>
          console_error
            [Txt "Error generating descriptor set for proto file:"; Err error] >>
          process_exit 1)).
Proof.
  intros st. unfold try_catch, bind.
  rewrite !log_verbose_eq, execSync_eq.
  set (st1 := printed _ st).
  assert (Hfiles : files st1 = files st) by reflexivity.
  rewrite Hfiles.
  destruct (tool_ok (tool w _ (files st))) eqn:Hok.
  - left. eexists. split; [reflexivity |]. simpl. rewrite Hok. auto.
  - right. eexists. split; [reflexivity |]. simpl. rewrite Hok.
    split; [reflexivity |]. split; [reflexivity |].
    split; [apply last_snoc | reflexivity].
Qed.

(** Creating the directories either throws or changes nothing. *)
Lemma mkdirs_eq (w : world) (dirs : list string) (st : state) :
  for_each dirs (fs_mkdir w) st = Return tt st
  \/ exists e, for_each dirs (fs_mkdir w) st = Throw e st.
Proof.
  induction dirs as [| dir dirs IH]; [now left |].
  rewrite for_each_cons. unfold bind.
  replace (fs_mkdir w dir st)
    with (match mkdir_error w dir (files st) with
          | Some e => Throw (A := unit) e st
          | None => Return tt st
          end) by reflexivity.
  destruct (mkdir_error w dir (files st)) as [e |];
    [right; now exists e | exact IH].
Qed.

Lemma generate_phase_run (w : world) (protoc : string) (st : state) :
  generation_run w protoc st (generate_phase w protoc st).
Proof.
  unfold generate_phase. unfold bind at 1.
  destruct (mkdirs_eq w
              [TS_OUT_DIR w; GRPC_JS_OUT_DIR w; NICE_JS_OUT_DIR w;
               DESCRIPTOR_OUT_DIR w] st) as [-> | [e ->]];
    [| apply run_mkdir_failed].
  unfold bind at 1.
  set (protoFiles := globby w "**/*.proto" (PROTO_DIR w) (files st)).
  unfold bind at 1. unfold console_log at 1, emit at 1.
  set (st0 := State _ _ _ _ _).
  assert (H0 : execs st0 = execs st /\ RESOLVED_PROTOC st0 = RESOLVED_PROTOC st)
    by (split; reflexivity).
  destruct H0 as [Hex0 Hres0]. clearbody st0.
  unfold bind at 1.
  destruct (tsProtoc_step w protoc (TS_OUT_DIR w) protoFiles TS_PROTO_OPTIONS st0)
    as [(st1 & -> & Hex1 & _ & Hres1)
       | (st1 & -> & Hex1 & Hfiles & Hlast & Hres1)].
  2:{ eapply (run_aborted w protoc st protoFiles 0);
        [reflexivity | | exact Hfiles | exact Hlast | congruence].
      rewrite Hex1, Hex0. reflexivity. }
  unfold bind at 1.
  destruct (tsProtoc_step w protoc (GRPC_JS_OUT_DIR w) protoFiles
              ("outputServices=grpc-js" :: TS_PROTO_OPTIONS) st1)
    as [(st2 & -> & Hex2 & _ & Hres2)
       | (st2 & -> & Hex2 & Hfiles & Hlast & Hres2)].
  2:{ eapply (run_aborted w protoc st protoFiles 1);
        [reflexivity | | exact Hfiles | exact Hlast | congruence].
      rewrite Hex2, Hex1, Hex0, <- !app_assoc. reflexivity. }
  unfold bind at 1.
  destruct (tsProtoc_step w protoc (NICE_JS_OUT_DIR w) protoFiles
              ("outputServices=nice-grpc,useExactTypes=false" :: TS_PROTO_OPTIONS)
              st2)
    as [(st3 & -> & Hex3 & _ & Hres3)
       | (st3 & -> & Hex3 & Hfiles & Hlast & Hres3)].
  2:{ eapply (run_aborted w protoc st protoFiles 2);
        [reflexivity | | exact Hfiles | exact Hlast | congruence].
      rewrite Hex3, Hex2, Hex1, Hex0, <- !app_assoc. reflexivity. }
  unfold bind at 1.
  destruct (descriptor_step w protoc protoFiles st3)
    as [(st4 & -> & Hex4 & _ & Hres4)
       | (st4 & -> & Hex4 & Hfiles & Hlast & Hres4)].
  2:{ eapply (run_aborted w protoc st protoFiles 3);
        [reflexivity | | exact Hfiles | exact Hlast | congruence].
      rewrite Hex4, Hex3, Hex2, Hex1, Hex0, <- !app_assoc. reflexivity. }
  unfold bind. rewrite !log_verbose_eq.
  apply (run_completed w protoc st protoFiles); [reflexivity | | ].
  - simpl. rewrite Hex4, Hex3, Hex2, Hex1, Hex0, <- !app_assoc. reflexivity.
  - simpl. congruence.
Qed.

Lemma bind_eq {A B : Type} (m : M A) (f : A -> M B) (st : state) :
  bind m f st
  = match m st with
    | Return a st' => f a st'
    | Exit code st' => Exit code st'
    | Throw e st' => Throw e st'
    end.
Proof. reflexivity. Qed.

Lemma bind_bind {A B C : Type} (m : M A) (f : A -> M B) (g : B -> M C)
    (st : state) :
  bind (bind m f) g st = bind m (fun a => bind (f a) g) st.
Proof. unfold bind. destruct (m st); reflexivity. Qed.

(** [compileProtos] is its first half followed, when a protoc has been
    resolved, by its second half. *)
Lemma compileProtos_phases (w : world) (st : state) :
  compileProtos w st
  = match resolve_phase w st with
    | Return _ st1 =>
        match RESOLVED_PROTOC st1 with
        | None => Return tt st1
        | Some protoc =>
            if Js.falsy protoc then Return tt st1
            else generate_phase w protoc st1
        end
    | Exit code st1 => Exit code st1
    | Throw e st1 => Throw e st1
    end.
Proof.
  transitivity
    (bind (resolve_phase w)
       (fun _ =>
          bind get_RESOLVED_PROTOC
            (fun resolved =>
               match resolved with
               | None => ret tt
               | Some protoc =>
                   if Js.falsy protoc then ret tt else generate_phase w protoc
               end)) st).
  - unfold resolve_phase. rewrite bind_bind.
    unfold compileProtos, generate_phase. rewrite !bind_eq.
    destruct (console_log _ st) as [[] st0 | |]; [| reflexivity ..].
    cbv beta. rewrite bind_bind. reflexivity.
  - rewrite bind_eq. destruct (resolve_phase w st) as [[] st1 | |];
      [| reflexivity ..].
    rewrite bind_eq. unfold get_RESOLVED_PROTOC.
    destruct (RESOLVED_PROTOC st1) as [protoc |]; [| reflexivity].
    destruct (Js.falsy protoc); reflexivity.
Qed.

(** ** Computations that only probe *)

Lemma probed_refl (st : state) : probed st st.
Proof. exists []. split; [now rewrite app_nil_r | constructor]. Qed.

Lemma probed_same_execs (st st' : state) :
  execs st' = execs st -> probed st st'.
Proof. intros E. exists []. split; [now rewrite app_nil_r | constructor]. Qed.

Lemma probed_trans (a b c : state) : probed a b -> probed b c -> probed a c.
Proof.
  intros (p1 & E1 & F1) (p2 & E2 & F2). exists (p1 ++ p2)%list. split.
  - now rewrite E2, E1, app_assoc.
  - now apply Forall_app.
Qed.

Lemma probes_ret {A : Type} (a : A) : probes_only (ret a).
Proof. intros st. apply probed_refl. Qed.

Lemma probes_bind {A B : Type} (m : M A) (f : A -> M B) :
  probes_only m -> (forall a, probes_only (f a)) -> probes_only (bind m f).
Proof.
  intros Hm Hf st. specialize (Hm st). rewrite bind_eq.
  destruct (m st) as [a st' | |]; [| exact Hm ..].
  eapply probed_trans; [exact Hm | apply Hf].
Qed.

Lemma probes_try_catch {A : Type} (m : M A) (handler : js_error -> M A) :
  probes_only m -> (forall e, probes_only (handler e)) ->
  probes_only (try_catch m handler).
Proof.
  intros Hm Hh st. specialize (Hm st). unfold try_catch.
  destruct (m st) as [| | e st']; [exact Hm .. |].
  eapply probed_trans; [exact Hm | apply Hh].
Qed.

Lemma probes_emit (l : console_line) : probes_only (emit l).
Proof. intros st. now apply probed_same_execs. Qed.

Lemma probes_log_verbose (w : world) (args : list console_arg) :
  probes_only (log_verbose w args).
Proof. intros st. rewrite log_verbose_eq. now apply probed_same_execs. Qed.

Lemma probes_exit {A : Type} (code : Z) : probes_only (@process_exit A code).
Proof. intros st. apply probed_refl. Qed.

Lemma probes_get : probes_only get_RESOLVED_PROTOC.
Proof. intros st. apply probed_refl. Qed.

Lemma probes_set (p version : string) : probes_only (set_resolved p version).
Proof. intros st. now apply probed_same_execs. Qed.

Lemma probes_execSync (w : world) (site : call_site) (mode : stderr_mode)
    (command : string) :
  is_generation site = false -> probes_only (execSync w site mode command).
Proof.
  intros Hsite st. rewrite execSync_eq.
  assert (probed st (ran w site command st)).
  { eexists. split; [reflexivity |]. repeat constructor. exact Hsite. }
  now destruct (tool_ok _).
Qed.

Lemma probes_for_each {A : Type} (xs : list A) (body : A -> M unit) :
  (forall x, probes_only (body x)) -> probes_only (for_each xs body).
Proof.
  intros Hbody. induction xs as [| x xs IH]; [apply probes_ret |].
  rewrite for_each_cons. apply probes_bind; auto.
Qed.

Lemma probes_console_log (args : list console_arg) :
  probes_only (console_log args).
Proof. apply probes_emit. Qed.

Lemma probes_console_error (args : list console_arg) :
  probes_only (console_error args).
Proof. apply probes_emit. Qed.

(** Applies the closure lemmas along the structure of a computation. *)
Ltac probing_step :=
  lazymatch goal with
  | |- probes_only (bind _ _) => apply probes_bind; [| intros ?; cbv beta zeta]
  | |- probes_only (try_catch _ _) =>
      apply probes_try_catch; [| intros ?; cbv beta zeta]
  | |- probes_only (ret _) => apply probes_ret
  | |- probes_only (emit _) => apply probes_emit
  | |- probes_only (console_log _) => apply probes_console_log
  | |- probes_only (console_error _) => apply probes_console_error
  | |- probes_only (log_verbose _ _) => apply probes_log_verbose
  | |- probes_only (process_exit _) => apply probes_exit
  | |- probes_only get_RESOLVED_PROTOC => apply probes_get
  | |- probes_only (set_resolved _ _) => apply probes_set
  | |- probes_only (execSync _ _ _ _) => apply probes_execSync; reflexivity
  | |- probes_only (for_each _ _) =>
      apply probes_for_each; intros ?; cbv beta zeta
  | |- probes_only (if ?b then _ else _) => destruct b
  | |- probes_only (match ?x with _ => _ end) => destruct x
  end.

Ltac probing := repeat probing_step.

Lemma probes_try_candidates (w : world) (candidates : list string) :
  probes_only (try_candidates w candidates).
Proof.
  induction candidates as [| c candidates IH]; cbn [try_candidates];
    [apply probes_ret |].
  unfold tryProtocVersion. probing. exact IH.
Qed.

Lemma probes_locateProtoc (w : world) : probes_only (locateProtoc w).
Proof.
  unfold locateProtoc, system_candidate. cbv zeta.
  probing; apply probes_try_candidates.
Qed.

Lemma probes_checkApple (w : world) :
  probes_only (checkAppleSiliconCompatibility w).
Proof. unfold checkAppleSiliconCompatibility. probing. Qed.

Lemma probes_resolve_phase (w : world) : probes_only (resolve_phase w).
Proof.
  unfold resolve_phase. probing.
  - apply probes_checkApple.
  - apply probes_locateProtoc.
Qed.

(** ** The whole run *)

Lemma compileProtos_run (w : world) (st : state) :
  compile_run w st (compileProtos w st).
Proof.
  rewrite compileProtos_phases.
  pose proof (probes_resolve_phase w st) as Hprobed.
  destruct (resolve_phase w st) as [[] st1 | code st1 | e st1];
    simpl in Hprobed.
  - destruct (RESOLVED_PROTOC st1) as [protoc |] eqn:Hres.
    + destruct (Js.falsy protoc) eqn:Hfalsy.
      * apply compile_stopped; [exact Hprobed |].
        intros st' [= <-]. now rewrite Hres.
      * eapply compile_generated; eauto using generate_phase_run.
    + apply compile_stopped; [exact Hprobed |].
      intros st' [= <-]. now rewrite Hres.
  - apply compile_stopped; [exact Hprobed | discriminate].
  - apply compile_stopped; [exact Hprobed | discriminate].
Qed.

Lemma cleaned_state_eq (w : world) (disk : fs) :
  cleanup w (initial_state disk) = Return tt (cleaned_state w disk).
Proof. unfold cleaned_state. now rewrite cleanup_eq. Qed.

Lemma cleaned_state_fresh (w : world) (disk : fs) :
  execs (cleaned_state w disk) = []
  /\ RESOLVED_PROTOC (cleaned_state w disk) = None
  /\ files (cleaned_state w disk) = drop_paths (cleaned_up w) disk.
Proof. unfold cleaned_state. rewrite cleanup_eq. auto. Qed.

(** A run that is not skipped: [cleanup], [compileProtos], then the rest. *)
Lemma script_unfold (w : world) (disk : fs) :
  env w "SKIP_PROTOS" <> Some "1" ->
  script w (initial_state disk)
  = finish w (compileProtos w (cleaned_state w disk)).
Proof.
  intros Hskip. unfold script, try_catch, main.
  rewrite bool_decide_eq_false_2 by exact Hskip.
  rewrite bind_eq, cleaned_state_eq, bind_eq.
  now destruct (compileProtos w (cleaned_state w disk)).
Qed.

Lemma main_unfold (w : world) (disk : fs) :
  env w "SKIP_PROTOS" <> Some "1" ->
  main w (initial_state disk)
  = bind (compileProtos w)
      (fun _ => generateProtoBusSetup w >> generateHostBridgeClient w)
      (cleaned_state w disk).
Proof.
  intros Hskip. unfold main.
  rewrite bool_decide_eq_false_2 by exact Hskip.
  now rewrite bind_eq, cleaned_state_eq.
Qed.

Lemma run_step_keeps (g : fs -> step_result) (st : state) :
  execs (outcome_state (run_step g st)) = execs st
  /\ RESOLVED_PROTOC (outcome_state (run_step g st)) = RESOLVED_PROTOC st.
Proof. unfold run_step. now destruct (step_end (g (files st))). Qed.

(** What follows [compileProtos] starts no child process and leaves the
    resolved protoc alone; a [process.exit] stays as it is. *)
Lemma finish_keeps (w : world) (o : outcome unit) :
  execs (outcome_state (finish w o)) = execs (outcome_state o)
  /\ RESOLVED_PROTOC (outcome_state (finish w o))
     = RESOLVED_PROTOC (outcome_state o).
Proof.
  destruct o as [[] st | code st | e st]; simpl; [| auto ..].
  unfold try_catch, generateProtoBusSetup, generateHostBridgeClient.
  rewrite bind_eq.
  destruct (run_step_keeps (protobus_setup_generator w) st) as [E1 R1].
  destruct (run_step (protobus_setup_generator w) st) as [[] st1 | |] eqn:H1;
    simpl in *; [| auto ..].
  destruct (run_step_keeps (host_bridge_client_generator w) st1) as [E2 R2].
  destruct (run_step (host_bridge_client_generator w) st1) as [[] st2 | |];
    simpl in *; split; congruence.
Qed.

Lemma finish_returns (w : world) (o : outcome unit) (st' : state) :
  finish w o = Return tt st' -> exists st, o = Return tt st.
Proof.
  destruct o as [[] st | code st | e st]; simpl; [eauto | discriminate ..].
Qed.

End TraceFacts.

Module LocateFacts.
Import BuildProto Vocabulary Examples BuildFacts TraceFacts.

Lemma tryProtocVersion_broken (w : world) (c : string) (st : state) :
  broken w c ->
  exists e,
    tryProtocVersion w c st
    = Return (VersionFailed e)
        (ran w VersionCheck (quoted c +:+ " --version") st).
Proof.
  intros Hbroken. unfold tryProtocVersion, try_catch.
  rewrite bind_eq, execSync_eq.
  destruct (Hbroken (files st)) as [Hfail | Hblank].
  - rewrite Hfail. eauto.
  - destruct (tool_ok _); [| eauto].
    cbv zeta. rewrite Hblank. eauto.
Qed.

Lemma probed_ran (w : world) (site : call_site) (command : string)
    (st : state) :
  is_generation site = false -> probed st (ran w site command st).
Proof.
  intros Hsite. eexists. split; [reflexivity |]. repeat constructor.
  exact Hsite.
Qed.

(** When every candidate is broken the loop ends without its [return]. *)
Lemma try_candidates_broken (w : world) (candidates : list string) :
  Forall (broken w) candidates ->
  forall st,
    exists st',
      try_candidates w candidates st = Return false st'
      /\ probed st st'
      /\ RESOLVED_PROTOC st' = RESOLVED_PROTOC st.
Proof.
  induction 1 as [| c candidates Hc _ IH]; intros st.
  - exists st. split; [reflexivity |]. split; [apply probed_refl | reflexivity].
  - cbn [try_candidates]. rewrite bind_eq.
    destruct (tryProtocVersion_broken w c st Hc) as [e ->].
    rewrite bind_eq, log_verbose_eq.
    destruct (IH (printed
                    (if verbose w
                     then [Line Stdout
                             [Txt ("[build-proto] Failed protoc candidate "
                                   +:+ c +:+ ": " +:+ error_text e)]]
                     else [])
                    (ran w VersionCheck (quoted c +:+ " --version") st)))
      as (st' & -> & Hprobed & Hres).
    exists st'. split; [reflexivity |]. split; [| exact Hres].
    eapply probed_trans; [| exact Hprobed].
    eapply probed_trans; [apply (probed_ran w VersionCheck); reflexivity |].
    now apply probed_same_execs.
Qed.

(** The where/which probe always returns, with zero or one candidate. *)
Lemma system_candidate_returns (w : world) (st : state) :
  exists sys,
    system_candidate w st = Return sys (ran w WhichProtoc (whichCmd w) st).
Proof.
  unfold system_candidate, try_catch. rewrite bind_eq, execSync_eq.
  destruct (tool_ok _); [| eauto].
  destruct (filter _ _); eauto.
Qed.

Lemma for_each_emit (lines : list console_line) (st : state) :
  for_each lines emit st = Return tt (printed lines st).
Proof.
  revert st. induction lines as [| l lines IH]; intros st.
  - simpl. unfold ret. now rewrite printed_nothing.
  - rewrite for_each_cons, bind_eq. unfold emit at 1. rewrite IH.
    unfold printed. simpl. now rewrite <- app_assoc.
Qed.

(** [locateProtoc] when nothing was resolved before and every candidate
    is broken: only probes have run, nothing is resolved, the report is
    printed, and the function exits unless ALLOW_PROTO_FAILURE is "1". *)
Lemma locateProtoc_broken (w : world) (st : state) :
  RESOLVED_PROTOC st = None ->
  Forall (broken w) (found_candidates w st) ->
  exists st1,
    probed st st1
    /\ RESOLVED_PROTOC st1 = None
    /\ locateProtoc w st
       = if bool_decide (env w "ALLOW_PROTO_FAILURE" = Some "1")
         then Return tt
                (printed
                   [Line Stderr
                      [Txt "ALLOW_PROTO_FAILURE=1 set; skipping protoc generation and continuing."]]
                   (printed not_found_report st1))
         else Exit 1 (printed not_found_report st1).
Proof.
  intros Hfresh Hbroken. unfold found_candidates in Hbroken.
  unfold locateProtoc. rewrite bind_eq.
  destruct (system_candidate_returns w st) as [sys Hsys].
  rewrite Hsys in *. cbv zeta. rewrite bind_eq.
  destruct (try_candidates_broken w _ Hbroken
              (ran w WhichProtoc (whichCmd w) st))
    as (st1 & -> & Hprobed & Hres).
  assert (Hnone : RESOLVED_PROTOC st1 = None) by (rewrite Hres; exact Hfresh).
  exists st1. split; [| split].
  - eapply probed_trans; [apply (probed_ran w WhichProtoc); reflexivity |].
    exact Hprobed.
  - exact Hnone.
  - rewrite bind_eq. unfold get_RESOLVED_PROTOC.
    rewrite Hnone. cbn [is_null_or_empty].
    rewrite bind_eq, for_each_emit.
    destruct (bool_decide _); reflexivity.
Qed.

Lemma resolve_phase_locate (w : world) (st0 st : state) :
  reaches_locate w st0 st -> resolve_phase w st0 = locateProtoc w st.
Proof.
  intros Hreach. unfold resolve_phase.
  rewrite <- (bind_bind (console_log [Txt "Compiling Protocol Buffers..."])
                (fun _ => checkAppleSiliconCompatibility w)
                (fun _ => locateProtoc w)).
  rewrite bind_eq. unfold reaches_locate in Hreach. now rewrite Hreach.
Qed.

(** The Rosetta check never touches the resolved protoc. *)
Lemma checkApple_keeps_resolved (w : world) (st st1 : state) :
  checkAppleSiliconCompatibility w st = Return tt st1 ->
  RESOLVED_PROTOC st1 = RESOLVED_PROTOC st.
Proof.
  unfold checkAppleSiliconCompatibility.
  destruct (negb _); [now intros [= <-] |].
  destruct (String.eqb (arch w) "arm64"); [| now intros [= <-]].
  unfold try_catch. rewrite bind_eq, execSync_eq.
  destruct (tool_ok _); cbv zeta.
  - destruct (String.eqb _ "NOT_INSTALLED").
    + rewrite !bind_eq. discriminate.
    + now intros [= <-].
  - now intros [= <-].
Qed.

Lemma reaches_locate_fresh (w : world) (st0 st : state) :
  reaches_locate w st0 st -> RESOLVED_PROTOC st = RESOLVED_PROTOC st0.
Proof.
  unfold reaches_locate. rewrite bind_eq. unfold console_log at 1, emit at 1.
  intros H. now apply checkApple_keeps_resolved in H.
Qed.

End LocateFacts.

Module LocalFacts.
Import BuildProto Vocabulary Examples BuildFacts TraceFacts.

Lemma with_files_with_files (st : state) (a b : fs) :
  with_files (with_files st a) b = with_files st b.
Proof. reflexivity. Qed.

Lemma refile_refile {A : Type} (a b : fs) (o : outcome A) :
  refile b (refile a o) = refile b o.
Proof. now destruct o. Qed.

Lemma refile_files {A : Type} (disk : fs) (o : outcome A) :
  files (outcome_state (refile disk o)) = disk.
Proof. now destruct o. Qed.

Lemma refile_exit_code {A : Type} (disk : fs) (o : outcome A) :
  exit_code (refile disk o) = exit_code o.
Proof. now destruct o. Qed.

Lemma in_output_generated (w : world) (p : string) :
  in_output w p = true -> generated w p = true.
Proof. unfold generated. intros ->. apply orb_true_r. Qed.

(** Laying the same output files over two file systems with the same
    inputs gives file systems with the same inputs. *)
Lemma agree_union (w : world) (written a b : fs) :
  agree_on_inputs w a b -> agree_on_inputs w (written ∪ a) (written ∪ b).
Proof.
  intros Hab p Hp. rewrite !lookup_union, (Hab p Hp). reflexivity.
Qed.

Lemma union_empty_l (disk : fs) : (∅ : fs) ∪ disk = disk.
Proof. apply (left_id_L ∅ (∪)). Qed.

(** A computation that leaves the files alone and does not look at them. *)
Lemma local_pure {A : Type} (w : world) (m : M A) :
  (forall st, files (outcome_state (m st)) = files st) ->
  (forall st disk', m (with_files st disk') = refile disk' (m st)) ->
  local w m.
Proof.
  intros Hfiles Hframe st. exists ∅. split; [| split].
  - intros p [x Hx]. now rewrite lookup_empty in Hx.
  - now rewrite union_empty_l.
  - intros disk' _. now rewrite union_empty_l.
Qed.

Lemma local_ret {A : Type} (w : world) (a : A) : local w (ret a).
Proof. now apply local_pure. Qed.

Lemma local_emit (w : world) (l : console_line) : local w (emit l).
Proof. now apply local_pure. Qed.

Lemma local_console_log (w : world) (args : list console_arg) :
  local w (console_log args).
Proof. apply local_emit. Qed.

Lemma local_console_error (w : world) (args : list console_arg) :
  local w (console_error args).
Proof. apply local_emit. Qed.

Lemma local_log_verbose (w : world) (args : list console_arg) :
  local w (log_verbose w args).
Proof.
  unfold log_verbose. destruct (_ || _); [apply local_console_log |].
  apply local_ret.
Qed.

Lemma local_exit {A : Type} (w : world) (code : Z) :
  local w (@process_exit A code).
Proof. now apply local_pure. Qed.

Lemma local_get (w : world) : local w get_RESOLVED_PROTOC.
Proof. now apply local_pure. Qed.

Lemma local_set (w : world) (p version : string) :
  local w (set_resolved p version).
Proof. now apply local_pure. Qed.

Lemma local_bind {A B : Type} (w : world) (m : M A) (f : A -> M B) :
  local w m -> (forall a, local w (f a)) -> local w (bind m f).
Proof.
  intros Hm Hf st. destruct (Hm st) as (W1 & Hdom1 & Hfiles1 & Hframe1).
  destruct (m st) as [a st1 | code st1 | e st1] eqn:Hrun.
  - simpl in Hfiles1.
    destruct (Hf a st1) as (W2 & Hdom2 & Hfiles2 & Hframe2).
    exists (W2 ∪ W1). split; [| split].
    + intros p Hp. apply lookup_union_is_Some in Hp as [Hp | Hp]; auto.
    + rewrite bind_eq, Hrun, Hfiles2, Hfiles1. apply (assoc_L (∪)).
    + intros disk' Hagree. rewrite !bind_eq, (Hframe1 disk' Hagree), Hrun.
      simpl. rewrite <- (assoc_L (∪)). apply Hframe2.
      rewrite Hfiles1. now apply agree_union.
  - exists W1. split; [exact Hdom1 |]. split.
    + now rewrite bind_eq, Hrun.
    + intros disk' Hagree.
      now rewrite !bind_eq, (Hframe1 disk' Hagree), Hrun.
  - exists W1. split; [exact Hdom1 |]. split.
    + now rewrite bind_eq, Hrun.
    + intros disk' Hagree.
      now rewrite !bind_eq, (Hframe1 disk' Hagree), Hrun.
Qed.

Lemma local_try_catch {A : Type} (w : world) (m : M A)
    (handler : js_error -> M A) :
  local w m -> (forall e, local w (handler e)) -> local w (try_catch m handler).
Proof.
  intros Hm Hh st. destruct (Hm st) as (W1 & Hdom1 & Hfiles1 & Hframe1).
  unfold try_catch.
  destruct (m st) as [a st1 | code st1 | e st1] eqn:Hrun.
  - exists W1. split; [exact Hdom1 |]. split; [exact Hfiles1 |].
    intros disk' Hagree. now rewrite (Hframe1 disk' Hagree).
  - exists W1. split; [exact Hdom1 |]. split; [exact Hfiles1 |].
    intros disk' Hagree. now rewrite (Hframe1 disk' Hagree).
  - simpl in Hfiles1.
    destruct (Hh e st1) as (W2 & Hdom2 & Hfiles2 & Hframe2).
    exists (W2 ∪ W1). split; [| split].
    + intros p Hp. apply lookup_union_is_Some in Hp as [Hp | Hp]; auto.
    + rewrite Hfiles2, Hfiles1. apply (assoc_L (∪)).
    + intros disk' Hagree. rewrite (Hframe1 disk' Hagree).
      simpl. rewrite <- (assoc_L (∪)). apply Hframe2.
      rewrite Hfiles1. now apply agree_union.
Qed.

Lemma local_for_each {A : Type} (w : world) (xs : list A) (body : A -> M unit) :
  (forall x, local w (body x)) -> local w (for_each xs body).
Proof.
  intros Hbody. induction xs as [| x xs IH]; [apply local_ret |].
  rewrite for_each_cons. apply local_bind; auto.
Qed.

Section WithTools.

Variable w : world.
Hypothesis tools : deterministic_tools w.

Lemma local_execSync (site : call_site) (mode : stderr_mode) (command : string) :
  local w (execSync w site mode command).
Proof.
  intros st. exists (tool_written (tool w command (files st))).
  split; [| split].
  - apply (tools_write_outputs w tools).
  - rewrite execSync_eq. now destruct (tool_ok _).
  - intros disk' Hagree. rewrite !execSync_eq. unfold ran. simpl.
    rewrite <- (tools_read_inputs w tools command _ _ Hagree).
    now destruct (tool_ok _).
Qed.

(** A computation that looks at the input files and writes nothing. *)
Lemma local_reader {A : Type} (m : M A) :
  (forall st, files (outcome_state (m st)) = files st) ->
  (forall st disk',
      agree_on_inputs w (files st) disk' ->
      m (with_files st disk') = refile disk' (m st)) ->
  local w m.
Proof.
  intros Hfiles Hframe st. exists ∅. split; [| split].
  - intros p [x Hx]. now rewrite lookup_empty in Hx.
  - now rewrite union_empty_l.
  - intros disk' Hagree. rewrite union_empty_l. now apply Hframe.
Qed.

Lemma local_mkdir (dir : string) : local w (fs_mkdir w dir).
Proof.
  apply local_reader.
  - intros st. unfold fs_mkdir. now destruct (mkdir_error _ _ _).
  - intros st disk' Hagree. unfold fs_mkdir. simpl.
    rewrite <- (mkdir_reads_inputs w tools dir _ _ Hagree).
    now destruct (mkdir_error _ _ _).
Qed.

Lemma local_glob (pattern dir : string) :
  local w (fun st => Return (globby w pattern dir (files st)) st).
Proof.
  apply local_reader; [reflexivity |].
  intros st disk' Hagree. simpl.
  now rewrite <- (glob_reads_inputs w tools pattern dir _ _ Hagree).
Qed.

(** Applies the closure lemmas along the structure of a computation. *)
Ltac localizing_step :=
  lazymatch goal with
  | |- local _ (bind _ _) => apply local_bind; [| intros ?; cbv beta zeta]
  | |- local _ (try_catch _ _) =>
      apply local_try_catch; [| intros ?; cbv beta zeta]
  | |- local _ (ret _) => apply local_ret
  | |- local _ (emit _) => apply local_emit
  | |- local _ (console_log _) => apply local_console_log
  | |- local _ (console_error _) => apply local_console_error
  | |- local _ (log_verbose _ _) => apply local_log_verbose
  | |- local _ (process_exit _) => apply local_exit
  | |- local _ get_RESOLVED_PROTOC => apply local_get
  | |- local _ (set_resolved _ _) => apply local_set
  | |- local _ (execSync _ _ _ _) => apply local_execSync
  | |- local _ (fs_mkdir _ _) => apply local_mkdir
  | |- local _ (fun st => Return (globby _ _ _ (files st)) st) =>
      apply local_glob
  | |- local _ (for_each _ _) => apply local_for_each; intros ?; cbv beta zeta
  | |- local _ (if ?b then _ else _) => destruct b
  | |- local _ (match ?x with _ => _ end) => destruct x
  end.

Ltac localizing := repeat localizing_step.

Lemma local_try_candidates (candidates : list string) :
  local w (try_candidates w candidates).
Proof.
  induction candidates as [| c candidates IH]; cbn [try_candidates];
    [apply local_ret |].
  unfold tryProtocVersion. localizing. exact IH.
Qed.

Lemma local_locateProtoc : local w (locateProtoc w).
Proof.
  unfold locateProtoc, system_candidate. cbv zeta.
  localizing; apply local_try_candidates.
Qed.

Lemma local_checkApple : local w (checkAppleSiliconCompatibility w).
Proof. unfold checkAppleSiliconCompatibility. localizing. Qed.

Lemma local_tsProtoc (protoc outDir : string)
    (protoFiles protoOptions : list string) :
  local w (tsProtoc w protoc outDir protoFiles protoOptions).
Proof. unfold tsProtoc. cbv zeta. localizing. Qed.

Lemma local_compileProtos : local w (compileProtos w).
Proof.
  unfold compileProtos. localizing;
    first [ apply local_checkApple
          | apply local_locateProtoc
          | apply local_tsProtoc ].
Qed.

End WithTools.

End LocalFacts.

(** * A generation run as a sequence of child processes *)

Module RunFacts.
Import BuildProto Vocabulary RunVocabulary Examples BuildFacts TraceFacts.

Lemma mkdirs_decide (w : world) (dirs : list string) (st : state) :
  (forallb (mkdir_ok w (files st)) dirs = true
   /\ for_each dirs (fs_mkdir w) st = Return tt st)
  \/ (forallb (mkdir_ok w (files st)) dirs = false
      /\ exists e, for_each dirs (fs_mkdir w) st = Throw e st).
Proof.
  induction dirs as [| dir dirs IH]; [now left |].
  rewrite for_each_cons, bind_eq. cbn [forallb]. unfold mkdir_ok at 1 3.
  unfold fs_mkdir at 1 3.
  destruct (mkdir_error w dir (files st)) as [e |].
  - right. split; [reflexivity | now exists e].
  - exact IH.
Qed.

(** One stub generation: the child process runs on the files as they are;
    the function returns when it succeeds and ends the process with code 1
    when it fails. *)
Lemma stub_step (w : world) (protoc outDir : string)
    (protoFiles protoOptions : list string) (st : state) :
  let c := tsProtoc_command w protoc outDir protoFiles protoOptions in
  let r := tool w c (files st) in
  exists st',
    tsProtoc w protoc outDir protoFiles protoOptions st
    = (if tool_ok r then Return tt st' else Exit 1 st')
    /\ execs st' = (execs st ++ [ExecEvent (StubGen outDir) c (tool_ok r)])%list
    /\ files st' = tool_written r ∪ files st.
Proof.
  cbv zeta. unfold tsProtoc, try_catch, bind.
  rewrite !log_verbose_eq, execSync_eq.
  set (st1 := printed _ (printed _ st)).
  assert (Hfiles : files st1 = files st) by reflexivity.
  rewrite Hfiles.
  destruct (tool_ok (tool w _ (files st))) eqn:Hok;
    eexists; (split; [reflexivity |]); simpl; rewrite Hok; auto.
Qed.

Lemma export_step (w : world) (protoc : string) (protoFiles : list string)
    (st : state) :
  let c := descriptor_command w protoc protoFiles in
  let r := tool w c (files st) in
  exists st',
    try_catch
      (log_verbose w [Txt "Generating descriptor set..."] >>
       execSync w DescriptorExport StderrDropped c >>
       ret tt)
      (fun error =>
         console_error
           [Txt "Error generating descriptor set for proto file:"; Err error] >>
         process_exit 1) st
    = (if tool_ok r then Return tt st' else Exit 1 st')
    /\ execs st' = (execs st ++ [ExecEvent DescriptorExport c (tool_ok r)])%list
    /\ files st' = tool_written r ∪ files st.
Proof.
  cbv zeta. unfold try_catch, bind.
  rewrite !log_verbose_eq, execSync_eq.
  set (st1 := printed _ st).
  assert (Hfiles : files st1 = files st) by reflexivity.
  rewrite Hfiles.
  destruct (tool_ok (tool w _ (files st))) eqn:Hok;
    eexists; (split; [reflexivity |]); simpl; rewrite Hok; auto.
Qed.

Lemma run_all_cons (w : world) (c : call_site * string)
    (commands : list (call_site * string)) (disk : fs) :
  run_all w (c :: commands) disk
  = if tool_ok (tool w c.2 disk) then
      (ExecEvent c.1 c.2 true
       :: (run_all w commands (tool_written (tool w c.2 disk) ∪ disk)).1,
       (run_all w commands (tool_written (tool w c.2 disk) ∪ disk)).2)
    else ([ExecEvent c.1 c.2 false], tool_written (tool w c.2 disk) ∪ disk).
Proof. reflexivity. Qed.

(** One more command after a sequence: it is started when every command
    before it has succeeded. *)
Lemma run_all_snoc (w : world) (commands : list (call_site * string))
    (d : call_site * string) (disk : fs) :
  run_all w (commands ++ [d]) disk
  = let r := run_all w commands disk in
    if all_ok r.1 then
      ((r.1 ++ [ExecEvent d.1 d.2 (tool_ok (tool w d.2 r.2))])%list,
       tool_written (tool w d.2 r.2) ∪ r.2)
    else r.
Proof.
  revert disk. induction commands as [| c commands IH]; intros disk.
  - cbn [app]. rewrite run_all_cons. cbn [run_all fst snd all_ok forallb app].
    now destruct (tool_ok (tool w d.2 disk)).
  - rewrite <- app_comm_cons, !run_all_cons.
    destruct (tool_ok (tool w c.2 disk)); [| reflexivity].
    rewrite IH. cbv zeta. cbn [fst snd all_ok forallb ev_ok andb].
    fold (all_ok (run_all w commands (tool_written (tool w c.2 disk) ∪ disk)).1).
    destruct (all_ok _); [reflexivity |].
    now destruct (run_all w commands _).
Qed.

(** The record of a sequence of commands: the commands in order, all
    successful, when none failed. *)
Lemma run_all_ok (w : world) (commands : list (call_site * string))
    (disk : fs) :
  all_ok (run_all w commands disk).1 = true ->
  (run_all w commands disk).1 = map (started true) commands.
Proof.
  revert disk. induction commands as [| c commands IH]; intros disk;
    [reflexivity |].
  rewrite run_all_cons. destruct (tool_ok (tool w c.2 disk)).
  - cbn [fst all_ok forallb ev_ok andb map]. intros H.
    unfold started at 1. f_equal. now apply IH.
  - discriminate.
Qed.

(** The sites of the record are those of the commands. *)
Lemma run_all_sites (w : world) (q : call_site -> bool)
    (commands : list (call_site * string)) (disk : fs) :
  Forall (fun c => q c.1 = true) commands ->
  Forall (fun e => q (ev_site e) = true) (run_all w commands disk).1.
Proof.
  intros H. revert disk.
  induction H as [| c commands Hc _ IH]; intros disk; [constructor |].
  rewrite run_all_cons. destruct (tool_ok (tool w c.2 disk)); cbn [fst].
  - constructor; [exact Hc | apply IH].
  - constructor; [exact Hc | constructor].
Qed.

(** The second half of [compileProtos], once the directories are there, is
    the sequence of its four commands. *)
Lemma generate_phase_runs (w : world) (protoc : string) (st : state) :
  forallb (mkdir_ok w (files st)) (output_dirs w) = true ->
  let r :=
    run_all w
      (generation_commands w protoc
         (globby w "**/*.proto" (PROTO_DIR w) (files st)))
      (files st) in
  exists st',
    generate_phase w protoc st
    = (if all_ok r.1 then Return tt st' else Exit 1 st')
    /\ execs st' = (execs st ++ r.1)%list
    /\ files st' = r.2.
Proof.
  intros Hmk. cbv zeta. unfold generate_phase. rewrite bind_eq.
  destruct (mkdirs_decide w (output_dirs w) st) as [[_ Hrun] | [Hno _]];
    [| congruence].
  unfold output_dirs in Hrun. rewrite Hrun. clear Hrun.
  rewrite bind_eq. cbv beta iota.
  set (protoFiles := globby w "**/*.proto" (PROTO_DIR w) (files st)).
  rewrite bind_eq. unfold console_log at 1, emit at 1.
  set (st0 := State _ _ _ _ _).
  assert (H0 : execs st0 = execs st /\ files st0 = files st)
    by (split; reflexivity).
  destruct H0 as [Hex0 Hf0]. clearbody st0.
  unfold generation_commands.
  rewrite bind_eq.
  destruct (stub_step w protoc (TS_OUT_DIR w) protoFiles TS_PROTO_OPTIONS st0)
    as (st1 & -> & Hex1 & Hf1).
  rewrite run_all_cons. cbn [fst snd]. rewrite Hf0 in *.
  destruct (tool_ok (tool w (tsProtoc_command w protoc (TS_OUT_DIR w) _ _) _))
    eqn:Hok1.
  2:{ exists st1. cbn [fst snd all_ok forallb ev_ok andb].
      split; [reflexivity |]. split; [now rewrite Hex1, Hex0 | exact Hf1]. }
  rewrite bind_eq.
  destruct (stub_step w protoc (GRPC_JS_OUT_DIR w) protoFiles
              ("outputServices=grpc-js" :: TS_PROTO_OPTIONS) st1)
    as (st2 & -> & Hex2 & Hf2).
  rewrite run_all_cons. cbn [fst snd]. rewrite Hf1 in *.
  destruct (tool_ok (tool w (tsProtoc_command w protoc (GRPC_JS_OUT_DIR w) _ _) _))
    eqn:Hok2.
  2:{ exists st2. cbn [fst snd all_ok forallb ev_ok andb].
      split; [reflexivity |].
      split; [now rewrite Hex2, Hex1, Hex0, <- app_assoc | exact Hf2]. }
  rewrite bind_eq.
  destruct (stub_step w protoc (NICE_JS_OUT_DIR w) protoFiles
              ("outputServices=nice-grpc,useExactTypes=false"
               :: TS_PROTO_OPTIONS) st2)
    as (st3 & -> & Hex3 & Hf3).
  rewrite run_all_cons. cbn [fst snd]. rewrite Hf2 in *.
  destruct (tool_ok (tool w (tsProtoc_command w protoc (NICE_JS_OUT_DIR w) _ _) _))
    eqn:Hok3.
  2:{ exists st3. cbn [fst snd all_ok forallb ev_ok andb].
      split; [reflexivity |].
      split; [now rewrite Hex3, Hex2, Hex1, Hex0, <- !app_assoc | exact Hf3]. }
  rewrite bind_eq.
  destruct (export_step w protoc protoFiles st3) as (st4 & -> & Hex4 & Hf4).
  rewrite run_all_cons. cbn [fst snd]. rewrite Hf3 in *.
  destruct (tool_ok (tool w (descriptor_command w protoc _) _)) eqn:Hok4.
  2:{ exists st4. cbn [fst snd all_ok forallb ev_ok andb].
      split; [reflexivity |].
      split; [now rewrite Hex4, Hex3, Hex2, Hex1, Hex0, <- !app_assoc
             | exact Hf4]. }
  rewrite bind_eq, !log_verbose_eq.
  eexists. cbn [run_all fst snd all_ok forallb ev_ok andb].
  split; [reflexivity |]. simpl.
  split; [now rewrite Hex4, Hex3, Hex2, Hex1, Hex0, <- !app_assoc
         | exact Hf4].
Qed.

Lemma regenerate_located (w : world) (disk : fs) :
  regenerate w (initial_state disk)
  = match located w disk with
    | Return _ st1 =>
        match RESOLVED_PROTOC st1 with
        | None => Return tt st1
        | Some protoc =>
            if Js.falsy protoc then Return tt st1
            else generate_phase w protoc st1
        end
    | Exit code st1 => Exit code st1
    | Throw e st1 => Throw e st1
    end.
Proof.
  unfold regenerate. rewrite bind_eq, cleaned_state_eq.
  apply compileProtos_phases.
Qed.

(** The child processes started before generation only probe. *)
Lemma located_probes (w : world) (disk : fs) :
  Forall (fun e => is_generation (ev_site e) = false)
    (execs (located_state w disk)).
Proof.
  destruct (probes_resolve_phase w (cleaned_state w disk))
    as (probes & Hp & Hforall).
  destruct (cleaned_state_fresh w disk) as (Hfresh & _).
  unfold located_state, located. now rewrite Hp, Hfresh.
Qed.

(** A whole run of the pipeline: when it reaches the generating commands
    it is their sequence, started on the files the probes left; otherwise it
    ends where the probes ended. *)
Lemma regenerate_runs (w : world) (disk : fs) :
  let o := regenerate w (initial_state disk) in
  let r :=
    run_all w
      (generation_commands w (run_protoc w disk) (schema_files w disk))
      (located_files w disk) in
  if generates w disk then
    exists st',
      o = (if all_ok r.1 then Return tt st' else Exit 1 st')
      /\ execs st' = (execs (located_state w disk) ++ r.1)%list
      /\ files st' = r.2
  else
    execs (outcome_state o) = execs (located_state w disk)
    /\ files (outcome_state o) = located_files w disk
    /\ RESOLVED_PROTOC (outcome_state o)
       = RESOLVED_PROTOC (located_state w disk).
Proof.
  cbv zeta. rewrite regenerate_located.
  unfold generates, run_protoc, schema_files, located_files, located_state.
  destruct (located w disk) as [[] st1 | code st1 | e st1];
    cbn [outcome_state]; [| now auto ..].
  destruct (RESOLVED_PROTOC st1) as [protoc |] eqn:Hres;
    cbn [is_null_or_empty negb andb default]; [| now auto].
  destruct (Js.falsy protoc); cbn [negb andb]; [now auto |].
  destruct (mkdirs_decide w (output_dirs w) st1) as [[Hmk _] | [Hmk [e He]]];
    rewrite Hmk.
  - apply (generate_phase_runs w protoc st1 Hmk).
  - unfold generate_phase. rewrite bind_eq.
    unfold output_dirs in He. rewrite He. cbn [outcome_state]. auto.
Qed.

(** The commands of the script are the written-out ones. *)
Lemma generation_commands_written_out (w : world) (disk : fs) :
  generation_commands w (run_protoc w disk) (schema_files w disk)
  = (stub_runs w disk ++ [(DescriptorExport, descriptor_line w disk)])%list.
Proof. reflexivity. Qed.

Lemma filter_none {A : Type} (q : A -> bool) (xs : list A) :
  Forall (fun x => q x = false) xs -> List.filter q xs = [].
Proof.
  induction 1 as [| x xs Hx _ IH]; [reflexivity |].
  cbn [List.filter]. now rewrite Hx.
Qed.

Lemma filter_all {A : Type} (q : A -> bool) (xs : list A) :
  Forall (fun x => q x = true) xs -> List.filter q xs = xs.
Proof.
  induction 1 as [| x xs Hx _ IH]; [reflexivity |].
  cbn [List.filter]. now rewrite Hx, IH.
Qed.

Lemma stub_runs_sites (w : world) (disk : fs) (trace : list exec_event)
    (after : fs) :
  run_all w (stub_runs w disk) (located_files w disk) = (trace, after) ->
  Forall (fun e => is_stub e = true) trace.
Proof.
  intros H.
  pose proof (run_all_sites w
                (fun s => match s with StubGen _ => true | _ => false end)
                (stub_runs w disk) (located_files w disk)) as Hs.
  rewrite H in Hs. apply Hs. repeat constructor.
Qed.

Lemma probes_not_stub (trace : list exec_event) :
  Forall (fun e => is_generation (ev_site e) = false) trace ->
  Forall (fun e => is_stub e = false) trace
  /\ Forall (fun e => is_export e = false) trace.
Proof.
  intros H. split; (eapply Forall_impl; [exact H |]);
    intros e; unfold is_stub, is_export; now destruct (ev_site e).
Qed.

(** The child processes of the whole script are those of the pipeline, or
    none when generation is skipped. *)
Lemma script_trace (w : world) (disk : fs) :
  execs (outcome_state (script w (initial_state disk)))
  = if bool_decide (env w "SKIP_PROTOS" = Some "1") then []
    else execs (outcome_state (regenerate w (initial_state disk))).
Proof.
  destruct (decide (env w "SKIP_PROTOS" = Some "1")) as [Hskip | Hskip].
  - rewrite bool_decide_eq_true_2 by exact Hskip.
    unfold script, try_catch, main.
    now rewrite bool_decide_eq_true_2 by exact Hskip.
  - rewrite bool_decide_eq_false_2 by exact Hskip.
    rewrite script_unfold by exact Hskip.
    destruct (finish_keeps w (compileProtos w (cleaned_state w disk)))
      as [-> _].
    unfold regenerate. now rewrite bind_eq, cleaned_state_eq.
Qed.

End RunFacts.

(** * Runs on file systems that differ in one region only *)

Module FrameFacts.
Import BuildProto Vocabulary RunVocabulary Examples BuildFacts TraceFacts.
Import LocalFacts.

Lemma agree_outside_union (region : string -> bool) (written a b : fs) :
  agree_outside region a b ->
  agree_outside region (written ∪ a) (written ∪ b).
Proof.
  intros Hab p Hp. rewrite !lookup_union, (Hab p Hp). reflexivity.
Qed.

Section Region.

Variable w : world.
Variable region : string -> bool.

(** A computation that leaves the files alone and does not look at them. *)
Lemma framed_pure {A : Type} (m : M A) :
  (forall st, files (outcome_state (m st)) = files st) ->
  (forall st disk', m (with_files st disk') = refile disk' (m st)) ->
  framed w region m.
Proof.
  intros Hfiles Hframe st. exists ∅. split; [| split].
  - intros p [x Hx]. now rewrite lookup_empty in Hx.
  - now rewrite union_empty_l.
  - intros disk' _. now rewrite union_empty_l.
Qed.

Lemma framed_ret {A : Type} (a : A) : framed w region (ret a).
Proof. now apply framed_pure. Qed.

Lemma framed_emit (l : console_line) : framed w region (emit l).
Proof. now apply framed_pure. Qed.

Lemma framed_console_log (args : list console_arg) :
  framed w region (console_log args).
Proof. apply framed_emit. Qed.

Lemma framed_console_error (args : list console_arg) :
  framed w region (console_error args).
Proof. apply framed_emit. Qed.

Lemma framed_log_verbose (args : list console_arg) :
  framed w region (log_verbose w args).
Proof.
  unfold log_verbose. destruct (_ || _); [apply framed_console_log |].
  apply framed_ret.
Qed.

Lemma framed_exit {A : Type} (code : Z) : framed w region (@process_exit A code).
Proof. now apply framed_pure. Qed.

Lemma framed_get : framed w region get_RESOLVED_PROTOC.
Proof. now apply framed_pure. Qed.

Lemma framed_set (p version : string) : framed w region (set_resolved p version).
Proof. now apply framed_pure. Qed.

Lemma framed_bind {A B : Type} (m : M A) (f : A -> M B) :
  framed w region m -> (forall a, framed w region (f a)) ->
  framed w region (bind m f).
Proof.
  intros Hm Hf st. destruct (Hm st) as (W1 & Hdom1 & Hfiles1 & Hframe1).
  destruct (m st) as [a st1 | code st1 | e st1] eqn:Hrun.
  - simpl in Hfiles1.
    destruct (Hf a st1) as (W2 & Hdom2 & Hfiles2 & Hframe2).
    exists (W2 ∪ W1). split; [| split].
    + intros p Hp. apply lookup_union_is_Some in Hp as [Hp | Hp]; auto.
    + rewrite bind_eq, Hrun, Hfiles2, Hfiles1. apply (assoc_L (∪)).
    + intros disk' Hagree. rewrite !bind_eq, (Hframe1 disk' Hagree), Hrun.
      simpl. rewrite <- (assoc_L (∪)). apply Hframe2.
      rewrite Hfiles1. now apply agree_outside_union.
  - exists W1. split; [exact Hdom1 |]. split.
    + now rewrite bind_eq, Hrun.
    + intros disk' Hagree.
      now rewrite !bind_eq, (Hframe1 disk' Hagree), Hrun.
  - exists W1. split; [exact Hdom1 |]. split.
    + now rewrite bind_eq, Hrun.
    + intros disk' Hagree.
      now rewrite !bind_eq, (Hframe1 disk' Hagree), Hrun.
Qed.

Lemma framed_try_catch {A : Type} (m : M A) (handler : js_error -> M A) :
  framed w region m -> (forall e, framed w region (handler e)) ->
  framed w region (try_catch m handler).
Proof.
  intros Hm Hh st. destruct (Hm st) as (W1 & Hdom1 & Hfiles1 & Hframe1).
  unfold try_catch.
  destruct (m st) as [a st1 | code st1 | e st1] eqn:Hrun.
  - exists W1. split; [exact Hdom1 |]. split; [exact Hfiles1 |].
    intros disk' Hagree. now rewrite (Hframe1 disk' Hagree).
  - exists W1. split; [exact Hdom1 |]. split; [exact Hfiles1 |].
    intros disk' Hagree. now rewrite (Hframe1 disk' Hagree).
  - simpl in Hfiles1.
    destruct (Hh e st1) as (W2 & Hdom2 & Hfiles2 & Hframe2).
    exists (W2 ∪ W1). split; [| split].
    + intros p Hp. apply lookup_union_is_Some in Hp as [Hp | Hp]; auto.
    + rewrite Hfiles2, Hfiles1. apply (assoc_L (∪)).
    + intros disk' Hagree. rewrite (Hframe1 disk' Hagree).
      simpl. rewrite <- (assoc_L (∪)). apply Hframe2.
      rewrite Hfiles1. now apply agree_outside_union.
Qed.

Lemma framed_for_each {A : Type} (xs : list A) (body : A -> M unit) :
  (forall x, framed w region (body x)) -> framed w region (for_each xs body).
Proof.
  intros Hbody. induction xs as [| x xs IH]; [apply framed_ret |].
  rewrite for_each_cons. apply framed_bind; auto.
Qed.

(** What the machine is asked for: results that do not depend on the files
    of [region], and child processes that write into the output targets. *)
Hypothesis tool_skips :
  forall command a b,
    agree_outside region a b -> tool w command a = tool w command b.
Hypothesis tool_writes :
  forall command disk p,
    is_Some (tool_written (tool w command disk) !! p) -> in_output w p = true.
Hypothesis mkdir_skips :
  forall dir a b,
    agree_outside region a b -> mkdir_error w dir a = mkdir_error w dir b.
Hypothesis glob_skips :
  forall pattern dir a b,
    agree_outside region a b -> globby w pattern dir a = globby w pattern dir b.

Lemma framed_execSync (site : call_site) (mode : stderr_mode)
    (command : string) :
  framed w region (execSync w site mode command).
Proof.
  intros st. exists (tool_written (tool w command (files st))).
  split; [| split].
  - apply tool_writes.
  - rewrite execSync_eq. now destruct (tool_ok _).
  - intros disk' Hagree. rewrite !execSync_eq. unfold ran. simpl.
    rewrite <- (tool_skips command _ _ Hagree).
    now destruct (tool_ok _).
Qed.

(** A computation that looks at the files and writes nothing. *)
Lemma framed_reader {A : Type} (m : M A) :
  (forall st, files (outcome_state (m st)) = files st) ->
  (forall st disk',
      agree_outside region (files st) disk' ->
      m (with_files st disk') = refile disk' (m st)) ->
  framed w region m.
Proof.
  intros Hfiles Hframe st. exists ∅. split; [| split].
  - intros p [x Hx]. now rewrite lookup_empty in Hx.
  - now rewrite union_empty_l.
  - intros disk' Hagree. rewrite union_empty_l. now apply Hframe.
Qed.

Lemma framed_mkdir (dir : string) : framed w region (fs_mkdir w dir).
Proof.
  apply framed_reader.
  - intros st. unfold fs_mkdir. now destruct (mkdir_error _ _ _).
  - intros st disk' Hagree. unfold fs_mkdir. simpl.
    rewrite <- (mkdir_skips dir _ _ Hagree).
    now destruct (mkdir_error _ _ _).
Qed.

Lemma framed_glob (pattern dir : string) :
  framed w region (fun st => Return (globby w pattern dir (files st)) st).
Proof.
  apply framed_reader; [reflexivity |].
  intros st disk' Hagree. simpl.
  now rewrite <- (glob_skips pattern dir _ _ Hagree).
Qed.

(** Applies the closure lemmas along the structure of a computation. *)
Ltac framing_step :=
  lazymatch goal with
  | |- framed _ _ (bind _ _) => apply framed_bind; [| intros ?; cbv beta zeta]
  | |- framed _ _ (try_catch _ _) =>
      apply framed_try_catch; [| intros ?; cbv beta zeta]
  | |- framed _ _ (ret _) => apply framed_ret
  | |- framed _ _ (emit _) => apply framed_emit
  | |- framed _ _ (console_log _) => apply framed_console_log
  | |- framed _ _ (console_error _) => apply framed_console_error
  | |- framed _ _ (log_verbose _ _) => apply framed_log_verbose
  | |- framed _ _ (process_exit _) => apply framed_exit
  | |- framed _ _ get_RESOLVED_PROTOC => apply framed_get
  | |- framed _ _ (set_resolved _ _) => apply framed_set
  | |- framed _ _ (execSync _ _ _ _) => apply framed_execSync
  | |- framed _ _ (fs_mkdir _ _) => apply framed_mkdir
  | |- framed _ _ (fun st => Return (globby _ _ _ (files st)) st) =>
      apply framed_glob
  | |- framed _ _ (for_each _ _) =>
      apply framed_for_each; intros ?; cbv beta zeta
  | |- framed _ _ (if ?b then _ else _) => destruct b
  | |- framed _ _ (match ?x with _ => _ end) => destruct x
  end.

Ltac framing := repeat framing_step.

Lemma framed_try_candidates (candidates : list string) :
  framed w region (try_candidates w candidates).
Proof.
  induction candidates as [| c candidates IH]; cbn [try_candidates];
    [apply framed_ret |].
  unfold tryProtocVersion. framing. exact IH.
Qed.

Lemma framed_locateProtoc : framed w region (locateProtoc w).
Proof.
  unfold locateProtoc, system_candidate. cbv zeta.
  framing; apply framed_try_candidates.
Qed.

Lemma framed_checkApple : framed w region (checkAppleSiliconCompatibility w).
Proof. unfold checkAppleSiliconCompatibility. framing. Qed.

Lemma framed_tsProtoc (protoc outDir : string)
    (protoFiles protoOptions : list string) :
  framed w region (tsProtoc w protoc outDir protoFiles protoOptions).
Proof. unfold tsProtoc. cbv zeta. framing. Qed.

Lemma framed_compileProtos : framed w region (compileProtos w).
Proof.
  unfold compileProtos. framing;
    first [ apply framed_checkApple
          | apply framed_locateProtoc
          | apply framed_tsProtoc ].
Qed.

End Region.

(** What lies in an output target but not in the descriptor directory is
    deleted by [cleanup]. *)
Lemma stub_output_cleaned_up (w : world) (p : string) :
  Js.starts_with "/" (cwd w) = true ->
  in_output w p = true -> in_descriptor_dir w p = false ->
  cleaned_up w p = true.
Proof.
  intros Hcwd Hout Hdesc. apply stub_dirs_cleaned_up; [exact Hcwd |].
  unfold in_output, output_dirs in Hout. cbn [existsb] in Hout.
  unfold in_descriptor_dir in Hdesc. rewrite Hdesc, !orb_false_r in Hout.
  apply orb_true_iff in Hout as [Hout | Hout]; [now left |].
  apply orb_true_iff in Hout as [Hout | Hout]; auto.
Qed.

(** Cleaning what a run has produced gives back the files the run started
    from, the descriptor directory aside. *)
Lemma cleaned_again_outside (w : world) (written disk : fs) :
  Js.starts_with "/" (cwd w) = true ->
  (forall p, is_Some (written !! p) -> in_output w p = true) ->
  agree_outside (in_descriptor_dir w) (drop_paths (cleaned_up w) disk)
    (drop_paths (cleaned_up w) (written ∪ drop_paths (cleaned_up w) disk)).
Proof.
  intros Hcwd Hdom p Hp.
  rewrite !lookup_drop_paths, lookup_union, lookup_drop_paths.
  destruct (cleaned_up w p) eqn:Hclean; [reflexivity |].
  destruct (written !! p) as [x |] eqn:Hx.
  - assert (cleaned_up w p = true)
      by (apply stub_output_cleaned_up; eauto).
    congruence.
  - now destruct (disk !! p).
Qed.

(** Writing the same files over the cleaned result of a run changes
    nothing. *)
Lemma rewritten_over_cleaned (w : world) (written disk : fs) :
  written ∪ drop_paths (cleaned_up w) (written ∪ drop_paths (cleaned_up w) disk)
  = written ∪ drop_paths (cleaned_up w) disk.
Proof.
  apply map_eq. intros p.
  rewrite !lookup_union, !lookup_drop_paths, lookup_union, lookup_drop_paths.
  destruct (written !! p), (cleaned_up w p), (disk !! p); reflexivity.
Qed.

Lemma regenerate_cleaned (w : world) (disk : fs) :
  regenerate w (initial_state disk) = compileProtos w (cleaned_state w disk).
Proof. unfold regenerate. now rewrite bind_eq, cleaned_state_eq. Qed.

Lemma cleaned_state_on (w : world) (disk disk1 : fs) :
  cleaned_state w disk1
  = with_files (cleaned_state w disk) (drop_paths (cleaned_up w) disk1).
Proof. unfold cleaned_state. now rewrite !cleanup_eq. Qed.

(** The second run of the pipeline repeats the first. *)
Lemma regenerate_again (w : world) (disk : fs) :
  Js.starts_with "/" (cwd w) = true ->
  descriptor_blind_tools w ->
  let run1 := regenerate w (initial_state disk) in
  regenerate w (initial_state (files (outcome_state run1)))
  = refile (files (outcome_state run1)) run1.
Proof.
  intros Hcwd [Htool Hwrites Hmkdir Hglob]. cbv zeta.
  rewrite !regenerate_cleaned.
  destruct (framed_compileProtos w (in_descriptor_dir w)
              Htool Hwrites Hmkdir Hglob (cleaned_state w disk))
    as (written & Hdom & Hfiles & Hframe).
  destruct (cleaned_state_fresh w disk) as (_ & _ & Hclean).
  rewrite Hclean in Hfiles, Hframe.
  rewrite (cleaned_state_on w disk), Hfiles.
  rewrite (Hframe _ (cleaned_again_outside w written disk Hcwd Hdom)).
  now rewrite rewritten_over_cleaned.
Qed.

(** Files that [cleanup] deletes have no influence on a run. *)
Lemma regenerate_forgets_cleaned (w : world) (disk disk' : fs) :
  agree_outside (cleaned_up w) disk disk' ->
  regenerate w (initial_state disk') = regenerate w (initial_state disk).
Proof.
  intros Hagree. rewrite !regenerate_cleaned, (cleaned_state_on w disk disk').
  replace (drop_paths (cleaned_up w) disk')
    with (drop_paths (cleaned_up w) disk).
  - destruct (cleaned_state_fresh w disk) as (_ & _ & Hclean).
    now rewrite <- Hclean, with_files_same.
  - apply map_eq. intros p. rewrite !lookup_drop_paths.
    destruct (cleaned_up w p) eqn:Hp; [reflexivity | now apply Hagree].
Qed.

(** The toy compiler reads the schema only and writes into the output
    targets only. *)
Lemma toy_tools_descriptor_blind : descriptor_blind_tools linux_world.
Proof.
  split.
  - intros command a b Hagree. simpl. unfold toy_tool.
    assert (Hschema : a !! schema_path = b !! schema_path)
      by (apply Hagree; vm_compute; reflexivity).
    now rewrite Hschema.
  - intros command disk p [x Hx]. simpl in Hx. unfold toy_tool in Hx.
    repeat match type of Hx with
           | context [if ?c then _ else _] => destruct c
           end;
      simpl in Hx;
      first [ now rewrite lookup_empty in Hx
            | apply lookup_singleton_Some in Hx as [<- _];
              vm_compute; reflexivity ].
  - reflexivity.
  - reflexivity.
Qed.

End FrameFacts.

Module BuildClaims.
Import BuildProto Vocabulary Examples BuildFacts.

(** A run on the toy machine: the stale stub is gone, one stub per flavor
    and the descriptor are written, and the process ends with code 0. *)
Example toy_run :
  let o := script linux_world (initial_state toy_disk) in
  exit_code o = 0
  /\ RESOLVED_PROTOC (outcome_state o) = Some "/usr/bin/protoc"
  /\ files (outcome_state o) !! "/repo/src/shared/proto/old.ts" = None
  /\ files (outcome_state o) !! "/repo/src/shared/proto/cline/task.ts"
     = Some "service TaskService {}"
  /\ files (outcome_state o) !! "/repo/src/generated/grpc-js/cline/task.ts"
     = Some "service TaskService {}"
  /\ files (outcome_state o) !! "/repo/src/generated/nice-grpc/cline/task.ts"
     = Some "service TaskService {}"
  /\ files (outcome_state o) !! "/repo/dist-standalone/proto/descriptor_set.pb"
     = Some "service TaskService {}"
  /\ length (execs (outcome_state o)) = 7%nat.
Proof. vm_compute. repeat split; reflexivity. Qed.

(** The command line of the descriptor export on the toy machine. *)
Example toy_descriptor_command :
  descriptor_command linux_world "/usr/bin/protoc" ["cline/task.proto"]
  = "/usr/bin/protoc --proto_path=" +:+ quoted "/repo/proto"
    +:+ " --descriptor_set_out="
    +:+ quoted "/repo/dist-standalone/proto/descriptor_set.pb"
    +:+ " --include_imports cline/task.proto".
Proof. reflexivity. Qed.

(** C3: with SKIP_PROTOS set to "1", [main] returns at once. It prints one
    line and does nothing else: the file system is untouched (so neither
    [cleanup] nor a generator has run), no child process has been started
    (so no protoc was probed or run), and the script ends with exit code 0. *)
Theorem skip_protos_returns_at_once (w : world) (st : state) :
  env w "SKIP_PROTOS" = Some "1" ->
  exists st',
    main w st = Return tt st'
    /\ files st' = files st
    /\ execs st' = execs st
    /\ RESOLVED_PROTOC st' = RESOLVED_PROTOC st
    /\ console st'
       = (console st ++
          [Line Stdout
             [Txt "[build-proto] Skipping proto generation due to SKIP_PROTOS=1"]])%list
    /\ script w st = Return tt st'
    /\ exit_code (script w st) = 0.
Proof.
  intros Hskip. eexists. unfold script, try_catch, main.
  rewrite bool_decide_eq_true_2 by exact Hskip.
  repeat split; reflexivity.
Qed.

Lemma skip_protos_returns_at_once_witness :
  env (toy_world [("SKIP_PROTOS", "1")] no_tool) "SKIP_PROTOS" = Some "1"
  /\ exists st',
       main (toy_world [("SKIP_PROTOS", "1")] no_tool) (initial_state toy_disk)
       = Return tt st'
       /\ files st' = toy_disk
       /\ execs st' = [].
Proof.
  split; [reflexivity |].
  destruct (skip_protos_returns_at_once
              (toy_world [("SKIP_PROTOS", "1")] no_tool)
              (initial_state toy_disk) eq_refl)
    as (st' & Hmain & Hfiles & Hexecs & _).
  exists st'. auto.
Defined.

(** C5 as stated fails for the descriptor target: [cleanup] leaves the
    stale file in dist-standalone/proto where it is, and it is still there
    when the whole script has run with exit code 0. *)
Lemma descriptor_target_not_cleaned :
  let stale := "/repo/dist-standalone/proto/old.pb" in
  is_under (DESCRIPTOR_OUT_DIR linux_world) stale = true
  /\ files (outcome_state (cleanup linux_world (initial_state toy_disk))) !! stale
     = Some "stale descriptor"
  /\ exit_code (script linux_world (initial_state toy_disk)) = 0
  /\ files (outcome_state (script linux_world (initial_state toy_disk))) !! stale
     = Some "stale descriptor".
Proof. vm_compute. repeat split; reflexivity. Qed.

(** C5, amended: on a run that is not skipped, [main] starts with
    [cleanup], which starts no child process and returns a state in which
    nothing is left in the three stub directories (src/shared/proto,
    src/generated/grpc-js, src/generated/nice-grpc); everything that writes
    output runs after it, from that state. The descriptor directory is not
    cleaned: [cleanup] keeps every file in it. *)
Theorem cleanup_empties_stub_targets (w : world) (st : state) :
  Js.starts_with "/" (cwd w) = true ->
  exists st',
    cleanup w st = Return tt st'
    /\ execs st' = execs st
    /\ (forall p,
          is_under (TS_OUT_DIR w) p = true
          \/ is_under (GRPC_JS_OUT_DIR w) p = true
          \/ is_under (NICE_JS_OUT_DIR w) p = true ->
          files st' !! p = None)
    /\ (forall p,
          is_under (DESCRIPTOR_OUT_DIR w) p = true ->
          files st' !! p = files st !! p)
    /\ (env w "SKIP_PROTOS" <> Some "1" ->
        main w st
        = (compileProtos w >> generateProtoBusSetup w >>
           generateHostBridgeClient w) st').
Proof.
  intros Hcwd. eexists. split; [apply cleanup_eq |].
  split; [reflexivity |]. split; [| split].
  - intros p Hp. simpl. rewrite lookup_drop_paths.
    now rewrite stub_dirs_cleaned_up.
  - intros p Hp. simpl. rewrite lookup_drop_paths.
    now rewrite descriptor_dir_not_cleaned_up.
  - intros Hskip. unfold main.
    rewrite bool_decide_eq_false_2 by exact Hskip.
    unfold bind at 1. now rewrite cleanup_eq.
Qed.

Lemma cleanup_empties_stub_targets_witness :
  Js.starts_with "/" (cwd linux_world) = true
  /\ exists st',
       cleanup linux_world (initial_state toy_disk) = Return tt st'
       /\ files st' !! "/repo/src/shared/proto/old.ts" = None
       /\ files st' !! "/repo/dist-standalone/proto/old.pb"
          = toy_disk !! "/repo/dist-standalone/proto/old.pb".
Proof.
  split; [reflexivity |].
  destruct (cleanup_empties_stub_targets linux_world (initial_state toy_disk)
              eq_refl)
    as (st' & Hrun & _ & Hstub & Hdesc & _).
  exists st'. split; [exact Hrun |]. split.
  - apply Hstub. left. reflexivity.
  - apply Hdesc. reflexivity.
Defined.

End BuildClaims.

Module GenerationClaims.
Import BuildProto Vocabulary RunVocabulary Examples RunExamples.
Import BuildFacts TraceFacts RunFacts.

Lemma out_dirs_differ (w : world) (x y : string) :
  Js.starts_with "/" x = false -> Js.starts_with "/" y = false ->
  String.eqb x y = false ->
  path_resolve w x <> path_resolve w y.
Proof.
  intros Hx Hy Hxy E. rewrite !resolve_relative in E by assumption.
  apply String.eqb_eq in E. rewrite eqb_shift in E. congruence.
Qed.

(** C2 as stated fails on "no partial output": when the nice-grpc
    generation writes the beginning of a file and then fails, the script
    exits with code 1 and the half-written file, which was not there
    before the run, is in the nice-grpc target at exit. *)
Lemma partial_output_survives_failure :
  let w := toy_world [] partial_tool in
  let o := script w (initial_state toy_disk) in
  let half := "/repo/src/generated/nice-grpc/cline/task.ts" in
  exit_code o = 1
  /\ is_under (NICE_JS_OUT_DIR w) half = true
  /\ toy_disk !! half = None
  /\ files (outcome_state o) !! half = Some "export const"
  /\ ev_site <$> last (execs (outcome_state o))
     = Some (StubGen (NICE_JS_OUT_DIR w))
  /\ ev_ok <$> last (execs (outcome_state o)) = Some false.
Proof. vm_compute. repeat split; reflexivity. Qed.

(** C2, amended: if a stub-generation command or the descriptor export
    fails during a run, the process exits with code 1; the failed command
    is the last child process of the run, so nothing more is generated for
    its target or for any later one; the last line printed is an error on
    stderr that carries the failed command line, which names the target
    (the command is one of the run's four generating commands, built for
    that call site). The script removes nothing on failure: the files at
    exit are those the failed command left behind. *)
Theorem generation_failure_aborts (w : world) (disk : fs) (e : exec_event) :
  In e (execs (outcome_state (script w (initial_state disk)))) ->
  is_generation (ev_site e) = true ->
  ev_ok e = false ->
  exists st' before protoc protoFiles k,
    script w (initial_state disk) = Exit 1 st'
    /\ exit_code (script w (initial_state disk)) = 1
    /\ last (execs st') = Some e
    /\ files st' = files_after w (ev_command e) before
    /\ last (console st')
       = Some (Line Stderr
                 [Txt (failure_heading (ev_site e));
                  Err (command_failed StderrDropped (ev_command e) "")])
    /\ generation_commands w protoc protoFiles !! k
       = Some (ev_site e, ev_command e).
Proof.
  intros Hin Hgen Hfailed.
  destruct (decide (env w "SKIP_PROTOS" = Some "1")) as [Hskip | Hskip].
  { exfalso. revert Hin. unfold script, try_catch, main.
    rewrite bool_decide_eq_true_2 by exact Hskip. simpl. auto. }
  rewrite script_unfold in * by exact Hskip.
  destruct (finish_keeps w (compileProtos w (cleaned_state w disk)))
    as [Hexecs _].
  rewrite Hexecs in Hin.
  destruct (cleaned_state_fresh w disk) as (Hfresh & _ & _).
  assert (Hprobe : forall st1,
             probed (cleaned_state w disk) st1 -> ~ In e (execs st1)).
  { intros st1 (probes & Hp & Hforall) Hin1.
    rewrite Hp, Hfresh in Hin1. simpl in Hin1.
    rewrite Forall_forall in Hforall. apply list_elem_of_In in Hin1.
    specialize (Hforall e Hin1). congruence. }
  destruct (compileProtos_run w (cleaned_state w disk))
    as [o Hprobed _ | st1 protoc o Hprobed Hres Hfalsy Hrun].
  { exfalso. exact (Hprobe _ Hprobed Hin). }
  destruct Hrun
    as [e0 | protoFiles k c before st2 Hk Htrace Hfiles Hlast _
        | protoFiles st2 _ Htrace _]; simpl in Hin.
  - exfalso. exact (Hprobe _ Hprobed Hin).
  - rewrite Htrace in Hin.
    apply in_app_or in Hin as [Hin | Hin];
      [exfalso; exact (Hprobe _ Hprobed Hin) |].
    apply in_app_or in Hin as [Hin | Hin].
    + apply in_map_iff in Hin as (c' & <- & _). discriminate.
    + destruct Hin as [<- | []]. destruct c as [site command].
      exists st2, before, protoc, protoFiles, k. simpl.
      repeat split; try assumption.
      rewrite Htrace, !app_assoc. apply last_snoc.
  - rewrite Htrace in Hin.
    apply in_app_or in Hin as [Hin | Hin];
      [exfalso; exact (Hprobe _ Hprobed Hin) |].
    apply in_map_iff in Hin as (c' & <- & _). discriminate.
Qed.

Lemma generation_failure_aborts_witness :
  let e :=
    ExecEvent (StubGen "/repo/src/generated/nice-grpc")
      (tsProtoc_command linux_world "/usr/bin/protoc"
         "/repo/src/generated/nice-grpc" ["cline/task.proto"]
         ("outputServices=nice-grpc,useExactTypes=false" :: TS_PROTO_OPTIONS))
      false in
  In e (execs (outcome_state (script linux_world (initial_state broken_disk))))
  /\ is_generation (ev_site e) = true
  /\ ev_ok e = false
  /\ exit_code (script linux_world (initial_state broken_disk)) = 1.
Proof.
  intros e.
  assert (Hin : In e (execs (outcome_state
                               (script linux_world (initial_state broken_disk)))))
    by (vm_compute; tauto).
  split; [exact Hin |]. split; [reflexivity |]. split; [reflexivity |].
  destruct (generation_failure_aborts linux_world broken_disk e Hin
              eq_refl eq_refl)
    as (st' & before & protoc & protoFiles & k & _ & Hcode & _).
  exact Hcode.
Defined.

(** C6 as stated fails on "every run produces all three flavors": on a
    schema that makes the nice-grpc generation fail, the generic-definitions
    and the grpc-js stubs are generated, the nice-grpc command fails, the
    script exits with code 1 and the nice-grpc target holds no file. *)
Lemma failed_flavor_is_missing :
  let o := script linux_world (initial_state broken_disk) in
  exit_code o = 1
  /\ map (fun e => (ev_site e, ev_ok e))
       (List.filter is_stub (execs (outcome_state o)))
     = [(StubGen "/repo/src/shared/proto", true);
        (StubGen "/repo/src/generated/grpc-js", true);
        (StubGen "/repo/src/generated/nice-grpc", false)]
  /\ NICE_JS_OUT_DIR linux_world = "/repo/src/generated/nice-grpc"
  /\ paths_under "/repo/src/generated/nice-grpc" (files (outcome_state o)) = [].
Proof. vm_compute. repeat split; reflexivity. Qed.

(** C6, amended: in every run of the pipeline ([cleanup], then
    [compileProtos]) the stub generations are started in the order
    generic-definitions, grpc-js, nice-grpc, each on the files the one
    before has left, up to and including the first that fails.
    [stub_runs] writes their command lines out: each names its own output
    directory (src/shared/proto, src/generated/grpc-js,
    src/generated/nice-grpc) and the options of its flavor, and all three
    list the same proto files, those the glob finds below the proto
    directory when generation starts. When the run reaches the generating
    commands, the stub generations in its record are exactly these, its
    files are those they have left (with what the descriptor export wrote
    over them when all three succeeded), it exits with code 1 as soon as one
    of them fails, and when it returns all three have run and succeeded.
    When the run does not reach the generating commands (no protoc, an
    exit or an exception before), it starts no stub generation and leaves
    the files as the probes left them. The three output directories differ
    from one another. The child processes of the whole script are those of
    the pipeline, and there is none when SKIP_PROTOS is 1. *)
Theorem three_flavors_one_schema_set (w : world) (disk : fs) :
  let o := regenerate w (initial_state disk) in
  let final := outcome_state o in
  let stubs := run_all w (stub_runs w disk) (located_files w disk) in
  (if generates w disk then
     List.filter is_stub (execs final) = stubs.1
     /\ files final
        = (if all_ok stubs.1
           then files_after w (descriptor_line w disk) stubs.2
           else stubs.2)
     /\ (all_ok stubs.1 = false -> o = Exit 1 final)
     /\ (o = Return tt final ->
         stubs.1 = map (started true) (stub_runs w disk))
   else
     List.filter is_stub (execs final) = []
     /\ files final = located_files w disk)
  /\ NoDup [TS_OUT_DIR w; GRPC_JS_OUT_DIR w; NICE_JS_OUT_DIR w]
  /\ execs (outcome_state (script w (initial_state disk)))
     = (if bool_decide (env w "SKIP_PROTOS" = Some "1") then []
        else execs final).
Proof.
  cbv zeta. split.
  2:{ split; [| apply script_trace].
      repeat constructor; rewrite ?elem_of_cons, elem_of_nil;
        intros H; repeat destruct H as [H | H]; try exact H;
        revert H; apply out_dirs_differ; reflexivity. }
  pose proof (regenerate_runs w disk) as Hrun. cbv zeta in Hrun.
  pose proof (located_probes w disk) as Hprobes.
  apply probes_not_stub in Hprobes as [Hprobes _].
  destruct (generates w disk).
  - destruct Hrun as (st' & Ho & Hex & Hfiles).
    rewrite generation_commands_written_out, run_all_snoc in Ho, Hex, Hfiles.
    cbv zeta in Ho, Hex, Hfiles.
    destruct (run_all w (stub_runs w disk) (located_files w disk))
      as [trace after] eqn:Hstubs.
    pose proof (stub_runs_sites w disk trace after Hstubs) as Hsites.
    cbn [fst snd] in *.
    assert (Hfinal : outcome_state (regenerate w (initial_state disk)) = st')
      by (rewrite Ho; now destruct (all_ok _)).
    rewrite Hfinal, Hex, Hfiles.
    destruct (all_ok trace) eqn:Hall; cbn [fst snd] in *.
    + rewrite !List.filter_app, (filter_none _ _ Hprobes),
        (filter_all _ _ Hsites).
      split; [now rewrite app_nil_r |]. split; [reflexivity |].
      split; [discriminate |]. intros _.
      pose proof (run_all_ok w (stub_runs w disk) (located_files w disk)) as Hok.
      rewrite Hstubs in Hok. now apply Hok.
    + rewrite Hall in Ho.
      rewrite List.filter_app, (filter_none _ _ Hprobes),
        (filter_all _ _ Hsites).
      split; [reflexivity |]. split; [reflexivity |].
      split; [intros _; exact Ho |]. rewrite Ho. discriminate.
  - destruct Hrun as (Hex & Hfiles & _). rewrite Hex, Hfiles.
    split; [now apply filter_none | reflexivity].
Qed.

Lemma three_flavors_one_schema_set_witness :
  let o := regenerate linux_world (initial_state toy_disk) in
  generates linux_world toy_disk = true
  /\ o = Return tt (outcome_state o)
  /\ List.filter is_stub (execs (outcome_state o))
     = map (started true) (stub_runs linux_world toy_disk).
Proof.
  intros o.
  assert (Hg : generates linux_world toy_disk = true)
    by (vm_compute; reflexivity).
  assert (Ho : o = Return tt (outcome_state o)) by (vm_compute; reflexivity).
  split; [exact Hg |]. split; [exact Ho |].
  pose proof (three_flavors_one_schema_set linux_world toy_disk) as H.
  cbv zeta in H. rewrite Hg in H.
  destruct H as [(Hstubs & _ & _ & Hall) _].
  rewrite <- (Hall Ho). exact Hstubs.
Defined.



End GenerationClaims.

Module LocateClaims.
Import BuildProto Vocabulary Examples BuildFacts TraceFacts LocateFacts.

(** C4: take a run that is not skipped and in which [compileProtos] gets
    as far as [locateProtoc], and let every candidate (PROTOC_PATH, the
    bundled binary, the one on the PATH) fail its version check. Then only
    probing child processes are started and nothing is resolved; if
    ALLOW_PROTO_FAILURE is not "1" the process exits with code 1; if it is
    "1", [compileProtos] returns without generating anything and [main]
    goes on with the two remaining generators. *)
Theorem missing_protoc_policy (w : world) (disk : fs) (st : state) :
  env w "SKIP_PROTOS" <> Some "1" ->
  reaches_locate w (cleaned_state w disk) st ->
  Forall (broken w) (found_candidates w st) ->
  exists st',
    probed (cleaned_state w disk) st'
    /\ RESOLVED_PROTOC st' = None
    /\ if bool_decide (env w "ALLOW_PROTO_FAILURE" = Some "1")
       then compileProtos w (cleaned_state w disk) = Return tt st'
            /\ main w (initial_state disk)
               = (generateProtoBusSetup w >> generateHostBridgeClient w) st'
       else script w (initial_state disk) = Exit 1 st'
            /\ exit_code (script w (initial_state disk)) = 1.
Proof.
  intros Hskip Hreach Hbroken.
  destruct (cleaned_state_fresh w disk) as (_ & Hfresh & _).
  assert (Hnone : RESOLVED_PROTOC st = None)
    by (rewrite (reaches_locate_fresh w _ _ Hreach); exact Hfresh).
  pose proof (probes_resolve_phase w (cleaned_state w disk)) as Hprobed.
  rewrite (resolve_phase_locate w _ _ Hreach) in Hprobed.
  assert (Hcompile :
            compileProtos w (cleaned_state w disk) = locateProtoc w st
            /\ RESOLVED_PROTOC (outcome_state (locateProtoc w st)) = None).
  { rewrite compileProtos_phases, (resolve_phase_locate w _ _ Hreach).
    destruct (locateProtoc_broken w st Hnone Hbroken)
      as (st1 & _ & Hnone1 & ->).
    destruct (bool_decide _); simpl; rewrite Hnone1; auto. }
  destruct Hcompile as [Hcompile Hres].
  destruct (locateProtoc_broken w st Hnone Hbroken) as (st1 & _ & _ & Hlocate).
  rewrite Hlocate in *.
  destruct (bool_decide (env w "ALLOW_PROTO_FAILURE" = Some "1"));
    eexists; (split; [exact Hprobed |]); (split; [exact Hres |]).
  - split; [exact Hcompile |].
    now rewrite (main_unfold w disk Hskip), bind_eq, Hcompile.
  - rewrite (script_unfold w disk Hskip), Hcompile. split; reflexivity.
Qed.

Lemma missing_protoc_policy_witness :
  let w :=
    toy_world
      [("ALLOW_PROTO_FAILURE", "1"); ("PROTOC_PATH", "/opt/protoc/bin/protoc")]
      no_tool in
  let st :=
    printed [Line Stdout [Txt "Compiling Protocol Buffers..."]]
      (cleaned_state w toy_disk) in
  env w "SKIP_PROTOS" <> Some "1"
  /\ reaches_locate w (cleaned_state w toy_disk) st
  /\ Forall (broken w) (found_candidates w st)
  /\ exists st',
       compileProtos w (cleaned_state w toy_disk) = Return tt st'
       /\ RESOLVED_PROTOC st' = None.
Proof.
  intros w st.
  assert (Hskip : env w "SKIP_PROTOS" <> Some "1") by discriminate.
  assert (Hreach : reaches_locate w (cleaned_state w toy_disk) st)
    by reflexivity.
  assert (Hbroken : Forall (broken w) (found_candidates w st))
    by (repeat constructor; intros disk; left; reflexivity).
  split; [exact Hskip |]. split; [exact Hreach |]. split; [exact Hbroken |].
  destruct (missing_protoc_policy w toy_disk st Hskip Hreach Hbroken)
    as (st' & _ & Hnone & Hallow).
  exists st'. split; [exact (proj1 Hallow) | exact Hnone].
Defined.

End LocateClaims.

Module DeterminismClaims.
Import BuildProto Vocabulary RunVocabulary Examples RunExamples.
Import BuildFacts TraceFacts LocalFacts FrameFacts.




End DeterminismClaims.

(** * Further properties of the sanitizer *)

Module TextFacts.
Import Regex Vocabulary TextVocabulary RegexFacts Sanitizer.

(** ** Subsequences and excerpts *)

Lemma subsequence_refl (s : string) : subsequence s s.
Proof. induction s; constructor; assumption. Qed.

Lemma subsequence_trans (a b c : string) :
  subsequence a b -> subsequence b c -> subsequence a c.
Proof.
  intros Hab Hbc. revert a Hab.
  induction Hbc as [| x b c _ IH | x b c _ IH]; intros a Hab.
  - exact Hab.
  - inversion Hab; subst.
    + apply sub_keep. now apply IH.
    + apply sub_drop. now apply IH.
  - apply sub_drop. now apply IH.
Qed.

Lemma subsequence_app (a1 b1 a2 b2 : string) :
  subsequence a1 b1 -> subsequence a2 b2 ->
  subsequence (a1 +:+ a2) (b1 +:+ b2).
Proof.
  intros H1 H2. induction H1 as [| x a b _ IH | x a b _ IH].
  - exact H2.
  - rewrite !append_cons. now apply sub_keep.
  - rewrite append_cons. now apply sub_drop.
Qed.

Lemma subsequence_tail (mid post : string) : subsequence post (mid +:+ post).
Proof.
  induction mid as [| x mid IH]; [apply subsequence_refl |].
  rewrite append_cons. now apply sub_drop.
Qed.

Lemma subsequence_skip (pre mid post : string) :
  subsequence (pre +:+ post) (pre +:+ mid +:+ post).
Proof.
  apply subsequence_app; [apply subsequence_refl | apply subsequence_tail].
Qed.

Lemma subsequence_head (pre post : string) : subsequence pre (pre +:+ post).
Proof.
  induction pre as [| x pre IH].
  - induction post as [| y post IH]; [constructor | now apply sub_drop].
  - rewrite append_cons. now apply sub_keep.
Qed.

Lemma subsequence_length (a b : string) :
  subsequence a b -> (String.length a <= String.length b)%nat.
Proof. induction 1; simpl; lia. Qed.

Lemma excerpt_subsequence (r t : string) : excerpt r t -> subsequence r t.
Proof.
  intros (pre & post & ->).
  eapply subsequence_trans; [apply subsequence_head | apply subsequence_tail].
Qed.

Lemma excerpt_refl (t : string) : excerpt t t.
Proof.
  exists "", "". rewrite append_nil. clear.
  induction t as [| c t IH]; [reflexivity |].
  rewrite append_cons. now rewrite <- IH.
Qed.

Lemma append_empty_r (t : string) : t +:+ "" = t.
Proof.
  induction t as [| c t IH]; [reflexivity |].
  rewrite append_cons. now rewrite IH.
Qed.

Lemma excerpt_trans (a b c : string) : excerpt a b -> excerpt b c -> excerpt a c.
Proof.
  intros (p1 & q1 & ->) (p2 & q2 & ->).
  exists (p2 +:+ p1), (q1 +:+ q2). now rewrite !BuildFacts.append_assoc.
Qed.

Lemma suffix_excerpt (t s : string) : str_suffix t s -> excerpt t s.
Proof.
  intros H. apply str_suffix_split in H as [pre ->].
  exists pre, "". now rewrite append_empty_r.
Qed.

Lemma has_char_subsequence (q : ascii -> bool) (a b : string) :
  subsequence a b -> has_char q b = false -> has_char q a = false.
Proof.
  induction 1 as [| x a b _ IH | x a b _ IH]; simpl; intros H.
  - reflexivity.
  - apply orb_false_iff in H as [-> H]. now apply IH.
  - apply orb_false_iff in H as [_ H]. now apply IH.
Qed.

Lemma has_char_app (q : ascii -> bool) (a b : string) :
  has_char q (a +:+ b) = has_char q a || has_char q b.
Proof.
  induction a as [| x a IH]; [reflexivity |].
  rewrite append_cons. simpl. rewrite IH. now rewrite orb_assoc.
Qed.

(** ** Replacements only delete *)

Lemma search_from_start (r : regex) (s before : string) (m : found) :
  search r 0 [] s = Some (before, m) ->
  exists mid,
    s = before +:+ mid +:+ m_after m
    /\ m_end m = (String.length before + String.length mid)%nat.
Proof.
  intros H. apply search_tracks in H as (pre & mid & Hs & Hb & He).
  simpl in Hb. rewrite append_nil in Hb. subst before.
  exists mid. split; [exact Hs | exact He].
Qed.

Lemma replace_first_subsequence (r : regex) (s : string) :
  subsequence (replace_first r s) s.
Proof.
  unfold replace_first. destruct (search r 0 [] s) as [[before m] |] eqn:E.
  - apply search_from_start in E as (mid & Hs & _).
    rewrite Hs. apply subsequence_skip.
  - apply subsequence_refl.
Qed.

Lemma replace_all_from_subsequence (r : regex) :
  forall (fuel pos : nat) (rest : string),
    subsequence (replace_all_from fuel r pos rest) rest.
Proof.
  induction fuel as [| fuel IH]; intros pos rest; simpl.
  - apply subsequence_refl.
  - destruct (search r pos [] rest) as [[before m] |] eqn:E;
      [| apply subsequence_refl].
    apply search_tracks in E as (pre & mid & Hs & Hb & _).
    simpl in Hb. rewrite append_nil in Hb. subst before.
    destruct (m_end m =? pos + String.length pre)%nat.
    + destruct (m_after m) as [| c after'] eqn:Ea.
      * rewrite Hs. apply subsequence_head.
      * rewrite Hs. apply subsequence_app; [apply subsequence_refl |].
        eapply subsequence_trans; [| apply subsequence_tail].
        apply sub_keep. apply IH.
    + rewrite Hs. apply subsequence_app; [apply subsequence_refl |].
      eapply subsequence_trans; [| apply subsequence_tail]. apply IH.
Qed.

Lemma replace_all_subsequence (r : regex) (s : string) :
  subsequence (replace_all r s) s.
Proof. apply replace_all_from_subsequence. Qed.

Lemma strip_round_subsequence (patterns : list regex) :
  forall (text : string) (matched : bool),
    subsequence (fst (strip_round patterns text matched)) text.
Proof.
  unfold strip_round.
  induction patterns as [| re patterns IH]; intros text matched; simpl.
  - apply subsequence_refl.
  - eapply subsequence_trans; [apply IH | apply replace_first_subsequence].
Qed.

Lemma strip_loop_subsequence (fuel : nat) :
  forall text : string, subsequence (strip_loop fuel text) text.
Proof.
  induction fuel as [| fuel IH]; intros text.
  - apply subsequence_refl.
  - rewrite SanitizerFacts.strip_loop_step.
    pose proof (strip_round_subsequence LEADING_PATTERNS text false) as H.
    destruct (strip_round LEADING_PATTERNS text false) as [result' matched].
    simpl in H. destruct matched; [| exact H].
    eapply subsequence_trans; [apply IH | exact H].
Qed.

Lemma sanitizeAssistantText_subsequence (raw : string) :
  subsequence (sanitizeAssistantText raw) raw.
Proof.
  unfold sanitizeAssistantText. destruct (Js.falsy raw).
  - apply subsequence_refl.
  - unfold stripInlineChatMl, stripThinkingTags, stripLeadingArtifacts.
    repeat (eapply subsequence_trans; [apply replace_all_subsequence |]).
    apply strip_loop_subsequence.
Qed.

(** ** Anchored patterns only remove a prefix *)

Lemma anchored_inv (re : regex) :
  anchored re = true -> exists r, re = Seq Bol r.
Proof.
  destruct re as [| | r1 r2 | | | |]; try discriminate.
  destruct r1; try discriminate. eauto.
Qed.

Lemma search_anchored_later (r : regex) :
  forall (rest : string) (pos : nat) (skipped : list ascii),
    (0 < pos)%nat -> search (Seq Bol r) pos skipped rest = None.
Proof.
  assert (Hat : forall pos rest, (0 < pos)%nat ->
                                 match_at (Seq Bol r) pos rest = None).
  { intros pos rest Hpos. unfold match_at. simpl.
    destruct (Nat.eqb_spec pos 0); [lia | reflexivity]. }
  induction rest as [| c rest IH]; intros pos skipped Hpos; simpl;
    rewrite Hat by exact Hpos; [reflexivity |].
  apply IH. lia.
Qed.

Lemma search_anchored (r : regex) (s : string) :
  search (Seq Bol r) 0 [] s
  = match match_at (Seq Bol r) 0 s with
    | Some m => Some ("", m)
    | None => None
    end.
Proof.
  destruct s as [| c s]; simpl;
    destruct (match_at (Seq Bol r) 0 _); try reflexivity.
  apply search_anchored_later. lia.
Qed.

Lemma replace_first_anchored (re : regex) (s : string) :
  anchored re = true -> str_suffix (replace_first re s) s.
Proof.
  intros H. apply anchored_inv in H as [r ->].
  unfold replace_first. rewrite search_anchored.
  destruct (match_at (Seq Bol r) 0 s) as [m |] eqn:E; [| constructor].
  rewrite append_nil. eapply match_at_suffix; exact E.
Qed.

Lemma strip_round_suffix (patterns : list regex) :
  forallb anchored patterns = true ->
  forall (text : string) (matched : bool),
    str_suffix (fst (strip_round patterns text matched)) text.
Proof.
  unfold strip_round.
  induction patterns as [| re patterns IH]; intros Hall text matched; simpl.
  - constructor.
  - simpl in Hall. apply andb_true_iff in Hall as [Hre Hall].
    eapply str_suffix_trans; [apply IH; exact Hall |].
    now apply replace_first_anchored.
Qed.

Lemma strip_loop_suffix (fuel : nat) :
  forall text : string, str_suffix (strip_loop fuel text) text.
Proof.
  induction fuel as [| fuel IH]; intros text.
  - constructor.
  - rewrite SanitizerFacts.strip_loop_step.
    pose proof (strip_round_suffix LEADING_PATTERNS eq_refl text false) as H.
    destruct (strip_round LEADING_PATTERNS text false) as [result' matched].
    simpl in H. destruct matched; [| exact H].
    eapply str_suffix_trans; [apply IH | exact H].
Qed.

(** ** A round that changes nothing *)

Lemma strip_round_quiet (patterns : list regex) :
  forall (text text' : string) (matched : bool),
    strip_round patterns text matched = (text', false) ->
    text' = text /\ matched = false
    /\ Forall (fun re => replace_first re text = text) patterns.
Proof.
  unfold strip_round.
  induction patterns as [| re patterns IH]; intros text text' matched H;
    simpl in H.
  - injection H as <- <-. auto.
  - apply IH in H as (-> & Hflag & Hall).
    destruct (String.eqb_spec (replace_first re text) text) as [E | E];
      [| discriminate].
    rewrite E in *. auto.
Qed.

Lemma run_consuming (R : Type) (r : regex) :
  consuming r = true ->
  forall (pos : nat) (rest : string) (caps : captures) (k : cont R) (res : R),
    run r pos rest caps k = Some res ->
    exists pos' rest' caps',
      reachable pos rest pos' rest' /\ (pos < pos')%nat
      /\ k pos' rest' caps' = Some res.
Proof.
  induction r as [| p | r1 IH1 r2 IH2 | r1 IH1 r2 IH2 | | n r1 IH1 |];
    intros Hc pos rest caps k res Hrun; try discriminate;
    simpl in Hc, Hrun.
  - destruct rest as [| c rest']; [discriminate |].
    destruct (p c); [| discriminate].
    exists (S pos), rest', caps. auto with regex.
  - apply orb_true_iff in Hc as [Hc | Hc].
    + apply (IH1 Hc) in Hrun as (pos1 & rest1 & caps1 & H1 & Hlt & Hrun).
      apply run_forward in Hrun as (pos2 & rest2 & caps2 & H2 & Hk).
      exists pos2, rest2, caps2. split; [eauto using reachable_trans |].
      apply reachable_shorter in H2 as (Hle & _). split; [lia | exact Hk].
    + apply run_forward in Hrun as (pos1 & rest1 & caps1 & H1 & Hrun).
      apply (IH2 Hc) in Hrun as (pos2 & rest2 & caps2 & H2 & Hlt & Hk).
      exists pos2, rest2, caps2. split; [eauto using reachable_trans |].
      apply reachable_shorter in H1 as (Hle & _). split; [lia | exact Hk].
  - apply andb_true_iff in Hc as [Hc1 Hc2].
    destruct (run r1 pos rest caps k) eqn:E1.
    + injection Hrun as ->. eauto.
    + eauto.
  - apply (IH1 Hc) in Hrun as (pos1 & rest1 & caps1 & H1 & Hlt & Hk).
    eauto 7.
Qed.

Lemma match_at_consuming (r : regex) (pos : nat) (rest : string) (m : found) :
  consuming r = true ->
  match_at r pos rest = Some m ->
  (String.length (m_after m) < String.length rest)%nat.
Proof.
  unfold match_at. intros Hc H.
  apply (run_consuming _ r Hc) in H as (pos' & rest' & caps' & Hr & Hlt & H).
  injection H as <-. simpl.
  apply reachable_shorter in Hr as (_ & Hshort & _). auto.
Qed.

(** A replacement that changes nothing found no match at the start. *)
Lemma unchanged_no_match (re : regex) (s : string) :
  consuming re = true ->
  replace_first re s = s ->
  match_at re 0 s = None.
Proof.
  intros Hc Hsame. destruct (match_at re 0 s) as [m |] eqn:E; [| reflexivity].
  exfalso. apply (match_at_consuming _ _ _ _ Hc) in E as Hlt.
  assert (Hrep : replace_first re s = m_after m).
  { unfold replace_first. destruct s as [| c s]; simpl; rewrite E;
      now rewrite append_nil. }
  rewrite Hsame in Hrep. rewrite <- Hrep in Hlt. lia.
Qed.

Lemma stripLeadingArtifacts_no_match (t : string) :
  Forall (fun re => match_at re 0 (stripLeadingArtifacts t) = None)
    LEADING_PATTERNS.
Proof.
  pose proof (SanitizerFacts.stripLeadingArtifacts_exits t) as H.
  apply strip_round_quiet in H as (_ & _ & Hall).
  assert (Hc : Forall (fun re => consuming re = true) LEADING_PATTERNS)
    by (repeat constructor).
  revert Hall Hc. generalize LEADING_PATTERNS as ps.
  induction ps as [| re ps IH]; intros Hall Hc; constructor.
  - inversion Hall; inversion Hc; subst. now apply unchanged_no_match.
  - inversion Hall; inversion Hc; subst. now apply IH.
Qed.

(** ** Texts the patterns are sure to match *)

Lemma all_ascii_complete (c : ascii) : In c all_ascii.
Proof.
  unfold all_ascii. rewrite <- (ascii_nat_embedding c).
  apply in_map. apply in_seq. pose proof (nat_ascii_bounded c). lia.
Qed.

Lemma for_all_ascii (f : ascii -> bool) :
  forallb f all_ascii = true -> forall c, f c = true.
Proof.
  intros H c. rewrite forallb_forall in H. apply H. apply all_ascii_complete.
Qed.

Lemma class_within_sound (p q : ascii -> bool) :
  class_within p q = true -> forall c, p c = true -> q c = true.
Proof.
  intros H c Hp. apply for_all_ascii with (c := c) in H.
  rewrite Hp in H. exact H.
Qed.

(** Under the i flag a pattern letter below 128 matches whatever has the
    same lower case. *)
Lemma fold_case_of_lower (a b : ascii) :
  ascii7 a = true ->
  Js.lower_char b = Js.lower_char a ->
  fold_case b = fold_case a.
Proof.
  intros H7 Hlow.
  assert (Hall :
    forallb
      (fun a =>
         forallb
           (fun b =>
              implb (ascii7 a && Ascii.eqb (Js.lower_char b) (Js.lower_char a))
                (Ascii.eqb (fold_case b) (fold_case a)))
           all_ascii)
      all_ascii = true) by (vm_compute; reflexivity).
  apply for_all_ascii with (c := a) in Hall.
  apply for_all_ascii with (c := b) in Hall.
  rewrite H7, Hlow, Ascii.eqb_refl in Hall. simpl in Hall.
  now apply Ascii.eqb_eq.
Qed.

Lemma strip_prefix_i_of_lower (p : string) :
  all_chars ascii7 p = true ->
  forall s,
    Js.starts_with (Js.toLowerCase p) (Js.toLowerCase s) = true ->
    exists rest, strip_prefix_i p s = Some rest.
Proof.
  induction p as [| a p IH]; intros H7 s H; simpl in *.
  - eauto.
  - apply andb_true_iff in H7 as [Ha H7].
    destruct s as [| b s]; simpl in H; [discriminate |].
    apply andb_true_iff in H as [Hab H].
    apply Ascii.eqb_eq in Hab. symmetry in Hab.
    rewrite (fold_case_of_lower a b Ha Hab), Ascii.eqb_refl.
    now apply IH.
Qed.

Lemma strip_prefix_i_app (p1 p2 : string) :
  forall s rest,
    strip_prefix_i (p1 +:+ p2) s = Some rest ->
    exists mid,
      strip_prefix_i p1 s = Some mid /\ strip_prefix_i p2 mid = Some rest.
Proof.
  induction p1 as [| a p1 IH]; intros s rest H.
  - rewrite append_nil in H. simpl. eauto.
  - rewrite append_cons in H. simpl in *.
    destruct s as [| b s]; [discriminate |].
    destruct (Ascii.eqb (fold_case b) (fold_case a)); [| discriminate].
    now apply IH.
Qed.

Lemma run_lit_i (R : Type) (p : string) :
  forall (s : string) (pos : nat) (caps : captures) (k : cont R),
    run (lit_i p) pos s caps k
    = match strip_prefix_i p s with
      | Some rest => k (pos + String.length p)%nat rest caps
      | None => None
      end.
Proof.
  induction p as [| a p IH]; intros s pos caps k.
  - simpl. now rewrite Nat.add_0_r.
  - destruct p as [| b p].
    + simpl. destruct s as [| c s]; [reflexivity |].
      destruct (Ascii.eqb (fold_case c) (fold_case a)); [| reflexivity].
      now rewrite Nat.add_1_r.
    + change (lit_i (String a (String b p)))
        with (Seq (chr_i a) (lit_i (String b p))).
      change (run (Seq (chr_i a) (lit_i (String b p))) pos s caps k)
        with (run (chr_i a) pos s caps
                (fun pos' rest' caps' =>
                   run (lit_i (String b p)) pos' rest' caps' k)).
      unfold chr_i at 1.
      change (strip_prefix_i (String a (String b p)) s)
        with (match s with
              | String c s' =>
                  if Ascii.eqb (fold_case c) (fold_case a)
                  then strip_prefix_i (String b p) s'
                  else None
              | EmptyString => None
              end).
      destruct s as [| c s]; [reflexivity |].
      cbn [run].
      destruct (Ascii.eqb (fold_case c) (fold_case a)); [| reflexivity].
      rewrite IH.
      replace (S pos + String.length (String b p))%nat
        with (pos + String.length (String a (String b p)))%nat
        by (simpl; lia).
      reflexivity.
Qed.

Lemma can_step_lit_i (p s rest : string) :
  strip_prefix_i p s = Some rest -> can_step (lit_i p) s rest.
Proof.
  intros H R pos caps k Hk. rewrite run_lit_i, H. apply Hk.
Qed.

Lemma can_step_seq (r1 r2 : regex) (s mid rest : string) :
  can_step r1 s mid -> can_step r2 mid rest -> can_step (Seq r1 r2) s rest.
Proof.
  intros H1 H2 R pos caps k Hk. simpl. apply H1.
  intros pos' caps'. now apply H2.
Qed.

Lemma can_step_alt_l (r1 r2 : regex) (s rest : string) :
  can_step r1 s rest -> can_step (Alt r1 r2) s rest.
Proof.
  intros H R pos caps k Hk. simpl.
  destruct (run r1 pos s caps k) eqn:E; [discriminate |].
  now apply H in E.
Qed.

Lemma can_step_alt_r (r1 r2 : regex) (s rest : string) :
  can_step r2 s rest -> can_step (Alt r1 r2) s rest.
Proof.
  intros H R pos caps k Hk. simpl.
  destruct (run r1 pos s caps k) eqn:E; [discriminate |].
  now apply H.
Qed.

Lemma can_step_alts (rs : list regex) (r : regex) (s rest : string) :
  In r rs -> can_step r s rest -> can_step (alts rs) s rest.
Proof.
  induction rs as [| r0 rs IH]; intros Hin H; [destruct Hin |].
  destruct rs as [| r1 rs].
  - destruct Hin as [-> | []]. exact H.
  - change (alts (r0 :: r1 :: rs)) with (Alt r0 (alts (r1 :: rs))).
    destruct Hin as [-> | Hin].
    + now apply can_step_alt_l.
    + apply can_step_alt_r. now apply IH.
Qed.

(** A starred pattern can always stop at once. *)
Lemma can_step_star (greedy : bool) (r : regex) (s : string) :
  can_step (Star greedy r) s s.
Proof.
  intros R pos caps k Hk. simpl.
  specialize (Hk pos caps).
  destruct (String.length s) as [| fuel]; simpl; destruct greedy.
  all: repeat match goal with
           | |- context [match ?x with Some _ => _ | None => _ end] =>
               destruct x
           end.
  all: try discriminate; try exact Hk; now destruct Hk.
Qed.

(** The lazy star over any code unit can stop at every later place. *)
Lemma can_step_lazy_any_fuel (rest : string) :
  forall (s : string),
    str_suffix rest s ->
    forall (R : Type) (fuel pos : nat) (caps : captures) (k : cont R),
      (String.length s <= fuel + String.length rest)%nat ->
      accepts k rest ->
      star_loop (run any) false k fuel pos s caps <> None.
Proof.
  induction 1 as [s | c t s Hsuf IH]; intros R fuel pos caps k Hfuel Hk.
  - destruct fuel; simpl;
      destruct (k pos s caps) eqn:E; try discriminate; now apply Hk in E.
  - destruct fuel as [| fuel].
    + apply str_suffix_length in Hsuf. simpl in Hfuel. lia.
    + simpl. destruct (k pos (String c s) caps); [discriminate |].
      destruct (Nat.ltb_spec pos (S pos)); [| lia].
      apply IH; [simpl in Hfuel; lia | exact Hk].
Qed.

Lemma can_step_lazy_any (s rest : string) :
  str_suffix rest s -> can_step (Star false any) s rest.
Proof.
  intros Hsuf R pos caps k Hk. simpl.
  apply can_step_lazy_any_fuel with (rest := rest); [exact Hsuf | lia | exact Hk].
Qed.

Lemma can_step_match (r : regex) (s rest : string) :
  can_step r s rest -> match_at (Seq Bol r) 0 s <> None.
Proof.
  intros H. unfold match_at. simpl. apply H. intros pos caps. discriminate.
Qed.

(** ** Texts the patterns cannot match *)

Lemma has_char_suffix (q : ascii -> bool) (t s : string) :
  str_suffix t s -> has_char q s = false -> has_char q t = false.
Proof.
  induction 1 as [| c t s _ IH]; [auto |]. simpl. intros H.
  apply orb_false_iff in H as [_ H]. auto.
Qed.

Lemma must_read_none (R : Type) (q : ascii -> bool) (r : regex) :
  must_read q r = true ->
  forall (pos : nat) (rest : string) (caps : captures) (k : cont R),
    has_char q rest = false -> run r pos rest caps k = None.
Proof.
  induction r as [| p | r1 IH1 r2 IH2 | r1 IH1 r2 IH2 | | n r1 IH1 |];
    intros Hm pos rest caps k Hq; try discriminate; simpl in Hm; simpl.
  - destruct rest as [| c rest']; [reflexivity |]. simpl in Hq.
    apply orb_false_iff in Hq as [Hc _].
    destruct (p c) eqn:Hp; [| reflexivity].
    apply (class_within_sound _ _ Hm) in Hp. congruence.
  - apply orb_true_iff in Hm as [Hm | Hm]; [now apply IH1 |].
    match goal with |- ?x = None => destruct x eqn:E end; [| reflexivity].
    apply run_forward in E as (pos1 & rest1 & caps1 & [Hsuf _] & E).
    rewrite (IH2 Hm) in E; [discriminate |].
    eauto using has_char_suffix.
  - apply andb_true_iff in Hm as [Hm1 Hm2].
    rewrite (IH1 Hm1) by exact Hq. now apply IH2.
  - now apply IH1.
Qed.

Lemma search_none_without (q : ascii -> bool) (r : regex) :
  must_read q r = true ->
  forall (rest : string) (pos : nat) (skipped : list ascii),
    has_char q rest = false -> search r pos skipped rest = None.
Proof.
  intros Hm. induction rest as [| c rest IH]; intros pos skipped Hq; simpl;
    unfold match_at; rewrite (must_read_none _ q r Hm) by exact Hq;
    [reflexivity |].
  apply IH. simpl in Hq. now apply orb_false_iff in Hq as [_ Hq].
Qed.

Lemma no_match_without (q : ascii -> bool) (r : regex) (t : string) :
  must_read q r = true -> has_char q t = false -> no_match r t = true.
Proof.
  intros Hm Hq. unfold no_match. now rewrite (search_none_without q r Hm).
Qed.

Lemma has_char_lower (t : string) :
  has_char (Ascii.eqb "<") t = false ->
  has_char (Ascii.eqb "<") (Js.toLowerCase t) = false.
Proof.
  induction t as [| c t IH]; [reflexivity |].
  cbn [has_char Js.toLowerCase]. intros H.
  apply orb_false_iff in H as [Hc H]. rewrite (IH H), orb_false_r.
  destruct (Ascii.eqb_spec "<" (Js.lower_char c)) as [E |]; [| reflexivity].
  symmetry in E. apply HtmlFacts.lower_char_lt in E. subst c.
  discriminate.
Qed.

Lemma find_first_without (c : ascii) (needle hay : string) :
  has_char (Ascii.eqb c) hay = false ->
  Js.find_first (String c needle) hay = None.
Proof.
  induction hay as [| b hay IH]; intros H; [reflexivity |].
  cbn [has_char] in H. apply orb_false_iff in H as [Hb H].
  cbn [Js.find_first Js.starts_with]. rewrite Hb. cbn [andb].
  now rewrite IH.
Qed.

(** ** Trimming *)

Lemma trimStart_suffix (s : string) : str_suffix (Js.trimStart s) s.
Proof.
  induction s as [| c s IH]; simpl; [constructor |].
  destruct (Js.is_ws c); [now constructor | constructor].
Qed.

Lemma trimEnd_prefix (s : string) : exists post, s = Js.trimEnd s +:+ post.
Proof.
  induction s as [| c s [post IH]]; simpl; [now exists "" |].
  destruct (Js.trimEnd s) as [| d t].
  - destruct (Js.is_ws c).
    + exists (String c s). reflexivity.
    + exists s. reflexivity.
  - exists post. rewrite append_cons. now rewrite <- IH.
Qed.

Lemma trim_excerpt (s : string) : excerpt (Js.trim s) s.
Proof.
  unfold Js.trim. destruct (trimEnd_prefix (Js.trimStart s)) as [post E].
  pose proof (trimStart_suffix s) as H. apply str_suffix_split in H as [pre H].
  exists pre, post. now rewrite <- E.
Qed.

Lemma trimEnd_idem (s : string) : Js.trimEnd (Js.trimEnd s) = Js.trimEnd s.
Proof.
  induction s as [| c s IH]; [reflexivity |]. simpl.
  destruct (Js.trimEnd s) as [| d t] eqn:E.
  - destruct (Js.is_ws c) eqn:Hc; [reflexivity |]. simpl. now rewrite Hc.
  - change (Js.trimEnd (String c (String d t)))
      with (match Js.trimEnd (String d t) with
            | EmptyString =>
                if Js.is_ws c then EmptyString else String c EmptyString
            | u => String c u
            end).
    now rewrite IH.
Qed.

Lemma trimEnd_head (c : ascii) (s : string) :
  Js.is_ws c = false -> exists t, Js.trimEnd (String c s) = String c t.
Proof.
  intros Hc. simpl. destruct (Js.trimEnd s); rewrite ?Hc; eauto.
Qed.

Lemma trimStart_head (c : ascii) (s : string) :
  Js.is_ws c = false -> Js.trimStart (String c s) = String c s.
Proof. intros Hc. simpl. now rewrite Hc. Qed.

Lemma trimStart_shape (s : string) :
  Js.trimStart s = ""
  \/ exists c t, Js.trimStart s = String c t /\ Js.is_ws c = false.
Proof.
  induction s as [| c s IH]; simpl; [now left |].
  destruct (Js.is_ws c) eqn:Hc; [exact IH | right; eauto].
Qed.

Lemma trim_idem (s : string) : Js.trim (Js.trim s) = Js.trim s.
Proof.
  unfold Js.trim. destruct (trimStart_shape s) as [-> | (c & t & -> & Hc)];
    [reflexivity |].
  destruct (trimEnd_head c t Hc) as [u E]. rewrite E.
  rewrite (trimStart_head c u Hc), <- E. apply trimEnd_idem.
Qed.

(** ** Captures are parts of the text *)

Lemma excerpt_empty (t : string) : excerpt "" t.
Proof. exists t, "". rewrite append_nil. now rewrite append_empty_r. Qed.

Lemma substring_prefix (m : nat) :
  forall s : string, exists post, s = substring 0 m s +:+ post.
Proof.
  induction m as [| m IH]; intros s.
  - exists s. now destruct s.
  - destruct s as [| c s]; [now exists "" |].
    destruct (IH s) as [post E]. exists post. simpl.
    rewrite append_cons. now rewrite <- E.
Qed.

Lemma substring_excerpt (n m : nat) (s : string) : excerpt (substring n m s) s.
Proof.
  revert s. induction n as [| n IH]; intros s.
  - destruct (substring_prefix m s) as [post E]. now exists "", post.
  - destruct s as [| c s]; [apply excerpt_refl |].
    destruct (IH s) as (pre & post & E).
    exists (String c pre), post. simpl. rewrite append_cons. now rewrite <- E.
Qed.

Lemma suffix_app (pre t : string) : str_suffix t (pre +:+ t).
Proof.
  induction pre as [| c pre IH]; [constructor |].
  rewrite append_cons. now constructor.
Qed.

Lemma star_loop_captures (R : Type) (text : string)
    (step : nat -> string -> captures -> cont R -> option R)
    (greedy : bool) (k : cont R) :
  keeps_captures text step ->
  forall (fuel pos : nat) (rest : string) (caps : captures) (res : R),
    str_suffix rest text -> captures_within text caps ->
    star_loop step greedy k fuel pos rest caps = Some res ->
    exists pos' rest' caps',
      reachable pos rest pos' rest' /\ captures_within text caps'
      /\ k pos' rest' caps' = Some res.
Proof.
  intros Hstep fuel.
  induction fuel as [| fuel IHf]; intros pos rest caps res Hsuf Hcaps Hrun;
    simpl in Hrun.
  - destruct greedy.
    + eauto 7 with regex.
    + destruct (k pos rest caps) eqn:Ek; [| discriminate].
      injection Hrun as ->. eauto 7 with regex.
  - assert (Hagain : forall res',
               step pos rest caps
                 (fun pos' rest' caps' =>
                    if (pos <? pos')%nat
                    then star_loop step greedy k fuel pos' rest' caps'
                    else None) = Some res' ->
               exists pos' rest' caps',
                 reachable pos rest pos' rest' /\ captures_within text caps'
                 /\ k pos' rest' caps' = Some res').
    { intros res' H.
      apply Hstep in H as (pos1 & rest1 & caps1 & Hs1 & Hc1 & H);
        [| assumption | assumption].
      destruct (pos <? pos1)%nat; [| discriminate].
      apply IHf in H as (pos2 & rest2 & caps2 & Hs2 & Hc2 & Hk);
        [| destruct Hs1; eauto using str_suffix_trans | assumption].
      eauto 8 using reachable_trans. }
    destruct greedy.
    + match type of Hrun with
      | match ?a with _ => _ end = _ => destruct a eqn:Ea
      end.
      * injection Hrun as ->. eauto.
      * eauto 7 with regex.
    + destruct (k pos rest caps) eqn:Ek.
      * injection Hrun as ->. eauto 7 with regex.
      * eauto.
Qed.

Lemma run_captures (R : Type) (text : string) (r : regex) :
  keeps_captures text (@run R r).
Proof.
  induction r as [| p | r1 IH1 r2 IH2 | r1 IH1 r2 IH2 | greedy r1 IH1
                  | n r1 IH1 |];
    intros pos rest caps k res Hsuf Hcaps Hrun; simpl in Hrun.
  - eauto 7 with regex.
  - destruct rest as [| c rest']; [discriminate |].
    destruct (p c); [| discriminate]. eauto 8 with regex.
  - apply IH1 in Hrun as (pos1 & rest1 & caps1 & Hs1 & Hc1 & Hrun);
      [| assumption | assumption].
    apply IH2 in Hrun as (pos2 & rest2 & caps2 & Hs2 & Hc2 & Hk);
      [| destruct Hs1; eauto using str_suffix_trans | assumption].
    eauto 8 using reachable_trans.
  - destruct (run r1 pos rest caps k) eqn:E1.
    + injection Hrun as ->. eauto.
    + eauto.
  - eapply star_loop_captures; eauto.
  - apply IH1 in Hrun as (pos1 & rest1 & caps1 & Hs1 & Hc1 & Hk);
      [| assumption | assumption].
    exists pos1, rest1, ((n, substring 0 (pos1 - pos) rest) :: caps1).
    split; [exact Hs1 |]. split; [| exact Hk].
    constructor; [| exact Hc1]. simpl.
    eapply excerpt_trans; [apply substring_excerpt | now apply suffix_excerpt].
  - destruct (pos =? 0)%nat; [| discriminate]. eauto 7 with regex.
Qed.

Lemma group_within (text : string) (n : nat) (caps : captures) (s : string) :
  captures_within text caps -> group n caps = Some s -> excerpt s text.
Proof.
  induction 1 as [| [i v] caps Hv _ IH]; simpl; [discriminate |].
  destruct (i =? n)%nat; [| exact IH]. now intros [= <-].
Qed.

Lemma search_within (text : string) (r : regex) (pos : nat) (rest before : string)
    (m : found) :
  str_suffix rest text ->
  search r pos [] rest = Some (before, m) ->
  captures_within text (m_caps m) /\ str_suffix (m_after m) text.
Proof.
  intros Hsuf H. apply search_found in H as (pre & rest1 & -> & H).
  assert (Hsuf1 : str_suffix rest1 text)
    by (eapply str_suffix_trans; [apply suffix_app | exact Hsuf]).
  split.
  - unfold match_at in H.
    apply (run_captures _ text r) in H as (pos' & rest' & caps' & _ & Hc & H);
      [| exact Hsuf1 | constructor].
    now injection H as <-.
  - eapply str_suffix_trans; [eapply match_at_suffix; exact H | exact Hsuf1].
Qed.

Lemma collect_blocks_within (text : string) :
  forall (fuel pos : nat) (rest : string),
    str_suffix rest text ->
    Forall (fun b => excerpt (body b) text) (collect_blocks fuel pos rest).
Proof.
  induction fuel as [| fuel IH]; intros pos rest Hsuf; simpl; [constructor |].
  destruct (search fenceRe pos [] rest) as [[before m] |] eqn:E;
    [| constructor].
  apply (search_within text) in E as [Hc Hafter]; [| exact Hsuf].
  constructor; [| now apply IH]. simpl. unfold group_or_empty.
  destruct (group 2 (m_caps m)) as [s |] eqn:Eg.
  - eapply group_within; eauto.
  - apply excerpt_empty.
Qed.

(** ** The longest body *)

Lemma fold_longer (blocks : list block) :
  forall a : string,
    let l := fold_left longer blocks a in
    (String.length a <= String.length l)%nat
    /\ (forall b, In b blocks ->
                  (String.length (body b) <= String.length l)%nat)
    /\ (l = a
        \/ exists pre b post,
             blocks = (pre ++ b :: post)%list /\ body b = l
             /\ (String.length a < String.length l)%nat
             /\ forall b', In b' pre ->
                           (String.length (body b') < String.length l)%nat).
Proof.
  induction blocks as [| b0 bs IH]; intros a; cbn zeta.
  - simpl. split; [lia |]. split; [intros b [] | now left].
  - cbn [fold_left]. specialize (IH (longer a b0)). cbn zeta in IH.
    destruct IH as (Hle & Hall & Hpick).
    assert (Ha : (String.length a <= String.length (longer a b0))%nat
                 /\ (String.length (body b0)
                     <= String.length (longer a b0))%nat).
    { unfold longer.
      destruct (Nat.ltb_spec (String.length a) (String.length (body b0)));
        lia. }
    destruct Ha as [Ha Hb0].
    split; [lia |]. split.
    + intros b [<- | Hin]; [lia | now apply Hall].
    + destruct Hpick as [Hsame | (pre & b & post & -> & Hb & Hlt & Hpre)].
      * unfold longer in Hsame |- *.
        destruct (Nat.ltb_spec (String.length a) (String.length (body b0)))
          as [Hlt | Hge]; [| now left].
        right. exists [], b0, bs. rewrite Hsame.
        split; [reflexivity |]. split; [reflexivity |].
        split; [exact Hlt | intros b' []].
      * right. exists (b0 :: pre), b, post.
        split; [reflexivity |]. split; [exact Hb |]. split; [lia |].
        intros b' [<- | Hin]; [lia | now apply Hpre].
Qed.

Lemma longest_body_fold (blocks : list block) :
  longest_body blocks = fold_left longer blocks "".
Proof. reflexivity. Qed.

Lemma length_zero_empty (s : string) : String.length s = 0%nat -> s = "".
Proof. now destruct s. Qed.

Lemma longest_body_first (b0 : block) (bs : list block) :
  exists pre b post,
    b0 :: bs = (pre ++ b :: post)%list
    /\ longest_body (b0 :: bs) = body b
    /\ (forall b', In b' (b0 :: bs) ->
                   (String.length (body b') <= String.length (body b))%nat)
    /\ (forall b', In b' pre ->
                   (String.length (body b') < String.length (body b))%nat).
Proof.
  rewrite longest_body_fold.
  destruct (fold_longer (b0 :: bs) "") as (_ & Hall & Hpick).
  destruct Hpick as [Hsame | (pre & b & post & E & Hb & _ & Hpre)].
  - exists [], b0, bs. rewrite Hsame in *.
    assert (Hb0 : body b0 = "").
    { apply length_zero_empty. specialize (Hall b0 (or_introl eq_refl)).
      simpl in Hall. lia. }
    rewrite Hb0. split; [reflexivity |]. split; [reflexivity |].
    split; [exact Hall | intros b' []].
  - exists pre, b, post. rewrite <- Hb in Hall, Hpre |- *.
    split; [exact E |]. split; [reflexivity |]. split; [exact Hall | exact Hpre].
Qed.

Lemma longest_body_within (text : string) (blocks : list block) :
  Forall (fun b => excerpt (body b) text) blocks ->
  excerpt (longest_body blocks) text.
Proof.
  intros Hall. destruct blocks as [| b0 bs]; [apply excerpt_empty |].
  destruct (longest_body_first b0 bs) as (pre & b & post & E & -> & _).
  rewrite List.Forall_forall in Hall. apply Hall. rewrite E.
  apply in_or_app. right. now left.
Qed.

Lemma find_block_in (pred : block -> bool) (blocks : list block) (b : block) :
  find_block pred blocks = Some b -> In b blocks /\ pred b = true.
Proof.
  induction blocks as [| b0 bs IH]; simpl; [discriminate |].
  destruct (pred b0) eqn:E.
  - intros [= <-]. auto.
  - intros H. apply IH in H as [Hin Hp]. auto.
Qed.

Lemma find_block_first (pred : block -> bool) (pre : list block) (b : block)
    (post : list block) :
  Forall (fun b' => pred b' = false) pre ->
  pred b = true ->
  find_block pred (pre ++ b :: post) = Some b.
Proof.
  induction 1 as [| b' pre Hb' _ IH]; intros Hb; simpl.
  - now rewrite Hb.
  - rewrite Hb'. now apply IH.
Qed.

Lemma extractFencedCode_within (text : string) (l : option string) (r : string) :
  extractFencedCode text l = Some r -> excerpt r text /\ Js.trim r = r.
Proof.
  unfold extractFencedCode. cbv zeta.
  pose proof (collect_blocks_within text (S (String.length text)) 0 text
                (suffix_here text)) as Hall.
  destruct (collect_blocks (S (String.length text)) 0 text) as [| b0 bs] eqn:E;
    [discriminate |].
  match goal with
  | |- match ?p with _ => _ end = _ -> _ => destruct p as [b |] eqn:Ep
  end; intros [= <-].
  - split; [| apply trim_idem].
    eapply excerpt_trans; [apply trim_excerpt |].
    assert (Hin : In b (b0 :: bs)).
    { destruct l as [l |]; [| discriminate].
      destruct (Js.truthy l); [| discriminate].
      now apply find_block_in in Ep as [Hin _]. }
    rewrite List.Forall_forall in Hall. now apply Hall.
  - split; [| apply trim_idem].
    eapply excerpt_trans; [apply trim_excerpt |].
    now apply longest_body_within.
Qed.

Lemma slice_excerpt (s : string) (from to : Z) : excerpt (Js.slice s from to) s.
Proof. unfold Js.slice. cbv zeta. apply substring_excerpt. Qed.

Lemma extractHtmlDocument_within (text html : string) :
  extractHtmlDocument text = Some html ->
  excerpt html text /\ Js.trim html = html.
Proof.
  unfold extractHtmlDocument. cbv zeta.
  match goal with
  | |- (if ?c then _ else _) = _ -> _ => destruct c; [| discriminate]
  end.
  intros [= <-]. split; [| apply trim_idem].
  eapply excerpt_trans; [apply trim_excerpt | apply slice_excerpt].
Qed.

(** ** Tokens at the start of a text *)

Lemma strip_prefix_i_split (p : string) :
  forall s r,
    strip_prefix_i p s = Some r ->
    exists x, s = x +:+ r /\ String.length x = String.length p.
Proof.
  induction p as [| a p IH]; intros s r H; simpl in H.
  - injection H as <-. now exists "".
  - destruct s as [| b s]; [discriminate |].
    destruct (Ascii.eqb (fold_case b) (fold_case a)); [| discriminate].
    apply IH in H as (x & -> & Hlen). exists (String b x).
    split; [reflexivity | simpl; now rewrite Hlen].
Qed.

Lemma append_same_length (x y a b : string) :
  x +:+ a = y +:+ b -> String.length x = String.length y -> a = b.
Proof.
  revert y. induction x as [| c x IH]; intros [| d y] H Hlen;
    try discriminate.
  - exact H.
  - rewrite !append_cons in H. injection H as _ H. injection Hlen as Hlen.
    eauto.
Qed.

Lemma toLowerCase_length (s : string) :
  String.length (Js.toLowerCase s) = String.length s.
Proof. induction s as [| c s IH]; simpl; [reflexivity | now rewrite IH]. Qed.

Lemma toLowerCase_app (a b : string) :
  Js.toLowerCase (a +:+ b) = Js.toLowerCase a +:+ Js.toLowerCase b.
Proof.
  induction a as [| c a IH]; [reflexivity |].
  rewrite append_cons. simpl. rewrite append_cons. now rewrite IH.
Qed.

(** A text that starts with the letters of [p], letter case aside, lets
    the literal [p] be read, and what is left is the rest of the text. *)
Lemma strip_prefix_i_exact (p x rest : string) :
  all_chars ascii7 p = true ->
  Js.toLowerCase x = Js.toLowerCase p ->
  strip_prefix_i p (x +:+ rest) = Some rest.
Proof.
  intros H7 Hx.
  destruct (strip_prefix_i_of_lower p H7 (x +:+ rest)) as [r Hr].
  { rewrite toLowerCase_app, Hx. apply BuildFacts.prefix_append. }
  rewrite Hr. f_equal.
  apply strip_prefix_i_split in Hr as (x' & E & Hlen).
  symmetry. eapply append_same_length; [exact E |].
  rewrite Hlen, <- (toLowerCase_length x), Hx. apply toLowerCase_length.
Qed.

Lemma starts_with_i_split (token text : string) :
  starts_with_i token text = true ->
  exists x rest,
    text = x +:+ rest /\ Js.toLowerCase x = Js.toLowerCase token.
Proof.
  unfold starts_with_i. generalize (Js.toLowerCase token) as p.
  intros p. revert text.
  induction p as [| a p IH]; intros text H.
  - exists "", text. auto.
  - destruct text as [| b text]; simpl in H; [discriminate |].
    apply andb_true_iff in H as [Hab H]. apply Ascii.eqb_eq in Hab.
    apply IH in H as (x & rest & -> & Hx).
    exists (String b x), rest. split; [reflexivity |].
    simpl. now rewrite Hx, Hab.
Qed.

(** The first leading pattern matches a text that starts with a channel
    token. *)
Lemma channel_token_matches (name text : string) :
  In name channel_name_list ->
  all_chars ascii7 name = true ->
  starts_with_i ("<|" +:+ name +:+ "|>") text = true ->
  match_at re_leading_channels 0 text <> None.
Proof.
  intros Hin H7 H. apply starts_with_i_split in H as (x & rest & -> & Hx).
  assert (Hstrip : strip_prefix_i ("<|" +:+ name +:+ "|>") (x +:+ rest)
                   = Some rest).
  { apply strip_prefix_i_exact; [| exact Hx].
    clear - H7. simpl. induction name as [| c name IH]; [reflexivity |].
    simpl in *. apply andb_true_iff in H7 as [-> H7]. now apply IH. }
  apply strip_prefix_i_app in Hstrip as (m1 & H1 & Hstrip).
  apply strip_prefix_i_app in Hstrip as (m2 & H2 & H3).
  unfold re_leading_channels, plus. apply can_step_match with (rest := rest).
  eapply can_step_seq; [| apply can_step_star].
  cbn [seqs].
  eapply can_step_seq; [apply can_step_lit_i; exact H1 |].
  eapply can_step_seq.
  { apply can_step_alts with (r := lit_i name).
    - unfold channel_name_list in Hin. now apply in_map.
    - apply can_step_lit_i. exact H2. }
  eapply can_step_seq; [apply can_step_lit_i; exact H3 | apply can_step_star].
Qed.

(** The third leading pattern matches a text that starts with one of its
    words and a closing angle bracket. *)
Lemma prefix_word_matches (word text : string) :
  In word prefix_word_list ->
  all_chars ascii7 word = true ->
  starts_with_i (word +:+ ">") text = true ->
  match_at re_leading_prefix 0 text <> None.
Proof.
  intros Hin H7 H. apply starts_with_i_split in H as (x & rest & -> & Hx).
  assert (Hstrip : strip_prefix_i (word +:+ ">") (x +:+ rest) = Some rest).
  { apply strip_prefix_i_exact; [| exact Hx].
    clear - H7. induction word as [| c word IH]; [reflexivity |].
    rewrite append_cons. simpl in *.
    apply andb_true_iff in H7 as [-> H7]. now apply IH. }
  apply strip_prefix_i_app in Hstrip as (m1 & H1 & H2).
  unfold re_leading_prefix. cbn [seqs].
  apply can_step_match with (rest := rest).
  eapply can_step_seq; [apply can_step_star |].
  eapply can_step_seq.
  { apply can_step_alts with (r := lit_i word).
    - unfold prefix_word_list in Hin. now apply (in_map lit_i) in Hin.
    - apply can_step_lit_i. exact H1. }
  eapply can_step_seq; [apply can_step_star |].
  eapply can_step_seq; [apply can_step_lit_i; exact H2 | apply can_step_star].
Qed.

(** The second leading pattern matches a text that starts with a header. *)
Lemma header_matches (text : string) :
  starts_with_header text -> match_at re_leading_header 0 text <> None.
Proof.
  intros (x & mid & y & rest & -> & Hx & Hy).
  assert (H1 : strip_prefix_i "<|start_header_id|>"
                 (x +:+ mid +:+ y +:+ rest)
               = Some (mid +:+ y +:+ rest))
    by (now apply strip_prefix_i_exact).
  assert (H2 : strip_prefix_i "<|end_header_id|>" (y +:+ rest) = Some rest)
    by (now apply strip_prefix_i_exact).
  unfold re_leading_header. cbn [seqs].
  apply can_step_match with (rest := rest).
  eapply can_step_seq; [apply can_step_lit_i; exact H1 |].
  eapply can_step_seq; [apply can_step_lazy_any; apply suffix_app |].
  eapply can_step_seq; [apply can_step_lit_i; exact H2 | apply can_step_star].
Qed.

Lemma leading_patterns_unmatched (t : string) :
  match_at re_leading_channels 0 (stripLeadingArtifacts t) = None
  /\ match_at re_leading_header 0 (stripLeadingArtifacts t) = None
  /\ match_at re_leading_prefix 0 (stripLeadingArtifacts t) = None.
Proof.
  pose proof (stripLeadingArtifacts_no_match t) as H.
  unfold LEADING_PATTERNS in H.
  inversion H as [| ? ? H1 H']; subst.
  inversion H' as [| ? ? H2 H'']; subst.
  inversion H'' as [| ? ? H3 _]; subst. auto.
Qed.

(** ** The patterns of the sanitizer and the code units they need *)

Lemma angle_free_is_clean (t : string) :
  has_char is_angle t = false -> is_clean t = true.
Proof.
  intros H. unfold is_clean. apply forallb_forall. intros re Hin.
  apply no_match_without with (q := is_angle); [| exact H].
  unfold LEADING_PATTERNS in Hin. simpl in Hin.
  repeat (destruct Hin as [<- | Hin]; [vm_compute; reflexivity |]).
  destruct Hin.
Qed.

(** ** The document cut out by [extractHtmlDocument] *)

Lemma find_last_occurs (needle : string) :
  forall (hay : string) (i : nat),
    Js.find_last needle hay = Some i ->
    exists pre post,
      hay = pre +:+ needle +:+ post /\ String.length pre = i.
Proof.
  induction hay as [| c hay IH]; intros i H; cbn [Js.find_last] in H.
  - destruct (Js.starts_with needle "") eqn:E; [| discriminate].
    injection H as <-. apply HtmlFacts.starts_with_split in E as [post E].
    exists "", post. auto.
  - destruct (Js.find_last needle hay) as [j |] eqn:Ej.
    + injection H as <-. destruct (IH j eq_refl) as (pre & post & -> & Hlen).
      exists (String c pre), post. simpl. auto.
    + destruct (Js.starts_with needle (String c hay)) eqn:E; [| discriminate].
      injection H as <-. apply HtmlFacts.starts_with_split in E as [post E].
      exists "", post. auto.
Qed.

Lemma append_split_at (a b c d : string) :
  a +:+ b = c +:+ d ->
  (String.length a <= String.length c)%nat ->
  exists e, c = a +:+ e /\ b = e +:+ d.
Proof.
  revert c. induction a as [| x a IH]; intros c H Hlen.
  - exists c. auto.
  - destruct c as [| y c]; [simpl in Hlen; lia |].
    rewrite !append_cons in H. injection H as -> H.
    destruct (IH c H) as (e & -> & ->); [simpl in Hlen; lia |].
    exists e. auto.
Qed.

(** A marker whose later code units are no brackets cannot overlap a
    bracket that follows its start. *)
Lemma no_early_bracket (m : string) :
  has_char (Ascii.eqb "<") m = false ->
  forall d post rest,
    m +:+ post = d +:+ String "<" rest -> exists d', d = m +:+ d'.
Proof.
  induction m as [| c m IH]; intros Hm d post rest H.
  - now exists d.
  - cbn [has_char] in Hm. apply orb_false_iff in Hm as [Hc Hm].
    rewrite append_cons in H. destruct d as [| x d].
    + rewrite append_nil in H. injection H as -> _.
      now rewrite Ascii.eqb_refl in Hc.
    + rewrite append_cons in H. injection H as -> H.
      destruct (IH Hm d post rest H) as [d' ->]. now exists d'.
Qed.

Lemma toLowerCase_app_inv (a b : string) :
  forall s,
    Js.toLowerCase s = a +:+ b ->
    exists sa sb,
      s = sa +:+ sb /\ Js.toLowerCase sa = a /\ Js.toLowerCase sb = b.
Proof.
  induction a as [| x a IH]; intros s H.
  - exists "", s. auto.
  - destruct s as [| c s]; [discriminate |].
    rewrite append_cons in H. cbn [Js.toLowerCase] in H. injection H as Hc H.
    destruct (IH s H) as (sa & sb & -> & Ha & Hb).
    exists (String c sa), sb. cbn [Js.toLowerCase]. rewrite Ha, Hc. auto.
Qed.

Lemma substring_all (b c : string) :
  substring 0 (String.length b) (b +:+ c) = b.
Proof.
  induction b as [| x b IH]; [rewrite append_nil; now destruct c |].
  rewrite append_cons. simpl. now rewrite IH.
Qed.

Lemma substring_middle (a b c : string) :
  substring (String.length a) (String.length b) (a +:+ b +:+ c) = b.
Proof.
  induction a as [| x a IH]; [rewrite append_nil; apply substring_all |].
  rewrite append_cons. exact IH.
Qed.

Lemma trimEnd_fixed (c : ascii) :
  Js.is_ws c = false ->
  forall s, Js.trimEnd (s +:+ String c "") = s +:+ String c "".
Proof.
  intros Hc. induction s as [| x s IH].
  - simpl. now rewrite Hc.
  - rewrite append_cons. cbn [Js.trimEnd]. rewrite IH.
    destruct s; reflexivity.
Qed.

Lemma lower_char_gt (c : ascii) : Js.lower_char c = ">"%char -> c = ">"%char.
Proof.
  destruct c as [[] [] [] [] [] [] [] []]; vm_compute; intros H;
    first [reflexivity | discriminate H].
Qed.

(** A text between angle brackets is trimmed already. *)
Lemma trim_bracketed (s : string) :
  Js.trim (String "<" (s +:+ ">")) = String "<" (s +:+ ">").
Proof.
  unfold Js.trim. rewrite trimStart_head by reflexivity.
  exact (trimEnd_fixed ">" eq_refl (String "<" s)).
Qed.

Lemma extractHtmlDocument_delimited (text html : string) :
  extractHtmlDocument text = Some html ->
  exists start mid,
    (start = "<!doctype" \/ start = "<html")
    /\ Js.toLowerCase html = start +:+ mid +:+ "</html>".
Proof.
  unfold extractHtmlDocument. cbv zeta.
  set (lower := Js.toLowerCase text).
  set (i1 := Js.indexOf lower "<!doctype").
  set (i2 := Js.indexOf lower "<html").
  set (j := Js.lastIndexOf lower "</html>").
  destruct (negb (Z.max i1 i2 =? -1) && negb (j =? -1) && (Z.max i1 i2 <? j))
    eqn:Hcond; [| discriminate].
  intros [= <-].
  apply andb_true_iff in Hcond as [Hcond Hlt].
  apply andb_true_iff in Hcond as [Hstart Hend].
  apply negb_true_iff, Z.eqb_neq in Hstart.
  apply negb_true_iff, Z.eqb_neq in Hend. apply Z.ltb_lt in Hlt.
  assert (Hmarker : exists m i,
             (m = "!doctype" \/ m = "html")
             /\ Js.find_first (String "<" m) lower = Some i
             /\ Z.max i1 i2 = Z.of_nat i).
  { subst i1 i2. unfold Js.indexOf in *.
    destruct (Js.find_first "<!doctype" lower) as [a |] eqn:E1;
      destruct (Js.find_first "<html" lower) as [b |] eqn:E2;
      simpl in *.
    - destruct (Z.max_spec (Z.of_nat a) (Z.of_nat b)) as [[_ ->] | [_ ->]];
        eauto 6.
    - exists "!doctype", a. split; [now left |]. split; [exact E1 | lia].
    - exists "html", b. split; [now right |]. split; [exact E2 | lia].
    - lia. }
  destruct Hmarker as (m & i & Hm & Hfirst & Hi).
  assert (Hlast : exists jn,
             Js.find_last "</html>" lower = Some jn /\ j = Z.of_nat jn).
  { subst j. unfold Js.lastIndexOf in *.
    destruct (Js.find_last "</html>" lower) as [jn |]; simpl in *;
      [eauto | lia]. }
  destruct Hlast as (jn & Hlast & Hj).
  rewrite Hi, Hj in *. clear Hi Hj Hstart Hend. clearbody j. clear j i1 i2.
  assert (Hij : (i < jn)%nat) by lia. clear Hlt.
  apply HtmlFacts.find_first_occurs in Hfirst as (pre & post & Hlow1 & Hpre).
  apply find_last_occurs in Hlast as (pre' & post' & Hlow2 & Hpre').
  assert (Hfree : has_char (Ascii.eqb "<") m = false)
    by (destruct Hm as [-> | ->]; reflexivity).
  (* the closing tag starts after the whole start marker *)
  assert (Hsplit : exists d,
             lower = pre +:+ (String "<" (m +:+ d +:+ "</html")) +:+ ">"
                     +:+ post').
  { rewrite Hlow1 in Hlow2.
    destruct (append_split_at _ _ _ _ Hlow2) as (e & -> & He); [lia |].
    destruct e as [| x e].
    { rewrite length_append in Hpre'. simpl in Hpre'. lia. }
    rewrite !append_cons in He. injection He as <- He.
    change ("</html>" +:+ post') with (String "<" ("/html>" +:+ post')) in He.
    destruct (no_early_bracket m Hfree _ _ _ He) as [d ->].
    exists d. rewrite Hlow1. f_equal. rewrite !append_cons. f_equal.
    rewrite He. rewrite !BuildFacts.append_assoc. reflexivity. }
  destruct Hsplit as [d Hsplit].
  unfold lower in Hsplit.
  apply toLowerCase_app_inv in Hsplit as (tp & tq & Htext & Htp & Htq).
  apply toLowerCase_app_inv in Htq as (tb & tq' & -> & Htb & Htq).
  apply toLowerCase_app_inv in Htq as (tg & tpost & -> & Htg & Htpost).
  destruct tb as [| c0 tb]; [discriminate |].
  cbn [Js.toLowerCase] in Htb. injection Htb as Hc0 Htb.
  apply HtmlFacts.lower_char_lt in Hc0 as ->.
  destruct tg as [| c1 [| c2 tg]]; try discriminate.
  cbn [Js.toLowerCase] in Htg. injection Htg as Hc1.
  apply lower_char_gt in Hc1 as ->.
  assert (Hlen_tp : String.length tp = i)
    by (now rewrite <- (toLowerCase_length tp), Htp).
  assert (Hlen_tb : String.length tb
                    = (String.length m + String.length d + 6)%nat).
  { rewrite <- (toLowerCase_length tb), Htb, !length_append. simpl. lia. }
  assert (Hjn : (jn + 7 = i + S (String.length tb) + 1)%nat).
  { assert (Hl : String.length lower
                 = (jn + 7 + String.length post')%nat).
    { rewrite Hlow2, !length_append. simpl. lia. }
    unfold lower in Hl. rewrite toLowerCase_length, Htext in Hl.
    repeat (rewrite ?append_cons, ?append_nil, ?length_append in Hl;
            cbn [String.length] in Hl).
    assert (String.length tpost = String.length post')
      by (now rewrite <- (toLowerCase_length tpost), Htpost).
    lia. }
  assert (Hslice :
    Js.slice text (Z.of_nat i) (Z.of_nat jn + Z.of_nat 7)
    = String "<" (tb +:+ ">")).
  { unfold Js.slice, Js.clamp_index. cbv zeta.
    assert (Hlen : String.length text
                   = (i + S (String.length tb) + 1 + String.length tpost)%nat).
    { rewrite Htext.
      repeat (rewrite ?append_cons, ?append_nil, ?length_append;
              cbn [String.length]).
      lia. }
    rewrite Hlen. simpl String.length.
    assert (Hi0 : (Z.of_nat i <? 0) = false) by (apply Z.ltb_ge; lia).
    assert (Hj0 : (Z.of_nat jn + Z.of_nat 7 <? 0) = false)
      by (apply Z.ltb_ge; lia).
    rewrite Hi0, Hj0.
    replace (Z.to_nat (Z.min (Z.of_nat i) _)) with (String.length tp) by lia.
    match goal with
    | |- substring _ ?n _ = _ =>
        replace n with (String.length (String "<" (tb +:+ ">")))
    end.
    2:{ simpl. rewrite length_append. simpl. lia. }
    rewrite Htext.
    replace (tp +:+ (String "<" tb +:+ ">" +:+ tpost))
      with (tp +:+ String "<" (tb +:+ ">") +:+ tpost).
    - apply substring_middle.
    - f_equal. rewrite !append_cons. f_equal. now rewrite BuildFacts.append_assoc. }
  rewrite Hslice, trim_bracketed.
  exists (String "<" m), d. split.
  - destruct Hm as [-> | ->]; auto.
  - cbn [Js.toLowerCase]. change (Js.lower_char "<") with "<"%char.
    rewrite toLowerCase_app, Htb. rewrite !append_cons. f_equal.
    rewrite !BuildFacts.append_assoc. reflexivity.
Qed.

End TextFacts.

(** * What a match of the fence pattern looks like *)

Module MatchFacts.
Import Regex Vocabulary TextVocabulary RegexFacts Sanitizer TextFacts.

(** ** The matcher is sound for [denotes] *)

Lemma star_loop_sound (R : Type) (r : regex)
    (step : nat -> string -> captures -> cont R -> option R)
    (greedy : bool) (k : cont R) :
  sound_for (denotes r) step ->
  forall (fuel pos : nat) (s : string) (caps : captures) (res : R),
    star_loop step greedy k fuel pos s caps = Some res ->
    exists x s' caps',
      s = x +:+ s' /\ denotes (Star greedy r) x caps caps'
      /\ k (pos + String.length x)%nat s' caps' = Some res.
Proof.
  intros Hstep fuel.
  assert (Hstop : forall pos s caps res,
             k pos s caps = Some res ->
             exists x s' caps',
               s = x +:+ s' /\ denotes (Star greedy r) x caps caps'
               /\ k (pos + String.length x)%nat s' caps' = Some res).
  { intros pos s caps res H. exists "", s, caps.
    split; [reflexivity |]. split; [constructor |].
    simpl. now rewrite Nat.add_0_r. }
  induction fuel as [| fuel IHf]; intros pos s caps res Hrun; simpl in Hrun.
  - destruct greedy; [now apply Hstop |].
    destruct (k pos s caps) eqn:Ek; [| discriminate].
    injection Hrun as ->. now apply Hstop.
  - assert (Hagain : forall res',
               step pos s caps
                 (fun pos' rest' caps' =>
                    if (pos <? pos')%nat
                    then star_loop step greedy k fuel pos' rest' caps'
                    else None) = Some res' ->
               exists x s' caps',
                 s = x +:+ s' /\ denotes (Star greedy r) x caps caps'
                 /\ k (pos + String.length x)%nat s' caps' = Some res').
    { intros res' H. apply Hstep in H as (x1 & s1 & caps1 & -> & Hd1 & H).
      destruct (pos <? pos + String.length x1)%nat; [| discriminate].
      apply IHf in H as (x2 & s2 & caps2 & -> & Hd2 & Hk).
      exists (x1 +:+ x2), s2, caps2.
      split; [now rewrite BuildFacts.append_assoc |].
      split; [econstructor; eassumption |].
      now rewrite length_append, Nat.add_assoc. }
    destruct greedy.
    + match type of Hrun with
      | match ?a with _ => _ end = _ => destruct a eqn:Ea
      end.
      * injection Hrun as ->. now apply Hagain.
      * now apply Hstop.
    + destruct (k pos s caps) eqn:Ek.
      * injection Hrun as ->. now apply Hstop.
      * now apply Hagain.
Qed.

Lemma run_sound (R : Type) (r : regex) : sound_for (denotes r) (@run R r).
Proof.
  induction r as [| p | r1 IH1 r2 IH2 | r1 IH1 r2 IH2 | greedy r1 IH1
                  | n r1 IH1 |];
    intros pos s caps k res Hrun; simpl in Hrun.
  - exists "", s, caps. split; [reflexivity |]. split; [constructor |].
    simpl. now rewrite Nat.add_0_r.
  - destruct s as [| c s']; [discriminate |].
    destruct (p c) eqn:Hp; [| discriminate].
    exists (String c ""), s', caps. split; [reflexivity |].
    split; [now constructor |]. simpl. now rewrite Nat.add_1_r.
  - apply IH1 in Hrun as (x1 & s1 & caps1 & -> & Hd1 & Hrun).
    apply IH2 in Hrun as (x2 & s2 & caps2 & -> & Hd2 & Hk).
    exists (x1 +:+ x2), s2, caps2.
    split; [now rewrite BuildFacts.append_assoc |].
    split; [econstructor; eassumption |].
    now rewrite length_append, Nat.add_assoc.
  - destruct (run r1 pos s caps k) eqn:E1.
    + injection Hrun as ->.
      apply IH1 in E1 as (x & s' & caps' & -> & Hd & Hk).
      exists x, s', caps'. auto using den_alt_l.
    + apply IH2 in Hrun as (x & s' & caps' & -> & Hd & Hk).
      exists x, s', caps'. auto using den_alt_r.
  - eapply star_loop_sound; eauto.
  - apply IH1 in Hrun as (x & s' & caps' & -> & Hd & Hk).
    replace (pos + String.length x - pos)%nat with (String.length x) in Hk
      by lia.
    rewrite substring_all in Hk.
    exists x, s', ((n, x) :: caps'). auto using den_group.
  - destruct (pos =? 0)%nat; [| discriminate].
    exists "", s, caps. split; [reflexivity |]. split; [constructor |].
    simpl. now rewrite Nat.add_0_r.
Qed.

Lemma match_at_sound (r : regex) (pos : nat) (s : string) (m : found) :
  match_at r pos s = Some m ->
  exists x, s = x +:+ m_after m /\ denotes r x [] (m_caps m).
Proof.
  unfold match_at. intros H.
  apply run_sound in H as (x & s' & caps' & -> & Hd & H).
  injection H as <-. simpl. eauto.
Qed.

Lemma match_at_end (r : regex) (pos : nat) (s : string) (m : found) :
  match_at r pos s = Some m ->
  exists x,
    s = x +:+ m_after m /\ matched r x
    /\ m_end m = (pos + String.length x)%nat.
Proof.
  unfold match_at. intros H.
  apply run_sound in H as (x & s' & caps' & -> & Hd & H).
  injection H as <-. simpl. exists x. unfold matched. eauto.
Qed.

(** ** A global replacement deletes matches only *)

Lemma search_place (r : regex) :
  forall (rest : string) (pos : nat) (skipped : list ascii)
         (before : string) (m : found),
    search r pos skipped rest = Some (before, m) ->
    exists pre rest1,
      rest = pre +:+ rest1
      /\ before = string_of_list_ascii (rev skipped) +:+ pre
      /\ match_at r (pos + String.length pre) rest1 = Some m.
Proof.
  induction rest as [| c rest IH]; intros pos skipped before m H;
    cbn [search] in H.
  - destruct (match_at r pos "") eqn:E; [| discriminate].
    injection H as <- <-. exists "", "". cbn [String.length].
    rewrite Nat.add_0_r, !append_empty_r. auto.
  - destruct (match_at r pos (String c rest)) eqn:E.
    + injection H as <- <-. exists "", (String c rest).
      cbn [String.length]. rewrite Nat.add_0_r, !append_empty_r. auto.
    + apply IH in H as (pre & rest1 & -> & Hb & Hm).
      exists (String c pre), rest1. split; [reflexivity |]. split.
      * rewrite Hb. apply string_of_rev_cons.
      * replace (pos + String.length (String c pre))%nat
          with (S pos + String.length pre)%nat by (simpl; lia).
        exact Hm.
Qed.

Lemma deletes_app (P : string -> Prop) (pre s s' : string) :
  deletes P s s' -> deletes P (pre +:+ s) (pre +:+ s').
Proof.
  intros H. induction pre as [| c pre IH]; [exact H |].
  rewrite !append_cons. now constructor.
Qed.

Lemma deletes_impl (P Q : string -> Prop) (s s' : string) :
  (forall x, P x -> Q x) -> deletes P s s' -> deletes Q s s'.
Proof. intros HPQ. induction 1; econstructor; eauto. Qed.

Lemma replace_all_from_deletes (r : regex) :
  forall (fuel pos : nat) (rest : string),
    deletes (matched r) rest (replace_all_from fuel r pos rest).
Proof.
  induction fuel as [| fuel IH]; intros pos rest; cbn [replace_all_from];
    [constructor |].
  destruct (search r pos [] rest) as [[before m] |] eqn:E; [| constructor].
  apply search_place in E as (pre & rest1 & -> & Hb & Hm).
  simpl in Hb. rewrite append_nil in Hb. subst before.
  apply match_at_end in Hm as (x & -> & Hx & Hend).
  destruct (m_end m =? pos + String.length pre)%nat.
  - destruct (m_after m) as [| c after'].
    + rewrite <- (append_empty_r pre) at 2.
      apply deletes_app, del_cut; [exact Hx | constructor].
    + apply deletes_app, del_cut; [exact Hx |]. apply del_keep, IH.
  - apply deletes_app, del_cut; [exact Hx | apply IH].
Qed.

Lemma replace_all_deletes (r : regex) (s : string) :
  deletes (matched r) s (replace_all r s).
Proof. apply replace_all_from_deletes. Qed.

(** ** What the parts of the fence pattern read *)

Lemma denotes_class (p : ascii -> bool) (x : string) (caps caps' : captures) :
  denotes (Class p) x caps caps' ->
  exists c, x = String c "" /\ p c = true /\ caps' = caps.
Proof. inversion 1; subst. eauto. Qed.

Lemma denotes_chr (c : ascii) (x : string) (caps caps' : captures) :
  denotes (chr c) x caps caps' -> x = String c "" /\ caps' = caps.
Proof.
  intros H. apply denotes_class in H as (d & -> & Hd & ->).
  apply Ascii.eqb_eq in Hd as ->. auto.
Qed.

Lemma denotes_seq (r1 r2 : regex) (x : string) (caps caps' : captures) :
  denotes (Seq r1 r2) x caps caps' ->
  exists x1 x2 caps1,
    x = x1 +:+ x2 /\ denotes r1 x1 caps caps1 /\ denotes r2 x2 caps1 caps'.
Proof. inversion 1; subst. eauto 6. Qed.

Lemma denotes_group (n : nat) (r : regex) (x : string) (caps caps' : captures) :
  denotes (Group n r) x caps caps' ->
  exists caps1, denotes r x caps caps1 /\ caps' = (n, x) :: caps1.
Proof. inversion 1; subst. eauto. Qed.

Lemma all_chars_app (q : ascii -> bool) (a b : string) :
  all_chars q (a +:+ b) = all_chars q a && all_chars q b.
Proof.
  induction a as [| c a IH]; [reflexivity |].
  rewrite append_cons. simpl. rewrite IH. now rewrite andb_assoc.
Qed.

Lemma denotes_star_class (greedy : bool) (p : ascii -> bool) (x : string)
    (caps caps' : captures) :
  denotes (Star greedy (Class p)) x caps caps' ->
  all_chars p x = true /\ caps' = caps.
Proof.
  intros H. remember (Star greedy (Class p)) as r eqn:Er.
  induction H; try discriminate; injection Er as -> ->.
  - auto.
  - apply denotes_class in H as (c & -> & Hc & ->).
    destruct (IHdenotes2 eq_refl) as [Hall ->].
    split; [| reflexivity]. rewrite append_cons, append_nil. simpl.
    now rewrite Hc, Hall.
Qed.

Lemma denotes_lit_i (p : string) :
  forall (x : string) (caps caps' : captures),
    denotes (lit_i p) x caps caps' ->
    strip_prefix_i p x = Some "" /\ caps' = caps.
Proof.
  induction p as [| a p IH]; intros x caps caps' H.
  - inversion H; subst. auto.
  - destruct p as [| b p].
    + apply denotes_class in H as (c & -> & Hc & ->).
      cbn [strip_prefix_i]. now rewrite Hc.
    + change (lit_i (String a (String b p)))
        with (Seq (chr_i a) (lit_i (String b p))) in H.
      apply denotes_seq in H as (x1 & x2 & caps1 & -> & H1 & H2).
      apply denotes_class in H1 as (c & -> & Hc & ->).
      apply IH in H2 as [H2 ->]. split; [| reflexivity].
      rewrite append_cons, append_nil.
      change (strip_prefix_i (String a (String b p)) (String c x2))
        with (if Ascii.eqb (fold_case c) (fold_case a)
              then strip_prefix_i (String b p) x2 else None).
      now rewrite Hc.
Qed.

Lemma denotes_lit (p : string) :
  forall (x : string) (caps caps' : captures),
    denotes (lit p) x caps caps' -> x = p /\ caps' = caps.
Proof.
  induction p as [| a p IH]; intros x caps caps' H.
  - inversion H; subst. auto.
  - destruct p as [| b p].
    + now apply denotes_chr in H.
    + change (lit (String a (String b p)))
        with (Seq (chr a) (lit (String b p))) in H.
      apply denotes_seq in H as (x1 & x2 & caps1 & -> & H1 & H2).
      apply denotes_chr in H1 as [-> ->].
      apply IH in H2 as [-> ->]. auto.
Qed.

Lemma denotes_alt (r1 r2 : regex) (x : string) (caps caps' : captures) :
  denotes (Alt r1 r2) x caps caps' ->
  denotes r1 x caps caps' \/ denotes r2 x caps caps'.
Proof. inversion 1; subst; auto. Qed.

Lemma denotes_empty (x : string) (caps caps' : captures) :
  denotes Empty x caps caps' -> x = "" /\ caps' = caps.
Proof. inversion 1; subst; auto. Qed.

Lemma denotes_alts (rs : list regex) (x : string) (caps caps' : captures) :
  rs <> [] ->
  denotes (alts rs) x caps caps' -> exists r, In r rs /\ denotes r x caps caps'.
Proof.
  induction rs as [| r0 rs IH]; intros Hne H; [now destruct Hne |].
  destruct rs as [| r1 rs].
  - exists r0. split; [now left | exact H].
  - change (alts (r0 :: r1 :: rs)) with (Alt r0 (alts (r1 :: rs))) in H.
    apply denotes_alt in H as [H | H].
    + exists r0. split; [now left | exact H].
    + destruct IH as (r & Hin & Hr); [discriminate | exact H |].
      exists r. split; [now right | exact Hr].
Qed.

(** Under the i flag, what matches a pattern letter below 128 has the
    same lower case. *)
Lemma lower_of_fold_case (a b : ascii) :
  ascii7 a = true ->
  Ascii.eqb (fold_case b) (fold_case a) = true ->
  Js.lower_char b = Js.lower_char a.
Proof.
  intros H7 Hfold.
  assert (Hall :
    forallb
      (fun a =>
         forallb
           (fun b =>
              implb (ascii7 a && Ascii.eqb (fold_case b) (fold_case a))
                (Ascii.eqb (Js.lower_char b) (Js.lower_char a)))
           all_ascii)
      all_ascii = true) by (vm_compute; reflexivity).
  apply for_all_ascii with (c := a) in Hall.
  apply for_all_ascii with (c := b) in Hall.
  rewrite H7, Hfold in Hall. simpl in Hall. now apply Ascii.eqb_eq.
Qed.

Lemma strip_prefix_i_lower (p : string) :
  all_chars ascii7 p = true ->
  forall x, strip_prefix_i p x = Some "" ->
            Js.toLowerCase x = Js.toLowerCase p.
Proof.
  induction p as [| a p IH]; intros H7 x H; cbn [strip_prefix_i] in H.
  - now injection H as ->.
  - destruct x as [| b x]; [discriminate |].
    simpl in H7. apply andb_true_iff in H7 as [Ha H7].
    destruct (Ascii.eqb (fold_case b) (fold_case a)) eqn:E; [| discriminate].
    cbn [Js.toLowerCase].
    now rewrite (lower_of_fold_case a b Ha E), (IH H7 x H).
Qed.

Lemma denotes_lit_i_lower (p x : string) (caps caps' : captures) :
  all_chars ascii7 p = true ->
  denotes (lit_i p) x caps caps' ->
  Js.toLowerCase x = Js.toLowerCase p /\ caps' = caps.
Proof.
  intros H7 H. apply denotes_lit_i in H as [H ->].
  split; [now apply strip_prefix_i_lower | reflexivity].
Qed.

(** Only the backquote matches the backquote under the i flag. *)
Lemma fold_case_backquote (c : ascii) :
  Ascii.eqb (fold_case c) (fold_case "`") = true -> c = "`"%char.
Proof.
  destruct c as [[] [] [] [] [] [] [] []]; vm_compute; intros H;
    first [reflexivity | discriminate H].
Qed.

Lemma strip_fence (x : string) :
  strip_prefix_i "```" x = Some "" -> x = "```".
Proof.
  destruct x as [| c1 [| c2 [| c3 [| c4 x]]]]; cbn [strip_prefix_i];
    try discriminate;
    repeat match goal with
           | |- (if ?b then _ else _) = _ -> _ =>
               let E := fresh "E" in destruct b eqn:E; [| discriminate]
           end;
    try discriminate.
  apply fold_case_backquote in E, E0, E1. now subst.
Qed.

(** The text read by the fence pattern and the two groups it captures. *)
Lemma fence_shape (x : string) (caps' : captures) :
  denotes fenceRe x [] caps' ->
  exists label w b,
    x = "```" +:+ label +:+ w +:+ BuildProto.lf +:+ b +:+ BuildProto.lf
        +:+ "```"
    /\ all_chars is_lang_char label = true
    /\ all_chars Js.is_ws w = true
    /\ caps' = [(2%nat, b); (1%nat, label)].
Proof.
  unfold fenceRe. cbn [seqs]. intros H.
  apply denotes_seq in H as (x1 & y1 & c1 & -> & H1 & H).
  apply denotes_seq in H as (x2 & y2 & c2 & -> & H2 & H).
  apply denotes_seq in H as (x3 & y3 & c3 & -> & H3 & H).
  apply denotes_seq in H as (x4 & y4 & c4 & -> & H4 & H).
  apply denotes_seq in H as (x5 & y5 & c5 & -> & H5 & H).
  apply denotes_seq in H as (x6 & x7 & c6 & -> & H6 & H7).
  apply denotes_lit_i in H1 as [H1 ->]. apply strip_fence in H1 as ->.
  apply denotes_group in H2 as (c2' & H2 & ->).
  apply denotes_star_class in H2 as [Hlabel ->].
  apply denotes_star_class in H3 as [Hw ->].
  apply denotes_chr in H4 as [-> ->].
  apply denotes_group in H5 as (c5' & H5 & ->).
  apply denotes_star_class in H5 as [_ ->].
  apply denotes_chr in H6 as [-> ->].
  apply denotes_lit_i in H7 as [H7 ->]. apply strip_fence in H7 as ->.
  exists x2, x3, x5. auto.
Qed.

(** ** Solving for the parts of a fenced block *)

Lemma count_char_app (q : ascii -> bool) (a b : string) :
  count_char q (a +:+ b) = (count_char q a + count_char q b)%nat.
Proof.
  induction a as [| c a IH]; [reflexivity |].
  rewrite append_cons. simpl. rewrite IH. lia.
Qed.

Lemma count_char_none (q : ascii -> bool) (s : string) :
  has_char q s = false <-> count_char q s = 0%nat.
Proof.
  induction s as [| c s IH]; simpl; [tauto |].
  destruct (q c); simpl; [split; [discriminate | lia] | exact IH].
Qed.

(** Two splits of a text at the first code unit that fails [p] agree. *)
Lemma first_break (p : ascii -> bool) (a b : string) (c d : ascii)
    (x y : string) :
  all_chars p a = true -> all_chars p b = true ->
  p c = false -> p d = false ->
  a +:+ String c x = b +:+ String d y ->
  a = b /\ x = y.
Proof.
  revert b. induction a as [| e a IH]; intros [| f b] Ha Hb Hc Hd H.
  - rewrite !append_nil in H. now injection H as _ ->.
  - rewrite append_nil, append_cons in H. injection H as -> _.
    simpl in Hb. rewrite Hc in Hb. discriminate.
  - rewrite append_nil, append_cons in H. injection H as -> _.
    simpl in Ha. rewrite Hd in Ha. discriminate.
  - rewrite !append_cons in H. injection H as -> H.
    simpl in Ha, Hb. apply andb_true_iff in Ha as [_ Ha].
    apply andb_true_iff in Hb as [_ Hb].
    destruct (IH b Ha Hb Hc Hd H) as [-> ->]. auto.
Qed.

Lemma append_cancel_r (a b c : string) : a +:+ c = b +:+ c -> a = b.
Proof.
  revert b. induction a as [| x a IH]; intros [| y b] H.
  - reflexivity.
  - exfalso. apply (f_equal String.length) in H.
    rewrite append_nil, append_cons in H. simpl in H.
    rewrite length_append in H. lia.
  - exfalso. apply (f_equal String.length) in H.
    rewrite append_nil, append_cons in H. simpl in H.
    rewrite length_append in H. lia.
  - rewrite !append_cons in H. injection H as -> H. f_equal. now apply IH.
Qed.

Lemma not_backquote_free (s : string) :
  has_char is_backquote s = false ->
  all_chars (fun c => negb (is_backquote c)) s = true.
Proof.
  induction s as [| c s IH]; [reflexivity |]. simpl. intros H.
  apply orb_false_iff in H as [-> H]. simpl. now apply IH.
Qed.

(** The closing fence of a text with one fence is where it is. *)
Lemma closing_fence_unique (l s r o : string) :
  has_char is_backquote r = false ->
  has_char is_backquote o = false ->
  l +:+ "```" +:+ s = r +:+ "```" +:+ o ->
  l = r /\ s = o.
Proof.
  intros Hr Ho H.
  assert (Hcount : count_char is_backquote (l +:+ "```" +:+ s)
                   = count_char is_backquote (r +:+ "```" +:+ o))
    by now rewrite H.
  rewrite !count_char_app in Hcount.
  apply count_char_none in Hr as Hr0. apply count_char_none in Ho as Ho0.
  rewrite Hr0, Ho0 in Hcount.
  change (count_char is_backquote "```") with 3%nat in Hcount.
  assert (Hl : has_char is_backquote l = false)
    by (apply count_char_none; lia).
  change ("```" +:+ s) with (String "`" ("``" +:+ s)) in H.
  change ("```" +:+ o) with (String "`" ("``" +:+ o)) in H.
  apply first_break with (p := fun c => negb (is_backquote c)) in H
    as [-> H]; try reflexivity; try now apply not_backquote_free.
  split; [reflexivity |]. now injection H.
Qed.

Lemma ws_not_lang (c : ascii) : Js.is_ws c = true -> is_lang_char c = false.
Proof.
  destruct c as [[] [] [] [] [] [] [] []]; vm_compute; intros H;
    first [reflexivity | discriminate H].
Qed.

Lemma trimStart_ws_prefix (u b : string) :
  all_chars Js.is_ws u = true -> Js.trimStart (u +:+ b) = Js.trimStart b.
Proof.
  induction u as [| c u IH]; intros H; [reflexivity |].
  simpl in H. apply andb_true_iff in H as [Hc H].
  rewrite append_cons. simpl. rewrite Hc. now apply IH.
Qed.

(** The label and the body of a fenced block, from the text the pattern
    has read: the label as it is, the body up to white space at its start. *)
Lemma fence_parts (l w b label body : string) :
  all_chars is_lang_char l = true ->
  all_chars Js.is_ws w = true ->
  all_chars is_lang_char label = true ->
  l +:+ w +:+ BuildProto.lf +:+ b +:+ BuildProto.lf
  = label +:+ BuildProto.lf +:+ body +:+ BuildProto.lf ->
  l = label /\ Js.trim b = Js.trim body.
Proof.
  intros Hl Hw Hlabel H.
  change (BuildProto.lf +:+ body +:+ BuildProto.lf)
    with (String newline (body +:+ BuildProto.lf)) in H.
  assert (Hhead : exists c x,
             w +:+ BuildProto.lf +:+ b +:+ BuildProto.lf = String c x
             /\ is_lang_char c = false).
  { destruct w as [| c w].
    - exists newline, (b +:+ BuildProto.lf). split; reflexivity.
    - exists c, (w +:+ BuildProto.lf +:+ b +:+ BuildProto.lf).
      split; [reflexivity |]. simpl in Hw.
      apply andb_true_iff in Hw as [Hc _]. now apply ws_not_lang. }
  destruct Hhead as (c & x & Hx & Hc). rewrite Hx in H.
  apply first_break with (p := is_lang_char) in H as [-> ->];
    try assumption; try reflexivity.
  split; [reflexivity |].
  destruct w as [| d w].
  - rewrite append_nil in Hx.
    change (BuildProto.lf +:+ b +:+ BuildProto.lf)
      with (String newline (b +:+ BuildProto.lf)) in Hx.
    injection Hx as _ Hx. apply append_cancel_r in Hx. now subst.
  - rewrite append_cons in Hx. injection Hx as _ Hx.
    rewrite <- !BuildFacts.append_assoc in Hx. apply append_cancel_r in Hx.
    rewrite <- Hx. unfold Js.trim.
    rewrite trimStart_ws_prefix; [reflexivity |].
    simpl in Hw. apply andb_true_iff in Hw as [_ Hw].
    rewrite all_chars_app, Hw. reflexivity.
Qed.

(** ** The fence pattern matches a fenced block *)

Lemma can_step_class (p : ascii -> bool) (c : ascii) (s : string) :
  p c = true -> can_step (Class p) (String c s) s.
Proof. intros Hc R pos caps k Hk. simpl. rewrite Hc. apply Hk. Qed.

Lemma can_step_group (n : nat) (r : regex) (s rest : string) :
  can_step r s rest -> can_step (Group n r) s rest.
Proof.
  intros H R pos caps k Hk. simpl. apply H. intros pos' caps'. apply Hk.
Qed.

Lemma can_step_greedy_class_fuel (p : ascii -> bool) (x : string) :
  all_chars p x = true ->
  forall (R : Type) (rest : string) (fuel pos : nat) (caps : captures)
         (k : cont R),
    (String.length x <= fuel)%nat ->
    accepts k rest ->
    star_loop (run (Class p)) true k fuel pos (x +:+ rest) caps <> None.
Proof.
  induction x as [| c x IH]; intros Hx R rest fuel pos caps k Hfuel Hk.
  - rewrite append_nil. specialize (Hk pos caps).
    destruct fuel; simpl;
      repeat match goal with
             | |- context [match ?a with Some _ => _ | None => _ end] =>
                 destruct a
             end;
      try discriminate; try exact Hk.
  - simpl in Hx. apply andb_true_iff in Hx as [Hc Hx].
    destruct fuel as [| fuel]; [simpl in Hfuel; lia |].
    rewrite append_cons. simpl. rewrite Hc.
    destruct (Nat.ltb_spec pos (S pos)); [| lia].
    match goal with
    | |- context [match ?a with Some _ => _ | None => _ end] =>
        destruct a eqn:E; [discriminate |]
    end.
    exfalso. revert E. apply IH; [exact Hx | simpl in Hfuel; lia | exact Hk].
Qed.

Lemma can_step_greedy_class (p : ascii -> bool) (x rest : string) :
  all_chars p x = true -> can_step (Star true (Class p)) (x +:+ rest) rest.
Proof.
  intros Hx R pos caps k Hk. simpl.
  apply can_step_greedy_class_fuel; [exact Hx | | exact Hk].
  rewrite length_append. lia.
Qed.

Lemma fence_can_match (label body outro : string) :
  all_chars is_lang_char label = true ->
  can_step fenceRe (fenced label body +:+ outro) outro.
Proof.
  intros Hlabel. unfold fenceRe, fenced. cbn [seqs].
  rewrite !BuildFacts.append_assoc.
  eapply can_step_seq; [apply can_step_lit_i; reflexivity |].
  eapply can_step_seq;
    [apply can_step_group, can_step_greedy_class; exact Hlabel |].
  eapply can_step_seq; [apply can_step_star |].
  eapply can_step_seq; [apply can_step_class; reflexivity |].
  eapply can_step_seq;
    [apply can_step_group, can_step_lazy_any, suffix_app |].
  eapply can_step_seq; [apply can_step_class; reflexivity |].
  apply can_step_lit_i. reflexivity.
Qed.

(** The match of the fence pattern at the start of a fenced block that is
    followed by no other fence. *)
Lemma fence_match (label body outro : string) (pos : nat) :
  all_chars is_lang_char label = true ->
  has_char is_backquote body = false ->
  has_char is_backquote outro = false ->
  exists m,
    match_at fenceRe pos (fenced label body +:+ outro) = Some m
    /\ m_after m = outro
    /\ group_or_empty 1 m = label
    /\ Js.trim (group_or_empty 2 m) = Js.trim body.
Proof.
  intros Hlabel Hbody Houtro.
  destruct (match_at fenceRe pos (fenced label body +:+ outro)) as [m |] eqn:E.
  2:{ exfalso. revert E. unfold match_at.
      apply (fence_can_match label body outro Hlabel). intros p c.
      discriminate. }
  exists m. split; [reflexivity |].
  apply match_at_sound in E as (x & Hx & Hd).
  apply fence_shape in Hd as (l & w & b & -> & Hl & Hw & Hcaps).
  unfold fenced in Hx. rewrite !BuildFacts.append_assoc in Hx.
  change ("```" +:+ label +:+ BuildProto.lf +:+ body +:+ BuildProto.lf
          +:+ "```" +:+ outro)
    with (String "`" (String "`" (String "`"
            (label +:+ BuildProto.lf +:+ body +:+ BuildProto.lf
             +:+ "```" +:+ outro)))) in Hx.
  change ("```" +:+ l +:+ w +:+ BuildProto.lf +:+ b +:+ BuildProto.lf
          +:+ "```" +:+ m_after m)
    with (String "`" (String "`" (String "`"
            (l +:+ w +:+ BuildProto.lf +:+ b +:+ BuildProto.lf
             +:+ "```" +:+ m_after m)))) in Hx.
  injection Hx as Hx.
  assert (Hr : has_char is_backquote
                 (label +:+ BuildProto.lf +:+ body +:+ BuildProto.lf) = false).
  { rewrite !has_char_app, Hbody.
    assert (Hlab : has_char is_backquote label = false).
    { clear - Hlabel. induction label as [| c label IH]; [reflexivity |].
      simpl in *. apply andb_true_iff in Hlabel as [Hc Hlabel].
      rewrite (IH Hlabel), orb_false_r.
      destruct c as [[] [] [] [] [] [] [] []]; vm_compute in Hc |- *;
        first [reflexivity | discriminate Hc]. }
    rewrite Hlab. reflexivity. }
  assert (Hsplit :
    (l +:+ w +:+ BuildProto.lf +:+ b +:+ BuildProto.lf) +:+ "```"
      +:+ m_after m
    = (label +:+ BuildProto.lf +:+ body +:+ BuildProto.lf) +:+ "```"
      +:+ outro).
  { rewrite !BuildFacts.append_assoc. symmetry. exact Hx. }
  apply closing_fence_unique in Hsplit as [Hparts Hafter];
    [| exact Hr | exact Houtro].
  apply fence_parts in Hparts as [-> Htrim]; try assumption.
  split; [exact Hafter |]. unfold group_or_empty. rewrite Hcaps. simpl.
  auto.
Qed.

Lemma fence_needs_backquote (c : ascii) (s : string) (pos : nat) :
  is_backquote c = false -> match_at fenceRe pos (String c s) = None.
Proof.
  intros Hc. unfold match_at, fenceRe. cbn [seqs].
  change (lit_i "```") with (Seq (chr_i "`") (Seq (chr_i "`") (chr_i "`"))).
  cbn [run chr_i].
  destruct (Ascii.eqb (fold_case c) (fold_case "`")) eqn:E; [| reflexivity].
  apply fold_case_backquote in E. subst c. discriminate.
Qed.

Lemma search_fence_skip (intro : string) :
  has_char is_backquote intro = false ->
  forall (s : string) (pos : nat) (skipped : list ascii),
    search fenceRe pos skipped (intro +:+ s)
    = search fenceRe (pos + String.length intro)
        (rev (list_ascii_of_string intro) ++ skipped) s.
Proof.
  induction intro as [| c intro IH]; intros Hintro s pos skipped.
  - rewrite append_nil. simpl. now rewrite Nat.add_0_r.
  - simpl in Hintro. apply orb_false_iff in Hintro as [Hc Hintro].
    rewrite append_cons. cbn [search].
    rewrite (fence_needs_backquote c _ pos Hc).
    rewrite (IH Hintro). cbn [String.length list_ascii_of_string rev].
    rewrite <- app_assoc. f_equal. lia.
Qed.

(** The blocks of a text with one fenced block. *)
Lemma collect_single_block (intro label body outro : string) :
  has_char is_backquote intro = false ->
  all_chars is_lang_char label = true ->
  has_char is_backquote body = false ->
  has_char is_backquote outro = false ->
  let text := intro +:+ fenced label body +:+ outro in
  exists b,
    collect_blocks (S (String.length text)) 0 text
    = [Block (Js.trim (Js.toLowerCase label)) b]
    /\ Js.trim b = Js.trim body.
Proof.
  intros Hintro Hlabel Hbody Houtro. cbv zeta.
  destruct (fence_match label body outro (0 + String.length intro)
              Hlabel Hbody Houtro)
    as (m & Hm & Hafter & Hg1 & Hg2).
  exists (group_or_empty 2 m). split; [| exact Hg2].
  cbn [collect_blocks]. rewrite (search_fence_skip intro Hintro).
  assert (Hsearch : forall skipped,
             search fenceRe (0 + String.length intro) skipped
               (fenced label body +:+ outro)
             = Some (string_of_list_ascii (rev skipped), m)).
  { intros skipped. revert Hm.
    generalize (fenced label body +:+ outro) as t. intros t Hm.
    destruct t; cbn [search]; now rewrite Hm. }
  rewrite Hsearch, Hg1, Hafter. f_equal.
  destruct (String.length (intro +:+ fenced label body +:+ outro));
    [reflexivity |].
  cbn [collect_blocks].
  rewrite (search_none_without is_backquote fenceRe); [reflexivity | | exact Houtro].
  vm_compute. reflexivity.
Qed.

Lemma extract_single_block (intro label body outro : string)
    (expectedLanguage : option string) :
  has_char is_backquote intro = false ->
  all_chars is_lang_char label = true ->
  has_char is_backquote body = false ->
  has_char is_backquote outro = false ->
  extractFencedCode (intro +:+ fenced label body +:+ outro) expectedLanguage
  = Some (Js.trim body).
Proof.
  intros Hintro Hlabel Hbody Houtro.
  destruct (collect_single_block intro label body outro
              Hintro Hlabel Hbody Houtro) as (b & Hblocks & Htrim).
  cbv zeta in Hblocks. unfold extractFencedCode. cbv zeta. rewrite Hblocks.
  assert (Hlong : Js.trim (longest_body
                             [Block (Js.trim (Js.toLowerCase label)) b])
                  = Js.trim body).
  { unfold longest_body. simpl. destruct b; [| exact Htrim].
    simpl. exact Htrim. }
  destruct expectedLanguage as [language |]; [| now rewrite Hlong].
  destruct (Js.truthy language); [| now rewrite Hlong].
  cbn [find_block]. destruct (Js.includes _ _); cbn [Sanitizer.body].
  - now rewrite Htrim.
  - now rewrite Hlong.
Qed.

(** ** What the leading patterns remove *)

Lemma replace_first_anchored_cut (re : regex) (s : string) :
  anchored re = true ->
  replace_first re s = s
  \/ exists x, s = x +:+ replace_first re s /\ matched re x.
Proof.
  intros H. apply anchored_inv in H as [r ->].
  unfold replace_first. rewrite search_anchored.
  destruct (match_at (Seq Bol r) 0 s) as [m |] eqn:E; [| now left].
  right. rewrite append_nil.
  apply match_at_end in E as (x & Hs & Hx & _). eauto.
Qed.

Lemma join_all_app (a b : list string) :
  join_all (a ++ b) = join_all a +:+ join_all b.
Proof.
  induction a as [| x a IH]; [reflexivity |].
  cbn [app join_all fold_right]. fold (join_all (a ++ b)). fold (join_all a).
  now rewrite IH, BuildFacts.append_assoc.
Qed.

Lemma strip_round_parts (patterns : list regex) :
  Forall (fun re => anchored re = true /\ In re LEADING_PATTERNS) patterns ->
  forall (text : string) (matched0 : bool),
    exists parts,
      text = join_all parts +:+ fst (strip_round patterns text matched0)
      /\ Forall leading_artifact parts.
Proof.
  unfold strip_round.
  induction 1 as [| re patterns [Hanchored Hin] _ IH]; intros text matched0.
  - exists []. split; [reflexivity | constructor].
  - cbn [fold_left fst snd].
    match goal with
    | |- context [fold_left _ patterns (?t, ?b)] =>
        destruct (IH t b) as (parts & Hparts & Hall)
    end.
    destruct (replace_first_anchored_cut re text Hanchored)
      as [Hsame | (x & Hx & Hm)].
    + exists parts. split; [| exact Hall].
      rewrite Hsame in Hparts at 1. exact Hparts.
    + exists (x :: parts). split.
      * cbn [join_all fold_right]. fold (join_all parts).
        rewrite BuildFacts.append_assoc, <- Hparts. exact Hx.
      * constructor; [| exact Hall].
        apply List.Exists_exists. eauto.
Qed.

Lemma strip_loop_parts (fuel : nat) :
  forall text : string,
    exists parts,
      text = join_all parts +:+ strip_loop fuel text
      /\ Forall leading_artifact parts.
Proof.
  assert (Hps : Forall (fun re => anchored re = true /\ In re LEADING_PATTERNS)
                  LEADING_PATTERNS).
  { apply List.Forall_forall. intros re Hin. split; [| exact Hin].
    unfold LEADING_PATTERNS in Hin. simpl in Hin.
    repeat (destruct Hin as [<- | Hin]; [reflexivity |]). destruct Hin. }
  induction fuel as [| fuel IH]; intros text.
  - exists []. split; [reflexivity | constructor].
  - rewrite SanitizerFacts.strip_loop_step.
    destruct (strip_round_parts LEADING_PATTERNS Hps text false)
      as (parts & Hparts & Hall).
    destruct (strip_round LEADING_PATTERNS text false) as [result' matched'].
    cbn [fst] in Hparts. destruct matched'.
    + destruct (IH result') as (parts' & Hparts' & Hall').
      exists (parts ++ parts')%list. split.
      * rewrite join_all_app, BuildFacts.append_assoc, <- Hparts'. exact Hparts.
      * apply Forall_app. auto.
    + exists parts. auto.
Qed.

(** ** What the inline patterns read *)

Lemma matched_thinking_open (x : string) :
  matched re_thinking_open x -> opening_tag x.
Proof.
  intros [caps H]. unfold re_thinking_open, opt in H.
  apply denotes_seq in H as (x1 & x2 & caps1 & -> & H1 & H2).
  apply denotes_lit in H1 as [-> ->].
  apply denotes_alt in H2 as [H2 | H2].
  - apply denotes_class in H2 as (c & -> & Hc & _). right. eauto.
  - apply denotes_empty in H2 as [-> _]. left. reflexivity.
Qed.

Lemma matched_thinking_close (x : string) :
  matched re_thinking_close x -> closing_tag x.
Proof.
  intros [caps H]. unfold re_thinking_close, opt in H.
  apply denotes_seq in H as (x1 & x2 & caps1 & -> & H1 & H2).
  apply denotes_lit in H2 as [-> _].
  apply denotes_alt in H1 as [H1 | H1].
  - apply denotes_class in H1 as (c & -> & Hc & _). right. eauto.
  - apply denotes_empty in H1 as [-> _]. left. reflexivity.
Qed.

Lemma matched_im_end (x : string) : matched re_im_end x -> im_end_token x.
Proof.
  intros [caps H]. unfold re_im_end in H.
  now apply denotes_lit_i_lower in H as [H _].
Qed.

Lemma matched_channel_token (x : string) :
  matched re_channel_token x -> channel_token x.
Proof.
  intros [caps H]. unfold re_channel_token in H. cbn [seqs] in H.
  apply denotes_seq in H as (x1 & y1 & c1 & -> & H1 & H).
  apply denotes_seq in H as (x2 & x3 & c2 & -> & H2 & H3).
  apply denotes_lit_i_lower in H1 as [H1 ->]; [| reflexivity].
  apply denotes_lit_i_lower in H3 as [H3 _]; [| reflexivity].
  unfold channel_names in H2.
  apply denotes_alts in H2 as (r & Hin & Hr); [| discriminate].
  apply in_map_iff in Hin as (name & <- & Hin).
  assert (H7 : all_chars ascii7 name = true).
  { simpl in Hin.
    repeat (destruct Hin as [<- | Hin]; [reflexivity |]). destruct Hin. }
  apply denotes_lit_i_lower in Hr as [Hr _]; [| exact H7].
  exists name. split; [exact Hin |].
  now rewrite !toLowerCase_app, H1, Hr, H3.
Qed.

Lemma matched_im_start (x : string) :
  matched re_im_start x -> im_start_token x.
Proof.
  intros [caps H]. unfold re_im_start, plus in H. cbn [seqs] in H.
  apply denotes_seq in H as (t & y1 & c1 & -> & H1 & H).
  apply denotes_seq in H as (w1 & y2 & c2 & -> & H2 & H).
  apply denotes_seq in H as (role & w2 & c3 & -> & H3 & H4).
  apply denotes_lit_i_lower in H1 as [H1 ->]; [| reflexivity].
  apply denotes_star_class in H2 as [Hw1 ->].
  apply denotes_seq in H3 as (r1 & r2 & c4 & -> & H3 & H5).
  apply denotes_class in H3 as (c & -> & Hc & ->).
  apply denotes_star_class in H5 as [Hr2 ->].
  apply denotes_star_class in H4 as [Hw2 _].
  exists t, w1, (String c "" +:+ r2), w2.
  split; [reflexivity |]. split; [exact H1 |]. split; [exact Hw1 |].
  split; [| split; [discriminate | exact Hw2]].
  rewrite append_cons, append_nil. simpl. now rewrite Hc, Hr2.
Qed.

End MatchFacts.

(** * A global replacement removes every match it meets *)

Module SweepFacts.
Import Regex Vocabulary TextVocabulary RegexFacts Sanitizer TextFacts MatchFacts.

Lemma after_prefix_inv (p : string) :
  forall s t, after_prefix p s = Some t -> s = p +:+ t.
Proof.
  induction p as [| a p IH]; intros s t H; cbn [after_prefix] in H.
  - now injection H as ->.
  - destruct s as [| b s]; [discriminate |].
    destruct (Ascii.eqb a b) eqn:E; [| discriminate].
    apply Ascii.eqb_eq in E as <-. rewrite append_cons.
    now rewrite <- (IH s t H).
Qed.

Lemma after_prefix_app (p t : string) : after_prefix p (p +:+ t) = Some t.
Proof.
  induction p as [| a p IH]; [reflexivity |].
  rewrite append_cons. cbn [after_prefix]. now rewrite Ascii.eqb_refl.
Qed.

Lemma append_cancel_l (p a b : string) : p +:+ a = p +:+ b -> a = b.
Proof.
  induction p as [| c p IH]; [auto |].
  rewrite !append_cons. intros H. injection H as H. auto.
Qed.

(** A literal without the i flag reads itself and nothing else. *)
Lemma run_lit (R : Type) (p : string) :
  forall (s : string) (pos : nat) (caps : captures) (k : cont R),
    run (lit p) pos s caps k
    = match after_prefix p s with
      | Some rest => k (pos + String.length p)%nat rest caps
      | None => None
      end.
Proof.
  induction p as [| a p IH]; intros s pos caps k.
  - simpl. now rewrite Nat.add_0_r.
  - destruct p as [| b p].
    + cbn [lit after_prefix]. unfold chr. cbn [run].
      destruct s as [| c s]; [reflexivity |].
      destruct (Ascii.eqb a c); [| reflexivity].
      cbn [String.length]. now rewrite Nat.add_1_r.
    + change (lit (String a (String b p)))
        with (Seq (chr a) (lit (String b p))).
      change (run (Seq (chr a) (lit (String b p))) pos s caps k)
        with (run (chr a) pos s caps
                (fun pos' rest' caps' =>
                   run (lit (String b p)) pos' rest' caps' k)).
      unfold chr at 1.
      change (after_prefix (String a (String b p)) s)
        with (match s with
              | String c s' =>
                  if Ascii.eqb a c then after_prefix (String b p) s' else None
              | EmptyString => None
              end).
      destruct s as [| c s]; [reflexivity |].
      cbn [run].
      destruct (Ascii.eqb a c); [| reflexivity].
      rewrite IH.
      replace (S pos + String.length (String b p))%nat
        with (pos + String.length (String a (String b p)))%nat
        by (cbn [String.length]; lia).
      reflexivity.
Qed.

Section Sweep.

Variable re : regex.
Variable P : string -> Prop.

(** The pattern reads, at every place, the longest part that satisfies [P]
    and starts there, and fails exactly where none does. *)
Hypothesis match_found :
  forall pos rest m,
    match_at re pos rest = Some m ->
    exists x,
      rest = x +:+ m_after m
      /\ m_end m = (pos + String.length x)%nat
      /\ P x /\ x <> ""
      /\ forall y rest',
           P y -> rest = y +:+ rest' ->
           (String.length y <= String.length x)%nat.
Hypothesis match_missed :
  forall pos rest,
    match_at re pos rest = None ->
    forall y rest', P y -> rest <> y +:+ rest'.

Lemma sweeps_app_kept (pre s s' : string) :
  (forall a b, pre = a +:+ b -> b <> "" ->
               forall y rest', P y -> b +:+ s <> y +:+ rest') ->
  sweeps P s s' -> sweeps P (pre +:+ s) (pre +:+ s').
Proof.
  revert s s'. induction pre as [| c pre IH]; intros s s' Hkept H; [exact H |].
  rewrite !append_cons. constructor.
  - intros y rest' Hy. rewrite <- append_cons.
    apply (Hkept "" (String c pre)); [reflexivity | discriminate | exact Hy].
  - apply IH; [| exact H]. intros a b -> Hb.
    apply (Hkept (String c a) b); [reflexivity | exact Hb].
Qed.

Lemma search_sweeps :
  forall (rest : string) (pos : nat) (skipped : list ascii),
    match search re pos skipped rest with
    | None => sweeps P rest rest
    | Some (before, m) =>
        exists pre x,
          before = string_of_list_ascii (rev skipped) +:+ pre
          /\ rest = pre +:+ x +:+ m_after m
          /\ m_end m = (pos + String.length pre + String.length x)%nat
          /\ x <> ""
          /\ forall t, sweeps P (m_after m) t -> sweeps P rest (pre +:+ t)
    end.
Proof.
  assert (Hhere : forall pos rest skipped m,
             match_at re pos rest = Some m ->
             exists pre x,
               string_of_list_ascii (rev skipped)
               = string_of_list_ascii (rev skipped) +:+ pre
               /\ rest = pre +:+ x +:+ m_after m
               /\ m_end m = (pos + String.length pre + String.length x)%nat
               /\ x <> ""
               /\ forall t, sweeps P (m_after m) t -> sweeps P rest (pre +:+ t)).
  { intros pos rest skipped m Hm.
    destruct (match_found pos rest m Hm) as (x & Hrest & Hend & Hx & Hne & Hmax).
    exists "", x. rewrite append_empty_r, !append_nil. cbn [String.length].
    rewrite Nat.add_0_r. repeat split; try assumption.
    intros t Ht. rewrite Hrest. apply sweep_cut; [exact Hx | | exact Ht].
    intros y rest' Hy E. apply (Hmax y rest' Hy). now rewrite Hrest. }
  induction rest as [| c rest IH]; intros pos skipped; cbn [search].
  - destruct (match_at re pos "") as [m |] eqn:Hm.
    + now apply Hhere.
    + constructor.
  - destruct (match_at re pos (String c rest)) as [m |] eqn:Hm.
    + now apply Hhere.
    + specialize (IH (S pos) (c :: skipped)).
      destruct (search re (S pos) (c :: skipped) rest) as [[before m] |].
      * destruct IH as (pre & x & Hb & Hrest & Hend & Hne & Hsweep).
        exists (String c pre), x. split; [| split; [| split; [| split]]].
        -- rewrite Hb. apply string_of_rev_cons.
        -- rewrite append_cons. now rewrite <- Hrest.
        -- rewrite Hend. cbn [String.length]. lia.
        -- exact Hne.
        -- intros t Ht. rewrite append_cons. constructor.
           ++ now apply (match_missed pos).
           ++ now apply Hsweep.
      * constructor; [now apply (match_missed pos) | exact IH].
Qed.

Lemma replace_all_from_sweeps :
  forall (fuel pos : nat) (rest : string),
    (String.length rest < fuel)%nat ->
    sweeps P rest (replace_all_from fuel re pos rest).
Proof.
  induction fuel as [| fuel IH]; intros pos rest Hfuel; [lia |].
  cbn [replace_all_from].
  pose proof (search_sweeps rest pos []) as Hs.
  destruct (search re pos [] rest) as [[before m] |]; [| exact Hs].
  destruct Hs as (pre & x & Hb & Hrest & Hend & Hne & Hsweep).
  cbn [rev string_of_list_ascii] in Hb. rewrite append_nil in Hb. subst before.
  assert (Hx : (0 < String.length x)%nat)
    by (destruct x; [congruence | cbn [String.length]; lia]).
  replace (m_end m =? pos + String.length pre)%nat with false
    by (symmetry; apply Nat.eqb_neq; lia).
  apply Hsweep, IH.
  apply (f_equal String.length) in Hrest.
  rewrite !length_append in Hrest. lia.
Qed.

Lemma replace_all_sweeps (s : string) : sweeps P s (replace_all re s).
Proof. apply replace_all_from_sweeps. lia. Qed.

End Sweep.

(** What the two tag patterns do at one place. *)
Lemma match_thinking_open (pos : nat) (rest : string) :
  match_at re_thinking_open pos rest
  = match after_prefix "<thinking>" rest with
    | None => None
    | Some (String c t) =>
        if Js.is_ws c then Some (Found (pos + 11) t [])
        else Some (Found (pos + 10) (String c t) [])
    | Some EmptyString => Some (Found (pos + 10) "" [])
    end.
Proof.
  unfold match_at, re_thinking_open. cbn [run]. rewrite run_lit.
  destruct (after_prefix "<thinking>" rest) as [t |]; [| reflexivity].
  change (String.length "<thinking>") with 10%nat.
  unfold opt, ws. cbn [run].
  destruct t as [| c t]; [reflexivity |].
  destruct (Js.is_ws c); [| reflexivity].
  do 2 f_equal. lia.
Qed.

Lemma match_thinking_close (pos : nat) (rest : string) :
  match_at re_thinking_close pos rest
  = match rest with
    | String c t =>
        match (if Js.is_ws c then after_prefix "</thinking>" t else None) with
        | Some after => Some (Found (pos + 12) after [])
        | None =>
            match after_prefix "</thinking>" rest with
            | Some after => Some (Found (pos + 11) after [])
            | None => None
            end
        end
    | EmptyString => None
    end.
Proof.
  unfold match_at, re_thinking_close, opt, ws. cbn [run].
  destruct rest as [| c t]; [now rewrite run_lit |].
  destruct (Js.is_ws c).
  - rewrite !run_lit.
    change (String.length "</thinking>") with 11%nat.
    destruct (after_prefix "</thinking>" t) as [after |].
    + do 2 f_equal. lia.
    + now destruct (after_prefix "</thinking>" (String c t)).
  - rewrite run_lit.
    change (String.length "</thinking>") with 11%nat.
    now destruct (after_prefix "</thinking>" (String c t)).
Qed.

Lemma opening_tag_starts (y rest : string) :
  opening_tag y -> exists t, y +:+ rest = "<thinking>" +:+ t.
Proof.
  intros [-> | (c & _ & ->)]; [now exists rest |].
  exists (String c rest). now rewrite BuildFacts.append_assoc.
Qed.

Lemma opening_tag_length (y : string) :
  opening_tag y -> (10 <= String.length y <= 11)%nat.
Proof.
  intros [-> | (c & _ & ->)]; [cbn; lia |].
  rewrite length_append. cbn. lia.
Qed.

Lemma thinking_open_found (pos : nat) (rest : string) (m : found) :
  match_at re_thinking_open pos rest = Some m ->
  exists x,
    rest = x +:+ m_after m
    /\ m_end m = (pos + String.length x)%nat
    /\ opening_tag x /\ x <> ""
    /\ forall y rest',
         opening_tag y -> rest = y +:+ rest' ->
         (String.length y <= String.length x)%nat.
Proof.
  rewrite match_thinking_open.
  destruct (after_prefix "<thinking>" rest) as [t |] eqn:Ht; [| discriminate].
  apply after_prefix_inv in Ht as ->.
  assert (Hshort : forall u,
             (forall c u', u = String c u' -> Js.is_ws c = false) ->
             forall y rest',
               opening_tag y -> "<thinking>" +:+ u = y +:+ rest' ->
               (String.length y <= 10)%nat).
  { intros u Hu y rest' [-> | (c & Hc & ->)] E; [cbn; lia |].
    rewrite BuildFacts.append_assoc in E. apply append_cancel_l in E.
    rewrite append_cons, append_nil in E.
    rewrite (Hu c rest' E) in Hc. discriminate. }
  destruct t as [| c t].
  - intros [= <-]. exists "<thinking>". cbn [m_after m_end].
    split; [reflexivity |]. split; [reflexivity |]. split; [now left |].
    split; [discriminate |]. apply Hshort. discriminate.
  - destruct (Js.is_ws c) eqn:Hc; intros [= <-]; cbn [m_after m_end].
    + exists ("<thinking>" +:+ String c "").
      split; [now rewrite BuildFacts.append_assoc |].
      split; [reflexivity |]. split; [right; eauto |].
      split; [discriminate |].
      intros y rest' Hy _. apply opening_tag_length in Hy.
      rewrite length_append. cbn [String.length]. lia.
    + exists "<thinking>".
      split; [reflexivity |]. split; [reflexivity |]. split; [now left |].
      split; [discriminate |]. apply Hshort.
      intros c' u' [= <- _]. exact Hc.
Qed.

Lemma thinking_open_missed (pos : nat) (rest : string) :
  match_at re_thinking_open pos rest = None ->
  forall y rest', opening_tag y -> rest <> y +:+ rest'.
Proof.
  rewrite match_thinking_open. intros H y rest' Hy ->.
  destruct (opening_tag_starts y rest' Hy) as [t E].
  rewrite E, after_prefix_app in H.
  destruct t as [| c t]; [discriminate |]. now destruct (Js.is_ws c).
Qed.

Lemma ws_not_bracket (c : ascii) : Js.is_ws c = true -> Ascii.eqb "<" c = false.
Proof.
  intros H. destruct (Ascii.eqb "<" c) eqn:E; [| reflexivity].
  apply Ascii.eqb_eq in E as <-. discriminate.
Qed.

Lemma closing_tag_length (y : string) :
  closing_tag y -> (11 <= String.length y <= 12)%nat.
Proof. intros [-> | (c & _ & ->)]; cbn; lia. Qed.

Lemma thinking_close_found (pos : nat) (rest : string) (m : found) :
  match_at re_thinking_close pos rest = Some m ->
  exists x,
    rest = x +:+ m_after m
    /\ m_end m = (pos + String.length x)%nat
    /\ closing_tag x /\ x <> ""
    /\ forall y rest',
         closing_tag y -> rest = y +:+ rest' ->
         (String.length y <= String.length x)%nat.
Proof.
  rewrite match_thinking_close.
  destruct rest as [| c t]; [discriminate |].
  destruct (Js.is_ws c) eqn:Hc.
  - destruct (after_prefix "</thinking>" t) as [after |] eqn:Ht.
    + apply after_prefix_inv in Ht as ->. intros [= <-].
      exists (String c "</thinking>"). cbn [m_after m_end].
      split; [reflexivity |]. split; [reflexivity |]. split; [right; eauto |].
      split; [discriminate |].
      intros y rest' Hy _. apply closing_tag_length in Hy. cbn. lia.
    + cbn [after_prefix]. now rewrite (ws_not_bracket c Hc).
  - destruct (after_prefix "</thinking>" (String c t)) as [after |] eqn:Ht;
      [| discriminate].
    apply after_prefix_inv in Ht. intros [= <-].
    exists "</thinking>". cbn [m_after m_end].
    split; [exact Ht |]. split; [reflexivity |]. split; [now left |].
    split; [discriminate |].
    intros y rest' [-> | (d & Hd & ->)] E; [cbn; lia |].
    rewrite append_cons in E. injection E as -> _. congruence.
Qed.

Lemma thinking_close_missed (pos : nat) (rest : string) :
  match_at re_thinking_close pos rest = None ->
  forall y rest', closing_tag y -> rest <> y +:+ rest'.
Proof.
  rewrite match_thinking_close. intros H y rest' [-> | (c & Hc & ->)] ->.
  - change (("</thinking>" +:+ rest'))
      with (String "<" ("/thinking>" +:+ rest')) in H.
    change (Js.is_ws "<") with false in H. cbv iota in H.
    change (String "<" ("/thinking>" +:+ rest'))
      with ("</thinking>" +:+ rest') in H.
    now rewrite after_prefix_app in H.
  - rewrite append_cons in H. rewrite Hc in H.
    now rewrite after_prefix_app in H.
Qed.

End SweepFacts.


Module SanitizerProperties.
Import Regex Vocabulary TextVocabulary RegexFacts Sanitizer TextFacts MatchFacts.
Import SweepFacts.

(** X1: both sanitizers only delete. The result of [sanitizeAssistantText]
    and the result of [sanitizeFileContent] are obtained from the raw text
    by deleting code units: nothing is added, changed or reordered, and the
    result is never longer than the input. *)
Theorem sanitizers_only_delete (raw : string) (expectedLanguage : option string) :
  subsequence (sanitizeAssistantText raw) raw
  /\ subsequence (sanitizeFileContent raw expectedLanguage) raw
  /\ (String.length (sanitizeAssistantText raw) <= String.length raw)%nat
  /\ (String.length (sanitizeFileContent raw expectedLanguage)
      <= String.length raw)%nat.
Proof.
  assert (Htext : subsequence (sanitizeAssistantText raw) raw)
    by apply sanitizeAssistantText_subsequence.
  assert (Hfile : subsequence (sanitizeFileContent raw expectedLanguage) raw).
  { unfold sanitizeFileContent. destruct (Js.falsy raw);
      [apply subsequence_refl |]. cbv zeta.
    destruct (extractHtmlDocument (sanitizeAssistantText raw)) as [html |] eqn:Eh.
    - simpl present. destruct (Js.truthy html).
      + simpl. apply extractHtmlDocument_within in Eh as [Hex _].
        eauto using subsequence_trans, excerpt_subsequence.
      + destruct (extractFencedCode (sanitizeAssistantText raw) expectedLanguage)
          as [fenced |] eqn:Ef; simpl present; [| exact Htext].
        destruct (Js.truthy fenced); [| exact Htext].
        simpl. apply extractFencedCode_within in Ef as [Hex _].
        eauto using subsequence_trans, excerpt_subsequence.
    - simpl present.
      destruct (extractFencedCode (sanitizeAssistantText raw) expectedLanguage)
        as [fenced |] eqn:Ef; simpl present; [| exact Htext].
      destruct (Js.truthy fenced); [| exact Htext].
      simpl. apply extractFencedCode_within in Ef as [Hex _].
      eauto using subsequence_trans, excerpt_subsequence. }
  auto using subsequence_length.
Qed.

(** X2: [stripLeadingArtifacts] only removes from the start, and only
    artifacts: the text is some parts, each of them read by one of the
    three leading patterns, followed by the result. *)
Theorem stripLeadingArtifacts_removes_prefix (text : string) :
  exists parts,
    text = join_all parts +:+ stripLeadingArtifacts text
    /\ Forall leading_artifact parts.
Proof. unfold stripLeadingArtifacts. apply strip_loop_parts. Qed.


(** X4: a text without angle brackets is left as it is by
    [sanitizeAssistantText]: every pattern of the sanitizer needs an
    opening or a closing angle bracket. *)
Theorem text_without_angle_brackets_unchanged (raw : string) :
  has_char is_angle raw = false -> sanitizeAssistantText raw = raw.
Proof.
  intros H. apply SanitizerFacts.sanitizeAssistantText_fixes_clean_text.
  now apply angle_free_is_clean.
Qed.

Lemma text_without_angle_brackets_unchanged_witness :
  has_char is_angle "x = a[1] * 2" = false
  /\ sanitizeAssistantText "x = a[1] * 2" = "x = a[1] * 2".
Proof.
  split; [reflexivity |].
  apply (text_without_angle_brackets_unchanged "x = a[1] * 2"). reflexivity.
Defined.

(** X5: on a raw text with no opening angle bracket and no backquote,
    [sanitizeFileContent] finds neither an HTML document nor a fenced block
    and returns what [sanitizeAssistantText] returns, whatever language is
    expected. *)
Theorem content_without_markup_not_extracted (raw : string)
    (expectedLanguage : option string) :
  has_char (Ascii.eqb "<") raw = false ->
  has_char is_backquote raw = false ->
  sanitizeFileContent raw expectedLanguage = sanitizeAssistantText raw.
Proof.
  intros Hlt Hbq. unfold sanitizeFileContent.
  destruct (Js.falsy raw) eqn:Ef.
  { unfold sanitizeAssistantText. now rewrite Ef. }
  cbv zeta.
  pose proof (sanitizeAssistantText_subsequence raw) as Hsub.
  set (text := sanitizeAssistantText raw) in *.
  assert (Hlt' : has_char (Ascii.eqb "<") text = false)
    by (eapply has_char_subsequence; eauto).
  assert (Hbq' : has_char is_backquote text = false)
    by (eapply has_char_subsequence; eauto).
  assert (Hhtml : extractHtmlDocument text = None).
  { unfold extractHtmlDocument, Js.indexOf. cbv zeta.
    rewrite !find_first_without by now apply has_char_lower.
    reflexivity. }
  assert (Hfence : extractFencedCode text expectedLanguage = None).
  { unfold extractFencedCode. cbv zeta. cbn [collect_blocks].
    rewrite (search_none_without is_backquote fenceRe); [reflexivity | | exact Hbq'].
    vm_compute. reflexivity. }
  now rewrite Hhtml, Hfence.
Qed.

Lemma content_without_markup_not_extracted_witness :
  has_char (Ascii.eqb "<") "analysis> x = 1" = false
  /\ has_char is_backquote "analysis> x = 1" = false
  /\ sanitizeFileContent "analysis> x = 1" (Some "python")
     = sanitizeAssistantText "analysis> x = 1".
Proof.
  split; [reflexivity |]. split; [reflexivity |].
  apply (content_without_markup_not_extracted "analysis> x = 1" (Some "python"));
    reflexivity.
Defined.

(** X6: [sanitizeFileContent] returns either the sanitized text itself or a
    part cut out of it: a contiguous excerpt of the sanitized text that is
    not empty and has no white space at either end. *)
Theorem sanitizeFileContent_text_or_excerpt (raw : string)
    (expectedLanguage : option string) :
  let text := sanitizeAssistantText raw in
  let result := sanitizeFileContent raw expectedLanguage in
  result = text
  \/ (excerpt result text /\ Js.trim result = result /\ result <> "").
Proof.
  cbv zeta. unfold sanitizeFileContent.
  destruct (Js.falsy raw) eqn:Ef.
  { left. unfold sanitizeAssistantText. now rewrite Ef. }
  cbv zeta. set (text := sanitizeAssistantText raw).
  assert (Hne : forall s, Js.truthy s = true -> s <> "")
    by (intros s Hs ->; discriminate).
  destruct (extractHtmlDocument text) as [html |] eqn:Eh; simpl present.
  - destruct (Js.truthy html) eqn:Et.
    + right. simpl. apply extractHtmlDocument_within in Eh as [Hex Htrim]. auto.
    + destruct (extractFencedCode text expectedLanguage) as [fenced |] eqn:Ec;
        simpl present; [| now left].
      destruct (Js.truthy fenced) eqn:Etf; [| now left].
      right. simpl. apply extractFencedCode_within in Ec as [Hex Htrim]. auto.
  - destruct (extractFencedCode text expectedLanguage) as [fenced |] eqn:Ec;
      simpl present; [| now left].
    destruct (Js.truthy fenced) eqn:Etf; [| now left].
    right. simpl. apply extractFencedCode_within in Ec as [Hex Htrim]. auto.
Qed.

(** X8: the fallback of [extractFencedCode]. When the text has a fenced
    block and no language is expected (the argument is missing or empty),
    the result is the trimmed body of a block whose body is the longest,
    and of the first such block when several are equally long. *)
Theorem extractFencedCode_fallback_first_longest (text : string)
    (expectedLanguage : option string) :
  let blocks := collect_blocks (S (String.length text)) 0 text in
  blocks <> [] ->
  expectedLanguage = None \/ expectedLanguage = Some "" ->
  exists pre b post,
    blocks = (pre ++ b :: post)%list
    /\ extractFencedCode text expectedLanguage = Some (Js.trim (body b))
    /\ (forall b', In b' blocks ->
                   (String.length (body b') <= String.length (body b))%nat)
    /\ (forall b', In b' pre ->
                   (String.length (body b') < String.length (body b))%nat).
Proof.
  cbv zeta. intros Hne Hlang. unfold extractFencedCode. cbv zeta.
  destruct (collect_blocks (S (String.length text)) 0 text) as [| b0 bs];
    [now destruct Hne |].
  destruct (longest_body_first b0 bs) as (pre & b & post & E & Hl & Hall & Hpre).
  exists pre, b, post. split; [exact E |]. split.
  - destruct Hlang as [-> | ->]; simpl; now rewrite Hl.
  - auto.
Qed.

Lemma extractFencedCode_fallback_first_longest_witness :
  let text :=
    "```" +:+ BuildProto.lf +:+ "ab" +:+ BuildProto.lf +:+ "```"
    +:+ BuildProto.lf
    +:+ "```" +:+ BuildProto.lf +:+ "cd" +:+ BuildProto.lf +:+ "```" in
  let blocks := collect_blocks (S (String.length text)) 0 text in
  blocks = [Block "" "ab"; Block "" "cd"]
  /\ exists pre b post,
       blocks = (pre ++ b :: post)%list
       /\ extractFencedCode text None = Some (Js.trim (body b))
       /\ (forall b', In b' blocks ->
                      (String.length (body b') <= String.length (body b))%nat)
       /\ (forall b', In b' pre ->
                      (String.length (body b') < String.length (body b))%nat).
Proof.
  cbv zeta. split; [vm_compute; reflexivity |].
  apply (extractFencedCode_fallback_first_longest
           ("```" +:+ BuildProto.lf +:+ "ab" +:+ BuildProto.lf +:+ "```"
            +:+ BuildProto.lf
            +:+ "```" +:+ BuildProto.lf +:+ "cd" +:+ BuildProto.lf +:+ "```")
           None).
  - vm_compute. discriminate.
  - left. reflexivity.
Defined.

(** X7: on a text of code units below 256 (ASCII and Latin-1, the strings
    of this development, on which [toLowerCase] keeps every code unit in its
    place), the document [extractHtmlDocument] returns is a contiguous part
    of the text that, letter case aside, starts with one of the two start
    markers and ends with the closing tag. *)
Theorem extractHtmlDocument_from_marker_to_closing_tag (text html : string) :
  extractHtmlDocument text = Some html ->
  excerpt html text
  /\ exists start mid,
       (start = "<!doctype" \/ start = "<html")
       /\ Js.toLowerCase html = start +:+ mid +:+ "</html>".
Proof.
  intros H. split.
  - now apply extractHtmlDocument_within in H as [H _].
  - exact (extractHtmlDocument_delimited text html H).
Qed.

Lemma extractHtmlDocument_from_marker_to_closing_tag_witness :
  extractHtmlDocument "Here it is: <HTML><p>x</p></HTML> Enjoy!"
  = Some "<HTML><p>x</p></HTML>"
  /\ excerpt "<HTML><p>x</p></HTML>" "Here it is: <HTML><p>x</p></HTML> Enjoy!"
  /\ exists start mid,
       (start = "<!doctype" \/ start = "<html")
       /\ Js.toLowerCase "<HTML><p>x</p></HTML>" = start +:+ mid +:+ "</html>".
Proof.
  split; [reflexivity |].
  apply (extractHtmlDocument_from_marker_to_closing_tag
           "Here it is: <HTML><p>x</p></HTML> Enjoy!" "<HTML><p>x</p></HTML>").
  reflexivity.
Defined.

(** X21: an HTML document wins over fenced code. On a raw text of code
    units below 256 (ASCII and Latin-1, the strings of this development, on
    which [toLowerCase] keeps every code unit in its place), when the
    sanitized text holds a document that [extractHtmlDocument] finds,
    [sanitizeFileContent] returns that document, whatever fenced blocks the
    text has and whatever language is expected: on such a text the document
    found is never empty, so the test on it succeeds. *)
Theorem html_document_wins_over_fences (raw html : string)
    (expectedLanguage : option string) :
  extractHtmlDocument (sanitizeAssistantText raw) = Some html ->
  sanitizeFileContent raw expectedLanguage = html /\ html <> "".
Proof.
  intros H. split.
  - now apply HtmlFacts.sanitizeFileContent_returns_found_html.
  - apply HtmlFacts.extractHtmlDocument_truthy in H. intros ->. discriminate.
Qed.

Lemma html_document_wins_over_fences_witness :
  let raw :=
    "```js" +:+ BuildProto.lf +:+ "render()" +:+ BuildProto.lf +:+ "```"
    +:+ BuildProto.lf +:+ "<html><body>Hi</body></html>" in
  extractHtmlDocument (sanitizeAssistantText raw)
  = Some "<html><body>Hi</body></html>"
  /\ sanitizeFileContent raw (Some "js") = "<html><body>Hi</body></html>".
Proof.
  cbv zeta. split; [vm_compute; reflexivity |].
  refine (proj1 (html_document_wins_over_fences _ _ (Some "js") _)).
  vm_compute. reflexivity.
Defined.

(** X22: the expected language picks the first block whose label contains
    it. When a language is expected, and some fenced block has a label
    (lowered and trimmed) that contains the lowered language, the result is
    the trimmed body of the first such block, however long the other
    blocks are. *)
Theorem extractFencedCode_prefers_first_labelled (text language : string)
    (pre : list block) (b : block) (post : list block) :
  collect_blocks (S (String.length text)) 0 text = (pre ++ b :: post)%list ->
  Js.truthy language = true ->
  Forall
    (fun b' => Js.includes (lang b') (Js.toLowerCase language) = false) pre ->
  Js.includes (lang b) (Js.toLowerCase language) = true ->
  extractFencedCode text (Some language) = Some (Js.trim (body b)).
Proof.
  intros Hblocks Htruthy Hpre Hb. unfold extractFencedCode. cbv zeta.
  rewrite Hblocks, Htruthy.
  rewrite (find_block_first _ pre b post Hpre Hb).
  now destruct pre.
Qed.

Lemma extractFencedCode_prefers_first_labelled_witness :
  let text :=
    "```python" +:+ BuildProto.lf +:+ "print(1234567)" +:+ BuildProto.lf
    +:+ "```" +:+ BuildProto.lf
    +:+ "```JS" +:+ BuildProto.lf +:+ "f()" +:+ BuildProto.lf +:+ "```" in
  collect_blocks (S (String.length text)) 0 text
  = ([Block "python" "print(1234567)"] ++ Block "js" "f()" :: [])%list
  /\ extractFencedCode text (Some "js") = Some "f()".
Proof.
  cbv zeta. split; [vm_compute; reflexivity |].
  refine (extractFencedCode_prefers_first_labelled _ "js"
            [Block "python" "print(1234567)"] (Block "js" "f()") [] _ _ _ _).
  - vm_compute. reflexivity.
  - reflexivity.
  - repeat constructor.
  - reflexivity.
Defined.

(** X26: [stripThinkingTags] removes every thinking tag it meets, and
    nothing else. Its first pass reads the text once from left to right:
    wherever an opening thinking tag starts, the tag is cut out, together
    with the white space after it when there is one, and reading goes on
    after the cut; a code unit is kept, in place, only where no opening tag
    starts. Its second pass does the same on the result of the first for
    closing thinking tags, each cut together with the white space before it
    when there is one. *)
Theorem stripThinkingTags_sweeps_tags (text : string) :
  exists mid,
    sweeps opening_tag text mid
    /\ sweeps closing_tag mid (stripThinkingTags text).
Proof.
  exists (replace_all re_thinking_open text). split.
  - apply (replace_all_sweeps re_thinking_open opening_tag).
    + apply thinking_open_found.
    + apply thinking_open_missed.
  - apply (replace_all_sweeps re_thinking_close closing_tag).
    + apply thinking_close_found.
    + apply thinking_close_missed.
Qed.

(** X27: [stripInlineChatMl] removes tokens only. Its three passes delete,
    in this order and letter case aside, nothing but: the token im_start
    with the white space and the role word that follow it; the token
    im_end; the channel tokens of the ten channel names. *)
Theorem stripInlineChatMl_removes_tokens_only (text : string) :
  exists mid1 mid2,
    deletes im_start_token text mid1
    /\ deletes im_end_token mid1 mid2
    /\ deletes channel_token mid2 (stripInlineChatMl text).
Proof.
  exists (replace_all re_im_start text).
  exists (replace_all re_im_end (replace_all re_im_start text)).
  split; [| split].
  - eapply deletes_impl; [apply matched_im_start |].
    apply replace_all_deletes.
  - eapply deletes_impl; [apply matched_im_end |].
    apply replace_all_deletes.
  - eapply deletes_impl; [apply matched_channel_token |].
    apply replace_all_deletes.
Qed.

(** X24: a fenced block amid commentary is extracted. Take a text made of
    an introduction, one fenced block (three backquotes, a label over
    letters, digits, underscore, plus and minus, a line feed, the body, a
    line feed, three backquotes) and a conclusion, where introduction, body
    and conclusion hold no backquote. Then [extractFencedCode] returns the
    body, trimmed, whatever language is expected. *)
Theorem extractFencedCode_single_block (intro label body outro : string)
    (expectedLanguage : option string) :
  has_char is_backquote intro = false ->
  all_chars is_lang_char label = true ->
  has_char is_backquote body = false ->
  has_char is_backquote outro = false ->
  extractFencedCode (intro +:+ fenced label body +:+ outro) expectedLanguage
  = Some (Js.trim body).
Proof. apply extract_single_block. Qed.

Lemma extractFencedCode_single_block_witness :
  has_char is_backquote "Here you go:" = false
  /\ all_chars is_lang_char "c++" = true
  /\ has_char is_backquote "  int x = 1;" = false
  /\ has_char is_backquote " Enjoy." = false
  /\ extractFencedCode
       ("Here you go:" +:+ fenced "c++" "  int x = 1;" +:+ " Enjoy.")
       (Some "python")
     = Some "int x = 1;".
Proof.
  split; [reflexivity |]. split; [reflexivity |]. split; [reflexivity |].
  split; [reflexivity |].
  exact (extractFencedCode_single_block "Here you go:" "c++" "  int x = 1;"
           " Enjoy." (Some "python") eq_refl eq_refl eq_refl eq_refl).
Defined.

Lemma angle_free_no_lt (s : string) :
  has_char is_angle s = false -> has_char (Ascii.eqb "<") s = false.
Proof.
  induction s as [| c s IH]; [reflexivity |]. cbn [has_char]. intros H.
  apply orb_false_iff in H as [Hc H]. rewrite (IH H), orb_false_r.
  unfold is_angle in Hc. apply orb_false_iff in Hc as [Hc _].
  now rewrite Ascii.eqb_sym.
Qed.

(** X25: [sanitizeFileContent] writes the code, not the commentary. On a
    raw text without angle brackets that is made of an introduction, one
    fenced block and a conclusion, as in X24, and whose body is not blank,
    [sanitizeFileContent] returns the trimmed body of the block: the
    commentary and the fences are left out. *)
Theorem sanitizeFileContent_extracts_single_block
    (intro label body outro : string) (expectedLanguage : option string) :
  let raw := intro +:+ fenced label body +:+ outro in
  has_char is_angle raw = false ->
  has_char is_backquote intro = false ->
  all_chars is_lang_char label = true ->
  has_char is_backquote body = false ->
  has_char is_backquote outro = false ->
  Js.trim body <> "" ->
  sanitizeFileContent raw expectedLanguage = Js.trim body.
Proof.
  cbv zeta. intros Hangle Hintro Hlabel Hbody Houtro Hblank.
  unfold sanitizeFileContent.
  destruct (Js.falsy _) eqn:Ef.
  { exfalso. destruct (intro +:+ fenced label body +:+ outro) eqn:E;
      [| discriminate Ef].
    apply (f_equal String.length) in E. unfold fenced in E.
    rewrite !length_append in E. simpl in E. lia. }
  cbv zeta.
  rewrite (SanitizerFacts.sanitizeAssistantText_fixes_clean_text _
             (angle_free_is_clean _ Hangle)).
  assert (Hhtml : extractHtmlDocument
                    (intro +:+ fenced label body +:+ outro) = None).
  { unfold extractHtmlDocument, Js.indexOf. cbv zeta.
    rewrite !find_first_without
      by (apply has_char_lower; now apply angle_free_no_lt).
    reflexivity. }
  rewrite Hhtml.
  rewrite (extract_single_block intro label body outro expectedLanguage
             Hintro Hlabel Hbody Houtro).
  cbn [present default]. destruct (Js.trim body); [now destruct Hblank |].
  reflexivity.
Qed.

Lemma sanitizeFileContent_extracts_single_block_witness :
  let raw := "The script:" +:+ fenced "py" "print(1)" +:+ "That is all." in
  has_char is_angle raw = false
  /\ Js.trim "print(1)" <> ""
  /\ sanitizeFileContent raw None = "print(1)".
Proof.
  cbv zeta.
  assert (Hangle : has_char is_angle
                     ("The script:" +:+ fenced "py" "print(1)"
                      +:+ "That is all.") = false)
    by (vm_compute; reflexivity).
  assert (Hblank : Js.trim "print(1)" <> "") by discriminate.
  split; [exact Hangle |]. split; [exact Hblank |].
  exact (sanitizeFileContent_extracts_single_block "The script:" "py"
           "print(1)" "That is all." None Hangle eq_refl eq_refl eq_refl
           eq_refl Hblank).
Defined.

End SanitizerProperties.

(** * Further properties of the build script *)

Module BuildMoreFacts.
Import BuildProto Vocabulary BuildVocabulary Examples BuildFacts TraceFacts
  LocateFacts.

(** ** The version check *)

Lemma tryProtocVersion_eq (w : world) (c : string) (st : state) :
  tryProtocVersion w c st
  = let r := tool w (version_command c) (files st) in
    Return
      (if tool_ok r then
         if Js.truthy (Js.trim (tool_stdout r))
         then VersionOk (Js.trim (tool_stdout r))
         else VersionFailed (JsError "No version output")
       else VersionFailed
              (command_failed StderrKept (version_command c) (tool_stderr r)))
      (ran w VersionCheck (version_command c) st).
Proof.
  unfold tryProtocVersion, try_catch, version_command.
  rewrite bind_eq, execSync_eq. cbv zeta.
  destruct (tool_ok _); [| reflexivity].
  now destruct (Js.truthy _).
Qed.

Lemma tryProtocVersion_working (w : world) (c version : string) (st : state) :
  working w c version ->
  tryProtocVersion w c st
  = Return (VersionOk version) (ran w VersionCheck (version_command c) st).
Proof.
  intros [Htruthy Hworks]. rewrite tryProtocVersion_eq. cbv zeta.
  destruct (Hworks (files st)) as [-> ->]. now rewrite Htruthy.
Qed.

(** ** The loop over the candidates *)

Lemma try_candidates_first_working (w : world) (before : list string)
    (c version : string) (after : list string) :
  Forall (broken w) before ->
  working w c version ->
  forall st,
    exists st' probes,
      try_candidates w (before ++ c :: after) st = Return true st'
      /\ RESOLVED_PROTOC st' = Some c
      /\ RESOLVED_PROTOC_VERSION st' = Some version
      /\ execs st' = (execs st ++ probes)%list
      /\ map ev_command probes = map version_command (before ++ [c])
      /\ Forall (fun e => ev_site e = VersionCheck) probes.
Proof.
  intros Hbroken Hworking.
  induction Hbroken as [| b before Hb _ IH]; intros st.
  - cbn [app try_candidates]. rewrite bind_eq.
    rewrite (tryProtocVersion_working w c version st Hworking).
    rewrite bind_eq. unfold set_resolved at 1. rewrite bind_eq, log_verbose_eq.
    eexists. exists [ExecEvent VersionCheck (version_command c)
                       (tool_ok (tool w (version_command c) (files st)))].
    split; [reflexivity |]. repeat split. repeat constructor.
  - cbn [app try_candidates]. rewrite bind_eq.
    destruct (tryProtocVersion_broken w b st Hb) as [e ->].
    rewrite bind_eq, log_verbose_eq.
    match goal with
    | |- context [try_candidates w _ ?s] =>
        destruct (IH s) as (st' & probes & -> & Hres & Hver & Hex & Hcmd & Hsite)
    end.
    exists st'.
    exists (ExecEvent VersionCheck (version_command b)
              (tool_ok (tool w (version_command b) (files st))) :: probes).
    split; [reflexivity |]. split; [exact Hres |]. split; [exact Hver |].
    split; [| split].
    + rewrite Hex. cbn [printed execs ran]. now rewrite <- app_assoc.
    + cbn [map]. now rewrite Hcmd.
    + constructor; [reflexivity | exact Hsite].
Qed.

Lemma locateProtoc_first_working (w : world) (st : state)
    (before : list string) (c version : string) (after : list string) :
  found_candidates w st = (before ++ c :: after)%list ->
  Forall (broken w) before ->
  working w c version ->
  exists st' probes,
    locateProtoc w st = Return tt st'
    /\ RESOLVED_PROTOC st' = Some c
    /\ RESOLVED_PROTOC_VERSION st' = Some version
    /\ execs st' = (execs st ++ probes)%list
    /\ map ev_command probes = locate_commands w (before ++ [c])
    /\ Forall (fun e => is_generation (ev_site e) = false) probes.
Proof.
  intros Hfound Hbroken Hworking. unfold found_candidates in Hfound.
  unfold locateProtoc. rewrite bind_eq.
  destruct (system_candidate_returns w st) as [sys Hsys].
  rewrite Hsys in *. cbv zeta. rewrite bind_eq, Hfound.
  destruct (try_candidates_first_working w before c version after
              Hbroken Hworking (ran w WhichProtoc (whichCmd w) st))
    as (st' & probes & -> & Hres & Hver & Hex & Hcmd & Hsite).
  exists st'.
  exists (ExecEvent WhichProtoc (whichCmd w)
            (tool_ok (tool w (whichCmd w) (files st))) :: probes).
  split; [reflexivity |]. split; [exact Hres |]. split; [exact Hver |].
  split; [| split].
  - rewrite Hex. cbn [execs ran]. now rewrite <- app_assoc.
  - unfold locate_commands. cbn [map]. now rewrite Hcmd.
  - constructor; [reflexivity |].
    eapply Forall_impl; [exact Hsite |]. intros e He. simpl in He.
    now rewrite He.
Qed.

(** ** The lines of the where/which output *)

Lemma split_lines_from_char (c : ascii) (acc : list ascii) (s : string) :
  is_line_char c = true ->
  split_lines_from acc (String c s) = split_lines_from (c :: acc) s.
Proof.
  unfold is_line_char. intros H. apply andb_true_iff in H as [Hlf Hcr].
  apply negb_true_iff in Hlf, Hcr. cbn [split_lines_from]. rewrite Hlf.
  destruct s; [reflexivity |]. now rewrite Hcr.
Qed.

Lemma split_lines_from_line (line : string) :
  TextVocabulary.all_chars is_line_char line = true ->
  forall (acc : list ascii) (rest : string),
    split_lines_from acc (line +:+ rest)
    = split_lines_from (rev (list_ascii_of_string line) ++ acc) rest.
Proof.
  induction line as [| c line IH]; intros Hline acc rest; [reflexivity |].
  cbn [TextVocabulary.all_chars] in Hline.
  apply andb_true_iff in Hline as [Hc Hline].
  rewrite RegexFacts.append_cons, split_lines_from_char by exact Hc.
  rewrite IH by exact Hline. cbn [list_ascii_of_string rev].
  now rewrite <- app_assoc.
Qed.

Lemma split_lines_first (line sep more : string) :
  TextVocabulary.all_chars is_line_char line = true ->
  line_end sep ->
  split_lines (line +:+ sep +:+ more) = line :: split_lines more.
Proof.
  intros Hline Hsep. unfold split_lines.
  rewrite split_lines_from_line by exact Hline. rewrite app_nil_r.
  assert (Hback : string_of_list_ascii (rev (rev (list_ascii_of_string line)))
                  = line)
    by (rewrite rev_involutive; apply string_of_list_ascii_of_string).
  destruct Hsep as [-> | ->].
  - change (lf +:+ more) with (String (ascii_of_nat 10) more).
    cbn [split_lines_from]. rewrite Ascii.eqb_refl. now rewrite Hback.
  - change (String (ascii_of_nat 13) lf +:+ more)
      with (String (ascii_of_nat 13) (String (ascii_of_nat 10) more)).
    cbn [split_lines_from].
    change (Ascii.eqb (ascii_of_nat 13) (ascii_of_nat 10)) with false.
    cbv iota. rewrite !Ascii.eqb_refl. cbn [andb]. now rewrite Hback.
Qed.

Lemma system_candidate_first_line (w : world) (st : state)
    (line sep more : string) :
  tool_ok (tool w (whichCmd w) (files st)) = true ->
  tool_stdout (tool w (whichCmd w) (files st)) = line +:+ sep +:+ more ->
  TextVocabulary.all_chars is_line_char line = true ->
  Js.truthy line = true ->
  line_end sep ->
  system_candidate w st = Return [line] (ran w WhichProtoc (whichCmd w) st).
Proof.
  intros Hok Hout Hline Htruthy Hsep. unfold system_candidate, try_catch.
  rewrite bind_eq, execSync_eq, Hok, Hout.
  rewrite (split_lines_first line sep more Hline Hsep).
  now rewrite filter_cons_True by exact Htruthy.
Qed.

(** ** What [cleanup] leaves alone *)

Lemma proto_dir_not_cleaned_up (w : world) (p : string) :
  Js.starts_with "/" (cwd w) = true ->
  is_under (PROTO_DIR w) p = true ->
  cleaned_up w p = false.
Proof.
  intros Hcwd H. unfold PROTO_DIR in H.
  rewrite resolve_relative in H by reflexivity.
  apply is_under_split in H as [t ->]. rewrite append_assoc.
  unfold cleaned_up, cleanup_paths. rewrite <- app_comm_cons.
  unfold removed_by. cbn [existsb].
  unfold TS_OUT_DIR at 1. rewrite resolve_resolved by assumption.
  rewrite resolve_relative by reflexivity. rewrite is_under_shift.
  rewrite removed_by_relative.
  - reflexivity.
  - repeat constructor.
Qed.

(** ** The Rosetta check *)

Lemma printed_printed (a b : list console_line) (st : state) :
  printed b (printed a st) = printed (a ++ b) st.
Proof. unfold printed. simpl. now rewrite <- app_assoc. Qed.

Lemma emit_eq (l : console_line) (st : state) :
  emit l st = Return tt (printed [l] st).
Proof. reflexivity. Qed.

Lemma console_log_eq (args : list console_arg) (st : state) :
  console_log args st = Return tt (printed [Line Stdout args] st).
Proof. reflexivity. Qed.

Lemma console_error_eq (args : list console_arg) (st : state) :
  console_error args st = Return tt (printed [Line Stderr args] st).
Proof. reflexivity. Qed.

Lemma checkApple_eq (w : world) (st : state) :
  checkAppleSiliconCompatibility w st
  = if negb (String.eqb (platform w) "darwin") then Return tt st
    else if String.eqb (arch w) "arm64" then
      let r := tool w rosetta_command (files st) in
      if tool_ok r then
        if String.eqb (Js.trim (tool_stdout r)) "NOT_INSTALLED"
        then Exit 1
               (printed rosetta_report (ran w RosettaCheck rosetta_command st))
        else Return tt (ran w RosettaCheck rosetta_command st)
      else
        Return tt
          (printed
             [Line Stdout
                [Txt "Could not determine Rosetta installation status. Proceeding anyway."]]
             (ran w RosettaCheck rosetta_command st))
    else Return tt st.
Proof.
  unfold checkAppleSiliconCompatibility.
  destruct (negb _); [reflexivity |].
  destruct (String.eqb (arch w) "arm64"); [| reflexivity].
  unfold try_catch. rewrite bind_eq, execSync_eq. cbv zeta.
  destruct (tool_ok _); [| reflexivity].
  destruct (String.eqb _ "NOT_INSTALLED"); [| reflexivity].
  repeat (rewrite bind_eq, console_log_eq).
  unfold process_exit. rewrite !printed_printed. reflexivity.
Qed.

(** ** Creating the output directories *)

Lemma mkdirs_first_failure (w : world) (before : list string) (dir : string)
    (after : list string) (e : js_error) (st : state) :
  Forall (fun d => mkdir_error w d (files st) = None) before ->
  mkdir_error w dir (files st) = Some e ->
  for_each (before ++ dir :: after) (fs_mkdir w) st = Throw e st.
Proof.
  intros Hbefore Hdir. induction Hbefore as [| d before Hd _ IH].
  - cbn [app]. rewrite for_each_cons, bind_eq. unfold fs_mkdir at 1.
    now rewrite Hdir.
  - cbn [app]. rewrite for_each_cons, bind_eq. unfold fs_mkdir at 1.
    now rewrite Hd.
Qed.

Lemma generate_phase_mkdir_failure (w : world) (protoc : string)
    (before : list string) (dir : string) (after : list string)
    (e : js_error) (st : state) :
  output_dirs w = (before ++ dir :: after)%list ->
  Forall (fun d => mkdir_error w d (files st) = None) before ->
  mkdir_error w dir (files st) = Some e ->
  generate_phase w protoc st = Throw e st.
Proof.
  intros Hdirs Hbefore Hdir. unfold generate_phase. rewrite bind_eq.
  change [TS_OUT_DIR w; GRPC_JS_OUT_DIR w; NICE_JS_OUT_DIR w;
          DESCRIPTOR_OUT_DIR w] with (output_dirs w).
  rewrite Hdirs. now rewrite (mkdirs_first_failure w before dir after e st).
Qed.

(** ** Exit codes *)

Lemma exits_ret {A : Type} (a : A) : exits_with_1 (ret a).
Proof. intros st code st' H. discriminate. Qed.

Lemma exits_bind {A B : Type} (m : M A) (f : A -> M B) :
  exits_with_1 m -> (forall a, exits_with_1 (f a)) -> exits_with_1 (bind m f).
Proof.
  intros Hm Hf st code st' H. rewrite bind_eq in H.
  destruct (m st) as [a s | c s | e s] eqn:E; [| | discriminate].
  - now apply Hf in H.
  - injection H as <- _. now apply Hm in E.
Qed.

Lemma exits_try_catch {A : Type} (m : M A) (handler : js_error -> M A) :
  exits_with_1 m -> (forall e, exits_with_1 (handler e)) ->
  exits_with_1 (try_catch m handler).
Proof.
  intros Hm Hh st code st' H. unfold try_catch in H.
  destruct (m st) as [a s | c s | e s] eqn:E; [discriminate | |].
  - injection H as <- _. now apply Hm in E.
  - now apply Hh in H.
Qed.

Lemma exits_emit (l : console_line) : exits_with_1 (emit l).
Proof. intros st code st' H. discriminate. Qed.

Lemma exits_console_log (args : list console_arg) :
  exits_with_1 (console_log args).
Proof. apply exits_emit. Qed.

Lemma exits_console_error (args : list console_arg) :
  exits_with_1 (console_error args).
Proof. apply exits_emit. Qed.

Lemma exits_log_verbose (w : world) (args : list console_arg) :
  exits_with_1 (log_verbose w args).
Proof. intros st code st' H. rewrite log_verbose_eq in H. discriminate. Qed.

Lemma exits_exit_1 {A : Type} : exits_with_1 (@process_exit A 1).
Proof. intros st code st' H. now injection H as <- _. Qed.

Lemma exits_get : exits_with_1 get_RESOLVED_PROTOC.
Proof. intros st code st' H. discriminate. Qed.

Lemma exits_set (p version : string) : exits_with_1 (set_resolved p version).
Proof. intros st code st' H. discriminate. Qed.

Lemma exits_execSync (w : world) (site : call_site) (mode : stderr_mode)
    (command : string) :
  exits_with_1 (execSync w site mode command).
Proof.
  intros st code st' H. rewrite execSync_eq in H.
  destruct (tool_ok _); discriminate.
Qed.

Lemma exits_mkdir (w : world) (dir : string) : exits_with_1 (fs_mkdir w dir).
Proof.
  intros st code st' H. unfold fs_mkdir in H.
  destruct (mkdir_error w dir (files st)); discriminate.
Qed.

Lemma exits_rmrf (w : world) (target : string) : exits_with_1 (rmrf w target).
Proof. intros st code st' H. discriminate. Qed.

Lemma exits_glob (w : world) (pattern dir : string) :
  exits_with_1 (fun st => Return (globby w pattern dir (files st)) st).
Proof. intros st code st' H. discriminate. Qed.

Lemma exits_for_each {A : Type} (xs : list A) (body : A -> M unit) :
  (forall x, exits_with_1 (body x)) -> exits_with_1 (for_each xs body).
Proof.
  intros Hbody. induction xs as [| x xs IH]; [apply exits_ret |].
  rewrite for_each_cons. apply exits_bind; [apply Hbody | intros _; exact IH].
Qed.

Lemma exits_run_step (g : fs -> step_result) :
  never_exits g -> exits_with_1 (run_step g).
Proof.
  intros Hg st code st' H. unfold run_step in H.
  destruct (step_end (g (files st))) eqn:E; try discriminate.
  now apply Hg in E.
Qed.

Ltac exiting_step :=
  lazymatch goal with
  | |- exits_with_1 (bind _ _) => apply exits_bind; [| intros ?; cbv beta zeta]
  | |- exits_with_1 (try_catch _ _) =>
      apply exits_try_catch; [| intros ?; cbv beta zeta]
  | |- exits_with_1 (ret _) => apply exits_ret
  | |- exits_with_1 (emit _) => apply exits_emit
  | |- exits_with_1 (console_log _) => apply exits_console_log
  | |- exits_with_1 (console_error _) => apply exits_console_error
  | |- exits_with_1 (log_verbose _ _) => apply exits_log_verbose
  | |- exits_with_1 (process_exit 1) => apply exits_exit_1
  | |- exits_with_1 get_RESOLVED_PROTOC => apply exits_get
  | |- exits_with_1 (set_resolved _ _) => apply exits_set
  | |- exits_with_1 (execSync _ _ _ _) => apply exits_execSync
  | |- exits_with_1 (fs_mkdir _ _) => apply exits_mkdir
  | |- exits_with_1 (rmrf _ _) => apply exits_rmrf
  | |- exits_with_1 (fun st => Return (globby _ _ _ (files st)) st) =>
      apply exits_glob
  | |- exits_with_1 (for_each _ _) =>
      apply exits_for_each; intros ?; cbv beta zeta
  | |- exits_with_1 (if ?b then _ else _) => destruct b
  | |- exits_with_1 (match ?x with _ => _ end) => destruct x
  end.

Ltac exiting := repeat exiting_step.

Lemma exits_try_candidates (w : world) (candidates : list string) :
  exits_with_1 (try_candidates w candidates).
Proof.
  induction candidates as [| c candidates IH]; cbn [try_candidates];
    [apply exits_ret |].
  unfold tryProtocVersion. exiting. exact IH.
Qed.

Lemma exits_locateProtoc (w : world) : exits_with_1 (locateProtoc w).
Proof.
  unfold locateProtoc, system_candidate. exiting.
  all: try apply exits_try_candidates.
Qed.

Lemma exits_checkApple (w : world) :
  exits_with_1 (checkAppleSiliconCompatibility w).
Proof. unfold checkAppleSiliconCompatibility. exiting. Qed.

Lemma exits_tsProtoc (w : world) (protoc outDir : string)
    (protoFiles protoOptions : list string) :
  exits_with_1 (tsProtoc w protoc outDir protoFiles protoOptions).
Proof. unfold tsProtoc. cbv zeta. exiting. Qed.

Lemma exits_compileProtos (w : world) : exits_with_1 (compileProtos w).
Proof.
  unfold compileProtos. exiting.
  all: try apply exits_checkApple; try apply exits_locateProtoc;
    try apply exits_tsProtoc.
Qed.

Lemma exits_cleanup (w : world) : exits_with_1 (cleanup w).
Proof. rewrite cleanup_as_for_each. exiting. Qed.

Lemma exits_main (w : world) :
  never_exits (protobus_setup_generator w) ->
  never_exits (host_bridge_client_generator w) ->
  exits_with_1 (main w).
Proof.
  intros H1 H2. unfold main. exiting.
  - apply exits_cleanup.
  - apply exits_compileProtos.
  - now apply exits_run_step.
  - now apply exits_run_step.
Qed.

(** ** What is printed decides nothing *)

Lemma same_but_console_refl (st : state) : same_but_console st st.
Proof. repeat split. Qed.

Lemma same_outcome_exit_code {A : Type} (o1 o2 : outcome A) :
  same_outcome o1 o2 -> exit_code o1 = exit_code o2.
Proof. destruct o1, o2; simpl; intuition congruence. Qed.

Lemma same_outcome_state {A : Type} (o1 o2 : outcome A) :
  same_outcome o1 o2 ->
  same_but_console (outcome_state o1) (outcome_state o2).
Proof. destruct o1, o2; simpl; intuition. Qed.

Lemma blind_ret {A : Type} (a : A) : console_blind (ret a) (ret a).
Proof. intros s1 s2 H. now split. Qed.

Lemma blind_bind {A B : Type} (m1 m2 : M A) (f1 f2 : A -> M B) :
  console_blind m1 m2 -> (forall a, console_blind (f1 a) (f2 a)) ->
  console_blind (bind m1 f1) (bind m2 f2).
Proof.
  intros Hm Hf s1 s2 H. rewrite !bind_eq. specialize (Hm s1 s2 H).
  destruct (m1 s1), (m2 s2); simpl in Hm; try contradiction;
    destruct Hm as [<- Hm]; [now apply Hf | now split | now split].
Qed.

Lemma blind_try_catch {A : Type} (m1 m2 : M A) (h1 h2 : js_error -> M A) :
  console_blind m1 m2 -> (forall e, console_blind (h1 e) (h2 e)) ->
  console_blind (try_catch m1 h1) (try_catch m2 h2).
Proof.
  intros Hm Hh s1 s2 H. unfold try_catch. specialize (Hm s1 s2 H).
  destruct (m1 s1), (m2 s2); simpl in Hm; try contradiction;
    destruct Hm as [<- Hm]; [now split | now split | now apply Hh].
Qed.

Lemma blind_emit (l1 l2 : console_line) : console_blind (emit l1) (emit l2).
Proof. intros s1 s2 H. split; [reflexivity | exact H]. Qed.

Lemma blind_console_log (a1 a2 : list console_arg) :
  console_blind (console_log a1) (console_log a2).
Proof. apply blind_emit. Qed.

Lemma blind_console_error (a1 a2 : list console_arg) :
  console_blind (console_error a1) (console_error a2).
Proof. apply blind_emit. Qed.

Lemma blind_log_verbose (w1 w2 : world) (a1 a2 : list console_arg) :
  console_blind (log_verbose w1 a1) (log_verbose w2 a2).
Proof.
  intros s1 s2 H. rewrite !log_verbose_eq. split; [reflexivity | exact H].
Qed.

Lemma blind_exit {A : Type} (code : Z) :
  console_blind (@process_exit A code) (process_exit code).
Proof. intros s1 s2 H. now split. Qed.

Lemma blind_get : console_blind get_RESOLVED_PROTOC get_RESOLVED_PROTOC.
Proof.
  intros s1 s2 H. split; [| exact H]. now destruct H as (_ & _ & H & _).
Qed.

Lemma blind_set (p version : string) :
  console_blind (set_resolved p version) (set_resolved p version).
Proof.
  intros s1 s2 (Hf & He & _ & _). split; [reflexivity |]. now repeat split.
Qed.

Lemma blind_execSync (w : world) (site : call_site) (mode : stderr_mode)
    (command : string) :
  console_blind (execSync w site mode command) (execSync w site mode command).
Proof.
  intros s1 s2 (Hf & He & Hr & Hv). rewrite !execSync_eq, Hf.
  assert (Hran : same_but_console (ran w site command s1)
                   (ran w site command s2)).
  { unfold ran. cbv zeta. rewrite Hf, He. now repeat split. }
  destruct (tool_ok _); now split.
Qed.

Lemma blind_mkdir (w : world) (dir : string) :
  console_blind (fs_mkdir w dir) (fs_mkdir w dir).
Proof.
  intros s1 s2 H. unfold fs_mkdir. destruct H as (Hf & H). rewrite Hf.
  destruct (mkdir_error w dir (files s2)); split; try reflexivity;
    now split.
Qed.

Lemma blind_rmrf (w : world) (target : string) :
  console_blind (rmrf w target) (rmrf w target).
Proof.
  intros s1 s2 (Hf & He & Hr & Hv). split; [reflexivity |].
  unfold with_files. simpl. rewrite Hf. now repeat split.
Qed.

Lemma blind_glob (w : world) (pattern dir : string) :
  console_blind (fun st => Return (globby w pattern dir (files st)) st)
    (fun st => Return (globby w pattern dir (files st)) st).
Proof. intros s1 s2 H. split; [| exact H]. destruct H as [-> _]. reflexivity. Qed.

Lemma blind_for_each {A : Type} (xs : list A) (b1 b2 : A -> M unit) :
  (forall x, console_blind (b1 x) (b2 x)) ->
  console_blind (for_each xs b1) (for_each xs b2).
Proof.
  intros Hb. induction xs as [| x xs IH]; [apply blind_ret |].
  rewrite !for_each_cons. apply blind_bind; [apply Hb | intros _; exact IH].
Qed.

Lemma blind_run_step (g : fs -> step_result) :
  console_blind (run_step g) (run_step g).
Proof.
  intros s1 s2 (Hf & He & Hr & Hv). unfold run_step. cbv zeta. rewrite Hf.
  destruct (step_end (g (files s2))); (split; [reflexivity |]);
    now repeat split.
Qed.

Ltac blinding_step :=
  lazymatch goal with
  | |- console_blind (bind _ _) (bind _ _) =>
      apply blind_bind; [| intros ?; cbv beta zeta]
  | |- console_blind (try_catch _ _) (try_catch _ _) =>
      apply blind_try_catch; [| intros ?; cbv beta zeta]
  | |- console_blind (ret _) (ret _) => apply blind_ret
  | |- console_blind (emit _) (emit _) => apply blind_emit
  | |- console_blind (console_log _) (console_log _) => apply blind_console_log
  | |- console_blind (console_error _) (console_error _) =>
      apply blind_console_error
  | |- console_blind (log_verbose _ _) (log_verbose _ _) =>
      apply blind_log_verbose
  | |- console_blind (process_exit _) (process_exit _) => apply blind_exit
  | |- console_blind get_RESOLVED_PROTOC get_RESOLVED_PROTOC => apply blind_get
  | |- console_blind (set_resolved _ _) (set_resolved _ _) => apply blind_set
  | |- console_blind (execSync _ _ _ _) (execSync _ _ _ _) =>
      apply blind_execSync
  | |- console_blind (fs_mkdir _ _) (fs_mkdir _ _) => apply blind_mkdir
  | |- console_blind (rmrf _ _) (rmrf _ _) => apply blind_rmrf
  | |- console_blind (run_step _) (run_step _) => apply blind_run_step
  | |- console_blind (fun st => Return (globby _ _ _ (files st)) st) _ =>
      apply blind_glob
  | |- console_blind (for_each _ _) (for_each _ _) =>
      apply blind_for_each; intros ?; cbv beta zeta
  | |- console_blind (if ?b then _ else _) (if ?b then _ else _) => destruct b
  | |- console_blind (match ?x with _ => _ end) (match ?x with _ => _ end) =>
      destruct x
  end.

Ltac blinding := repeat blinding_step.

(** The command-line arguments reach [log_verbose] only. *)
Lemma execSync_argv (w : world) (args : list string) :
  execSync (with_argv w args) = execSync w.
Proof. reflexivity. Qed.

Lemma path_resolve_argv (w : world) (args : list string) :
  path_resolve (with_argv w args) = path_resolve w.
Proof. reflexivity. Qed.

Lemma rmrf_argv (w : world) (args : list string) :
  rmrf (with_argv w args) = rmrf w.
Proof. reflexivity. Qed.

Lemma fs_mkdir_argv (w : world) (args : list string) :
  fs_mkdir (with_argv w args) = fs_mkdir w.
Proof. reflexivity. Qed.

Lemma static_candidates_argv (w : world) (args : list string) :
  static_candidates (with_argv w args) = static_candidates w.
Proof. reflexivity. Qed.

Lemma whichCmd_argv (w : world) (args : list string) :
  whichCmd (with_argv w args) = whichCmd w.
Proof. reflexivity. Qed.

Lemma tsProtoc_command_argv (w : world) (args : list string) :
  tsProtoc_command (with_argv w args) = tsProtoc_command w.
Proof. reflexivity. Qed.

Lemma descriptor_command_argv (w : world) (args : list string) :
  descriptor_command (with_argv w args) = descriptor_command w.
Proof. reflexivity. Qed.

Lemma blind_tryProtocVersion (w : world) (args : list string) (c : string) :
  console_blind (tryProtocVersion w c) (tryProtocVersion (with_argv w args) c).
Proof. unfold tryProtocVersion. rewrite execSync_argv. blinding. Qed.

Lemma blind_try_candidates (w : world) (args : list string)
    (candidates : list string) :
  console_blind (try_candidates w candidates)
    (try_candidates (with_argv w args) candidates).
Proof.
  induction candidates as [| c candidates IH]; cbn [try_candidates];
    [apply blind_ret |].
  apply blind_bind; [apply blind_tryProtocVersion |].
  intros result. destruct result; blinding. exact IH.
Qed.

Lemma blind_system_candidate (w : world) (args : list string) :
  console_blind (system_candidate w) (system_candidate (with_argv w args)).
Proof.
  unfold system_candidate. rewrite execSync_argv, whichCmd_argv. blinding.
Qed.

Lemma blind_locateProtoc (w : world) (args : list string) :
  console_blind (locateProtoc w) (locateProtoc (with_argv w args)).
Proof.
  unfold locateProtoc. rewrite static_candidates_argv.
  change (env (with_argv w args)) with (env w).
  apply blind_bind; [apply blind_system_candidate |]. intros sys. cbv zeta.
  apply blind_bind; [apply blind_try_candidates |]. intros returned.
  blinding.
Qed.

Lemma blind_checkApple (w : world) (args : list string) :
  console_blind (checkAppleSiliconCompatibility w)
    (checkAppleSiliconCompatibility (with_argv w args)).
Proof.
  unfold checkAppleSiliconCompatibility. rewrite execSync_argv.
  change (platform (with_argv w args)) with (platform w).
  change (arch (with_argv w args)) with (arch w).
  blinding.
Qed.

Lemma blind_tsProtoc (w : world) (args : list string) (protoc outDir : string)
    (protoFiles protoOptions : list string) :
  console_blind (tsProtoc w protoc outDir protoFiles protoOptions)
    (tsProtoc (with_argv w args) protoc outDir protoFiles protoOptions).
Proof.
  unfold tsProtoc. cbv zeta. rewrite execSync_argv, tsProtoc_command_argv.
  blinding.
Qed.

Lemma blind_compileProtos (w : world) (args : list string) :
  console_blind (compileProtos w) (compileProtos (with_argv w args)).
Proof.
  unfold compileProtos.
  rewrite execSync_argv, descriptor_command_argv, fs_mkdir_argv.
  change (TS_OUT_DIR (with_argv w args)) with (TS_OUT_DIR w).
  change (GRPC_JS_OUT_DIR (with_argv w args)) with (GRPC_JS_OUT_DIR w).
  change (NICE_JS_OUT_DIR (with_argv w args)) with (NICE_JS_OUT_DIR w).
  change (DESCRIPTOR_OUT_DIR (with_argv w args)) with (DESCRIPTOR_OUT_DIR w).
  change (PROTO_DIR (with_argv w args)) with (PROTO_DIR w).
  change (globby (with_argv w args)) with (globby w).
  apply blind_bind; [apply blind_console_log |]. intros _.
  apply blind_bind; [apply blind_checkApple |]. intros _.
  apply blind_bind; [apply blind_locateProtoc |]. intros _.
  apply blind_bind; [apply blind_get |]. intros resolved.
  destruct resolved as [protoc |]; [| apply blind_ret].
  destruct (Js.falsy protoc); [apply blind_ret |].
  apply blind_bind; [blinding |]. intros _.
  apply blind_bind; [apply blind_glob |]. intros protoFiles.
  apply blind_bind; [apply blind_console_log |]. intros _.
  apply blind_bind; [apply blind_tsProtoc |]. intros _.
  apply blind_bind; [apply blind_tsProtoc |]. intros _.
  apply blind_bind; [apply blind_tsProtoc |]. intros _.
  blinding.
Qed.

Lemma blind_cleanup (w : world) (args : list string) :
  console_blind (cleanup w) (cleanup (with_argv w args)).
Proof.
  rewrite !cleanup_as_for_each. rewrite rmrf_argv.
  change (cleanup_paths (with_argv w args)) with (cleanup_paths w).
  blinding.
Qed.

Lemma blind_main (w : world) (args : list string) :
  console_blind (main w) (main (with_argv w args)).
Proof.
  unfold main. change (env (with_argv w args)) with (env w).
  destruct (bool_decide _); [apply blind_console_log |].
  apply blind_bind; [apply blind_cleanup |]. intros _.
  apply blind_bind; [apply blind_compileProtos |]. intros _.
  unfold generateProtoBusSetup, generateHostBridgeClient.
  change (protobus_setup_generator (with_argv w args))
    with (protobus_setup_generator w).
  change (host_bridge_client_generator (with_argv w args))
    with (host_bridge_client_generator w).
  blinding.
Qed.

Lemma blind_script (w : world) (args : list string) :
  console_blind (script w) (script (with_argv w args)).
Proof.
  unfold script. apply blind_try_catch; [apply blind_main |].
  intros e. blinding.
Qed.

(** ** Inputs are left alone *)

Lemma compileProtos_frame (w : world) (st : state) (p : string) :
  deterministic_tools w ->
  in_output w p = false ->
  files (outcome_state (compileProtos w st)) !! p = files st !! p.
Proof.
  intros tools Hp.
  destruct (LocalFacts.local_compileProtos w tools st)
    as (written & Hout & Hfiles & _).
  rewrite Hfiles, lookup_union.
  destruct (written !! p) as [v |] eqn:E.
  - rewrite (Hout p) in Hp by (rewrite E; eauto). discriminate.
  - now destruct (files st !! p).
Qed.

(** The toy compiler reads the schema and writes into the targets. *)
Lemma linux_world_tools : deterministic_tools linux_world.
Proof.
  split.
  - intros command a b Hagree. simpl. unfold toy_tool.
    assert (Hschema : a !! schema_path = b !! schema_path)
      by (apply Hagree; vm_compute; reflexivity).
    now rewrite Hschema.
  - intros command disk p [x Hx]. simpl in Hx. unfold toy_tool in Hx.
    repeat match type of Hx with
           | context [if ?c then _ else _] => destruct c
           end;
      simpl in Hx;
      first [ now rewrite lookup_empty in Hx
            | apply lookup_singleton_Some in Hx as [<- _];
              vm_compute; reflexivity ].
  - reflexivity.
  - reflexivity.
Qed.

End BuildMoreFacts.

Module BuildProperties.
Import BuildProto Vocabulary BuildVocabulary Examples MoreExamples BuildFacts
  TraceFacts LocateFacts BuildMoreFacts.

(** X9: [locateProtoc] takes the first candidate that works. Let the
    candidates, in the order PROTOC_PATH, bundled binary, binary on the
    PATH, be some broken ones, then [c], then any others, and let [c] pass
    its version check. Then [locateProtoc] returns with [c] resolved and
    its trimmed version output recorded, and the only child processes it
    has started are the where/which probe and the version checks of the
    broken candidates and of [c]: no later candidate is ever run. *)
Theorem first_working_candidate_wins (w : world) (st : state)
    (before : list string) (c version : string) (after : list string) :
  found_candidates w st = (before ++ c :: after)%list ->
  Forall (broken w) before ->
  working w c version ->
  exists st' probes,
    locateProtoc w st = Return tt st'
    /\ RESOLVED_PROTOC st' = Some c
    /\ RESOLVED_PROTOC_VERSION st' = Some version
    /\ execs st' = (execs st ++ probes)%list
    /\ map ev_command probes = locate_commands w (before ++ [c])
    /\ Forall (fun e => is_generation (ev_site e) = false) probes.
Proof. apply locateProtoc_first_working. Qed.

Lemma first_working_candidate_wins_witness :
  let st := initial_state toy_disk in
  found_candidates linux_world st
  = (["/repo/node_modules/grpc-tools/bin/protoc"] ++ "/usr/bin/protoc" :: [])%list
  /\ Forall (broken linux_world) ["/repo/node_modules/grpc-tools/bin/protoc"]
  /\ working linux_world "/usr/bin/protoc" "libprotoc 3.21.12"
  /\ exists st' probes,
       locateProtoc linux_world st = Return tt st'
       /\ RESOLVED_PROTOC st' = Some "/usr/bin/protoc"
       /\ RESOLVED_PROTOC_VERSION st' = Some "libprotoc 3.21.12"
       /\ execs st' = (execs st ++ probes)%list
       /\ map ev_command probes
          = locate_commands linux_world
              (["/repo/node_modules/grpc-tools/bin/protoc"] ++ ["/usr/bin/protoc"])
       /\ Forall (fun e => is_generation (ev_site e) = false) probes.
Proof.
  intros st.
  assert (Hfound : found_candidates linux_world st
                   = (["/repo/node_modules/grpc-tools/bin/protoc"]
                      ++ "/usr/bin/protoc" :: [])%list) by reflexivity.
  assert (Hbroken : Forall (broken linux_world)
                      ["/repo/node_modules/grpc-tools/bin/protoc"])
    by (repeat constructor; intros disk; left; reflexivity).
  assert (Hworking : working linux_world "/usr/bin/protoc" "libprotoc 3.21.12")
    by (split; [reflexivity | intros disk; split; reflexivity]).
  split; [exact Hfound |]. split; [exact Hbroken |]. split; [exact Hworking |].
  exact (first_working_candidate_wins linux_world st _ _ _ _
           Hfound Hbroken Hworking).
Defined.

(** X10: the PROTOC_PATH override has priority. On a POSIX machine, when
    PROTOC_PATH is an absolute path in normal form (so that [path.resolve]
    returns it as it is) whose binary passes the version check,
    [locateProtoc] resolves to that path, whatever the bundled binary and
    the PATH hold; the only child processes are the where/which probe and
    the version check of the override. *)
Theorem protoc_path_override_wins (w : world) (st : state)
    (override version : string) :
  isWindows w = false ->
  env w "PROTOC_PATH" = Some override ->
  normal_absolute override = true ->
  working w override version ->
  exists st',
    locateProtoc w st = Return tt st'
    /\ RESOLVED_PROTOC st' = Some override
    /\ RESOLVED_PROTOC_VERSION st' = Some version
    /\ map ev_command (execs st')
       = (map ev_command (execs st)
          ++ [whichCmd w; version_command override])%list.
Proof.
  intros _ Henv Hnormal Hworking.
  assert (Hshape : Js.truthy override = true
                   /\ path_resolve w override = override).
  { destruct override as [| c rest]; [discriminate |].
    cbn [normal_absolute] in Hnormal.
    apply andb_true_iff in Hnormal as [Hc _].
    apply Ascii.eqb_eq in Hc as ->. split; reflexivity. }
  destruct Hshape as [Htruthy Hresolve].
  assert (Hfound : exists after,
             found_candidates w st = ([] ++ override :: after)%list).
  { unfold found_candidates, static_candidates.
    rewrite Henv, Htruthy, Hresolve. eexists. cbn [app]. reflexivity. }
  destruct Hfound as [after Hfound].
  destruct (locateProtoc_first_working w st [] _ version after Hfound
              (List.Forall_nil _) Hworking)
    as (st' & probes & Hrun & Hres & Hver & Hex & Hcmd & _).
  exists st'. split; [exact Hrun |]. split; [exact Hres |].
  split; [exact Hver |]. rewrite Hex, map_app, Hcmd. reflexivity.
Qed.

Lemma protoc_path_override_wins_witness :
  let w := toy_world [("PROTOC_PATH", "/usr/bin/protoc")] toy_tool in
  isWindows w = false
  /\ env w "PROTOC_PATH" = Some "/usr/bin/protoc"
  /\ normal_absolute "/usr/bin/protoc" = true
  /\ working w "/usr/bin/protoc" "libprotoc 3.21.12"
  /\ exists st',
       locateProtoc w (initial_state toy_disk) = Return tt st'
       /\ RESOLVED_PROTOC st' = Some "/usr/bin/protoc".
Proof.
  intros w.
  assert (Henv : env w "PROTOC_PATH" = Some "/usr/bin/protoc") by reflexivity.
  assert (Hworking : working w "/usr/bin/protoc" "libprotoc 3.21.12")
    by (split; [reflexivity | intros disk; split; reflexivity]).
  split; [reflexivity |]. split; [exact Henv |]. split; [reflexivity |].
  split; [exact Hworking |].
  destruct (protoc_path_override_wins w (initial_state toy_disk)
              "/usr/bin/protoc" "libprotoc 3.21.12" eq_refl Henv eq_refl
              Hworking)
    as (st' & Hrun & Hres & _).
  exists st'. split; [exact Hrun | exact Hres].
Defined.

(** X11: [tryProtocVersion] never throws and never exits. It runs exactly
    one child process, the version check, prints nothing and leaves the
    resolved protoc alone. It answers ok exactly when the command succeeded
    and printed something besides white space, and then the version is the
    trimmed output; when the command failed the error is the one of
    [execSync], and when it printed only white space the error says
    "No version output". *)
Theorem tryProtocVersion_answers (w : world) (c : string) (st : state) :
  let r := tool w (version_command c) (files st) in
  exists result st',
    tryProtocVersion w c st = Return result st'
    /\ execs st'
       = (execs st ++ [ExecEvent VersionCheck (version_command c) (tool_ok r)])%list
    /\ console st' = console st
    /\ RESOLVED_PROTOC st' = RESOLVED_PROTOC st
    /\ match result with
       | VersionOk version =>
           tool_ok r = true
           /\ version = Js.trim (tool_stdout r)
           /\ version <> ""
       | VersionFailed e =>
           (tool_ok r = false
            /\ e = command_failed StderrKept (version_command c) (tool_stderr r))
           \/ (tool_ok r = true
               /\ Js.trim (tool_stdout r) = ""
               /\ e = JsError "No version output")
       end.
Proof.
  cbv zeta. rewrite tryProtocVersion_eq. cbv zeta.
  eexists. eexists. split; [reflexivity |].
  split; [reflexivity |]. split; [reflexivity |]. split; [reflexivity |].
  destruct (tool_ok _) eqn:Hok; [| now left].
  destruct (Js.trim _) as [| x out] eqn:Hout; simpl.
  - right. auto.
  - split; [reflexivity |]. split; [reflexivity | discriminate].
Qed.

(** X12: what [cleanup] leaves alone (with [rmrf] removing its target and
    what lies below it). In a checkout with an absolute working directory,
    [cleanup] always returns, starts no child process, and only deletes:
    a file present afterwards was there before with the same contents.
    Every file of the proto directory, and every file outside the paths
    passed to [rmrf], is kept as it was. *)
Theorem cleanup_keeps_sources (w : world) (st : state) :
  Js.starts_with "/" (cwd w) = true ->
  exists st',
    cleanup w st = Return tt st'
    /\ execs st' = execs st
    /\ RESOLVED_PROTOC st' = RESOLVED_PROTOC st
    /\ (forall p v, files st' !! p = Some v -> files st !! p = Some v)
    /\ (forall p, is_under (PROTO_DIR w) p = true ->
                  files st' !! p = files st !! p)
    /\ (forall p, cleaned_up w p = false -> files st' !! p = files st !! p).
Proof.
  intros Hcwd. rewrite cleanup_eq. eexists. split; [reflexivity |].
  cbn [with_files printed execs RESOLVED_PROTOC files].
  split; [reflexivity |]. split; [reflexivity |]. split; [| split].
  - intros p v. rewrite lookup_drop_paths. now destruct (cleaned_up w p).
  - intros p Hp. rewrite lookup_drop_paths.
    now rewrite (proto_dir_not_cleaned_up w p Hcwd Hp).
  - intros p Hp. rewrite lookup_drop_paths. now rewrite Hp.
Qed.

Lemma cleanup_keeps_sources_witness :
  Js.starts_with "/" (cwd linux_world) = true
  /\ exists st',
       cleanup linux_world (initial_state toy_disk) = Return tt st'
       /\ files st' !! schema_path = Some "service TaskService {}".
Proof.
  split; [reflexivity |].
  destruct (cleanup_keeps_sources linux_world (initial_state toy_disk) eq_refl)
    as (st' & Hrun & _ & _ & _ & Hproto & _).
  exists st'. split; [exact Hrun |].
  rewrite (Hproto schema_path); reflexivity.
Defined.

(** X13: a missing Rosetta stops the build before anything else is tried.
    On darwin with an arm64 processor, when the probe (run on the disk as
    [cleanup] leaves it) succeeds and prints NOT_INSTALLED, white space
    aside, a run that is not skipped exits with code 1; the probe is the
    only child process started, no protoc is resolved, and the last line
    printed says that the build is aborted. *)
Theorem rosetta_missing_aborts (w : world) (disk : fs) :
  env w "SKIP_PROTOS" <> Some "1" ->
  platform w = "darwin" ->
  arch w = "arm64" ->
  tool_ok (tool w rosetta_command (drop_paths (cleaned_up w) disk)) = true ->
  Js.trim (tool_stdout (tool w rosetta_command (drop_paths (cleaned_up w) disk)))
  = "NOT_INSTALLED" ->
  exists st',
    script w (initial_state disk) = Exit 1 st'
    /\ execs st' = [ExecEvent RosettaCheck rosetta_command true]
    /\ RESOLVED_PROTOC st' = None
    /\ last (console st') = Some (Line Stdout [Txt "Aborting build process."]).
Proof.
  intros Hskip Hplatform Harch Hok Hout.
  rewrite (script_unfold w disk Hskip), compileProtos_phases.
  unfold resolve_phase. rewrite bind_eq, console_log_eq, bind_eq, checkApple_eq.
  rewrite Hplatform, Harch. cbn [String.eqb Ascii.eqb Bool.eqb negb].
  destruct (cleaned_state_fresh w disk) as (Hexecs & Hres & Hfiles).
  cbv zeta. cbn [printed files]. rewrite Hfiles, Hok, Hout.
  cbn [String.eqb Ascii.eqb Bool.eqb]. cbn [finish].
  eexists. split; [reflexivity |].
  unfold printed, ran. cbv zeta.
  cbn [execs RESOLVED_PROTOC console files].
  rewrite Hexecs, Hres, Hfiles, Hok.
  split; [reflexivity |]. split; [reflexivity |].
  unfold rosetta_report.
  match goal with
  | |- last (?l ++ [?a; ?b; ?c; ?d; ?e])%list = _ =>
      change (l ++ [a; b; c; d; e])%list with (l ++ [a; b; c; d] ++ [e])%list;
      rewrite app_assoc; apply last_snoc
  end.
Qed.

Lemma rosetta_missing_aborts_witness :
  env mac_world "SKIP_PROTOS" <> Some "1"
  /\ platform mac_world = "darwin"
  /\ arch mac_world = "arm64"
  /\ exists st',
       script mac_world (initial_state toy_disk) = Exit 1 st'
       /\ execs st' = [ExecEvent RosettaCheck rosetta_command true].
Proof.
  assert (Hskip : env mac_world "SKIP_PROTOS" <> Some "1") by discriminate.
  split; [exact Hskip |]. split; [reflexivity |]. split; [reflexivity |].
  destruct (rosetta_missing_aborts mac_world toy_disk Hskip eq_refl eq_refl
              eq_refl eq_refl)
    as (st' & Hrun & Hexecs & _).
  exists st'. split; [exact Hrun | exact Hexecs].
Defined.

(** X14: the Rosetta check never throws, and it ends the process only when
    Rosetta is reported missing: if it exits, the code is 1, the platform
    is darwin, the processor arm64, and the probe succeeded and printed
    NOT_INSTALLED. In particular a probe that fails does not stop the
    build. On another platform or processor the check does nothing. *)
Theorem rosetta_check_outcomes (w : world) (st : state) :
  match checkAppleSiliconCompatibility w st with
  | Return _ st' =>
      platform w <> "darwin" \/ arch w <> "arm64" -> st' = st
  | Exit code _ =>
      code = 1
      /\ platform w = "darwin"
      /\ arch w = "arm64"
      /\ tool_ok (tool w rosetta_command (files st)) = true
      /\ Js.trim (tool_stdout (tool w rosetta_command (files st)))
         = "NOT_INSTALLED"
  | Throw _ _ => False
  end.
Proof.
  rewrite checkApple_eq.
  destruct (String.eqb_spec (platform w) "darwin") as [Hp | Hp]; cbn [negb].
  2:{ reflexivity. }
  destruct (String.eqb_spec (arch w) "arm64") as [Ha | Ha].
  2:{ reflexivity. }
  cbv zeta. destruct (tool_ok _) eqn:Hok.
  - destruct (String.eqb_spec (Js.trim (tool_stdout
                 (tool w rosetta_command (files st)))) "NOT_INSTALLED")
      as [Hout | Hout].
    + auto.
    + intros [H | H]; contradiction.
  - intros [H | H]; contradiction.
Qed.

(** X15: a directory that cannot be created. Take a run that is not
    skipped and in which a protoc has been resolved, and let [fs.mkdir]
    fail on one of the four output directories after succeeding on those
    before it. Then no proto file is looked for and no generating command
    is started: the error reaches the handler of [main], which prints it
    after Error: on stderr, and the process exits with code 1. *)
Theorem mkdir_failure_is_reported (w : world) (disk : fs) (st1 : state)
    (protoc : string) (before : list string) (dir : string)
    (after : list string) (e : js_error) :
  env w "SKIP_PROTOS" <> Some "1" ->
  resolve_phase w (cleaned_state w disk) = Return tt st1 ->
  RESOLVED_PROTOC st1 = Some protoc ->
  Js.truthy protoc = true ->
  output_dirs w = (before ++ dir :: after)%list ->
  Forall (fun d => mkdir_error w d (files st1) = None) before ->
  mkdir_error w dir (files st1) = Some e ->
  script w (initial_state disk)
  = Exit 1 (printed [Line Stderr [Txt "Error:"; Err e]] st1)
  /\ Forall (fun ev => is_generation (ev_site ev) = false) (execs st1).
Proof.
  intros Hskip Hresolve Hres Htruthy Hdirs Hbefore Hdir. split.
  - rewrite (script_unfold w disk Hskip), compileProtos_phases, Hresolve, Hres.
    unfold Js.truthy in Htruthy. apply negb_true_iff in Htruthy.
    rewrite Htruthy.
    rewrite (generate_phase_mkdir_failure w protoc before dir after e st1
               Hdirs Hbefore Hdir).
    reflexivity.
  - destruct (probes_resolve_phase w (cleaned_state w disk))
      as (probes & Hex & Hprobes).
    rewrite Hresolve in Hex. cbn [outcome_state] in Hex.
    destruct (cleaned_state_fresh w disk) as (Hexecs & _).
    rewrite Hexecs in Hex. now rewrite Hex.
Qed.

Lemma mkdir_failure_is_reported_witness :
  let w := readonly_world in
  let st1 := outcome_state (resolve_phase w (cleaned_state w toy_disk)) in
  env w "SKIP_PROTOS" <> Some "1"
  /\ resolve_phase w (cleaned_state w toy_disk) = Return tt st1
  /\ RESOLVED_PROTOC st1 = Some "/usr/bin/protoc"
  /\ output_dirs w
     = ([TS_OUT_DIR w] ++ GRPC_JS_OUT_DIR w
        :: [NICE_JS_OUT_DIR w; DESCRIPTOR_OUT_DIR w])%list
  /\ script w (initial_state toy_disk)
     = Exit 1 (printed [Line Stderr [Txt "Error:"; Err denied]] st1).
Proof.
  intros w st1.
  assert (Hskip : env w "SKIP_PROTOS" <> Some "1") by discriminate.
  assert (Hresolve : resolve_phase w (cleaned_state w toy_disk) = Return tt st1)
    by (vm_compute; reflexivity).
  assert (Hres : RESOLVED_PROTOC st1 = Some "/usr/bin/protoc")
    by (vm_compute; reflexivity).
  assert (Hdirs : output_dirs w
                  = ([TS_OUT_DIR w] ++ GRPC_JS_OUT_DIR w
                     :: [NICE_JS_OUT_DIR w; DESCRIPTOR_OUT_DIR w])%list)
    by reflexivity.
  assert (Hbefore : Forall (fun d => mkdir_error w d (files st1) = None)
                      [TS_OUT_DIR w])
    by (repeat constructor).
  assert (Hdir : mkdir_error w (GRPC_JS_OUT_DIR w) (files st1) = Some denied)
    by reflexivity.
  split; [exact Hskip |]. split; [exact Hresolve |]. split; [exact Hres |].
  split; [exact Hdirs |].
  exact (proj1 (mkdir_failure_is_reported w toy_disk st1 "/usr/bin/protoc"
                  _ _ _ denied Hskip Hresolve Hres eq_refl Hdirs Hbefore Hdir)).
Defined.

(** X16: the -v and --verbose flags change what is printed and nothing
    else. Run the script on the same machine and disk with any other
    command-line arguments: the exit code, the files left on disk, the
    child processes started, with their command lines and results, and the
    resolved protoc and version are the same. *)
Theorem verbosity_changes_console_only (w : world) (args : list string)
    (st : state) :
  let one := script w st in
  let other := script (with_argv w args) st in
  exit_code one = exit_code other
  /\ files (outcome_state one) = files (outcome_state other)
  /\ execs (outcome_state one) = execs (outcome_state other)
  /\ RESOLVED_PROTOC (outcome_state one) = RESOLVED_PROTOC (outcome_state other)
  /\ RESOLVED_PROTOC_VERSION (outcome_state one)
     = RESOLVED_PROTOC_VERSION (outcome_state other).
Proof.
  cbv zeta.
  pose proof (blind_script w args st st (same_but_console_refl st)) as H.
  split; [now apply same_outcome_exit_code |].
  now apply same_outcome_state in H.
Qed.

(** X17: the exit code of the script is 0 or 1, as long as the two
    imported generators do not call [process.exit] themselves: the script
    either returns or exits with code 1, and no exception leaves it. *)
Theorem script_exit_code_0_or_1 (w : world) (st : state) :
  never_exits (protobus_setup_generator w) ->
  never_exits (host_bridge_client_generator w) ->
  (exists st', script w st = Return tt st')
  \/ (exists st', script w st = Exit 1 st').
Proof.
  intros H1 H2. pose proof (exits_main w H1 H2 st) as Hexit.
  unfold script, try_catch.
  destruct (main w st) as [[] st' | code st' | e st'] eqn:E.
  - left. eauto.
  - right. rewrite (Hexit code st' eq_refl). eauto.
  - right. rewrite bind_eq, console_error_eq. eauto.
Qed.

Lemma script_exit_code_0_or_1_witness :
  never_exits (protobus_setup_generator linux_world)
  /\ never_exits (host_bridge_client_generator linux_world)
  /\ ((exists st', script linux_world (initial_state broken_disk) = Return tt st')
      \/ (exists st', script linux_world (initial_state broken_disk) = Exit 1 st')).
Proof.
  assert (H : never_exits idle_generator) by (intros disk code; discriminate).
  split; [exact H |]. split; [exact H |].
  exact (script_exit_code_0_or_1 linux_world (initial_state broken_disk) H H).
Defined.

(** X18: the candidate taken from the PATH is the first line that where or
    which prints. When the probe succeeds and its output starts with a
    non-empty line ended by a line feed or by a carriage return and a line
    feed, that line is the one system candidate, whatever follows it. *)
Theorem system_candidate_is_first_line (w : world) (st : state)
    (line sep more : string) :
  tool_ok (tool w (whichCmd w) (files st)) = true ->
  tool_stdout (tool w (whichCmd w) (files st)) = line +:+ sep +:+ more ->
  TextVocabulary.all_chars is_line_char line = true ->
  Js.truthy line = true ->
  line_end sep ->
  system_candidate w st = Return [line] (ran w WhichProtoc (whichCmd w) st)
  /\ found_candidates w st = (static_candidates w ++ [line])%list.
Proof.
  intros Hok Hout Hline Htruthy Hsep.
  pose proof (system_candidate_first_line w st line sep more
                Hok Hout Hline Htruthy Hsep) as H.
  split; [exact H |]. unfold found_candidates. now rewrite H.
Qed.

Lemma system_candidate_is_first_line_witness :
  let st := initial_state toy_disk in
  tool_stdout (tool windows_world (whichCmd windows_world) (files st))
  = "C:\tools\protoc.exe" +:+ (cr +:+ lf)
    +:+ ("C:\old\protoc.exe" +:+ cr +:+ lf)
  /\ line_end (cr +:+ lf)
  /\ found_candidates windows_world st = ["C:\tools\protoc.exe"].
Proof.
  intros st.
  assert (Hsep : line_end (cr +:+ lf)) by (right; reflexivity).
  split; [reflexivity |]. split; [exact Hsep |].
  exact (proj2 (system_candidate_is_first_line windows_world st
                  "C:\tools\protoc.exe" (cr +:+ lf)
                  ("C:\old\protoc.exe" +:+ cr +:+ lf)
                  eq_refl eq_refl eq_refl eq_refl Hsep)).
Defined.

(** X23: regenerating leaves the inputs alone. Let child processes,
    [fs.mkdir] and the glob depend on input files only and let child
    processes write into the four output directories only. Then after
    [cleanup] and [compileProtos], however the run ends, every file that is
    neither in an output directory nor at a path [cleanup] deletes is as it
    was before: same presence, same contents. *)
Theorem regenerate_leaves_inputs_alone (w : world) (disk : fs) (p : string) :
  deterministic_tools w ->
  generated w p = false ->
  files (outcome_state (regenerate w (initial_state disk))) !! p = disk !! p.
Proof.
  intros tools Hp. unfold generated in Hp.
  apply orb_false_iff in Hp as [Hclean Hout].
  unfold regenerate. rewrite bind_eq, cleaned_state_eq.
  rewrite (compileProtos_frame w _ p tools Hout).
  destruct (cleaned_state_fresh w disk) as (_ & _ & ->).
  now rewrite lookup_drop_paths, Hclean.
Qed.

Lemma regenerate_leaves_inputs_alone_witness :
  deterministic_tools linux_world
  /\ generated linux_world schema_path = false
  /\ files (outcome_state (regenerate linux_world (initial_state toy_disk)))
     !! schema_path
     = toy_disk !! schema_path.
Proof.
  assert (Hp : generated linux_world schema_path = false)
    by (vm_compute; reflexivity).
  split; [exact linux_world_tools |]. split; [exact Hp |].
  exact (regenerate_leaves_inputs_alone linux_world toy_disk schema_path
           linux_world_tools Hp).
Defined.

End BuildProperties.

(** * Properties of the alias resolution *)

Module RequiresProperties.
Import Requires.

Lemma index_variant_exists (n : node) (base name r : string) :
  index_variant n base name = Some r -> existsSync n r = true.
Proof.
  unfold index_variant. destruct (_ && _); [| discriminate]. cbv zeta.
  destruct (existsSync n (path_join n [base; name])) eqn:E; [| discriminate].
  now intros [= <-].
Qed.

Lemma tryFileVariants_exists (n : node) (base r : string) :
  tryFileVariants n base = Some r -> existsSync n r = true.
Proof.
  unfold tryFileVariants. cbv zeta.
  destruct (existsSync n (base +:+ ".js")) eqn:Ejs; [now intros [= <-] |].
  destruct (index_variant n base "index.js") eqn:Eijs.
  { intros [= <-]. eauto using index_variant_exists. }
  destruct (existsSync n (base +:+ ".ts")) eqn:Ets; [now intros [= <-] |].
  destruct (index_variant n base "index.ts") eqn:Eits; [| discriminate].
  intros [= <-]. eauto using index_variant_exists.
Qed.

Lemma starts_with_head (a : ascii) (pre p : string) :
  Js.starts_with (String a pre) p = true ->
  Js.starts_with (String a "") p = true.
Proof.
  destruct p as [| b p]; cbn [Js.starts_with]; [discriminate |].
  intros H. apply andb_true_iff in H as [-> _]. reflexivity.
Qed.

Lemma resolve_from_found (n : node) (aliases : list (string * string))
    (p r : string) :
  Forall (fun a : string * string => Js.starts_with "@" a.1 = true) aliases ->
  resolve_from n aliases p = Some r ->
  existsSync n r = true /\ Js.starts_with "@" p = true /\ r <> "".
Proof.
  induction 1 as [| [prefix target] aliases Hat _ IH]; cbn [resolve_from];
    [discriminate |].
  destruct (Js.starts_with prefix p) eqn:Ep; [| exact IH]. cbv zeta.
  assert (Hp : Js.starts_with "@" p = true).
  { cbn [fst] in Hat. destruct prefix as [| a prefix]; [discriminate Hat |].
    cbn [Js.starts_with] in Hat. apply andb_true_iff in Hat as [Ha _].
    apply Ascii.eqb_eq in Ha as <-. eapply starts_with_head; exact Ep. }
  destruct (Sanitizer.present (tryFileVariants n _)) eqn:E1.
  { intros H. split; [eauto using tryFileVariants_exists |]. split; [exact Hp |].
    rewrite H in E1. intros ->. discriminate. }
  destruct (Sanitizer.present (tryFileVariants n (path_join n [_; _]))) eqn:E2.
  { intros H. split; [eauto using tryFileVariants_exists |]. split; [exact Hp |].
    rewrite H in E2. intros ->. discriminate. }
  exact IH.
Qed.

(** X19: what [resolveAlias] returns is a file that exists. When it
    returns a path, [fs.existsSync] has answered true for that very path,
    the path is not empty, and the import started with an at sign; an
    import that does not start with an at sign resolves to null. *)
Theorem resolveAlias_returns_existing_file (n : node) (p r : string) :
  resolveAlias n p = Some r ->
  existsSync n r = true /\ Js.starts_with "@" p = true /\ r <> "".
Proof.
  apply resolve_from_found. repeat constructor.
Qed.

Lemma resolveAlias_returns_existing_file_witness :
  resolveAlias toy_node "@utils/path" = Some "/repo/out/unit/src/utils/path.js"
  /\ existsSync toy_node "/repo/out/unit/src/utils/path.js" = true
  /\ Js.starts_with "@" "@utils/path" = true
  /\ "/repo/out/unit/src/utils/path.js" <> "".
Proof.
  split; [reflexivity |].
  apply (resolveAlias_returns_existing_file toy_node "@utils/path"
           "/repo/out/unit/src/utils/path.js").
  reflexivity.
Defined.

(** X20: an aliased import is looked up under its one alias, compiled
    output first. For an import made of one of the ten alias prefixes and a
    rest, [resolveAlias] replaces the prefix by its target and returns what
    [tryFileVariants] finds for that path below out/unit of the working
    directory; failing that, what it finds below the working directory
    itself; failing that, null: no other alias applies to the import. *)
Theorem resolveAlias_compiled_then_source (n : node)
    (prefix target rest : string) :
  In (prefix, target) aliasPrefixes ->
  resolveAlias n (prefix +:+ rest) = lookup_order n (target +:+ rest).
Proof.
  intros Hin. unfold aliasPrefixes in Hin. simpl in Hin.
  repeat (destruct Hin as [[= <- <-] | Hin]; [vm_compute; reflexivity |]).
  destruct Hin.
Qed.

Lemma resolveAlias_compiled_then_source_witness :
  In ("@/", "src/") aliasPrefixes
  /\ resolveAlias toy_node ("@/" +:+ "core")
     = lookup_order toy_node ("src/" +:+ "core")
  /\ lookup_order toy_node ("src/" +:+ "core") = Some "/repo/src/core/index.ts".
Proof.
  assert (Hin : In ("@/", "src/") aliasPrefixes) by (left; reflexivity).
  split; [exact Hin |]. split; [| reflexivity].
  exact (resolveAlias_compiled_then_source toy_node "@/" "src/" "core" Hin).
Defined.

End RequiresProperties.
